(** * zuu fixed-capacity strings: a shallow embedding

    The repository holds three renditions of one container: the single-header
    [zuu::string] of constant_string.hpp, the split [zuu::string] of
    constant_string_core.hpp and [zuu::basic_fstring] of
    include/fstring_core.hpp, plus the algorithm and conversion layers built on
    the last one.  Character units are integers ([Z]); [std::size_t] is a
    64-bit unsigned integer whose wrap-around is written out; the inline array
    [data_[N + 1]] is a list of units together with the length counter. *)

From Stdlib Require Import ZArith List Lia Bool.
From Stdlib Require Uint63 Floats.
Import ListNotations.
Local Open Scope Z_scope.

(** ** [std::size_t] *)

Module SizeT.

Definition modulus : Z := 2 ^ 64.

(** [static_cast<size_type>(-1)] *)
Definition npos : Z := modulus - 1.

Definition wrap (z : Z) : Z := z mod modulus.
Definition add (a b : Z) : Z := wrap (a + b).
Definition sub (a b : Z) : Z := wrap (a - b).

(** [std::min(a, b)] is [(b < a) ? b : a]. *)
Definition min (a b : Z) : Z := if b <? a then b else a.

Definition in_range (z : Z) : Prop := 0 <= z < modulus.

End SizeT.

(** ** Buffers of character units *)

Definition unit_t := Z.

(** [d[i]]; the terminator value outside the list. *)
Definition get (d : list unit_t) (i : Z) : unit_t :=
  if (0 <=? i) && (i <? Z.of_nat (length d)) then nth (Z.to_nat i) d 0 else 0.

(** The array [d] with element [n] replaced. *)
Fixpoint upd {A : Type} (d : list A) (n : nat) (v : A) : list A :=
  match d, n with
  | [], _ => []
  | _ :: r, O => v :: r
  | x :: r, S n' => x :: upd r n' v
  end.

(** [d[i] = v].  A store outside the array is undefined behaviour in C++; the
    model leaves the array as it is. *)
Definition set (d : list unit_t) (i : Z) (v : unit_t) : list unit_t :=
  if (0 <=? i) && (i <? Z.of_nat (length d)) then upd d (Z.to_nat i) v else d.

(** [for (i = lo; i < hi; ++i) body], the state threaded through. *)
Fixpoint iter_up {S : Type} (n : nat) (i : Z) (body : Z -> S -> S) (s : S) : S :=
  match n with
  | O => s
  | Datatypes.S n' => iter_up n' (i + 1) body (body i s)
  end.

Definition for_range {S : Type} (lo hi : Z) (body : Z -> S -> S) (s : S) : S :=
  iter_up (Z.to_nat (hi - lo)) lo body s.

(** The object: the inline array and the length counter. *)
Record fixed_string : Type := mk_string { data_ : list unit_t; len_ : Z }.

(** Value-initialised members: [data_[N + 1]{}] and [len_ = 0]. *)
Definition value_init (N : Z) : fixed_string :=
  mk_string (repeat 0 (Z.to_nat (N + 1))) 0.

(** The significant units, [buffer[0, length)]. *)
Definition content (s : fixed_string) : list unit_t :=
  firstn (Z.to_nat (len_ s)) (data_ s).

(** The array has its declared extent. *)
Definition extent_ok (N : Z) (s : fixed_string) : Prop :=
  Z.of_nat (length (data_ s)) = N + 1.

(** Invariant I1: the terminator sits at [buffer[length]]. *)
Definition I1 (s : fixed_string) : Prop := get (data_ s) (len_ s) = 0.

(** Invariant I2: [length <= Capacity]. *)
Definition I2 (N : Z) (s : fixed_string) : Prop := 0 <= len_ s <= N.

Definition storage_ok (N : Z) (s : fixed_string) : Prop :=
  extent_ok N s /\ I2 N s /\ I1 s.

(** A capacity the array declaration [data_[N + 1]] can be written for. *)
Definition capacity_ok (N : Z) : Prop := 0 <= N < SizeT.npos.


(** [for (i = hi; i > lo; --i) body]. *)
Fixpoint iter_down {S : Type} (n : nat) (i : Z) (body : Z -> S -> S) (s : S) : S :=
  match n with
  | O => s
  | Datatypes.S n' => iter_down n' (i - 1) body (body i s)
  end.

Definition for_down {S : Type} (hi lo : Z) (body : Z -> S -> S) (s : S) : S :=
  iter_down (Z.to_nat (hi - lo)) hi body s.

(** [for (i = lo; i < hi && cond; ++i) body]: the loop is left as soon as the
    extra condition fails. *)
Fixpoint iter_while {S : Type} (n : nat) (i : Z)
  (cond : Z -> S -> bool) (body : Z -> S -> S) (s : S) : S :=
  match n with
  | O => s
  | Datatypes.S n' =>
      if cond i s then iter_while n' (i + 1) cond body (body i s) else s
  end.

Definition for_while {S : Type} (lo hi : Z)
  (cond : Z -> S -> bool) (body : Z -> S -> S) (s : S) : S :=
  iter_while (Z.to_nat (hi - lo)) lo cond body s.

(** What a bounds-checked access gives: the unit, or the
    [std::out_of_range] exception. *)
Inductive checked (A : Type) : Type :=
| Value (a : A)
| out_of_range.
Arguments Value {A} a.
Arguments out_of_range {A}.

(** ** constant_string.hpp *)

(** *** [namespace detail]

    A [const CharT*] argument is the list of units from the pointer on; the
    unit that follows the list is the terminator. *)
Module detail.

(** [while (str[len] != CharT{}) ++len;] *)
Fixpoint strlen_from (fuel : nat) (str : list unit_t) (len : Z) : Z :=
  match fuel with
  | O => len
  | S fuel' => if get str len =? 0 then len else strlen_from fuel' str (len + 1)
  end.

Definition strlen (str : list unit_t) : Z := strlen_from (length str) str 0.

(** [for (i = 0; i < len; ++i) { if (a[i] < b[i]) return -1; if (a[i] > b[i]) return 1; } return 0;] *)
Fixpoint strcmp_from (n : nat) (a b : list unit_t) (i : Z) : Z :=
  match n with
  | O => 0
  | S n' =>
      if get a i <? get b i then -1
      else if get b i <? get a i then 1
      else strcmp_from n' a b (i + 1)
  end.

Definition strcmp (a b : list unit_t) (len : Z) : Z :=
  strcmp_from (Z.to_nat len) a b 0.

(** [for (i = pos; i < len; ++i) if (str[i] == ch) return i;  return npos;] *)
Fixpoint find_char_from (n : nat) (str : list unit_t) (ch : unit_t) (i : Z) : Z :=
  match n with
  | O => SizeT.npos
  | S n' => if get str i =? ch then i else find_char_from n' str ch (i + 1)
  end.

Definition find_char (str : list unit_t) (len : Z) (ch : unit_t) (pos : Z) : Z :=
  find_char_from (Z.to_nat (len - pos)) str ch pos.

End detail.

(** *** [class string] of constant_string.hpp *)
Module ConstantString.

Section Class.

(** The template parameter [N]. *)
Variable N : Z.

(** [assign_impl(str, count)] *)
Definition assign_impl (this : fixed_string) (str : list unit_t) (count : Z) : fixed_string :=
  let len := if count <? N then count else N in
  let d := for_range 0 len (fun i d => set d i (get str i)) (data_ this) in
  mk_string (set d len 0) len.

(** [string()] *)
Definition default : fixed_string := value_init N.

(** [string(const CharT* str)] *)
Definition from_c_str (str : list unit_t) : fixed_string :=
  assign_impl default str (detail.strlen str).

(** [string(const CharT (&str)[M])]: the argument is the whole array, [M] units. *)
Definition from_array (str : list unit_t) : fixed_string :=
  let M := Z.of_nat (length str) in
  assign_impl default str (if 0 <? M then M - 1 else 0).

(** [string(size_type count, CharT ch)] *)
Definition from_fill (count : Z) (ch : unit_t) : fixed_string :=
  let len := if count <? N then count else N in
  let d := for_range 0 len (fun i d => set d i ch) (data_ default) in
  mk_string (set d len 0) len.

(** [string(const string<CharT, M>& other)] *)
Definition from_string (other : fixed_string) : fixed_string :=
  assign_impl default (data_ other) (len_ other).

(** [operator=(const CharT* str)] *)
Definition assign_c_str (this : fixed_string) (str : list unit_t) : fixed_string :=
  assign_impl this str (detail.strlen str).

(** [operator=(const string<CharT, M>& other)] *)
Definition assign_string (this other : fixed_string) : fixed_string :=
  assign_impl this (data_ other) (len_ other).

(** [at(pos)]: [if (pos >= len_) throw std::out_of_range(...); return data_[pos];] *)
Definition at_ (this : fixed_string) (pos : Z) : checked unit_t :=
  if len_ this <=? pos then out_of_range else Value (get (data_ this) pos).

(** [operator[](pos)] *)
Definition index (this : fixed_string) (pos : Z) : unit_t := get (data_ this) pos.

Definition empty (this : fixed_string) : bool := len_ this =? 0.
Definition length (this : fixed_string) : Z := len_ this.
Definition size (this : fixed_string) : Z := len_ this.
Definition capacity (this : fixed_string) : Z := N.
Definition max_size (this : fixed_string) : Z := N.

(** [clear()] *)
Definition clear (this : fixed_string) : fixed_string :=
  mk_string (set (data_ this) 0 0) 0.

(** [push_back(ch)]: the new object and the returned flag. *)
Definition push_back (this : fixed_string) (ch : unit_t) : fixed_string * bool :=
  if N <=? len_ this then (this, false)
  else
    let d := set (data_ this) (len_ this) ch in
    let len := SizeT.add (len_ this) 1 in
    (mk_string (set d len 0) len, true).

(** [pop_back()] *)
Definition pop_back (this : fixed_string) : fixed_string :=
  if 0 <? len_ this then
    let len := SizeT.sub (len_ this) 1 in
    mk_string (set (data_ this) len 0) len
  else this.

(** [append(const CharT* str, size_type count)]: the new object and the
    number of units added. *)
Definition append (this : fixed_string) (str : list unit_t) (count : Z) : fixed_string * Z :=
  let to_copy := SizeT.min count (SizeT.sub N (len_ this)) in
  let d := for_range 0 to_copy
             (fun i d => set d (SizeT.add (len_ this) i) (get str i)) (data_ this) in
  let len := SizeT.add (len_ this) to_copy in
  (mk_string (set d len 0) len, to_copy).

(** [append(const CharT* str)] *)
Definition append_c_str (this : fixed_string) (str : list unit_t) : fixed_string * Z :=
  append this str (detail.strlen str).

(** [append(const string<CharT, M>& other)] *)
Definition append_string (this other : fixed_string) : fixed_string * Z :=
  append this (data_ other) (len_ other).

(** [append(size_type count, CharT ch)] *)
Definition append_fill (this : fixed_string) (count : Z) (ch : unit_t) : fixed_string * Z :=
  let to_add := SizeT.min count (SizeT.sub N (len_ this)) in
  let d := for_range 0 to_add
             (fun i d => set d (SizeT.add (len_ this) i) ch) (data_ this) in
  let len := SizeT.add (len_ this) to_add in
  (mk_string (set d len 0) len, to_add).

(** [erase(pos, count)] *)
Definition erase (this : fixed_string) (pos count : Z) : fixed_string :=
  if len_ this <=? pos then this
  else
    let to_erase := SizeT.min count (SizeT.sub (len_ this) pos) in
    let new_len := SizeT.sub (len_ this) to_erase in
    let d := for_range pos new_len
               (fun i d => set d i (get d (SizeT.add i to_erase))) (data_ this) in
    mk_string (set d new_len 0) new_len.

(** [insert(pos, str, count)] for a source [str] that is an array apart from
    the object's own: the list is the source as it is throughout the call.
    [insert_from] below also takes a source inside [data_]. *)
Definition insert (this : fixed_string) (pos : Z) (str : list unit_t) (count : Z) : fixed_string :=
  if len_ this <? pos then this
  else
    let space := SizeT.sub N (len_ this) in
    let to_insert := SizeT.min count space in
    let d1 := for_down (len_ this) pos
                (fun i d =>
                   if SizeT.add i to_insert <=? N
                   then set d (SizeT.sub (SizeT.add i to_insert) 1) (get d (SizeT.sub i 1))
                   else d)
                (data_ this) in
    let d2 := for_while 0 to_insert
                (fun i _ => SizeT.add pos i <? N)
                (fun i d => set d (SizeT.add pos i) (get str i)) d1 in
    let len := SizeT.min (SizeT.add (len_ this) to_insert) N in
    mk_string (set d2 len 0) len.

(** [replace(pos, count, str, str_len)] for a source apart from the object's
    own array; [replace_from] below also takes a source inside [data_]. *)
Definition replace (this : fixed_string) (pos count : Z) (str : list unit_t) (str_len : Z)
  : fixed_string :=
  insert (erase this pos count) pos str str_len.

(** A [const CharT*] argument of a call on [*this]: an array apart from the
    object's own, or a place in the object's own array, [data_ + offset]. *)
Inductive source : Type :=
  | external (l : list unit_t)
  | internal (offset : Z).

(** [str[i]], read while the object's array holds [d]. *)
Definition read (d : list unit_t) (str : source) (i : Z) : unit_t :=
  match str with
  | external l => get l i
  | internal offset => get d (offset + i)
  end.

(** [insert(pos, str, count)] for any source: the second loop reads [str[i]]
    from the array as the first loop and its own earlier stores have left
    it. *)
Definition insert_from (this : fixed_string) (pos : Z) (str : source) (count : Z)
  : fixed_string :=
  if len_ this <? pos then this
  else
    let space := SizeT.sub N (len_ this) in
    let to_insert := SizeT.min count space in
    let d1 := for_down (len_ this) pos
                (fun i d =>
                   if SizeT.add i to_insert <=? N
                   then set d (SizeT.sub (SizeT.add i to_insert) 1) (get d (SizeT.sub i 1))
                   else d)
                (data_ this) in
    let d2 := for_while 0 to_insert
                (fun i _ => SizeT.add pos i <? N)
                (fun i d => set d (SizeT.add pos i) (read d str i)) d1 in
    let len := SizeT.min (SizeT.add (len_ this) to_insert) N in
    mk_string (set d2 len 0) len.

(** [replace(pos, count, str, str_len)] for any source: [insert] reads [str]
    after [erase] has moved the tail down. *)
Definition replace_from (this : fixed_string) (pos count : Z) (str : source) (str_len : Z)
  : fixed_string :=
  insert_from (erase this pos count) pos str str_len.

(** The inner loop of [find]: do the [str_len] units at [i] equal the needle? *)
Fixpoint match_from (n : nat) (d str : list unit_t) (i j : Z) : bool :=
  match n with
  | O => true
  | S n' =>
      if negb (get d (SizeT.add i j) =? get str j) then false
      else match_from n' d str i (j + 1)
  end.

(** The outer loop of [find], from [i] on. *)
Fixpoint find_from (n : nat) (d str : list unit_t) (str_len : Z) (i : Z) : Z :=
  match n with
  | O => SizeT.npos
  | S n' =>
      if match_from (Z.to_nat str_len) d str i 0 then i
      else find_from n' d str str_len (i + 1)
  end.

(** [find(const CharT* str, size_type pos)] *)
Definition find (this : fixed_string) (str : list unit_t) (pos : Z) : Z :=
  let str_len := detail.strlen str in
  if str_len =? 0 then (if pos <=? len_ this then pos else SizeT.npos)
  else if len_ this <? str_len then SizeT.npos
  else
    let last := SizeT.sub (len_ this) str_len in
    find_from (Z.to_nat (last + 1 - pos)) (data_ this) str str_len pos.

(** [find(const string<CharT, M>& str, size_type pos)] *)
Definition find_string (this str : fixed_string) (pos : Z) : Z :=
  find this (data_ str) pos.

(** [find(CharT ch, size_type pos)] *)
Definition find_unit (this : fixed_string) (ch : unit_t) (pos : Z) : Z :=
  detail.find_char (data_ this) (len_ this) ch pos.

(** [compare(const string<CharT, M>& other)] *)
Definition compare (this other : fixed_string) : Z :=
  let min_len := SizeT.min (len_ this) (len_ other) in
  let result := detail.strcmp (data_ this) (data_ other) min_len in
  if negb (result =? 0) then result
  else if len_ this <? len_ other then -1
  else if len_ other <? len_ this then 1
  else 0.

(** [compare(const CharT* str)] *)
Definition compare_c_str (this : fixed_string) (str : list unit_t) : Z :=
  let str_len := detail.strlen str in
  let min_len := SizeT.min (len_ this) str_len in
  let result := detail.strcmp (data_ this) str min_len in
  if negb (result =? 0) then result
  else if len_ this <? str_len then -1
  else if str_len <? len_ this then 1
  else 0.

(** [operator==(const string<CharT, M>& other)] *)
Definition op_eq (this other : fixed_string) : bool := compare this other =? 0.

(** [operator==(const CharT* str)] *)
Definition op_eq_c_str (this : fixed_string) (str : list unit_t) : bool :=
  compare_c_str this str =? 0.

(** [operator<=>(const string<CharT, M>& other)]; [std::strong_ordering] is
    [comparison]. *)
Definition op_spaceship (this other : fixed_string) : comparison :=
  let cmp := compare this other in
  if cmp <? 0 then Lt else if 0 <? cmp then Gt else Eq.

(** [a < b], [a <= b], [a > b], [a >= b], rewritten by the language from
    [operator<=>]. *)
Definition op_lt (this other : fixed_string) : bool :=
  match op_spaceship this other with Lt => true | _ => false end.
Definition op_le (this other : fixed_string) : bool :=
  match op_spaceship this other with Gt => false | _ => true end.
Definition op_gt (this other : fixed_string) : bool :=
  match op_spaceship this other with Gt => true | _ => false end.
Definition op_ge (this other : fixed_string) : bool :=
  match op_spaceship this other with Lt => false | _ => true end.

(** [front()] and [back()] *)
Definition front (this : fixed_string) : unit_t := get (data_ this) 0.
Definition back (this : fixed_string) : unit_t :=
  get (data_ this) (SizeT.sub (len_ this) 1).

(** [operator+=(CharT ch)] *)
Definition op_add_assign_unit (this : fixed_string) (ch : unit_t) : fixed_string :=
  fst (push_back this ch).

(** [reverse()]: [for (i = 0; i < len_ / 2; ++i) { tmp = data_[i];
    data_[i] = data_[len_ - 1 - i]; data_[len_ - 1 - i] = tmp; }] *)
Definition reverse (this : fixed_string) : fixed_string :=
  let d := for_range 0 (len_ this / 2)
             (fun i d =>
                let j := SizeT.sub (SizeT.sub (len_ this) 1) i in
                let tmp := get d i in
                let d := set d i (get d j) in
                set d j tmp)
             (data_ this) in
  mk_string d (len_ this).

(** [to_upper()]: [if (data_[i] >= 'a' && data_[i] <= 'z') data_[i] -= 32;] *)
Definition to_upper (this : fixed_string) : fixed_string :=
  let d := for_range 0 (len_ this)
             (fun i d =>
                if (97 <=? get d i) && (get d i <=? 122) then set d i (get d i - 32) else d)
             (data_ this) in
  mk_string d (len_ this).

(** [to_lower()]: [if (data_[i] >= 'A' && data_[i] <= 'Z') data_[i] += 32;] *)
Definition to_lower (this : fixed_string) : fixed_string :=
  let d := for_range 0 (len_ this)
             (fun i d =>
                if (65 <=? get d i) && (get d i <=? 90) then set d i (get d i + 32) else d)
             (data_ this) in
  mk_string d (len_ this).

(** The test both loops of [trim] apply to a unit:
    [ch == ' ' || ch == '\t' || ch == '\n' || ch == '\r']. *)
Definition trim_space (ch : unit_t) : bool :=
  (ch =? 32) || (ch =? 9) || (ch =? 10) || (ch =? 13).

(** [while (start < len_ && (data_[start] == ' ' || ...)) ++start;] *)
Fixpoint trim_start (fuel : nat) (d : list unit_t) (len start : Z) : Z :=
  match fuel with
  | O => start
  | S fuel' =>
      if (start <? len) && trim_space (get d start)
      then trim_start fuel' d len (start + 1)
      else start
  end.

(** [while (end > start && (data_[end - 1] == ' ' || ...)) --end;] *)
Fixpoint trim_end (fuel : nat) (d : list unit_t) (start end_ : Z) : Z :=
  match fuel with
  | O => end_
  | S fuel' =>
      if (start <? end_) && trim_space (get d (end_ - 1))
      then trim_end fuel' d start (end_ - 1)
      else end_
  end.

(** [trim()] *)
Definition trim (this : fixed_string) : fixed_string :=
  let start := trim_start (Z.to_nat (len_ this)) (data_ this) (len_ this) 0 in
  let end_ := trim_end (Z.to_nat (len_ this)) (data_ this) start (len_ this) in
  if (0 <? start) || (end_ <? len_ this) then
    let len := SizeT.sub end_ start in
    let d := for_range 0 len
               (fun i d => set d i (get d (SizeT.add start i))) (data_ this) in
    mk_string (set d len 0) len
  else this.

(** The loop of [rfind]: [for (i = start + 1; i > 0; --i)
    if (data_[i - 1] == ch) return i - 1;  return npos;] *)
Fixpoint rfind_from (n : nat) (d : list unit_t) (ch : unit_t) (i : Z) : Z :=
  match n with
  | O => SizeT.npos
  | S n' => if get d (i - 1) =? ch then i - 1 else rfind_from n' d ch (i - 1)
  end.

(** [rfind(CharT ch, size_type pos)] *)
Definition rfind (this : fixed_string) (ch : unit_t) (pos : Z) : Z :=
  if len_ this =? 0 then SizeT.npos
  else
    let start := if len_ this <=? pos then SizeT.sub (len_ this) 1 else pos in
    rfind_from (Z.to_nat (SizeT.add start 1)) (data_ this) ch (SizeT.add start 1).

(** [for (i = 0; i < len; ++i) if (data_[off + i] != str[i]) return false;
    return true;], the loop of [starts_with] ([off] is [0]) and of
    [ends_with] ([off] is [len_ - suffix_len]). *)
Fixpoint same_units (n : nat) (d str : list unit_t) (off i : Z) : bool :=
  match n with
  | O => true
  | S n' =>
      if negb (get d (SizeT.add off i) =? get str i) then false
      else same_units n' d str off (i + 1)
  end.

(** [starts_with(const CharT* prefix)] *)
Definition starts_with (this : fixed_string) (prefix : list unit_t) : bool :=
  let prefix_len := detail.strlen prefix in
  if len_ this <? prefix_len then false
  else same_units (Z.to_nat prefix_len) (data_ this) prefix 0 0.

(** [starts_with(CharT ch)] *)
Definition starts_with_unit (this : fixed_string) (ch : unit_t) : bool :=
  (0 <? len_ this) && (get (data_ this) 0 =? ch).

(** [ends_with(const CharT* suffix)] *)
Definition ends_with (this : fixed_string) (suffix : list unit_t) : bool :=
  let suffix_len := detail.strlen suffix in
  if len_ this <? suffix_len then false
  else same_units (Z.to_nat suffix_len) (data_ this) suffix
         (SizeT.sub (len_ this) suffix_len) 0.

(** [ends_with(CharT ch)] *)
Definition ends_with_unit (this : fixed_string) (ch : unit_t) : bool :=
  (0 <? len_ this) && (get (data_ this) (SizeT.sub (len_ this) 1) =? ch).

(** [contains(const CharT* str)] and [contains(CharT ch)] *)
Definition contains (this : fixed_string) (str : list unit_t) : bool :=
  negb (find this str 0 =? SizeT.npos).
Definition contains_unit (this : fixed_string) (ch : unit_t) : bool :=
  negb (find_unit this ch 0 =? SizeT.npos).

(** [count(CharT ch)] *)
Definition count (this : fixed_string) (ch : unit_t) : Z :=
  for_range 0 (len_ this)
    (fun i result => if get (data_ this) i =? ch then SizeT.add result 1 else result) 0.

(** [substr(pos, count)], a string of the same capacity. *)
Definition substr (this : fixed_string) (pos count : Z) : fixed_string :=
  let result := default in
  if len_ this <=? pos then result
  else
    let actual_count := SizeT.min count (SizeT.sub (len_ this) pos) in
    let d := for_while 0 actual_count
               (fun i _ => i <? N)
               (fun i d => set d i (get (data_ this) (SizeT.add pos i))) (data_ result) in
    let len := SizeT.min actual_count N in
    mk_string (set d len 0) len.

(** [hash()], FNV-1a over [std::size_t]:
    [h ^= static_cast<std::size_t>(data_[i]); h *= 1099511628211ULL;] *)
Definition hash (this : fixed_string) : Z :=
  for_range 0 (len_ this)
    (fun i h =>
       SizeT.wrap (Z.lxor h (SizeT.wrap (get (data_ this) i)) * 1099511628211))
    14695981039346656037.

(** [reversed(str)], [to_upper(str)], [to_lower(str)] and [trimmed(str)] copy
    the argument and apply the member function to the copy. *)
Definition reversed (str : fixed_string) : fixed_string := reverse str.
Definition to_upper_copy (str : fixed_string) : fixed_string := to_upper str.
Definition to_lower_copy (str : fixed_string) : fixed_string := to_lower str.
Definition trimmed (str : fixed_string) : fixed_string := trim str.

End Class.

(** [concat(a, b)], of capacity [N1 + N2]; [operator+] returns it. *)
Definition concat (N1 N2 : Z) (a b : fixed_string) : fixed_string :=
  let N := SizeT.add N1 N2 in
  let result := default N in
  let result := fst (append_string N result a) in
  fst (append_string N result b).

Definition op_add (N1 N2 : Z) (a b : fixed_string) : fixed_string := concat N1 N2 a b.

(** [substr<NewN>(str, pos, count)], a string of capacity [NewN]. *)
Definition substr_to (NewN : Z) (str : fixed_string) (pos count : Z) : fixed_string :=
  let result := default NewN in
  if pos <? length str then
    let actual := SizeT.min count (SizeT.sub (length str) pos) in
    let actual := SizeT.min actual NewN in
    for_range 0 actual
      (fun i result => fst (push_back NewN result (index str (SizeT.add pos i)))) result
  else result.

End ConstantString.

(** ** constant_string_core.hpp *)

(** *** [namespace detail] of constant_string_detail.hpp

    Pointers into an object's array are offsets into its list. *)
Module core_detail.

(** Modelled from the spec: constant_string_detail.hpp is not among the
    sources.  [strlen] counts the units before the terminator, as
    [detail::strlen] of constant_string.hpp does. *)
Definition strlen (str : list unit_t) : Z := detail.strlen str.

(** Modelled from the spec: constant_string_detail.hpp is not among the
    sources.  [memcpy_string(dst, src, n)] copies the [n] units
    [src[0, n)] to [dst[0, n)] ("copies as many source units as available
    space allows" once the caller has clamped [n]); [dst] is the array [d]
    from offset [off] on. *)
Definition memcpy_string (d : list unit_t) (off : Z) (src : list unit_t) (n : Z)
  : list unit_t :=
  for_range 0 n (fun i d => set d (off + i) (get src i)) d.

(** Modelled from the spec: constant_string_detail.hpp is not among the
    sources.  [memset_string(dst, ch, n)] stores [ch] in the [n] units
    [dst[0, n)] ("fills the new tail with fillUnit"). *)
Definition memset_string (d : list unit_t) (off : Z) (ch : unit_t) (n : Z)
  : list unit_t :=
  for_range 0 n (fun i d => set d (off + i) ch) d.

(** Modelled from the spec: constant_string_detail.hpp is not among the
    sources.  [memmove_string(dst, src, n)] moves [n] units inside one array
    (the "right-shift" and "left-shift of the tail"): afterwards [dst[i]]
    holds what [src[i]] held before the call, overlapping or not. *)
Definition memmove_string (d : list unit_t) (dst src n : Z) : list unit_t :=
  for_range 0 n (fun i e => set e (dst + i) (get d (src + i))) d.

End core_detail.

(** *** [class string] of constant_string_core.hpp

    A [const CharT*] parameter that the code tests against [nullptr] is an
    [option]: [None] is the null pointer. *)
Module Core.

Section Class.

(** The template parameter [N]. *)
Variable N : Z.

(** [assign_impl(str, count)] *)
Definition assign_impl (this : fixed_string) (str : list unit_t) (count : Z) : fixed_string :=
  let len := if count <? N then count else N in
  let d := core_detail.memcpy_string (data_ this) 0 str len in
  mk_string (set d len 0) len.

(** [string()] *)
Definition default : fixed_string := value_init N.

(** [string(const CharT* str)] *)
Definition from_c_str (str : option (list unit_t)) : fixed_string :=
  match str with
  | Some str => assign_impl default str (core_detail.strlen str)
  | None => default
  end.

(** [string(const CharT (&str)[M])]: the argument is the whole array, [M] units. *)
Definition from_array (str : list unit_t) : fixed_string :=
  let M := Z.of_nat (length str) in
  assign_impl default str (if 0 <? M then M - 1 else 0).

(** [string(size_type count, CharT ch)] *)
Definition from_fill (count : Z) (ch : unit_t) : fixed_string :=
  let len := if count <? N then count else N in
  let d := core_detail.memset_string (data_ default) 0 ch len in
  mk_string (set d len 0) len.

(** [string(const string<CharT, M>& other)] *)
Definition from_string (other : fixed_string) : fixed_string :=
  assign_impl default (data_ other) (len_ other).

(** [string(const CharT* str, size_type pos, size_type count)] *)
Definition from_substring (str : option (list unit_t)) (pos count : Z) : fixed_string :=
  match str with
  | Some str =>
      let str_len := core_detail.strlen str in
      if pos <? str_len then
        let actual := if count =? SizeT.npos then SizeT.sub str_len pos else count in
        assign_impl default (skipn (Z.to_nat pos) str) actual
      else default
  | None => default
  end.

(** [clear()] *)
Definition clear (this : fixed_string) : fixed_string :=
  mk_string (set (data_ this) 0 0) 0.

(** [operator=(const CharT* str)] *)
Definition assign_c_str (this : fixed_string) (str : option (list unit_t)) : fixed_string :=
  match str with
  | Some str => assign_impl this str (core_detail.strlen str)
  | None => clear this
  end.

(** [operator=(const string<CharT, M>& other)] *)
Definition assign_string (this other : fixed_string) : fixed_string :=
  assign_impl this (data_ other) (len_ other).

(** [operator=(CharT ch)]: [len_ = 1; data_[0] = ch; data_[1] = CharT{};] *)
Definition assign_unit (this : fixed_string) (ch : unit_t) : fixed_string :=
  mk_string (set (set (data_ this) 0 ch) 1 0) 1.

(** [at(pos)] *)
Definition at_ (this : fixed_string) (pos : Z) : checked unit_t :=
  if len_ this <=? pos then out_of_range else Value (get (data_ this) pos).

(** [operator[](pos)] *)
Definition index (this : fixed_string) (pos : Z) : unit_t := get (data_ this) pos.

(** [front()] and [back()] *)
Definition front (this : fixed_string) : unit_t := get (data_ this) 0.
Definition back (this : fixed_string) : unit_t :=
  get (data_ this) (if 0 <? len_ this then SizeT.sub (len_ this) 1 else 0).

Definition empty (this : fixed_string) : bool := len_ this =? 0.
Definition length (this : fixed_string) : Z := len_ this.
Definition size (this : fixed_string) : Z := len_ this.
Definition capacity (this : fixed_string) : Z := N.
Definition max_size (this : fixed_string) : Z := N.
Definition available (this : fixed_string) : Z := SizeT.sub N (len_ this).

(** [push_back(ch)] *)
Definition push_back (this : fixed_string) (ch : unit_t) : fixed_string * bool :=
  if N <=? len_ this then (this, false)
  else
    let d := set (data_ this) (len_ this) ch in
    let len := SizeT.add (len_ this) 1 in
    (mk_string (set d len 0) len, true).

(** [pop_back()] *)
Definition pop_back (this : fixed_string) : fixed_string :=
  if 0 <? len_ this then
    let len := SizeT.sub (len_ this) 1 in
    mk_string (set (data_ this) len 0) len
  else this.

(** [append(const CharT* str, size_type count)]: the new object and the
    returned number of units added. *)
Definition append (this : fixed_string) (str : option (list unit_t)) (count : Z)
  : fixed_string * Z :=
  match str with
  | None => (this, 0)
  | Some str =>
      if (count =? 0) || (N <=? len_ this) then (this, 0)
      else
        let to_copy := SizeT.min count (SizeT.sub N (len_ this)) in
        let d := core_detail.memcpy_string (data_ this) (len_ this) str to_copy in
        let len := SizeT.add (len_ this) to_copy in
        (mk_string (set d len 0) len, to_copy)
  end.

(** [append(const CharT* str)] *)
Definition append_c_str (this : fixed_string) (str : option (list unit_t)) : fixed_string * Z :=
  match str with
  | Some s => append this str (core_detail.strlen s)
  | None => (this, 0)
  end.

(** [append(const string<CharT, M>& other)] *)
Definition append_string (this other : fixed_string) : fixed_string * Z :=
  append this (Some (data_ other)) (len_ other).

(** [append(size_type count, CharT ch)] *)
Definition append_fill (this : fixed_string) (count : Z) (ch : unit_t) : fixed_string * Z :=
  if (count =? 0) || (N <=? len_ this) then (this, 0)
  else
    let to_add := SizeT.min count (SizeT.sub N (len_ this)) in
    let d := core_detail.memset_string (data_ this) (len_ this) ch to_add in
    let len := SizeT.add (len_ this) to_add in
    (mk_string (set d len 0) len, to_add).

(** [operator+=]: the three overloads drop the count. *)
Definition op_add_assign_string (this other : fixed_string) : fixed_string :=
  fst (append_string this other).
Definition op_add_assign_c_str (this : fixed_string) (str : option (list unit_t)) : fixed_string :=
  fst (append_c_str this str).
Definition op_add_assign_unit (this : fixed_string) (ch : unit_t) : fixed_string :=
  fst (push_back this ch).

(** [insert(pos, str, count)]; a source that is not null is an array apart
    from the object's own. *)
Definition insert (this : fixed_string) (pos : Z) (str : option (list unit_t)) (count : Z)
  : fixed_string :=
  match str with
  | None => this
  | Some str =>
      if (len_ this <? pos) || (count =? 0) || (N <=? len_ this) then this
      else
        let space := SizeT.sub N (len_ this) in
        let to_insert := SizeT.min count space in
        let to_move := SizeT.sub (len_ this) pos in
        let d1 := if 0 <? to_move
                  then core_detail.memmove_string (data_ this) (pos + to_insert) pos to_move
                  else data_ this in
        let d2 := core_detail.memcpy_string d1 pos str to_insert in
        let len := SizeT.min (SizeT.add (len_ this) to_insert) N in
        mk_string (set d2 len 0) len
  end.

(** [insert(pos, const CharT* str)] *)
Definition insert_c_str (this : fixed_string) (pos : Z) (str : option (list unit_t)) : fixed_string :=
  match str with
  | Some s => insert this pos str (core_detail.strlen s)
  | None => this
  end.

(** [insert(pos, const string<CharT, M>& str)] *)
Definition insert_string (this : fixed_string) (pos : Z) (str : fixed_string) : fixed_string :=
  insert this pos (Some (data_ str)) (len_ str).

(** [insert(pos, count, ch)] *)
Definition insert_fill (this : fixed_string) (pos count : Z) (ch : unit_t) : fixed_string :=
  if (len_ this <? pos) || (count =? 0) || (N <=? len_ this) then this
  else
    let space := SizeT.sub N (len_ this) in
    let to_insert := SizeT.min count space in
    let to_move := SizeT.sub (len_ this) pos in
    let d1 := if 0 <? to_move
              then core_detail.memmove_string (data_ this) (pos + to_insert) pos to_move
              else data_ this in
    let d2 := core_detail.memset_string d1 pos ch to_insert in
    let len := SizeT.min (SizeT.add (len_ this) to_insert) N in
    mk_string (set d2 len 0) len.

(** [erase(pos, count)] *)
Definition erase (this : fixed_string) (pos count : Z) : fixed_string :=
  if len_ this <=? pos then this
  else
    let to_erase := SizeT.min count (SizeT.sub (len_ this) pos) in
    let new_len := SizeT.sub (len_ this) to_erase in
    let to_move := SizeT.sub (len_ this) (SizeT.add pos to_erase) in
    let d := if 0 <? to_move
             then core_detail.memmove_string (data_ this) pos (pos + to_erase) to_move
             else data_ this in
    mk_string (set d new_len 0) new_len.

(** [replace(pos, count, str, str_len)]; a source that is not null is an
    array apart from the object's own. *)
Definition replace (this : fixed_string) (pos count : Z) (str : option (list unit_t)) (str_len : Z)
  : fixed_string :=
  match str with
  | None => this
  | Some _ =>
      if len_ this <? pos then this
      else insert (erase this pos count) pos str str_len
  end.

(** [replace(pos, count, const CharT* str)] *)
Definition replace_c_str (this : fixed_string) (pos count : Z) (str : option (list unit_t))
  : fixed_string :=
  match str with
  | Some s => replace this pos count str (core_detail.strlen s)
  | None => this
  end.

(** [replace(pos, count, const string<CharT, M>& str)] *)
Definition replace_string (this : fixed_string) (pos count : Z) (str : fixed_string)
  : fixed_string :=
  replace this pos count (Some (data_ str)) (len_ str).

(** [resize(count, ch)] *)
Definition resize (this : fixed_string) (count : Z) (ch : unit_t) : fixed_string :=
  let count := if N <? count then N else count in
  let d := if len_ this <? count
           then core_detail.memset_string (data_ this) (len_ this) ch
                  (SizeT.sub count (len_ this))
           else data_ this in
  mk_string (set d count 0) count.

(** [swap(other)]: [temp = *this; *this = other; other = temp;] gives the pair
    of the new [*this] and the new [other]. *)
Definition swap (this other : fixed_string) : fixed_string * fixed_string :=
  let temp := this in
  let this' := other in
  let other' := temp in
  (this', other').

(** [reverse()]: [for (i = 0; i < len_ / 2; ++i) { tmp = data_[i];
    data_[i] = data_[len_ - 1 - i]; data_[len_ - 1 - i] = tmp; }] *)
Definition reverse (this : fixed_string) : fixed_string :=
  let d := for_range 0 (len_ this / 2)
             (fun i d =>
                let j := SizeT.sub (SizeT.sub (len_ this) 1) i in
                let tmp := get d i in
                let d := set d i (get d j) in
                set d j tmp)
             (data_ this) in
  mk_string d (len_ this).

(** The public operations that change the object, with their arguments. *)
Inductive operation : Type :=
| op_assign_c_str (str : option (list unit_t))
| op_assign_string (other : fixed_string)
| op_assign_unit (ch : unit_t)
| op_clear
| op_push_back (ch : unit_t)
| op_pop_back
| op_append (str : option (list unit_t)) (count : Z)
| op_append_c_str (str : option (list unit_t))
| op_append_string (other : fixed_string)
| op_append_fill (count : Z) (ch : unit_t)
| op_insert (pos : Z) (str : option (list unit_t)) (count : Z)
| op_insert_c_str (pos : Z) (str : option (list unit_t))
| op_insert_string (pos : Z) (str : fixed_string)
| op_insert_fill (pos count : Z) (ch : unit_t)
| op_erase (pos count : Z)
| op_replace (pos count : Z) (str : option (list unit_t)) (str_len : Z)
| op_replace_c_str (pos count : Z) (str : option (list unit_t))
| op_replace_string (pos count : Z) (str : fixed_string)
| op_resize (count : Z) (ch : unit_t)
| op_swap (other : fixed_string).

(** The object an operation leaves behind. *)
Definition run (op : operation) (this : fixed_string) : fixed_string :=
  match op with
  | op_assign_c_str str => assign_c_str this str
  | op_assign_string other => assign_string this other
  | op_assign_unit ch => assign_unit this ch
  | op_clear => clear this
  | op_push_back ch => fst (push_back this ch)
  | op_pop_back => pop_back this
  | op_append str count => fst (append this str count)
  | op_append_c_str str => fst (append_c_str this str)
  | op_append_string other => fst (append_string this other)
  | op_append_fill count ch => fst (append_fill this count ch)
  | op_insert pos str count => insert this pos str count
  | op_insert_c_str pos str => insert_c_str this pos str
  | op_insert_string pos str => insert_string this pos str
  | op_insert_fill pos count ch => insert_fill this pos count ch
  | op_erase pos count => erase this pos count
  | op_replace pos count str str_len => replace this pos count str str_len
  | op_replace_c_str pos count str => replace_c_str this pos count str
  | op_replace_string pos count str => replace_string this pos count str
  | op_resize count ch => resize this count ch
  | op_swap other => fst (swap this other)
  end.

(** The arguments are values of their C++ types: every [size_type] argument
    is a [std::size_t], a string argument of the same type satisfies the
    storage invariants, one of another capacity has a length that is a
    [std::size_t]. *)
Definition arguments_ok (op : operation) : Prop :=
  match op with
  | op_assign_c_str _ | op_assign_unit _ | op_clear | op_push_back _ | op_pop_back
  | op_append_c_str _ => True
  | op_assign_string other | op_append_string other => SizeT.in_range (len_ other)
  | op_append _ count | op_append_fill count _ | op_resize count _ => SizeT.in_range count
  | op_insert pos _ count | op_insert_fill pos count _ | op_erase pos count
  | op_replace_c_str pos count _ =>
      SizeT.in_range pos /\ SizeT.in_range count
  | op_insert_c_str pos _ => SizeT.in_range pos
  | op_insert_string pos str => SizeT.in_range pos /\ SizeT.in_range (len_ str)
  | op_replace pos count _ str_len =>
      SizeT.in_range pos /\ SizeT.in_range count /\ SizeT.in_range str_len
  | op_replace_string pos count str =>
      SizeT.in_range pos /\ SizeT.in_range count /\ SizeT.in_range (len_ str)
  | op_swap other => storage_ok N other
  end.

End Class.

End Core.

(** ** include/fstring_config.hpp *)
Module config.

(** [constexpr bool enable_bounds_check = true;] unless the build defines
    [FSTRING_DISABLE_BOUNDS_CHECK]; nothing in the repository defines it. *)
Definition enable_bounds_check : bool := true.

End config.

(** ** include/fstring_core.hpp *)

(** *** [namespace detail] of fstring_utils.hpp *)
Module fs_detail.

(** Modelled from the spec: fstring_utils.hpp is not among the sources.
    [detail::min{}(a, b)] is the smaller of the two ("clamps"). *)
Definition min (a b : Z) : Z := if b <? a then b else a.

(** Modelled from the spec: fstring_utils.hpp is not among the sources.
    [detail::length(str)] counts the units before the terminator. *)
Definition length (str : list unit_t) : Z := detail.strlen str.

(** Modelled from the spec: fstring_utils.hpp is not among the sources.
    [detail::copy{}(dst, src, n)] copies the [n] units [src[0, n)] to
    [dst[0, n)]; [dst] is the array [d] from offset [off] on. *)
Definition copy (d : list unit_t) (off : Z) (src : list unit_t) (n : Z) : list unit_t :=
  for_range 0 n (fun i d => set d (off + i) (get src i)) d.

(** Modelled from the spec: fstring_utils.hpp is not among the sources.
    [detail::move{}(dst, src, n)] moves [n] units inside one array, overlapping
    or not ("right-shift", "left-shift of the tail"). *)
Definition move (d : list unit_t) (dst src n : Z) : list unit_t :=
  for_range 0 n (fun i e => set e (dst + i) (get d (src + i))) d.

(** Modelled from the spec: fstring_utils.hpp is not among the sources.
    [detail::fill{}(dst, ch, n)] stores [ch] in the [n] units [dst[0, n)]. *)
Definition fill (d : list unit_t) (off : Z) (ch : unit_t) (n : Z) : list unit_t :=
  for_range 0 n (fun i d => set d (off + i) ch) d.

(** Modelled from the spec: fstring_utils.hpp is not among the sources.
    [detail::compare{}(a, b, n)] compares "unit-by-unit" over [n] units and
    returns a "signed tri-state (negative/zero/positive)"; the callers only
    test it against zero. *)
Definition compare (a b : list unit_t) (n : Z) : Z := detail.strcmp a b n.

(** Does the needle's [n] units stand at offset [i] of [d]? *)
Fixpoint match_from (n : nat) (d str : list unit_t) (i j : Z) : bool :=
  match n with
  | O => true
  | S n' =>
      if negb (get d (i + j) =? get str j) then false
      else match_from n' d str i (j + 1)
  end.

Fixpoint find_str_from (n : nat) (d : list unit_t) (str : list unit_t) (len : Z) (i : Z)
  : option Z :=
  match n with
  | O => None
  | S n' =>
      if match_from (Z.to_nat len) d str i 0 then Some i
      else find_str_from n' d str len (i + 1)
  end.

(** Modelled from the spec: fstring_utils.hpp is not among the sources.
    [detail::find_str(hay, hay_len, needle, needle_len)] is a "linear forward
    scan" for "the first match"; "an empty needle matches immediately".  The
    haystack is the array [d] from offset [off] on; the result is the offset of
    the match in [d], [None] for the null pointer. *)
Definition find_str (d : list unit_t) (off hay_len : Z) (str : list unit_t) (len : Z)
  : option Z :=
  if len =? 0 then Some off
  else if hay_len <? len then None
  else find_str_from (Z.to_nat (hay_len - len + 1)) d str len off.

Fixpoint find_from (n : nat) (d : list unit_t) (ch : unit_t) (i : Z) : option Z :=
  match n with
  | O => None
  | S n' => if get d i =? ch then Some i else find_from n' d ch (i + 1)
  end.

(** Modelled from the spec: fstring_utils.hpp is not among the sources.
    [detail::find(ptr, len, ch)] is a "linear forward scan" for the first unit
    equal to [ch]. *)
Definition find (d : list unit_t) (off len : Z) (ch : unit_t) : option Z :=
  find_from (Z.to_nat len) d ch off.

(** Modelled from the spec: fstring_utils.hpp is not among the sources.
    [detail::is_digit(ch)]: the units ['0'] to ['9']. *)
Definition is_digit (ch : unit_t) : bool := (48 <=? ch) && (ch <=? 57).

End fs_detail.

(** *** [class basic_fstring] *)
Module Fstring.

Section Class.

(** The template parameter [Cap]; [capacity] is its name inside the class. *)
Variable Cap : Z.

Definition capacity : Z := Cap.

Definition npos : Z := SizeT.npos.

(** [store(str, len)] *)
Definition store (this : fixed_string) (str : option (list unit_t)) (len : Z) : fixed_string :=
  match str with
  | None => this
  | Some str =>
      let length_ := fs_detail.min capacity len in
      let d := fs_detail.copy (data_ this) 0 str length_ in
      mk_string (set d length_ 0) length_
  end.

(** [shift_right(index, count)]: the array afterwards. *)
Definition shift_right (this : fixed_string) (index count : Z) : list unit_t :=
  if (count =? 0) || (len_ this <? index) then data_ this
  else
    let move_count :=
      fs_detail.min (SizeT.sub (len_ this) index)
                    (SizeT.sub (SizeT.sub capacity index) count) in
    fs_detail.move (data_ this) (index + count) index move_count.

(** [shift_left(index, count)]: the array afterwards. *)
Definition shift_left (this : fixed_string) (index count : Z) : list unit_t :=
  if (count =? 0) || (len_ this <=? index) then data_ this
  else
    let move_count := SizeT.sub (SizeT.sub (len_ this) index) count in
    fs_detail.move (data_ this) index (index + count) move_count.

(** [basic_fstring()] *)
Definition default : fixed_string := value_init Cap.

(** [basic_fstring(const value_type (&str)[N])]: the argument is the whole
    array, [N] units. *)
Definition from_array (str : list unit_t) : fixed_string :=
  let N := Z.of_nat (Datatypes.length str) in
  store default (Some str) (fs_detail.min Cap (SizeT.sub N 1)).

(** [basic_fstring(const_pointer str)] *)
Definition from_c_str (str : option (list unit_t)) : fixed_string :=
  match str with
  | Some s => store default str (fs_detail.length s)
  | None => default
  end.

(** [basic_fstring(const_pointer str, size_type len)] *)
Definition from_units (str : option (list unit_t)) (len : Z) : fixed_string :=
  match str with
  | Some _ => store default str len
  | None => default
  end.

(** [basic_fstring(size_type count, value_type ch)] *)
Definition from_fill (count : Z) (ch : unit_t) : fixed_string :=
  let length_ := fs_detail.min capacity count in
  let d := fs_detail.fill (data_ default) 0 ch length_ in
  mk_string (set d length_ 0) length_.

(** [clear()] *)
Definition clear (this : fixed_string) : fixed_string :=
  mk_string (set (data_ this) 0 0) 0.

(** [operator=(const_pointer str)] *)
Definition assign_c_str (this : fixed_string) (str : option (list unit_t)) : fixed_string :=
  match str with
  | Some s => store this str (fs_detail.length s)
  | None => clear this
  end.

(** [operator=(value_type ch)]: [length_ = 1; data_[0] = ch; data_[1] = value_type{};] *)
Definition assign_unit (this : fixed_string) (ch : unit_t) : fixed_string :=
  mk_string (set (set (data_ this) 0 ch) 1 0) 1.

(** [at(index)], by the value of [config::enable_bounds_check]. *)
Definition at_with (bounds_check : bool) (this : fixed_string) (index : Z) : checked unit_t :=
  if bounds_check && (len_ this <=? index) then out_of_range
  else Value (get (data_ this) index).

Definition at_ (this : fixed_string) (index : Z) : checked unit_t :=
  at_with config.enable_bounds_check this index.

(** [operator[](index)] *)
Definition index (this : fixed_string) (i : Z) : unit_t := get (data_ this) i.

Definition empty (this : fixed_string) : bool := len_ this =? 0.
Definition length (this : fixed_string) : Z := len_ this.
Definition size (this : fixed_string) : Z := len_ this.
Definition max_size (this : fixed_string) : Z := capacity.
Definition available (this : fixed_string) : Z := SizeT.sub capacity (len_ this).
Definition full (this : fixed_string) : bool := len_ this =? capacity.

(** [append(const_pointer str, size_type len)] *)
Definition append (this : fixed_string) (str : option (list unit_t)) (len : Z) : fixed_string :=
  match str with
  | Some s =>
      if negb (full this) then
        let count := fs_detail.min (available this) len in
        let d := fs_detail.copy (data_ this) (len_ this) s count in
        let length_ := SizeT.add (len_ this) count in
        mk_string (set d length_ 0) length_
      else this
  | None => this
  end.

(** [append(const_pointer str)] *)
Definition append_c_str (this : fixed_string) (str : option (list unit_t)) : fixed_string :=
  match str with
  | Some s =>
      if negb (full this) then
        let len := fs_detail.length s in
        let count := fs_detail.min (available this) len in
        let d := fs_detail.copy (data_ this) (len_ this) s count in
        let length_ := SizeT.add (len_ this) count in
        mk_string (set d length_ 0) length_
      else this
  | None => this
  end.

(** [append(value_type ch)]: [data_[length_++] = ch; data_[length_] = value_type{};] *)
Definition append_unit (this : fixed_string) (ch : unit_t) : fixed_string :=
  if negb (full this) then
    let d := set (data_ this) (len_ this) ch in
    let length_ := SizeT.add (len_ this) 1 in
    mk_string (set d length_ 0) length_
  else this.

(** [append(size_type count, value_type ch)] *)
Definition append_fill (this : fixed_string) (count : Z) (ch : unit_t) : fixed_string :=
  let count := fs_detail.min count (available this) in
  let d := fs_detail.fill (data_ this) (len_ this) ch count in
  let length_ := SizeT.add (len_ this) count in
  mk_string (set d length_ 0) length_.

(** [push_back(ch)] *)
Definition push_back (this : fixed_string) (ch : unit_t) : fixed_string :=
  append_unit this ch.

(** [pop_back()]: [data_[--length_] = value_type{};] *)
Definition pop_back (this : fixed_string) : fixed_string :=
  if 0 <? len_ this then
    let length_ := SizeT.sub (len_ this) 1 in
    mk_string (set (data_ this) length_ 0) length_
  else this.

(** [insert(size_type index, const_pointer str)]; a source that is not null
    is an array apart from the object's own. *)
Definition insert (this : fixed_string) (index : Z) (str : option (list unit_t)) : fixed_string :=
  match str with
  | Some s =>
      if negb (full this) && (index <=? len_ this) then
        let len := fs_detail.length s in
        let count := fs_detail.min (available this) len in
        if 0 <? count then
          let d1 := shift_right this index count in
          let d2 := fs_detail.copy d1 index s count in
          let length_ := SizeT.add (len_ this) count in
          mk_string (set d2 length_ 0) length_
        else this
      else this
  | None => this
  end.

(** [insert(size_type index, value_type ch)] *)
Definition insert_unit (this : fixed_string) (index : Z) (ch : unit_t) : fixed_string :=
  if negb (full this) && (index <=? len_ this) then
    let d1 := shift_right this index 1 in
    let d2 := set d1 index ch in
    let length_ := SizeT.add (len_ this) 1 in
    mk_string (set d2 length_ 0) length_
  else this.

(** [erase(size_type index, size_type count)] *)
Definition erase (this : fixed_string) (index count : Z) : fixed_string :=
  if index <? len_ this then
    if (count =? npos) || (len_ this <=? SizeT.add index count) then
      mk_string (set (data_ this) index 0) index
    else
      let d := shift_left this index count in
      let length_ := SizeT.sub (len_ this) count in
      mk_string (set d length_ 0) length_
  else this.

(** [resize(new_size, ch)] *)
Definition resize (this : fixed_string) (new_size : Z) (ch : unit_t) : fixed_string :=
  let new_size := fs_detail.min new_size capacity in
  let d := if len_ this <? new_size
           then fs_detail.fill (data_ this) (len_ this) ch (SizeT.sub new_size (len_ this))
           else data_ this in
  mk_string (set d new_size 0) new_size.

(** [swap(other)] *)
Definition swap (this other : fixed_string) : fixed_string * fixed_string :=
  let temp := this in
  let this' := other in
  let other' := temp in
  (this', other').

(** [operator+=(const Other<N>& other)] *)
Definition op_add_assign (this other : fixed_string) : fixed_string :=
  append this (Some (data_ other)) (len_ other).

(** The element-wise comparison a defaulted [operator<=>] makes of an array
    member. *)
Fixpoint array_spaceship (a b : list unit_t) : comparison :=
  match a, b with
  | x :: a', y :: b' =>
      match x ?= y with
      | Eq => array_spaceship a' b'
      | c => c
      end
  | _, _ => Eq
  end.

(** [operator<=>(const basic_fstring& other) const noexcept = default;]: the
    members in their declaration order, [data_] then [length_]. *)
Definition op_spaceship (this other : fixed_string) : comparison :=
  match array_spaceship (data_ this) (data_ other) with
  | Eq => len_ this ?= len_ other
  | c => c
  end.

(** [a < b], [a <= b], [a > b], [a >= b], rewritten by the language from
    [operator<=>]. *)
Definition op_lt (this other : fixed_string) : bool :=
  match op_spaceship this other with Lt => true | _ => false end.
Definition op_le (this other : fixed_string) : bool :=
  match op_spaceship this other with Gt => false | _ => true end.
Definition op_gt (this other : fixed_string) : bool :=
  match op_spaceship this other with Gt => true | _ => false end.
Definition op_ge (this other : fixed_string) : bool :=
  match op_spaceship this other with Lt => false | _ => true end.

(** [operator==(const Other<N>& other)] *)
Definition op_eq (this other : fixed_string) : bool :=
  let cmp := fs_detail.compare (data_ this) (data_ other)
               (fs_detail.min (len_ this) (len_ other)) in
  if negb (cmp =? 0) then cmp =? 0
  else len_ this =? len_ other.

(** [operator==(const_pointer str)] *)
Definition op_eq_c_str (this : fixed_string) (str : option (list unit_t)) : bool :=
  match str with
  | None => empty this
  | Some s =>
      let len := fs_detail.length s in
      if negb (len =? len_ this) then false
      else fs_detail.compare (data_ this) s (len_ this) =? 0
  end.

(** [find(const_pointer str, size_type pos)] *)
Definition find (this : fixed_string) (str : option (list unit_t)) (pos : Z) : Z :=
  match str with
  | None => npos
  | Some s =>
      if len_ this <=? pos then npos
      else
        let len := fs_detail.length s in
        match fs_detail.find_str (data_ this) pos (SizeT.sub (len_ this) pos) s len with
        | Some result => result
        | None => npos
        end
  end.

(** [find(value_type ch, size_type pos)] *)
Definition find_unit (this : fixed_string) (ch : unit_t) (pos : Z) : Z :=
  if len_ this <=? pos then npos
  else
    match fs_detail.find (data_ this) pos (SizeT.sub (len_ this) pos) ch with
    | Some result => result
    | None => npos
    end.

(** [front()] and [back()] *)
Definition front (this : fixed_string) : unit_t := get (data_ this) 0.
Definition back (this : fixed_string) : unit_t :=
  get (data_ this) (SizeT.sub (len_ this) 1).

(** [operator+=(const_pointer str)] and [operator+=(value_type ch)] *)
Definition op_add_assign_c_str (this : fixed_string) (str : option (list unit_t))
  : fixed_string := append_c_str this str.
Definition op_add_assign_unit (this : fixed_string) (ch : unit_t) : fixed_string :=
  append_unit this ch.

(** [starts_with(const_pointer prefix)] *)
Definition starts_with (this : fixed_string) (prefix : option (list unit_t)) : bool :=
  match prefix with
  | None => true
  | Some p =>
      let len := fs_detail.length p in
      if len_ this <? len then false
      else fs_detail.compare (data_ this) p len =? 0
  end.

(** [starts_with(value_type ch)] *)
Definition starts_with_unit (this : fixed_string) (ch : unit_t) : bool :=
  negb (empty this) && (get (data_ this) 0 =? ch).

(** [ends_with(const_pointer suffix)]; [data_ + length_ - len] is the array
    from that offset on. *)
Definition ends_with (this : fixed_string) (suffix : option (list unit_t)) : bool :=
  match suffix with
  | None => true
  | Some p =>
      let len := fs_detail.length p in
      if len_ this <? len then false
      else fs_detail.compare
             (skipn (Z.to_nat (SizeT.sub (len_ this) len)) (data_ this)) p len =? 0
  end.

(** [ends_with(value_type ch)] *)
Definition ends_with_unit (this : fixed_string) (ch : unit_t) : bool :=
  negb (empty this) && (get (data_ this) (SizeT.sub (len_ this) 1) =? ch).

(** [contains(const_pointer str)] and [contains(value_type ch)] *)
Definition contains (this : fixed_string) (str : option (list unit_t)) : bool :=
  negb (find this str 0 =? npos).
Definition contains_unit (this : fixed_string) (ch : unit_t) : bool :=
  negb (find_unit this ch 0 =? npos).

End Class.

(** [substr<N>(pos, count)], a string of capacity [N]; [data_ + pos] is the
    array from that offset on. *)
Definition substr (N : Z) (this : fixed_string) (pos count : Z) : fixed_string :=
  if len_ this <=? pos then default N
  else
    let count :=
      if (count =? npos) || (len_ this <? SizeT.add pos count)
      then SizeT.sub (len_ this) pos else count in
    from_units N (Some (skipn (Z.to_nat pos) (data_ this))) count.

(** [operator+(const Other<N>& other)], a string of capacity [Cap + N]. *)
Definition op_add (Cap N : Z) (this other : fixed_string) : fixed_string :=
  let C := SizeT.add Cap N in
  let result := from_units C (Some (data_ this)) (len_ this) in
  append C result (Some (data_ other)) (len_ other).

(** [operator+(const value_type (&str)[N])], a string of capacity
    [Cap + N - 1]; the argument is the whole array, [N] units. *)
Definition op_add_array (Cap : Z) (this : fixed_string) (str : list unit_t) : fixed_string :=
  let N := Z.of_nat (Datatypes.length str) in
  let C := SizeT.sub (SizeT.add Cap N) 1 in
  let result := from_units C (Some (data_ this)) (len_ this) in
  append C result (Some str) (SizeT.sub N 1).

End Fstring.

(** ** include/fstring_algorithms.hpp *)
Module algorithms.

(** [struct result_t { basic_fstring<CharT, Cap> parts[MaxParts]; std::size_t count = 0; };] *)
Record result_t : Type := mk_result { parts : list fixed_string; count : Z }.

(** [parts[i] = v] *)
Definition set_part (ps : list fixed_string) (i : Z) (v : fixed_string) : list fixed_string :=
  if (0 <=? i) && (i <? Z.of_nat (length ps)) then upd ps (Z.to_nat i) v else ps.

(** The segments a caller reads: [parts[0, count)]. *)
Definition emitted (r : result_t) : list fixed_string :=
  firstn (Z.to_nat (count r)) (parts r).

Section Split.

(** The template parameters [Cap] and [MaxParts] (16 unless given). *)
Variable Cap : Z.
Variable MaxParts : Z.

(** [result.parts[result.count++] = current;] *)
Definition emit (result : result_t) (current : fixed_string) : result_t :=
  mk_result (set_part (parts result) (count result) current)
            (SizeT.add (count result) 1).

(** The body of the loop of [split], on the pair of [result] and [current]. *)
Definition split_step (str : fixed_string) (delimiter : unit_t) (i : Z)
  (st : result_t * fixed_string) : result_t * fixed_string :=
  let (result, current) := st in
  if Fstring.index str i =? delimiter then
    if negb (Fstring.empty current)
    then (emit result current, Fstring.clear current)
    else (result, current)
  else (result, Fstring.append_unit Cap current (Fstring.index str i)).

(** [split(str, delimiter)] *)
Definition split (str : fixed_string) (delimiter : unit_t) : result_t :=
  let result := mk_result (repeat (Fstring.default Cap) (Z.to_nat MaxParts)) 0 in
  let current := Fstring.default Cap in
  let (result, current) :=
    for_while 0 (Fstring.length str)
      (fun _ st => count (fst st) <? MaxParts)
      (split_step str delimiter) (result, current) in
  if negb (Fstring.empty current) && (count result <? MaxParts)
  then emit result current
  else result.

End Split.

(** The reading of the specification: the fields between delimiters, in scan
    order, the empty ones dropped.  [pending] is the field being read, its
    units in reverse. *)
Fixpoint fields (delimiter : unit_t) (pending : list unit_t) (l : list unit_t)
  : list (list unit_t) :=
  match l with
  | [] => match pending with [] => [] | _ => [rev pending] end
  | c :: r =>
      if c =? delimiter then
        match pending with
        | [] => fields delimiter [] r
        | _ => rev pending :: fields delimiter [] r
        end
      else fields delimiter (c :: pending) r
  end.

(** The non-empty fields of [l], at most [max_parts] of them. *)
Definition split_spec (max_parts : Z) (delimiter : unit_t) (l : list unit_t)
  : list (list unit_t) :=
  firstn (Z.to_nat max_parts) (fields delimiter [] l).

Section Algorithms.

(** The template parameter [Cap] of the argument; the result has the same
    capacity unless the function computes another one. *)
Variable Cap : Z.

(** [replace(str, from, to)], the overload for two units. *)
Definition replace_unit (str : fixed_string) (from to : unit_t) : fixed_string :=
  for_range 0 (Fstring.length str)
    (fun i result =>
       Fstring.append_unit Cap result
         (if Fstring.index str i =? from then to else Fstring.index str i))
    (Fstring.default Cap).

(** [reverse(str)]: [for (i = str.length(); i > 0; --i) result.append(str[i - 1]);] *)
Definition reverse (str : fixed_string) : fixed_string :=
  for_down (Fstring.length str) 0
    (fun i result => Fstring.append_unit Cap result (Fstring.index str (SizeT.sub i 1)))
    (Fstring.default Cap).

(** [count(str, ch)] *)
Definition count_unit (str : fixed_string) (ch : unit_t) : Z :=
  for_range 0 (Fstring.length str)
    (fun i cnt => if Fstring.index str i =? ch then SizeT.add cnt 1 else cnt) 0.

(** [remove(str, ch)] *)
Definition remove (str : fixed_string) (ch : unit_t) : fixed_string :=
  for_range 0 (Fstring.length str)
    (fun i result =>
       if negb (Fstring.index str i =? ch)
       then Fstring.append_unit Cap result (Fstring.index str i)
       else result)
    (Fstring.default Cap).

(** [pad_left(str, width, fill)] *)
Definition pad_left (str : fixed_string) (width : Z) (fill : unit_t) : fixed_string :=
  let result := Fstring.default Cap in
  let result :=
    if Fstring.length str <? width
    then Fstring.append_fill Cap result (SizeT.sub width (Fstring.length str)) fill
    else result in
  Fstring.op_add_assign Cap result str.

(** [pad_right(str, width, fill)] *)
Definition pad_right (str : fixed_string) (width : Z) (fill : unit_t) : fixed_string :=
  let result := str in
  if Fstring.length str <? width
  then Fstring.append_fill Cap result (SizeT.sub width (Fstring.length str)) fill
  else result.

(** [center(str, width, fill)] *)
Definition center (str : fixed_string) (width : Z) (fill : unit_t) : fixed_string :=
  let result := Fstring.default Cap in
  if width <=? Fstring.length str then str
  else
    let total_pad := SizeT.sub width (Fstring.length str) in
    let left_pad := total_pad / 2 in
    let right_pad := SizeT.sub total_pad left_pad in
    let result := Fstring.append_fill Cap result left_pad fill in
    let result := Fstring.op_add_assign Cap result str in
    Fstring.append_fill Cap result right_pad fill.

(** [join(parts, delimiter)] with a delimiter unit: [parts] is the whole
    array, of [N] strings; the result has capacity [Cap * N + N]. *)
Definition join_unit (parts : list fixed_string) (delimiter : unit_t) : fixed_string :=
  let N := Z.of_nat (length parts) in
  let result_cap := SizeT.add (SizeT.wrap (Cap * N)) N in
  for_range 0 N
    (fun i result =>
       let result :=
         if 0 <? i then Fstring.append_unit result_cap result delimiter else result in
       let part := nth (Z.to_nat i) parts (Fstring.default Cap) in
       Fstring.append result_cap result (Some (data_ part)) (Fstring.length part))
    (Fstring.default result_cap).

(** [join(parts, delimiter)] with a delimiter string of capacity [DelimCap];
    the result has capacity [Cap * N + DelimCap * N]. *)
Definition join (DelimCap : Z) (parts : list fixed_string) (delimiter : fixed_string)
  : fixed_string :=
  let N := Z.of_nat (length parts) in
  let result_cap := SizeT.add (SizeT.wrap (Cap * N)) (SizeT.wrap (DelimCap * N)) in
  for_range 0 N
    (fun i result =>
       let result :=
         if 0 <? i
         then Fstring.append result_cap result (Some (data_ delimiter))
                (Fstring.length delimiter)
         else result in
       let part := nth (Z.to_nat i) parts (Fstring.default Cap) in
       Fstring.append result_cap result (Some (data_ part)) (Fstring.length part))
    (Fstring.default result_cap).

(** [repeat(str, times)]; the result has capacity [Cap * 16]. *)
Definition repeat_string (str : fixed_string) (times : Z) : fixed_string :=
  let result_cap := SizeT.wrap (Cap * 16) in
  for_while 0 times
    (fun _ result => negb (Fstring.full result_cap result))
    (fun _ result =>
       Fstring.append result_cap result (Some (data_ str)) (Fstring.length str))
    (Fstring.default result_cap).

(** The loop of [is_digit]: [for (i = 0; i < str.length(); ++i)
    if (!detail::is_digit(str[i])) return false;  return true;] *)
Fixpoint all_digits_from (n : nat) (str : fixed_string) (i : Z) : bool :=
  match n with
  | O => true
  | S n' =>
      if negb (fs_detail.is_digit (Fstring.index str i)) then false
      else all_digits_from n' str (i + 1)
  end.

(** [is_digit(str)] *)
Definition is_digit (str : fixed_string) : bool :=
  if Fstring.empty str then false
  else all_digits_from (Z.to_nat (Fstring.length str)) str 0.

End Algorithms.

End algorithms.

(** [while (cond) body], with the number of iterations it may take. *)
Fixpoint while_loop {S : Type} (fuel : nat) (cond : S -> bool) (body : S -> S) (s : S) : S :=
  match fuel with
  | O => s
  | Datatypes.S fuel' => if cond s then while_loop fuel' cond body (body s) else s
  end.

(** ** include/fstring_convertions.hpp *)
Module conversions.

(** An instance of the template parameter [IntT]: its width
    ([sizeof(IntT) * 8]) and signedness. *)
Record int_type : Type := mk_int { bits : Z; is_signed : bool }.

Definition min_value (T : int_type) : Z :=
  if is_signed T then - 2 ^ (bits T - 1) else 0.

Definition max_value (T : int_type) : Z :=
  if is_signed T then 2 ^ (bits T - 1) - 1 else 2 ^ bits T - 1.

Definition representable (T : int_type) (z : Z) : Prop :=
  min_value T <= z <= max_value T.

(** The value a result has once it is stored in an [IntT]: the one in the
    range of the type that is congruent to it modulo [2 ^ bits].  Unsigned
    arithmetic and conversions to a narrower type work this way; for a signed
    type as wide as [int] the language leaves the overflow undefined, and the
    two's complement result stands for it. *)
Definition convert (T : int_type) (z : Z) : Z :=
  if is_signed T
  then (z + 2 ^ (bits T - 1)) mod 2 ^ bits T - 2 ^ (bits T - 1)
  else z mod 2 ^ bits T.

(** [std::make_unsigned_t<IntT>] *)
Definition make_unsigned (T : int_type) : int_type := mk_int (bits T) false.

(** [(digit < 10) ? CharT('0') + digit : CharT('a') + (digit - 10)] *)
Definition digit_unit (digit : Z) : unit_t :=
  if digit <? 10 then 48 + digit else 97 + (digit - 10).

(** The body of [while (uvalue > 0)], on [buffer], [pos] and [uvalue]. *)
Definition digit_step (base : Z) (st : list unit_t * Z * Z) : list unit_t * Z * Z :=
  let '(buffer, pos, uvalue) := st in
  let digit := uvalue mod base in
  (set buffer pos (digit_unit digit), SizeT.add pos 1, uvalue / base).

(** The body of [while (pos > 0) result.append(buffer[--pos]);]. *)
Definition unwind_step (Cap : Z) (buffer : list unit_t) (st : fixed_string * Z)
  : fixed_string * Z :=
  let (result, pos) := st in
  let pos := SizeT.sub pos 1 in
  (Fstring.append_unit Cap result (get buffer pos), pos).

(** The body of [to_fstring(IntT value, int base)], return statement by
    return statement.  The first returns a [basic_fstring<CharT, 1>], the
    others a [basic_fstring<CharT, max_size>], under one [auto] return type:
    the two types differ, so that no call of the function compiles, and the
    two branches below are values of two capacities.
    [static_cast<UIntT>(-value)] negates in [IntT]; at the minimum of a type
    as wide as [int] that overflows, and the wrapped value stands for it. *)
Definition to_fstring (T : int_type) (value : Z) (base : Z) : fixed_string :=
  if (base <? 2) || (36 <? base) then Fstring.default 1
  else
    let max_size := bits T + 2 in
    let result := Fstring.default max_size in
    if value =? 0 then Fstring.append_unit max_size result 48
    else
      let negative := is_signed T && (value <? 0) in
      let uvalue :=
        if is_signed T then
          if value <? 0 then convert (make_unsigned T) (- value)
          else convert (make_unsigned T) value
        else value in
      let buffer : list unit_t := @repeat unit_t 0 (Z.to_nat max_size) in
      let '(buffer, pos, _) :=
        while_loop (Z.to_nat (bits T))
          (fun st => 0 <? snd st) (digit_step base) (buffer, 0, uvalue) in
      let result :=
        if negative then Fstring.append_unit max_size result 45 else result in
      fst (while_loop (Z.to_nat pos)
             (fun st => 0 <? snd st) (unwind_step max_size buffer) (result, pos)).

(** The value [digit] has after the three tests of the loop of [parse_int]. *)
Definition digit_of (ch : unit_t) : Z :=
  if (48 <=? ch) && (ch <=? 57) then ch - 48
  else if (97 <=? ch) && (ch <=? 122) then 10 + (ch - 97)
  else if (65 <=? ch) && (ch <=? 90) then 10 + (ch - 65)
  else -1.

(** [for (; i < str.length(); ++i) { ... if (digit < 0 || digit >= base) break;
    result = result * base + digit; }] *)
Fixpoint parse_digits (fuel : nat) (T : int_type) (str : fixed_string) (base : Z)
  (i : Z) (result : Z) : Z :=
  match fuel with
  | O => result
  | S fuel' =>
      if i <? Fstring.length str then
        let ch := Fstring.index str i in
        let digit := digit_of ch in
        if (digit <? 0) || (base <=? digit) then result
        else parse_digits fuel' T str base (i + 1) (convert T (result * base + digit))
      else result
  end.

(** [parse_int<IntT>(str, base)] *)
Definition parse_int (T : int_type) (str : fixed_string) (base : Z) : Z :=
  if Fstring.empty str then 0
  else
    let '(negative, i) :=
      if is_signed T then
        if Fstring.index str 0 =? 45 then (true, 1)
        else if Fstring.index str 0 =? 43 then (false, 1)
        else (false, 0)
      else (false, 0) in
    let result :=
      parse_digits (Z.to_nat (Fstring.length str - i)) T str base i 0 in
    if negative then convert T (- result) else result.

(** [int], the type of [exponent] in [parse_float]. *)
Definition int_t : int_type := mk_int 32 true.

Section ParseFloat.

(** An instance of the template parameter [FloatT] with the operations
    [parse_float] applies to it. *)
Variable FloatT : Type.
(** [FloatT{}], also the value of [FloatT result = 0;] *)
Variable f_zero : FloatT.
(** The conversion of an [int] operand. *)
Variable f_of_int : Z -> FloatT.
Variable f_add : FloatT -> FloatT -> FloatT.
Variable f_mul : FloatT -> FloatT -> FloatT.
Variable f_neg : FloatT -> FloatT.
(** [FloatT fraction = 0.1;] and [fraction *= 0.1;] *)
Variable f_tenth : FloatT.
Variable f_mul_tenth : FloatT -> FloatT.
(** [std::pow(FloatT(10), exponent)] *)
Variable f_pow10 : Z -> FloatT.

(** [while (i < str.length() && detail::is_digit(str[i])) { result = result * 10 + (str[i] - CharT('0')); ++i; }] *)
Definition integer_part (str : fixed_string) (st : FloatT * Z) : FloatT * Z :=
  while_loop (Z.to_nat (Fstring.length str - snd st))
    (fun st => (snd st <? Fstring.length str)
               && fs_detail.is_digit (Fstring.index str (snd st)))
    (fun st =>
       (f_add (f_mul (fst st) (f_of_int 10)) (f_of_int (Fstring.index str (snd st) - 48)),
        snd st + 1))
    st.

(** The loop of the decimal part, on [result], [fraction] and [i]. *)
Definition decimal_part (str : fixed_string) (st : FloatT * FloatT * Z) : FloatT * FloatT * Z :=
  while_loop (Z.to_nat (Fstring.length str - snd st))
    (fun st => (snd st <? Fstring.length str)
               && fs_detail.is_digit (Fstring.index str (snd st)))
    (fun st =>
       let '(result, fraction, i) := st in
       (f_add result (f_mul (f_of_int (Fstring.index str i - 48)) fraction),
        f_mul_tenth fraction, i + 1))
    st.

(** The loop of the exponent part, on [exponent] and [i]. *)
Definition exponent_part (str : fixed_string) (st : Z * Z) : Z * Z :=
  while_loop (Z.to_nat (Fstring.length str - snd st))
    (fun st => (snd st <? Fstring.length str)
               && fs_detail.is_digit (Fstring.index str (snd st)))
    (fun st =>
       (convert int_t (fst st * 10 + (Fstring.index str (snd st) - 48)), snd st + 1))
    st.

(** [parse_float<FloatT>(str)] *)
Definition parse_float (str : fixed_string) : FloatT :=
  if Fstring.empty str then f_zero
  else
    let result := f_zero in
    let '(negative, i) :=
      if Fstring.index str 0 =? 45 then (true, 1)
      else if Fstring.index str 0 =? 43 then (false, 1)
      else (false, 0) in
    let (result, i) := integer_part str (result, i) in
    let (result, i) :=
      if (i <? Fstring.length str) && (Fstring.index str i =? 46) then
        let '(result, _, i) := decimal_part str (result, f_tenth, i + 1) in
        (result, i)
      else (result, i) in
    let result :=
      if (i <? Fstring.length str)
         && ((Fstring.index str i =? 101) || (Fstring.index str i =? 69)) then
        let i := i + 1 in
        let '(exp_negative, i) :=
          if (i <? Fstring.length str) && (Fstring.index str i =? 45) then (true, i + 1)
          else if (i <? Fstring.length str) && (Fstring.index str i =? 43) then (false, i + 1)
          else (false, i) in
        let (exponent, _) := exponent_part str (0, i) in
        let exponent := if exp_negative then convert int_t (- exponent) else exponent in
        f_mul result (f_pow10 exponent)
      else result in
    if negative then f_neg result else result.

End ParseFloat.

(** [std::numeric_limits<IntT>::digits]: the bits of the value, the sign
    bit apart. *)
Definition digits (T : int_type) : Z :=
  if is_signed T then bits T - 1 else bits T.

(** The number of [d >= 1] with [p * 10 ^ d <= bound], searched upwards. *)
Fixpoint pow10_below (fuel : nat) (p bound : Z) : Z :=
  match fuel with
  | O => 0
  | S fuel' => if p * 10 <=? bound then 1 + pow10_below fuel' (p * 10) bound else 0
  end.

(** [std::numeric_limits<IntT>::digits10]: the number of decimal digits all
    of whose values the type represents, the largest [d] with
    [10 ^ d <= max()]. *)
Definition digits10 (T : int_type) : Z :=
  pow10_below (Z.to_nat (digits T)) 1 (max_value T).

(** The body of [while (uvalue > 0)] of the decimal [to_fstring]:
    [buffer[pos++] = CharT('0') + (uvalue % 10); uvalue /= 10;] *)
Definition decimal_step (st : list unit_t * Z * Z) : list unit_t * Z * Z :=
  let '(buffer, pos, uvalue) := st in
  (set buffer pos (48 + uvalue mod 10), SizeT.add pos 1, uvalue / 10).

(** [to_fstring(IntT value)], the decimal overload; the result has capacity
    [digits10 + 3]. *)
Definition to_fstring_decimal (T : int_type) (value : Z) : fixed_string :=
  let max_digits := digits10 T + 3 in
  let result := Fstring.default max_digits in
  if value =? 0 then Fstring.append_unit max_digits result 48
  else
    let negative := is_signed T && (value <? 0) in
    let uvalue :=
      if is_signed T then
        if value <? 0
        then convert (make_unsigned T) (convert (make_unsigned T) (- (value + 1)) + 1)
        else convert (make_unsigned T) value
      else value in
    let buffer : list unit_t := @repeat unit_t 0 (Z.to_nat max_digits) in
    let '(buffer, pos, _) :=
      while_loop (Z.to_nat max_digits)
        (fun st => 0 <? snd st) decimal_step (buffer, 0, uvalue) in
    let result :=
      if negative then Fstring.append_unit max_digits result 45 else result in
    fst (while_loop (Z.to_nat pos)
           (fun st => 0 <? snd st) (unwind_step max_digits buffer) (result, pos)).

(** [to_fstring(bool value)]: [result = "true"] or [result = "false"] on a
    string of capacity 5. *)
Definition to_fstring_bool (value : bool) : fixed_string :=
  let result := Fstring.default 5 in
  if value then Fstring.assign_c_str 5 result (Some [116; 114; 117; 101; 0])
  else Fstring.assign_c_str 5 result (Some [102; 97; 108; 115; 101; 0]).

(** [parse_bool(str)]:
    [str == "true" || str == "1" || str == "yes" || str == "on"] *)
Definition parse_bool (str : fixed_string) : bool :=
  if Fstring.op_eq_c_str str (Some [116; 114; 117; 101; 0])
     || Fstring.op_eq_c_str str (Some [49; 0])
     || Fstring.op_eq_c_str str (Some [121; 101; 115; 0])
     || Fstring.op_eq_c_str str (Some [111; 110; 0])
  then true else false.

(** [builder::operator()(first, rest...)]: every argument comes with its
    capacity; the result has the sum of the capacities.  The fold over the
    capacities asks for at least one argument in [rest]. *)
Definition builder (first : Z * fixed_string) (rest : list (Z * fixed_string))
  : fixed_string :=
  let total_cap := fold_left (fun c r => SizeT.add c (fst r)) rest (fst first) in
  let result :=
    Fstring.from_units total_cap (Some (data_ (snd first))) (Fstring.length (snd first)) in
  fold_left
    (fun result r =>
       Fstring.append total_cap result (Some (data_ (snd r))) (Fstring.length (snd r)))
    rest result.

(** [format_int(value, width, fill)]; the result has capacity
    [digits10 + 32]. *)
Definition format_int (T : int_type) (value : Z) (width : Z) (fill : unit_t)
  : fixed_string :=
  let str := to_fstring_decimal T value in
  let max_size := digits10 T + 32 in
  let result := Fstring.default max_size in
  let result :=
    if Fstring.length str <? width
    then Fstring.append_fill max_size result (SizeT.sub width (Fstring.length str)) fill
    else result in
  Fstring.append max_size result (Some (data_ str)) (Fstring.length str).

(** [sizeof(IntT)] *)
Definition sizeof (T : int_type) : Z := bits T / 8.

(** [do body while (cond)], with the number of iterations it may take after
    the first. *)
Definition do_while {S : Type} (fuel : nat) (cond : S -> bool) (body : S -> S) (s : S) : S :=
  while_loop fuel cond body (body s).

(** The body of the loop of [to_hex], on [buffer], [pos] and [uvalue]. *)
Definition hex_step (uppercase : bool) (st : list unit_t * Z * Z) : list unit_t * Z * Z :=
  let '(buffer, pos, uvalue) := st in
  let digit := uvalue mod 16 in
  let buffer :=
    if digit <? 10 then set buffer pos (48 + digit)
    else set buffer pos ((if uppercase then 65 else 97) + (digit - 10)) in
  (buffer, SizeT.add pos 1, uvalue / 16).

(** [to_hex(value, uppercase)]; the result, of capacity [sizeof(IntT) * 2 + 3],
    starts as ["0x"]; [buffer] has room for [max_size] digits. *)
Definition to_hex (T : int_type) (value : Z) (uppercase : bool) : fixed_string :=
  let max_size := sizeof T * 2 + 3 in
  let result := Fstring.from_c_str max_size (Some [48; 120; 0]) in
  let uvalue := convert (make_unsigned T) value in
  let buffer : list unit_t := @repeat unit_t 0 (Z.to_nat max_size) in
  let '(buffer, pos, _) :=
    do_while (Z.to_nat (max_size - 1))
      (fun st => 0 <? snd st) (hex_step uppercase) (buffer, 0, uvalue) in
  fst (while_loop (Z.to_nat pos)
         (fun st => 0 <? snd st) (unwind_step max_size buffer) (result, pos)).

(** The body of the loop of [to_binary]:
    [buffer[pos++] = CharT('0') + (uvalue % 2); uvalue /= 2;] *)
Definition binary_step (st : list unit_t * Z * Z) : list unit_t * Z * Z :=
  let '(buffer, pos, uvalue) := st in
  (set buffer pos (48 + uvalue mod 2), SizeT.add pos 1, uvalue / 2).

(** [to_binary(value)]; the result, of capacity [sizeof(IntT) * 8 + 3], starts
    as ["0b"]. *)
Definition to_binary (T : int_type) (value : Z) : fixed_string :=
  let max_size := sizeof T * 8 + 3 in
  let result := Fstring.from_c_str max_size (Some [48; 98; 0]) in
  let uvalue := convert (make_unsigned T) value in
  let buffer : list unit_t := @repeat unit_t 0 (Z.to_nat max_size) in
  let '(buffer, pos, _) :=
    do_while (Z.to_nat (max_size - 1))
      (fun st => 0 <? snd st) binary_step (buffer, 0, uvalue) in
  fst (while_loop (Z.to_nat pos)
         (fun st => 0 <? snd st) (unwind_step max_size buffer) (result, pos)).

End conversions.

(** ** [double] as an instance of [FloatT]

    IEEE 754 binary64 with the kernel's primitive operations. *)
Module binary64.

Import Uint63 Floats.

(** The conversion of an [int] to [double]. *)
Definition of_int (z : Z) : float :=
  if z <? 0 then PrimFloat.opp (PrimFloat.of_uint63 (Uint63.of_Z (- z)))
  else PrimFloat.of_uint63 (Uint63.of_Z z).

Definition zero : float := 0%float.

(** The double 1.5. *)
Definition three_halves : float := 1.5%float.

(** The literal [0.1], the double nearest to one tenth. *)
Definition tenth : float := 0x1.999999999999ap-4%float.

(** [fraction *= 0.1] *)
Definition mul_tenth (x : float) : float := PrimFloat.mul x tenth.

(** [std::pow(10.0, exponent)], by repeated multiplication: exact for the
    exponents from 0 to 22, where every power of ten is a double; beyond
    them the product can differ from [std::pow] in the last place, and no
    statement below evaluates it there. *)
Definition pow10 (e : Z) : float :=
  if 0 <=? e then Z.iter e (fun x => PrimFloat.mul x 10%float) 1%float
  else PrimFloat.div 1%float (Z.iter (- e) (fun x => PrimFloat.mul x 10%float) 1%float).

(** [parse_float<double>(str)] *)
Definition parse_float (str : fixed_string) : float :=
  conversions.parse_float float zero of_int PrimFloat.add PrimFloat.mul PrimFloat.opp
    tenth mul_tenth pow10 str.

End binary64.

(** ** Properties the theorems are stated with *)

(** [s] holds the first [min(L, N)] units of the source [src] of length [L],
    terminated, in an array of [N + 1] units. *)
Definition truncated_copy (N : Z) (src : list unit_t) (s : fixed_string) : Prop :=
  let L := Z.of_nat (length src) in
  len_ s = Z.min L N /\
  content s = firstn (Z.to_nat (Z.min L N)) src /\
  I1 s /\
  extent_ok N s.

(** [s'] is [s] with the first [n] units of [src] added at the end and the
    terminator put back. *)
Definition appended (s : fixed_string) (src : list unit_t) (n : Z) (s' : fixed_string) : Prop :=
  len_ s' = len_ s + n /\
  content s' = content s ++ firstn (Z.to_nat n) src /\
  I1 s'.

(** The reading of the specification of [compare]: unit by unit on the common
    prefix, the shorter string first when one is a prefix of the other. *)
Fixpoint lex_compare (a b : list unit_t) : comparison :=
  match a, b with
  | [], [] => Eq
  | [], _ :: _ => Lt
  | _ :: _, [] => Gt
  | x :: a', y :: b' =>
      match x ?= y with
      | Eq => lex_compare a' b'
      | c => c
      end
  end.

(** The signed tri-state [compare] returns for an ordering. *)
Definition tri_state (c : comparison) : Z :=
  match c with Lt => -1 | Eq => 0 | Gt => 1 end.

(** The [n] units of the array [d] from offset [i] on. *)
Definition units (d : list unit_t) (i : Z) (n : nat) : list unit_t :=
  map (fun k => get d (i + Z.of_nat k)) (seq 0 n).

(** The invariant of the loop of [split]: the segments emitted so far and
    the pending one account for the input read so far. *)
Definition split_invariant (Cap MaxParts : Z) (str : fixed_string) (delimiter : unit_t)
  (i : Z) (st : algorithms.result_t * fixed_string) : Prop :=
  let (result, current) := st in
  Z.of_nat (length (algorithms.parts result)) = MaxParts /\
  0 <= algorithms.count result <= MaxParts /\
  storage_ok Cap current /\ len_ current <= i /\
  map content (algorithms.emitted result)
  ++ algorithms.fields delimiter (rev (content current))
       (skipn (Z.to_nat i) (content str))
  = algorithms.fields delimiter [] (content str).


(** The integer types [parse_int] and [to_fstring] are instantiated with: at
    least one bit, and few enough for [sizeof(IntT) * 8 + 2] to be a capacity. *)
Definition int_type_ok (T : conversions.int_type) : Prop :=
  0 < conversions.bits T /\ conversions.bits T + 2 < SizeT.npos.

(** The number a list of digits denotes in a base, most significant digit
    first. *)
Definition horner (base : Z) (digits : list Z) : Z :=
  fold_left (fun acc d => acc * base + d) digits 0.

(** The loop of [parse_int] read over the list of the units still to come:
    it stops at the first unit that is no digit of the base. *)
Fixpoint parse_list (T : conversions.int_type) (base : Z) (l : list unit_t) (result : Z) : Z :=
  match l with
  | [] => result
  | ch :: l' =>
      let digit := conversions.digit_of ch in
      if (digit <? 0) || (base <=? digit) then result
      else parse_list T base l' (conversions.convert T (result * base + digit))
  end.

(** The digits of [u] in a base, least significant first, as the loop of
    [to_fstring] produces them in at most [fuel] iterations. *)
Fixpoint digits_le (fuel : nat) (base : Z) (u : Z) : list Z :=
  match fuel with
  | O => []
  | S fuel' => if 0 <? u then (u mod base) :: digits_le fuel' base (u / base) else []
  end.

(** Is [ch] a digit of the base? *)
Definition valid_digit (base : Z) (ch : unit_t) : bool :=
  (0 <=? conversions.digit_of ch) && (conversions.digit_of ch <? base).

(** The sign [parse_int] reads for a signed [IntT], and the units after it. *)
Definition signed_prefix (T : conversions.int_type) (l : list unit_t) : bool * list unit_t :=
  match l with
  | [] => (false, [])
  | ch :: r =>
      if conversions.is_signed T then
        if ch =? 45 then (true, r)
        else if ch =? 43 then (false, r)
        else (false, l)
      else (false, l)
  end.

(** What [parse_int] computes, read over the content: the sign, then the
    value of the longest run of digits of the base. *)
Definition parse_int_spec (T : conversions.int_type) (base : Z) (l : list unit_t) : Z :=
  let (negative, rest) := signed_prefix T l in
  let result := parse_list T base rest 0 in
  if negative then conversions.convert T (- result) else result.

(** A well-formed integer text: an optional sign (for a signed type), then at
    least one unit, all of them digits of the base. *)
Definition well_formed_int (T : conversions.int_type) (base : Z) (l : list unit_t) : bool :=
  let rest := snd (signed_prefix T l) in
  match rest with
  | [] => false
  | _ => forallb (valid_digit base) rest
  end.

(** Can a number read by [parse_float] start with [ch]: a sign, a digit, the
    point or an exponent mark? *)
Definition starts_number (ch : unit_t) : bool :=
  (ch =? 45) || (ch =? 43) || fs_detail.is_digit ch
  || (ch =? 46) || (ch =? 101) || (ch =? 69).

(** The text [to_fstring(value, base)] is specified to produce: ["0"] for
    zero, otherwise the digits of the magnitude, most significant first, from
    [0-9a-z], behind a ['-'] when the value is negative. *)
Definition to_string_spec (T : conversions.int_type) (value base : Z) : list unit_t :=
  if value =? 0 then [48]
  else
    (if value <? 0 then [45] else [])
    ++ map conversions.digit_unit
         (rev (digits_le (Z.to_nat (conversions.bits T)) base (Z.abs value))).





(** *** What [parse_float] reads, over the list of the content *)

(** The longest run of digits at the head of [l], and what follows it. *)
Fixpoint span_digits (l : list unit_t) : list unit_t * list unit_t :=
  match l with
  | [] => ([], [])
  | ch :: r =>
      if fs_detail.is_digit ch
      then let (ds, rest) := span_digits r in (ch :: ds, rest)
      else ([], l)
  end.

(** A leading ['-'] (true) or ['+'], and what follows it. *)
Definition float_sign (l : list unit_t) : bool * list unit_t :=
  match l with
  | [] => (false, [])
  | ch :: r =>
      if ch =? 45 then (true, r) else if ch =? 43 then (false, r) else (false, l)
  end.

(** The number read behind the sign: the run of integer digits, the run of
    fraction digits behind a point (none without a point), and what follows
    them.  Either run may be empty. *)
Definition mantissa (l : list unit_t) : list unit_t * list unit_t * list unit_t :=
  let (ids, l2) := span_digits l in
  match l2 with
  | [] => (ids, [], [])
  | ch :: r =>
      if ch =? 46
      then let (fds, l3) := span_digits r in (ids, fds, l3)
      else (ids, [], l2)
  end.

(** The value of a run of exponent digits, in [int]. *)
Definition exponent_value (ds : list unit_t) : Z :=
  fold_left (fun e ch => conversions.convert conversions.int_t (e * 10 + (ch - 48))) ds 0.

(** The exponent read at the head of [l]: an exponent mark, an optional sign
    and a run of digits; [None] without the mark. *)
Definition exponent (l : list unit_t) : option Z :=
  match l with
  | [] => None
  | ch :: r =>
      if (ch =? 101) || (ch =? 69) then
        let (exp_negative, l4) := float_sign r in
        let e := exponent_value (fst (span_digits l4)) in
        Some (if exp_negative then conversions.convert conversions.int_t (- e) else e)
      else None
  end.

(** Does [l] end the number: it is empty, or its first unit is no digit, no
    point and no exponent mark? *)
Definition ends_number (l : list unit_t) : bool :=
  match l with
  | [] => true
  | ch :: _ =>
      negb (fs_detail.is_digit ch || (ch =? 46) || (ch =? 101) || (ch =? 69))
  end.

(** Does [l] end the fraction: it is empty, or its first unit is no digit and
    no exponent mark? *)
Definition ends_fraction (l : list unit_t) : bool :=
  match l with
  | [] => true
  | ch :: _ => negb (fs_detail.is_digit ch || (ch =? 101) || (ch =? 69))
  end.

Section ParseFloatSpec.

Variable FloatT : Type.
Variable f_zero : FloatT.
Variable f_of_int : Z -> FloatT.
Variable f_add : FloatT -> FloatT -> FloatT.
Variable f_mul : FloatT -> FloatT -> FloatT.
Variable f_neg : FloatT -> FloatT.
Variable f_tenth : FloatT.
Variable f_mul_tenth : FloatT -> FloatT.
Variable f_pow10 : Z -> FloatT.

(** [result * 10 + digit] over a run of integer digits. *)
Definition integer_value (ds : list unit_t) (result : FloatT) : FloatT :=
  fold_left (fun r ch => f_add (f_mul r (f_of_int 10)) (f_of_int (ch - 48))) ds result.

(** [result + digit * fraction], the fraction a tenth of the one before, over
    a run of fraction digits. *)
Definition fraction_value (ds : list unit_t) (result : FloatT) : FloatT :=
  fst (fold_left
         (fun st ch =>
            (f_add (fst st) (f_mul (f_of_int (ch - 48)) (snd st)), f_mul_tenth (snd st)))
         ds (result, f_tenth)).

(** The sign put on the result. *)
Definition signed (negative : bool) (x : FloatT) : FloatT :=
  if negative then f_neg x else x.

(** What [parse_float] computes, read over the content: the sign, the
    mantissa and the exponent at the head of the input; the first unit that
    continues none of them ends the reading. *)
Definition parse_float_spec (l : list unit_t) : FloatT :=
  match l with
  | [] => f_zero
  | _ :: _ =>
      let (negative, l1) := float_sign l in
      let '(ids, fds, l3) := mantissa l1 in
      let result := fraction_value fds (integer_value ids f_zero) in
      let result :=
        match exponent l3 with
        | Some e => f_mul result (f_pow10 e)
        | None => result
        end in
      signed negative result
  end.

End ParseFloatSpec.

(** ** More properties the theorems are stated with *)

(** The ASCII mapping of the case conversions: a letter of the other case
    moves by 32, every other unit stays. *)
Definition ascii_upper (ch : unit_t) : unit_t :=
  if (97 <=? ch) && (ch <=? 122) then ch - 32 else ch.

Definition ascii_lower (ch : unit_t) : unit_t :=
  if (65 <=? ch) && (ch <=? 90) then ch + 32 else ch.

(** [l] without its leading white space, and without white space at both
    ends. *)
Fixpoint drop_space (l : list unit_t) : list unit_t :=
  match l with
  | [] => []
  | c :: r => if ConstantString.trim_space c then drop_space r else l
  end.

Definition stripped (l : list unit_t) : list unit_t :=
  rev (drop_space (rev (drop_space l))).

(** The units of a C-string: those before its terminator. *)
Definition c_string (str : list unit_t) : list unit_t :=
  firstn (Z.to_nat (detail.strlen str)) str.

(** [needle] stands in [c] at index [i]. *)
Definition occurs_at (c needle : list unit_t) (i : Z) : Prop :=
  0 <= i /\ i + Z.of_nat (length needle) <= Z.of_nat (length c) /\
  firstn (length needle) (skipn (Z.to_nat i) c) = needle.

(** The at most [count] units of [c] from index [pos] on. *)
Definition segment (c : list unit_t) (pos count : Z) : list unit_t :=
  firstn (Z.to_nat count) (skipn (Z.to_nat pos) c).

(** FNV-1a over 64 bits, of a list of units. *)
Definition fnv1a (l : list unit_t) : Z :=
  fold_left (fun h c => SizeT.wrap (Z.lxor h (SizeT.wrap c) * 1099511628211)) l
    14695981039346656037.

(** The segments with [sep] between each two of them. *)
Fixpoint joined (sep : list unit_t) (segs : list (list unit_t)) : list unit_t :=
  match segs with
  | [] => []
  | x :: rest =>
      match rest with
      | [] => x
      | _ :: _ => x ++ sep ++ joined sep rest
      end
  end.

Definition nonempty (seg : list unit_t) : bool :=
  match seg with [] => false | _ :: _ => true end.

(** [n] copies of [c], one behind the other. *)
Definition repeated (c : list unit_t) (n : nat) : list unit_t :=
  concat (repeat c n).

(** The unit [to_hex] writes for the digit [d]. *)
Definition hex_unit (uppercase : bool) (d : Z) : unit_t :=
  if d <? 10 then 48 + d else (if uppercase then 65 else 97) + (d - 10).

(** The digits of [u] in a base, least significant first, at most [n] of
    them; the single digit 0 for zero. *)
Definition digits_of (base : Z) (n : nat) (u : Z) : list Z :=
  if u =? 0 then [0] else digits_le n base u.
(** *** Buffer lemmas *)

Lemma length_upd {A : Type} (d : list A) n v : length (upd d n v) = length d.
Proof.
  revert n; induction d as [|x r IH]; intros [|n]; simpl; auto.
Qed.

Lemma length_set (d : list unit_t) i v : length (set d i v) = length d.
Proof.
  unfold set. destruct (_ && _); auto using length_upd.
Qed.

Lemma get_nth d i :
  0 <= i < Z.of_nat (length d) -> get d i = nth (Z.to_nat i) d 0.
Proof.
  intros H. unfold get.
  destruct (Z.leb_spec 0 i); destruct (Z.ltb_spec i (Z.of_nat (length d)));
    simpl; auto; lia.
Qed.

Lemma get_outside d i : Z.of_nat (length d) <= i -> get d i = 0.
Proof.
  intros H. unfold get.
  destruct (Z.ltb_spec i (Z.of_nat (length d))); try lia.
  now rewrite andb_false_r.
Qed.

Lemma get_negative d i : i < 0 -> get d i = 0.
Proof.
  intros H. unfold get. destruct (Z.leb_spec 0 i); try lia. reflexivity.
Qed.

Lemma nth_upd_same {A : Type} (d : list A) n v a :
  (n < length d)%nat -> nth n (upd d n v) a = v.
Proof.
  revert n; induction d as [|x r IH]; intros [|n] H; simpl in *; try lia; auto.
  apply IH; lia.
Qed.

Lemma nth_upd_other {A : Type} (d : list A) n m v a :
  n <> m -> nth m (upd d n v) a = nth m d a.
Proof.
  revert n m; induction d as [|x r IH]; intros [|n] [|m] H; simpl; auto; try congruence.
Qed.

Lemma set_outside d i v : ~ (0 <= i < Z.of_nat (length d)) -> set d i v = d.
Proof.
  intros H. unfold set.
  destruct (Z.leb_spec 0 i); destruct (Z.ltb_spec i (Z.of_nat (length d)));
    simpl; auto; lia.
Qed.

Lemma get_set_same d i v :
  0 <= i < Z.of_nat (length d) -> get (set d i v) i = v.
Proof.
  intros H. rewrite get_nth by (rewrite length_set; lia).
  unfold set.
  destruct (Z.leb_spec 0 i); destruct (Z.ltb_spec i (Z.of_nat (length d)));
    simpl; try lia.
  apply nth_upd_same. lia.
Qed.

Lemma get_set_other d i j v : i <> j -> get (set d i v) j = get d j.
Proof.
  intros H.
  destruct (Z.leb_spec 0 i); destruct (Z.ltb_spec i (Z.of_nat (length d)));
    try (rewrite set_outside by lia; reflexivity).
  unfold get. rewrite length_set.
  destruct (Z.leb_spec 0 j); destruct (Z.ltb_spec j (Z.of_nat (length d)));
    simpl; auto.
  unfold set.
  destruct (Z.leb_spec 0 i); destruct (Z.ltb_spec i (Z.of_nat (length d)));
    simpl; try lia.
  apply nth_upd_other. lia.
Qed.

Lemma get_set d i j v :
  0 <= i < Z.of_nat (length d) ->
  get (set d i v) j = if j =? i then v else get d j.
Proof.
  intros Hi. destruct (Z.eqb_spec j i) as [->|Hne].
  - now apply get_set_same.
  - apply get_set_other; lia.
Qed.

Lemma get_repeat n i : get (repeat 0 n) i = 0.
Proof.
  unfold get. destruct (_ && _); auto.
  generalize (Z.to_nat i) as k.
  induction n as [|n IH]; intros [|k]; simpl; auto.
Qed.

(** Two arrays of one extent that agree at every index are the same array. *)
Lemma buffer_ext (d e : list unit_t) :
  length d = length e ->
  (forall i, 0 <= i < Z.of_nat (length d) -> get d i = get e i) ->
  d = e.
Proof.
  intros Hl H. apply (nth_ext d e 0 0 Hl).
  intros n Hn. specialize (H (Z.of_nat n)).
  rewrite !get_nth in H by lia.
  rewrite Nat2Z.id in H. apply H. lia.
Qed.

Lemma get_firstn d n i :
  0 <= i < Z.of_nat n -> get (firstn n d) i = get d i.
Proof.
  intros H.
  destruct (Z.ltb_spec i (Z.of_nat (length d))) as [Hin|Hout].
  - rewrite !get_nth by (rewrite ?length_firstn; lia).
    assert (Hk : (Z.to_nat i < n)%nat) by lia.
    revert Hk. generalize (Z.to_nat i) as k. clear.
    revert d; induction n as [|n IH]; intros d k Hk; [lia|].
    destruct d as [|x r]; simpl; [now destruct k|].
    destruct k as [|k]; simpl; auto. apply IH. lia.
  - rewrite !get_outside; auto. rewrite length_firstn. lia.
Qed.

(** *** Loop lemmas *)

Lemma iter_up_S {S : Type} n i (body : Z -> S -> S) s :
  iter_up (Datatypes.S n) i body s = body (i + Z.of_nat n) (iter_up n i body s).
Proof.
  revert i s; induction n as [|n IH]; intros i s.
  - simpl. now rewrite Z.add_0_r.
  - change (iter_up (Datatypes.S (Datatypes.S n)) i body s)
      with (iter_up (Datatypes.S n) (i + 1) body (body i s)).
    rewrite IH. simpl iter_up at 2.
    f_equal. lia.
Qed.

(** An invariant that every iteration keeps holds when the loop is left. *)
Lemma for_range_inv {S : Type} (P : Z -> S -> Prop) lo hi (body : Z -> S -> S) s :
  lo <= hi ->
  P lo s ->
  (forall i t, lo <= i < hi -> P i t -> P (i + 1) (body i t)) ->
  P hi (for_range lo hi body s).
Proof.
  intros Hle H0 Hstep. unfold for_range.
  remember (Z.to_nat (hi - lo)) as n eqn:En.
  assert (Hhi : hi = lo + Z.of_nat n) by lia.
  clear En. subst hi.
  assert (Hgen : forall m, (m <= n)%nat -> P (lo + Z.of_nat m) (iter_up m lo body s)).
  { induction m as [|m IH]; intros Hm.
    - simpl. now rewrite Z.add_0_r.
    - rewrite iter_up_S.
      replace (lo + Z.of_nat (Datatypes.S m)) with (lo + Z.of_nat m + 1) by lia.
      apply Hstep; [lia|]. apply IH. lia. }
  apply Hgen. lia.
Qed.

Lemma for_range_empty {S : Type} lo hi (body : Z -> S -> S) s :
  hi <= lo -> for_range lo hi body s = s.
Proof.
  intros H. unfold for_range.
  replace (Z.to_nat (hi - lo)) with O by lia. reflexivity.
Qed.

Lemma for_range_ext {S : Type} lo hi (f g : Z -> S -> S) s :
  (forall i t, lo <= i < hi -> f i t = g i t) ->
  for_range lo hi f s = for_range lo hi g s.
Proof.
  intros H. unfold for_range.
  destruct (Z.le_gt_cases hi lo) as [Hle|Hlt].
  - replace (Z.to_nat (hi - lo)) with O by lia. reflexivity.
  - assert (Hn : lo + Z.of_nat (Z.to_nat (hi - lo)) <= hi) by lia.
    revert Hn. generalize (Z.to_nat (hi - lo)) as n. clear Hlt.
    intros n; revert lo s H; induction n as [|n IH]; intros lo s H Hn; simpl; auto.
    rewrite H by lia. apply IH; [|lia].
    intros i t Hi. apply H. lia.
Qed.

(** *** [std::size_t] arithmetic that stays in range *)

Lemma wrap_small z : 0 <= z < SizeT.modulus -> SizeT.wrap z = z.
Proof. intros H. unfold SizeT.wrap. now apply Z.mod_small. Qed.

Lemma size_add_small a b : 0 <= a + b < SizeT.modulus -> SizeT.add a b = a + b.
Proof. intros H. unfold SizeT.add. now apply wrap_small. Qed.

Lemma size_sub_small a b : 0 <= a - b < SizeT.modulus -> SizeT.sub a b = a - b.
Proof. intros H. unfold SizeT.sub. now apply wrap_small. Qed.

Lemma size_min_spec a b : SizeT.min a b = Z.min a b.
Proof. unfold SizeT.min. destruct (Z.ltb_spec b a); lia. Qed.

Lemma fs_min_spec a b : fs_detail.min a b = Z.min a b.
Proof. unfold fs_detail.min. destruct (Z.ltb_spec b a); lia. Qed.

Lemma modulus_value : SizeT.modulus = 18446744073709551616.
Proof. reflexivity. Qed.

Lemma npos_value : SizeT.npos = 18446744073709551615.
Proof. reflexivity. Qed.

(** *** Loops that store one unit per iteration *)

(** A loop that stores [g i] at offset [off + i] for [i] in [[0, n)]. *)
Lemma write_loop (d : list unit_t) off n (g : Z -> unit_t) :
  0 <= off ->
  let r := for_range 0 n (fun i e => set e (off + i) (g i)) d in
  length r = length d /\
  forall j, get r j =
            if (off <=? j) && (j <? off + n) && (j <? Z.of_nat (length d))
            then g (j - off) else get d j.
Proof.
  intros Hoff r. subst r.
  destruct (Z.le_gt_cases n 0) as [Hn|Hn].
  - rewrite for_range_empty by lia. split; auto.
    intros j. destruct (Z.leb_spec off j); destruct (Z.ltb_spec j (off + n)); simpl; auto; lia.
  - apply (for_range_inv
             (fun i t => length t = length d /\
                forall j, get t j =
                  if (off <=? j) && (j <? off + i) && (j <? Z.of_nat (length d))
                  then g (j - off) else get d j)); [lia| |].
    + split; auto. intros j.
      destruct (Z.leb_spec off j); destruct (Z.ltb_spec j (off + 0)); simpl; auto; lia.
    + intros i t Hi [Hl Hg]. rewrite length_set. split; auto.
      intros j.
      destruct (Z.eq_dec j (off + i)) as [->|Hne].
      * destruct (Z.ltb_spec (off + i) (Z.of_nat (length d))) as [Hin|Hout].
        -- rewrite get_set_same by lia.
           destruct (Z.leb_spec off (off + i)); destruct (Z.ltb_spec (off + i) (off + (i + 1)));
             simpl; try lia. f_equal. lia.
        -- rewrite set_outside by lia. rewrite Hg.
           destruct (Z.ltb_spec (off + i) (Z.of_nat (length d))); try lia.
           now rewrite !andb_false_r.
      * rewrite get_set_other by lia. rewrite Hg.
        destruct (Z.leb_spec off j); destruct (Z.ltb_spec j (off + i));
          destruct (Z.ltb_spec j (off + (i + 1))); simpl; auto; lia.
Qed.

Lemma write_loop_length (d : list unit_t) off n (g : Z -> unit_t) :
  0 <= off ->
  length (for_range 0 n (fun i e => set e (off + i) (g i)) d) = length d.
Proof. intros H. apply (write_loop d off n g H). Qed.

Lemma write_loop_get (d : list unit_t) off n (g : Z -> unit_t) j :
  0 <= off ->
  get (for_range 0 n (fun i e => set e (off + i) (g i)) d) j =
  if (off <=? j) && (j <? off + n) && (j <? Z.of_nat (length d))
  then g (j - off) else get d j.
Proof. intros H. apply (write_loop d off n g H). Qed.

(** The significant units of an object, read through [get]. *)
Lemma content_ext (s : fixed_string) (l : list unit_t) :
  0 <= len_ s <= Z.of_nat (length (data_ s)) ->
  Z.of_nat (length l) = len_ s ->
  (forall i, 0 <= i < len_ s -> get (data_ s) i = get l i) ->
  content s = l.
Proof.
  intros Hlen Hl H. unfold content.
  apply buffer_ext.
  - rewrite length_firstn. lia.
  - intros i Hi. rewrite length_firstn in Hi.
    rewrite get_firstn by lia. apply H. lia.
Qed.

Lemma length_content (s : fixed_string) :
  0 <= len_ s <= Z.of_nat (length (data_ s)) ->
  Z.of_nat (length (content s)) = len_ s.
Proof. intros H. unfold content. rewrite length_firstn. lia. Qed.

Lemma get_content (s : fixed_string) i :
  0 <= i < len_ s -> get (content s) i = get (data_ s) i.
Proof. intros H. unfold content. apply get_firstn. lia. Qed.

Lemma get_app_l (l r : list unit_t) i :
  i < Z.of_nat (length l) -> get (l ++ r) i = get l i.
Proof.
  intros H. destruct (Z.ltb_spec i 0).
  - now rewrite !get_negative.
  - rewrite !get_nth by (rewrite ?length_app; lia).
    apply app_nth1. lia.
Qed.

Lemma get_app_r (l r : list unit_t) i :
  Z.of_nat (length l) <= i -> get (l ++ r) i = get r (i - Z.of_nat (length l)).
Proof.
  intros H.
  destruct (Z.ltb_spec i (Z.of_nat (length (l ++ r)))) as [Hin|Hout].
  - rewrite length_app in Hin.
    rewrite !get_nth by (rewrite ?length_app; lia).
    rewrite app_nth2 by lia. f_equal. lia.
  - rewrite length_app in Hout. rewrite !get_outside; auto; try lia.
    rewrite length_app. lia.
Qed.

(** ** Construction and checked access *)

Lemma firstn_app_le {A : Type} n (l r : list A) :
  (n <= length l)%nat -> firstn n (l ++ r) = firstn n l.
Proof.
  intros H. rewrite firstn_app.
  replace (n - length l)%nat with O by lia. simpl. apply app_nil_r.
Qed.

(** A copy loop from offset 0 followed by the store of the terminator. *)
Lemma copy_then_terminate N (this : fixed_string) (str : list unit_t) len :
  extent_ok N this -> 0 <= len <= N -> len <= Z.of_nat (length str) ->
  let d := for_range 0 len (fun i d => set d (0 + i) (get str i)) (data_ this) in
  let s := mk_string (set d len 0) len in
  extent_ok N s /\ I1 s /\ content s = firstn (Z.to_nat len) str.
Proof.
  intros Hext Hlen Hsrc. cbv zeta. unfold extent_ok, I1 in *. cbn [data_ len_].
  assert (Hl : length (for_range 0 len (fun i d => set d (0 + i) (get str i)) (data_ this))
               = length (data_ this)) by (apply write_loop_length; lia).
  split; [|split].
  - rewrite length_set, Hl. exact Hext.
  - apply get_set_same. rewrite Hl. lia.
  - apply content_ext; cbn [data_ len_].
    + rewrite length_set, Hl. lia.
    + rewrite length_firstn. lia.
    + intros i Hi. rewrite get_set_other by lia.
      rewrite write_loop_get by lia.
      rewrite get_firstn by lia.
      destruct (Z.leb_spec 0 i); destruct (Z.ltb_spec i (0 + len));
        destruct (Z.ltb_spec i (Z.of_nat (length (data_ this)))); simpl; try lia.
      f_equal. lia.
Qed.

Lemma cs_assign_impl_spec N (this : fixed_string) (str : list unit_t) count :
  capacity_ok N -> extent_ok N this ->
  0 <= count -> Z.min count N <= Z.of_nat (length str) ->
  len_ (ConstantString.assign_impl N this str count) = Z.min count N /\
  extent_ok N (ConstantString.assign_impl N this str count) /\
  I1 (ConstantString.assign_impl N this str count) /\
  content (ConstantString.assign_impl N this str count)
  = firstn (Z.to_nat (Z.min count N)) str.
Proof.
  intros HN Hext Hc Hsrc. unfold ConstantString.assign_impl.
  assert (E : (if count <? N then count else N) = Z.min count N)
    by (destruct (Z.ltb_spec count N); lia).
  rewrite E. split; [reflexivity|].
  apply (copy_then_terminate N this str (Z.min count N)); auto.
  unfold capacity_ok in HN. lia.
Qed.

Lemma fs_store_spec Cap (this : fixed_string) (str : list unit_t) len :
  capacity_ok Cap -> extent_ok Cap this ->
  0 <= len -> Z.min len Cap <= Z.of_nat (length str) ->
  len_ (Fstring.store Cap this (Some str) len) = Z.min len Cap /\
  extent_ok Cap (Fstring.store Cap this (Some str) len) /\
  I1 (Fstring.store Cap this (Some str) len) /\
  content (Fstring.store Cap this (Some str) len)
  = firstn (Z.to_nat (Z.min len Cap)) str.
Proof.
  intros HN Hext Hc Hsrc. unfold Fstring.store, Fstring.capacity.
  rewrite fs_min_spec. rewrite (Z.min_comm Cap len).
  split; [reflexivity|].
  apply (copy_then_terminate Cap this str (Z.min len Cap)); auto.
  unfold capacity_ok in HN. lia.
Qed.

Lemma extent_value_init N : 0 <= N -> extent_ok N (value_init N).
Proof.
  intros H. unfold extent_ok, value_init. simpl. rewrite repeat_length. lia.
Qed.

Lemma storage_value_init N : 0 <= N -> storage_ok N (value_init N).
Proof.
  intros H. split; [|split].
  - now apply extent_value_init.
  - unfold I2. simpl. lia.
  - unfold I1. simpl. apply get_repeat.
Qed.

(** C3.  Construction from a source sequence [src] of length [L] -- by
    [assign_impl] of constant_string.hpp, by [store] of fstring_core.hpp, and
    by the array constructors built on them -- gives an object of length
    [min(L, Capacity)] whose significant units are the first [min(L, Capacity)]
    units of [src], with the terminator at [buffer[length()]].  The
    constructors are total functions: a longer source is cut without any error. *)
Theorem construction_truncates N (this : fixed_string) (src : list unit_t) :
  capacity_ok N -> extent_ok N this ->
  Z.of_nat (length src) < SizeT.npos ->
  let L := Z.of_nat (length src) in
  truncated_copy N src (ConstantString.assign_impl N this src L) /\
  truncated_copy N src (Fstring.store N this (Some src) L) /\
  truncated_copy N src (ConstantString.from_array N (src ++ [0])) /\
  truncated_copy N src (Fstring.from_array N (src ++ [0])).
Proof.
  intros HN Hext HL L. unfold truncated_copy. fold L.
  assert (HL0 : 0 <= L) by (subst L; lia).
  assert (HN0 : 0 <= N) by (unfold capacity_ok in HN; lia).
  assert (Hd : extent_ok N (value_init N)) by now apply extent_value_init.
  assert (Hlen1 : Z.of_nat (length (src ++ [0])) = L + 1)
    by (rewrite length_app; simpl; subst L; lia).
  assert (Hcut : firstn (Z.to_nat (Z.min L N)) (src ++ [0])
                 = firstn (Z.to_nat (Z.min L N)) src)
    by (apply firstn_app_le; subst L; lia).
  assert (Hfit : Z.min L N <= Z.of_nat (length src)) by (subst L; lia).
  assert (Hfit1 : Z.min L N <= Z.of_nat (length (src ++ [0]))) by lia.
  pose proof (cs_assign_impl_spec N this src L HN Hext HL0 Hfit) as (A1 & A2 & A3 & A4).
  pose proof (fs_store_spec N this src L HN Hext HL0 Hfit) as (B1 & B2 & B3 & B4).
  pose proof (cs_assign_impl_spec N (value_init N) (src ++ [0]) L HN Hd HL0 Hfit1)
    as (C1 & C2 & C3 & C4).
  assert (Hmm : Z.min (Z.min N L) N = Z.min L N) by lia.
  assert (Hfit2 : Z.min (Z.min N L) N <= Z.of_nat (length (src ++ [0]))) by lia.
  assert (Hmin0 : 0 <= Z.min N L) by lia.
  pose proof (fs_store_spec N (value_init N) (src ++ [0]) (Z.min N L) HN Hd Hmin0 Hfit2)
    as (D1 & D2 & D3 & D4).
  rewrite Hmm in D1, D4. rewrite Hcut in C4, D4.
  assert (Ecs : ConstantString.from_array N (src ++ [0])
                = ConstantString.assign_impl N (value_init N) (src ++ [0]) L).
  { unfold ConstantString.from_array, ConstantString.default. rewrite Hlen1.
    destruct (Z.ltb_spec 0 (L + 1)); try lia.
    now replace (L + 1 - 1) with L by lia. }
  assert (Efs : Fstring.from_array N (src ++ [0])
                = Fstring.store N (value_init N) (Some (src ++ [0])) (Z.min N L)).
  { unfold Fstring.from_array, Fstring.default. rewrite Hlen1.
    rewrite size_sub_small by (rewrite npos_value in HL; rewrite modulus_value; lia).
    rewrite fs_min_spec. now replace (L + 1 - 1) with L by lia. }
  rewrite Ecs, Efs. tauto.
Qed.

Lemma construction_truncates_witness :
  let src := [104; 101; 108; 108; 111] in
  let this := value_init 3 in
  truncated_copy 3 src (ConstantString.assign_impl 3 this src 5) /\
  truncated_copy 3 src (Fstring.store 3 this (Some src) 5) /\
  truncated_copy 3 src (ConstantString.from_array 3 (src ++ [0])) /\
  truncated_copy 3 src (Fstring.from_array 3 (src ++ [0])).
Proof.
  apply (construction_truncates 3 (value_init 3) [104; 101; 108; 108; 111]).
  - unfold capacity_ok. rewrite npos_value. lia.
  - reflexivity.
  - rewrite npos_value. simpl. lia.
Defined.

(** C4.  [at(i)] throws [std::out_of_range] exactly when [i >= length()], with
    no reference to the capacity, and otherwise returns the stored unit
    [data_[i]]; so [at(length())] always throws and [at(length() - 1)] returns
    the last unit of a non-empty string.  This holds for [string::at] of both
    constant_string headers and for [basic_fstring::at] as the repository
    configures it ([config::enable_bounds_check] is [true]). *)
Theorem at_fails_exactly_from_length (s : fixed_string) (i : Z) :
  (ConstantString.at_ s i = out_of_range <-> len_ s <= i) /\
  (Core.at_ s i = out_of_range <-> len_ s <= i) /\
  (Fstring.at_ s i = out_of_range <-> len_ s <= i) /\
  (i < len_ s ->
   ConstantString.at_ s i = Value (get (data_ s) i) /\
   Core.at_ s i = Value (get (data_ s) i) /\
   Fstring.at_ s i = Value (get (data_ s) i)) /\
  (ConstantString.at_ s (len_ s) = out_of_range /\
   Core.at_ s (len_ s) = out_of_range /\
   Fstring.at_ s (len_ s) = out_of_range) /\
  (0 < len_ s ->
   ConstantString.at_ s (len_ s - 1) = Value (get (data_ s) (len_ s - 1)) /\
   Core.at_ s (len_ s - 1) = Value (get (data_ s) (len_ s - 1)) /\
   Fstring.at_ s (len_ s - 1) = Value (get (data_ s) (len_ s - 1))).
Proof.
  unfold ConstantString.at_, Core.at_, Fstring.at_, Fstring.at_with,
    config.enable_bounds_check.
  cbn [andb].
  assert (Hself : (len_ s <=? len_ s) = true) by (apply Z.leb_le; lia).
  rewrite Hself.
  repeat split.
  - destruct (Z.leb_spec (len_ s) i); [lia | discriminate].
  - intros H. destruct (Z.leb_spec (len_ s) i); [reflexivity | lia].
  - destruct (Z.leb_spec (len_ s) i); [lia | discriminate].
  - intros H. destruct (Z.leb_spec (len_ s) i); [reflexivity | lia].
  - destruct (Z.leb_spec (len_ s) i); [lia | discriminate].
  - intros H. destruct (Z.leb_spec (len_ s) i); [reflexivity | lia].
  - destruct (Z.leb_spec (len_ s) i); [lia | reflexivity].
  - destruct (Z.leb_spec (len_ s) i); [lia | reflexivity].
  - destruct (Z.leb_spec (len_ s) i); [lia | reflexivity].
  - destruct (Z.leb_spec (len_ s) (len_ s - 1)); [lia | reflexivity].
  - destruct (Z.leb_spec (len_ s) (len_ s - 1)); [lia | reflexivity].
  - destruct (Z.leb_spec (len_ s) (len_ s - 1)); [lia | reflexivity].
Qed.

(** With [FSTRING_DISABLE_BOUNDS_CHECK] defined, [config::enable_bounds_check]
    is [false] and [basic_fstring::at] is the unchecked access. *)
Lemma at_without_bounds_check (s : fixed_string) (i : Z) :
  Fstring.at_with false s i = Value (Fstring.index s i).
Proof. reflexivity. Qed.

(** ** Appending *)

(** Arithmetic side conditions over [std::size_t]. *)
Ltac size_lia :=
  unfold capacity_ok, storage_ok, extent_ok, I1, I2, SizeT.npos, SizeT.in_range in *;
  rewrite ?modulus_value in *; lia.

(** The units stored behind the content by a loop, then the terminator. *)
Lemma extend_spec N (s : fixed_string) (g : Z -> unit_t) (l : list unit_t) n :
  storage_ok N s -> 0 <= n -> len_ s + n <= N ->
  Z.of_nat (length l) = n ->
  (forall i, 0 <= i < n -> get l i = g i) ->
  let d := for_range 0 n (fun i e => set e (len_ s + i) (g i)) (data_ s) in
  storage_ok N (mk_string (set d (len_ s + n) 0) (len_ s + n)) /\
  content (mk_string (set d (len_ s + n) 0) (len_ s + n)) = content s ++ l.
Proof.
  intros (Hext & Hlen & Hterm) Hn Hfit Hl Hg. cbv zeta.
  unfold storage_ok, extent_ok, I1, I2 in *. cbn [data_ len_].
  assert (Hd : length (for_range 0 n (fun i e => set e (len_ s + i) (g i)) (data_ s))
               = length (data_ s)) by (apply write_loop_length; lia).
  repeat split; try lia.
  - rewrite length_set, Hd. exact Hext.
  - apply get_set_same. rewrite Hd. lia.
  - apply content_ext; cbn [data_ len_].
    + rewrite length_set, Hd. lia.
    + rewrite length_app, Nat2Z.inj_add.
      assert (Z.of_nat (length (content s)) = len_ s) by (apply length_content; lia).
      lia.
    + intros i Hi. rewrite get_set_other by lia.
      rewrite write_loop_get by lia.
      assert (Hc : Z.of_nat (length (content s)) = len_ s) by (apply length_content; lia).
      destruct (Z.ltb_spec i (len_ s)) as [Hlt|Hge].
      * rewrite get_app_l by lia. rewrite get_content by lia.
        destruct (Z.leb_spec (len_ s) i); try lia. reflexivity.
      * rewrite get_app_r by lia. rewrite Hc.
        destruct (Z.leb_spec (len_ s) i); destruct (Z.ltb_spec i (len_ s + n));
          destruct (Z.ltb_spec i (Z.of_nat (length (data_ s)))); simpl; try lia.
        symmetry. apply Hg. lia.
Qed.

Lemma get_firstn_src (src : list unit_t) n i :
  0 <= i < n -> get (firstn (Z.to_nat n) src) i = get src i.
Proof. intros H. apply get_firstn. lia. Qed.

Lemma get_repeat_ch (ch : unit_t) n i :
  0 <= i < Z.of_nat n -> get (repeat ch n) i = ch.
Proof.
  intros H. rewrite get_nth by (rewrite repeat_length; lia).
  apply nth_repeat_lt. lia.
Qed.


(** What [append(str, len)] of fstring_core.hpp does, for any request. *)
Lemma fs_append_spec Cap (s : fixed_string) (src : list unit_t) k :
  capacity_ok Cap -> storage_ok Cap s ->
  0 <= k <= Z.of_nat (length src) ->
  let n := Z.min k (Cap - len_ s) in
  storage_ok Cap (Fstring.append Cap s (Some src) k) /\
  appended s src n (Fstring.append Cap s (Some src) k).
Proof.
  intros HN Hs Hk n. unfold Fstring.append, appended, Fstring.full, Fstring.available,
    Fstring.capacity.
  assert (Hs' := Hs). destruct Hs' as (Hext & Hlen & Hterm).
  destruct (Z.eqb_spec (len_ s) Cap) as [Hfull|Hroom]; cbn [negb].
  - subst n. replace (Z.min k (Cap - len_ s)) with 0 by size_lia.
    cbn [Z.to_nat firstn]. rewrite app_nil_r. repeat split; auto; try lia; apply Hs.
  - rewrite size_sub_small by size_lia. rewrite fs_min_spec.
    rewrite (Z.min_comm (Cap - len_ s) k). fold n.
    rewrite size_add_small by size_lia.
    unfold fs_detail.copy.
    destruct (extend_spec Cap s (get src) (firstn (Z.to_nat n) src) n) as (H1 & H2);
      auto; try size_lia.
    + rewrite length_firstn. size_lia.
    + intros i Hi. now apply get_firstn_src.
    + repeat split; auto; apply H1.
Qed.

(** What [append(str, count)] of constant_string.hpp does, for any request. *)
Lemma cs_append_spec N (s : fixed_string) (src : list unit_t) k :
  capacity_ok N -> storage_ok N s ->
  0 <= k <= Z.of_nat (length src) ->
  let n := Z.min k (N - len_ s) in
  snd (ConstantString.append N s src k) = n /\
  storage_ok N (fst (ConstantString.append N s src k)) /\
  appended s src n (fst (ConstantString.append N s src k)).
Proof.
  intros HN Hs Hk n. unfold ConstantString.append, appended.
  assert (Hs' := Hs). destruct Hs' as (Hext & Hlen & Hterm).
  rewrite size_sub_small by size_lia. rewrite size_min_spec. fold n.
  rewrite (size_add_small (len_ s) n) by size_lia.
  cbn [fst snd].
  rewrite (for_range_ext 0 n
             (fun i d => set d (SizeT.add (len_ s) i) (get src i))
             (fun i d => set d (len_ s + i) (get src i))).
  - destruct (extend_spec N s (get src) (firstn (Z.to_nat n) src) n) as (H1 & H2);
      auto; try size_lia.
    + rewrite length_firstn. size_lia.
    + intros i Hi. now apply get_firstn_src.
    + repeat split; auto; apply H1.
  - intros i d Hi. rewrite size_add_small by size_lia. reflexivity.
Qed.




(** The scenario of the specification: ["hello"] of capacity 10 with
    [" world"] appended is ["hello worl"], and five units were added. *)
Lemma append_example :
  let r := Core.append 10 (Core.from_array 10 [104; 101; 108; 108; 111; 0])
             (Some [32; 119; 111; 114; 108; 100]) 6 in
  content (fst r) = [104; 101; 108; 108; 111; 32; 119; 111; 114; 108] /\ snd r = 5.
Proof. split; vm_compute; reflexivity. Qed.

(** ** Searching *)

(** [string::find] of constant_string.hpp with an empty needle. *)
Lemma cs_find_empty_needle (s : fixed_string) (needle : list unit_t) (from : Z) :
  detail.strlen needle = 0 ->
  ConstantString.find s needle from = if from <=? len_ s then from else SizeT.npos.
Proof.
  intros H. unfold ConstantString.find. rewrite H. reflexivity.
Qed.

(** [basic_fstring::find] with an empty needle. *)
Lemma fs_find_empty_needle (s : fixed_string) (needle : list unit_t) (from : Z) :
  detail.strlen needle = 0 ->
  Fstring.find s (Some needle) from = if from <? len_ s then from else SizeT.npos.
Proof.
  intros H. unfold Fstring.find, fs_detail.length, fs_detail.find_str, Fstring.npos.
  rewrite H. cbn [Z.eqb].
  destruct (Z.leb_spec (len_ s) from); destruct (Z.ltb_spec from (len_ s));
    try lia; reflexivity.
Qed.

(** C8.  With an empty needle, [string::find] returns [from] when
    [from <= length()] and [npos] when [from > length()].
    [basic_fstring::find] leaves through its guard [pos >= length_] before it
    looks at the needle: it agrees for [from < length()] and for
    [from > length()], and at [from == length()] it returns [npos] where the
    claim and [string::find] return [from]. *)
Theorem find_empty_needle_at_length (s : fixed_string) (needle : list unit_t) (from : Z) :
  detail.strlen needle = 0 ->
  0 <= len_ s < SizeT.npos ->
  (from <= len_ s -> ConstantString.find s needle from = from) /\
  (len_ s < from -> ConstantString.find s needle from = SizeT.npos) /\
  (from < len_ s -> Fstring.find s (Some needle) from = from) /\
  (len_ s < from -> Fstring.find s (Some needle) from = SizeT.npos) /\
  Fstring.find s (Some needle) (len_ s) = SizeT.npos /\
  ConstantString.find s needle (len_ s) = len_ s /\
  Fstring.find s (Some needle) (len_ s) <> ConstantString.find s needle (len_ s).
Proof.
  intros H Hlen.
  assert (Hc := cs_find_empty_needle s needle).
  assert (Hf := fs_find_empty_needle s needle).
  repeat split.
  - intros Hle. rewrite Hc by auto. destruct (Z.leb_spec from (len_ s)); auto; lia.
  - intros Hgt. rewrite Hc by auto. destruct (Z.leb_spec from (len_ s)); auto; lia.
  - intros Hlt. rewrite Hf by auto. destruct (Z.ltb_spec from (len_ s)); auto; lia.
  - intros Hgt. rewrite Hf by auto. destruct (Z.ltb_spec from (len_ s)); auto; lia.
  - rewrite Hf by auto. destruct (Z.ltb_spec (len_ s) (len_ s)); auto; lia.
  - rewrite Hc by auto. destruct (Z.leb_spec (len_ s) (len_ s)); auto; lia.
  - rewrite Hf, Hc by auto.
    destruct (Z.ltb_spec (len_ s) (len_ s)); destruct (Z.leb_spec (len_ s) (len_ s));
      lia.
Qed.

(** The failing input of C8: [fstring<10> s("abc"); s.find("", 3)]. *)
Lemma find_empty_needle_at_length_witness :
  let s := Fstring.from_array 10 [97; 98; 99; 0] in
  (3 <= len_ s -> ConstantString.find s [] 3 = 3) /\
  (len_ s < 3 -> ConstantString.find s [] 3 = SizeT.npos) /\
  (3 < len_ s -> Fstring.find s (Some []) 3 = 3) /\
  (len_ s < 3 -> Fstring.find s (Some []) 3 = SizeT.npos) /\
  Fstring.find s (Some []) (len_ s) = SizeT.npos /\
  ConstantString.find s [] (len_ s) = len_ s /\
  Fstring.find s (Some []) (len_ s) <> ConstantString.find s [] (len_ s).
Proof.
  apply (find_empty_needle_at_length (Fstring.from_array 10 [97; 98; 99; 0]) [] 3).
  - reflexivity.
  - rewrite npos_value. vm_compute. split; congruence.
Defined.

(** The scenario of the specification: in ["hello world"] of capacity 20,
    ["world"] is found at 6 and ["xyz"] is not found. *)
Lemma find_examples :
  let s := Fstring.from_array 20 [104; 101; 108; 108; 111; 32; 119; 111; 114; 108; 100; 0] in
  ConstantString.find s [119; 111; 114; 108; 100] 0 = 6 /\
  Fstring.find s (Some [119; 111; 114; 108; 100]) 0 = 6 /\
  ConstantString.find s [120; 121; 122] 0 = SizeT.npos /\
  Fstring.find s (Some [120; 121; 122]) 0 = SizeT.npos.
Proof. repeat split; vm_compute; reflexivity. Qed.

(** ** Comparison *)

Lemma get_cons_succ (x : unit_t) (d : list unit_t) j :
  0 <= j -> get (x :: d) (j + 1) = get d j.
Proof.
  intros H. unfold get. cbn [length]. rewrite Nat2Z.inj_succ.
  destruct (Z.ltb_spec j (Z.of_nat (length d))) as [Hin|Hout].
  - destruct (Z.leb_spec 0 (j + 1)); destruct (Z.ltb_spec (j + 1) (Z.succ (Z.of_nat (length d))));
      destruct (Z.leb_spec 0 j); try lia. cbn [andb].
    replace (Z.to_nat (j + 1)) with (S (Z.to_nat j)) by lia. reflexivity.
  - destruct (Z.ltb_spec (j + 1) (Z.succ (Z.of_nat (length d)))); try lia.
    now rewrite !andb_false_r.
Qed.

Lemma units_S (d : list unit_t) i n :
  units d i (S n) = get d i :: units d (i + 1) n.
Proof.
  unfold units. cbn [seq map]. rewrite Z.add_0_r. f_equal.
  rewrite <- seq_shift, map_map. apply map_ext.
  intros k. f_equal. lia.
Qed.

Lemma units_cons (x : unit_t) (d : list unit_t) i n :
  0 <= i -> units (x :: d) (i + 1) n = units d i n.
Proof.
  intros H. unfold units. apply map_ext. intros k.
  replace (i + 1 + Z.of_nat k) with (i + Z.of_nat k + 1) by lia.
  apply get_cons_succ. lia.
Qed.

Lemma units_firstn (d : list unit_t) n :
  (n <= length d)%nat -> units d 0 n = firstn n d.
Proof.
  revert d; induction n as [|n IH]; intros d H; [reflexivity|].
  destruct d as [|x d]; [simpl in H; lia|].
  rewrite units_S. cbn [firstn]. f_equal.
  change (0 + 1) with (0 + 1). rewrite units_cons by lia.
  apply IH. simpl in H. lia.
Qed.

Lemma length_units (d : list unit_t) i n : length (units d i n) = n.
Proof. unfold units. now rewrite length_map, length_seq. Qed.

(** [detail::strcmp] is the lexicographic comparison of the [n] units. *)
Lemma strcmp_from_lex n (a b : list unit_t) i :
  detail.strcmp_from n a b i = tri_state (lex_compare (units a i n) (units b i n)).
Proof.
  revert i; induction n as [|n IH]; intros i; [reflexivity|].
  rewrite !units_S. cbn [detail.strcmp_from lex_compare].
  destruct (Z.compare_spec (get a i) (get b i)) as [E|L|G].
  - rewrite E, Z.ltb_irrefl. apply IH.
  - destruct (Z.ltb_spec (get a i) (get b i)); [reflexivity|lia].
  - destruct (Z.ltb_spec (get a i) (get b i)); [lia|].
    destruct (Z.ltb_spec (get b i) (get a i)); [reflexivity|lia].
Qed.

(** The comparison of two lists is the comparison of their common prefix,
    then of their lengths. *)
Lemma lex_compare_prefix (a b : list unit_t) :
  let m := Nat.min (length a) (length b) in
  lex_compare a b =
  match lex_compare (firstn m a) (firstn m b) with
  | Eq => Nat.compare (length a) (length b)
  | c => c
  end.
Proof.
  revert b; induction a as [|x a IH]; intros [|y b]; cbn; auto.
  destruct (x ?= y); auto.
Qed.

Lemma lex_compare_eq (a b : list unit_t) : lex_compare a b = Eq <-> a = b.
Proof.
  revert b; induction a as [|x a IH]; intros [|y b]; cbn; split; try easy.
  - destruct (Z.compare_spec x y) as [E|E|E]; try easy.
    intros Hl. f_equal; auto. now apply IH.
  - intros Hl. injection Hl as -> ->. rewrite Z.compare_refl. now apply IH.
Qed.

Lemma tri_state_zero c : tri_state c = 0 <-> c = Eq.
Proof. destruct c; simpl; split; intros; try easy; lia. Qed.

(** [string::compare] of constant_string.hpp is the lexicographic comparison
    of the significant units. *)
Lemma cs_compare_lexicographic (a b : fixed_string) :
  0 <= len_ a <= Z.of_nat (length (data_ a)) ->
  0 <= len_ b <= Z.of_nat (length (data_ b)) ->
  ConstantString.compare a b = tri_state (lex_compare (content a) (content b)).
Proof.
  intros Ha Hb. unfold ConstantString.compare, detail.strcmp.
  rewrite size_min_spec, strcmp_from_lex.
  set (m := Z.to_nat (Z.min (len_ a) (len_ b))).
  rewrite !units_firstn by lia.
  assert (Hla : length (content a) = Z.to_nat (len_ a))
    by (unfold content; rewrite length_firstn; lia).
  assert (Hlb : length (content b) = Z.to_nat (len_ b))
    by (unfold content; rewrite length_firstn; lia).
  assert (Hm : m = Nat.min (length (content a)) (length (content b))) by lia.
  assert (Ea : firstn m (data_ a) = firstn m (content a)).
  { unfold content. rewrite firstn_firstn. f_equal. lia. }
  assert (Eb : firstn m (data_ b) = firstn m (content b)).
  { unfold content. rewrite firstn_firstn. f_equal. lia. }
  rewrite Ea, Eb.
  rewrite (lex_compare_prefix (content a) (content b)). rewrite <- Hm.
  destruct (lex_compare (firstn m (content a)) (firstn m (content b))); cbn; auto.
  rewrite Hla, Hlb.
  destruct (Z.ltb_spec (len_ a) (len_ b)).
  - assert (E : (Z.to_nat (len_ a) ?= Z.to_nat (len_ b))%nat = Lt)
      by (apply Nat.compare_lt_iff; lia).
    now rewrite E.
  - destruct (Z.ltb_spec (len_ b) (len_ a)).
    + assert (E : (Z.to_nat (len_ a) ?= Z.to_nat (len_ b))%nat = Gt)
        by (apply Nat.compare_gt_iff; lia).
      now rewrite E.
    + assert (E : (Z.to_nat (len_ a) ?= Z.to_nat (len_ b))%nat = Eq)
        by (apply Nat.compare_eq_iff; lia).
      now rewrite E.
Qed.

(** [operator==] and [operator<=>] of constant_string.hpp derive from
    [compare]: they see the significant units only. *)
Lemma cs_operators_from_compare (a b : fixed_string) :
  0 <= len_ a <= Z.of_nat (length (data_ a)) ->
  0 <= len_ b <= Z.of_nat (length (data_ b)) ->
  (ConstantString.op_eq a b = true <-> content a = content b) /\
  ConstantString.op_spaceship a b = lex_compare (content a) (content b).
Proof.
  intros Ha Hb. unfold ConstantString.op_eq, ConstantString.op_spaceship.
  rewrite (cs_compare_lexicographic a b Ha Hb).
  split.
  - rewrite Z.eqb_eq, tri_state_zero. apply lex_compare_eq.
  - destruct (lex_compare (content a) (content b)); reflexivity.
Qed.

(** Equal significant units: [string]'s [==] holds and its ordering reports
    equality, whatever the arrays hold beyond [length()]. *)
Lemma cs_equal_content (a b : fixed_string) :
  0 <= len_ a <= Z.of_nat (length (data_ a)) ->
  0 <= len_ b <= Z.of_nat (length (data_ b)) ->
  content a = content b ->
  ConstantString.compare a b = 0 /\
  ConstantString.op_eq a b = true /\
  ConstantString.op_spaceship a b = Eq.
Proof.
  intros Ha Hb E.
  destruct (cs_operators_from_compare a b Ha Hb) as (H1 & H2).
  rewrite H2, (cs_compare_lexicographic a b Ha Hb).
  assert (L : lex_compare (content a) (content b) = Eq) by now apply lex_compare_eq.
  rewrite L. repeat split; auto. now apply H1.
Qed.

(** [basic_fstring::operator==] compares the significant units. *)
Lemma fs_op_eq_content (a b : fixed_string) :
  0 <= len_ a <= Z.of_nat (length (data_ a)) ->
  0 <= len_ b <= Z.of_nat (length (data_ b)) ->
  (Fstring.op_eq a b = true <-> content a = content b).
Proof.
  intros Ha Hb. unfold Fstring.op_eq, fs_detail.compare, detail.strcmp.
  rewrite fs_min_spec, strcmp_from_lex.
  set (m := Z.to_nat (Z.min (len_ a) (len_ b))).
  rewrite !units_firstn by lia.
  assert (Hla : length (content a) = Z.to_nat (len_ a))
    by (unfold content; rewrite length_firstn; lia).
  assert (Hlb : length (content b) = Z.to_nat (len_ b))
    by (unfold content; rewrite length_firstn; lia).
  assert (Ea : firstn m (data_ a) = firstn m (content a)).
  { unfold content. rewrite firstn_firstn. f_equal. lia. }
  assert (Eb : firstn m (data_ b) = firstn m (content b)).
  { unfold content. rewrite firstn_firstn. f_equal. lia. }
  rewrite Ea, Eb.
  destruct (Z.eqb_spec (tri_state (lex_compare (firstn m (content a)) (firstn m (content b)))) 0)
    as [E|E]; cbn [negb].
  - apply tri_state_zero, lex_compare_eq in E. rewrite Z.eqb_eq. split.
    + intros Hl.
      rewrite <- (firstn_all (content a)), <- (firstn_all (content b)).
      rewrite Hla, Hlb. replace (Z.to_nat (len_ a)) with m by lia.
      replace (Z.to_nat (len_ b)) with m by lia. exact E.
    + intros Hc. rewrite Hc in Hla. lia.
  - split; [discriminate|]. intros Hc. exfalso. apply E.
    apply tri_state_zero, lex_compare_eq. now rewrite Hc.
Qed.

(** C5.  Two [basic_fstring<char, 10>] objects with the same (empty) content
    and length: [a] is ["ab"] after [clear()], which leaves ['b'] in
    [data_[1]]; [b] is value-initialised.  [operator==] holds, as it does for
    [string] of constant_string.hpp, whose ordering also reports equality;
    the defaulted [operator<=>] of [basic_fstring] compares the whole array
    and reports [a > b]. *)
Theorem defaulted_ordering_reads_padding :
  let a := Fstring.clear (Fstring.from_array 10 [97; 98; 0]) in
  let b := Fstring.default 10 in
  (storage_ok 10 a /\ storage_ok 10 b) /\
  (content a = content b /\ len_ a = len_ b) /\
  (Fstring.op_eq a b = true /\
   ConstantString.op_eq a b = true /\
   ConstantString.op_spaceship a b = Eq) /\
  (Fstring.op_spaceship a b = Gt /\
   Fstring.op_gt a b = true /\
   Fstring.op_le a b = false).
Proof.
  cbv zeta.
  assert (Ha : storage_ok 10 (Fstring.clear (Fstring.from_array 10 [97; 98; 0])))
    by (repeat split; vm_compute; congruence).
  assert (Hb : storage_ok 10 (Fstring.default 10))
    by (apply storage_value_init; lia).
  assert (Hc : content (Fstring.clear (Fstring.from_array 10 [97; 98; 0]))
               = content (Fstring.default 10)) by reflexivity.
  split; [now split|]. split; [now split|]. split.
  - split; [|apply cs_equal_content; auto; vm_compute; split; congruence].
    apply fs_op_eq_content; auto; vm_compute; split; congruence.
  - repeat split; vm_compute; reflexivity.
Qed.

(** ** The storage invariants under the operations of constant_string_core.hpp *)

(** Storing the terminator at a length within the capacity establishes the
    invariants. *)
Lemma terminated_ok N (d : list unit_t) len :
  Z.of_nat (length d) = N + 1 -> 0 <= len <= N ->
  storage_ok N (mk_string (set d len 0) len).
Proof.
  intros Hd Hlen. unfold storage_ok, extent_ok, I1, I2. cbn [data_ len_].
  rewrite length_set. repeat split; auto; try lia.
  apply get_set_same. lia.
Qed.

Lemma memcpy_string_length d off src n :
  0 <= off -> length (core_detail.memcpy_string d off src n) = length d.
Proof. intros H. unfold core_detail.memcpy_string. now apply write_loop_length. Qed.

Lemma memset_string_length d off ch n :
  0 <= off -> length (core_detail.memset_string d off ch n) = length d.
Proof.
  intros H. unfold core_detail.memset_string.
  now apply (write_loop_length d off n (fun _ => ch)).
Qed.

Lemma memmove_string_length d dst src n :
  0 <= dst -> length (core_detail.memmove_string d dst src n) = length d.
Proof.
  intros H. unfold core_detail.memmove_string.
  now apply (write_loop_length d dst n (fun i => get d (src + i))).
Qed.

Lemma strlen_from_bounds fuel (str : list unit_t) len :
  len <= detail.strlen_from fuel str len <= len + Z.of_nat fuel.
Proof.
  revert len; induction fuel as [|fuel IH]; intros len; cbn [detail.strlen_from]; [lia|].
  destruct (get str len =? 0); [lia|].
  specialize (IH (len + 1)). lia.
Qed.

Lemma strlen_bounds (str : list unit_t) :
  0 <= detail.strlen str <= Z.of_nat (length str).
Proof.
  unfold detail.strlen. pose proof (strlen_from_bounds (length str) str 0). lia.
Qed.

Lemma core_assign_impl_ok N this str count :
  capacity_ok N -> storage_ok N this -> 0 <= count ->
  storage_ok N (Core.assign_impl N this str count).
Proof.
  intros HN (Hext & _) Hc. unfold Core.assign_impl.
  apply terminated_ok.
  - rewrite memcpy_string_length by lia. exact Hext.
  - destruct (Z.ltb_spec count N); size_lia.
Qed.

Lemma core_clear_ok N this :
  capacity_ok N -> storage_ok N this -> storage_ok N (Core.clear this).
Proof.
  intros HN (Hext & _). unfold Core.clear. apply terminated_ok; [exact Hext | size_lia].
Qed.

(** [operator=(CharT)] needs room for one unit. *)
Lemma core_assign_unit_ok N this ch :
  1 <= N -> storage_ok N this -> storage_ok N (Core.assign_unit this ch).
Proof.
  intros HN (Hext & _). unfold Core.assign_unit. apply terminated_ok.
  - rewrite length_set. exact Hext.
  - lia.
Qed.

Lemma core_push_back_ok N this ch :
  capacity_ok N -> storage_ok N this -> storage_ok N (fst (Core.push_back N this ch)).
Proof.
  intros HN Hs. assert (Hs' := Hs). destruct Hs' as (Hext & Hlen & _).
  unfold Core.push_back.
  destruct (Z.leb_spec N (len_ this)); cbn [fst]; auto.
  rewrite size_add_small by size_lia.
  apply terminated_ok; [rewrite length_set; exact Hext | size_lia].
Qed.

Lemma core_pop_back_ok N this :
  capacity_ok N -> storage_ok N this -> storage_ok N (Core.pop_back this).
Proof.
  intros HN Hs. assert (Hs' := Hs). destruct Hs' as (Hext & Hlen & _).
  unfold Core.pop_back.
  destruct (Z.ltb_spec 0 (len_ this)); auto.
  rewrite size_sub_small by size_lia.
  apply terminated_ok; [exact Hext | size_lia].
Qed.

Lemma core_append_ok N this str count :
  capacity_ok N -> storage_ok N this -> 0 <= count ->
  storage_ok N (fst (Core.append N this str count)).
Proof.
  intros HN Hs Hc. assert (Hs' := Hs). destruct Hs' as (Hext & Hlen & _).
  unfold Core.append. destruct str as [str|]; cbn [fst]; auto.
  destruct (count =? 0); cbn [orb fst]; auto.
  destruct (Z.leb_spec N (len_ this)); cbn [fst]; auto.
  rewrite size_sub_small by size_lia. rewrite size_min_spec.
  rewrite size_add_small by size_lia.
  apply terminated_ok.
  - rewrite memcpy_string_length by size_lia. exact Hext.
  - size_lia.
Qed.

Lemma core_append_fill_ok N this count ch :
  capacity_ok N -> storage_ok N this -> 0 <= count ->
  storage_ok N (fst (Core.append_fill N this count ch)).
Proof.
  intros HN Hs Hc. assert (Hs' := Hs). destruct Hs' as (Hext & Hlen & _).
  unfold Core.append_fill.
  destruct (count =? 0); cbn [orb fst]; auto.
  destruct (Z.leb_spec N (len_ this)); cbn [fst]; auto.
  rewrite size_sub_small by size_lia. rewrite size_min_spec.
  rewrite size_add_small by size_lia.
  apply terminated_ok.
  - rewrite memset_string_length by size_lia. exact Hext.
  - size_lia.
Qed.

Lemma core_insert_ok N this pos str count :
  capacity_ok N -> storage_ok N this -> 0 <= pos -> 0 <= count ->
  storage_ok N (Core.insert N this pos str count).
Proof.
  intros HN Hs Hp Hc. assert (Hs' := Hs). destruct Hs' as (Hext & Hlen & _).
  unfold Core.insert. destruct str as [str|]; auto.
  destruct (Z.ltb_spec (len_ this) pos); cbn [orb]; auto.
  destruct (count =? 0); cbn [orb]; auto.
  destruct (Z.leb_spec N (len_ this)); auto.
  rewrite !size_sub_small by size_lia. rewrite !size_min_spec.
  rewrite size_add_small by size_lia.
  apply terminated_ok.
  - rewrite memcpy_string_length by lia.
    destruct (0 <? len_ this - pos); [|exact Hext].
    rewrite memmove_string_length by lia. exact Hext.
  - size_lia.
Qed.

Lemma core_insert_fill_ok N this pos count ch :
  capacity_ok N -> storage_ok N this -> 0 <= pos -> 0 <= count ->
  storage_ok N (Core.insert_fill N this pos count ch).
Proof.
  intros HN Hs Hp Hc. assert (Hs' := Hs). destruct Hs' as (Hext & Hlen & _).
  unfold Core.insert_fill.
  destruct (Z.ltb_spec (len_ this) pos); cbn [orb]; auto.
  destruct (count =? 0); cbn [orb]; auto.
  destruct (Z.leb_spec N (len_ this)); auto.
  rewrite !size_sub_small by size_lia. rewrite !size_min_spec.
  rewrite size_add_small by size_lia.
  apply terminated_ok.
  - rewrite memset_string_length by lia.
    destruct (0 <? len_ this - pos); [|exact Hext].
    rewrite memmove_string_length by lia. exact Hext.
  - size_lia.
Qed.

Lemma core_erase_ok N this pos count :
  capacity_ok N -> storage_ok N this -> 0 <= pos -> 0 <= count ->
  storage_ok N (Core.erase this pos count) /\
  len_ (Core.erase this pos count) <= len_ this.
Proof.
  intros HN Hs Hp Hc. assert (Hs' := Hs). destruct Hs' as (Hext & Hlen & _).
  unfold Core.erase.
  destruct (Z.leb_spec (len_ this) pos); [split; auto; lia|].
  rewrite (size_sub_small (len_ this) pos) by size_lia. rewrite size_min_spec.
  rewrite (size_sub_small (len_ this) (Z.min _ _)) by size_lia.
  rewrite size_add_small by size_lia.
  rewrite size_sub_small by size_lia.
  cbn [len_]. split; [|lia].
  apply terminated_ok.
  - destruct (0 <? _); [|exact Hext].
    rewrite memmove_string_length by lia. exact Hext.
  - size_lia.
Qed.

Lemma core_replace_ok N this pos count str str_len :
  capacity_ok N -> storage_ok N this -> 0 <= pos -> 0 <= count -> 0 <= str_len ->
  storage_ok N (Core.replace N this pos count str str_len).
Proof.
  intros HN Hs Hp Hc Hl. unfold Core.replace.
  destruct str as [str|]; auto.
  destruct (len_ this <? pos); auto.
  apply core_insert_ok; auto.
  now apply core_erase_ok.
Qed.

Lemma core_resize_ok N this count ch :
  capacity_ok N -> storage_ok N this -> 0 <= count ->
  storage_ok N (Core.resize N this count ch).
Proof.
  intros HN Hs Hc. assert (Hs' := Hs). destruct Hs' as (Hext & Hlen & _).
  unfold Core.resize.
  apply terminated_ok.
  - destruct (len_ this <? _); [|exact Hext].
    rewrite memset_string_length by size_lia. exact Hext.
  - destruct (Z.ltb_spec N count); size_lia.
Qed.

(** I1 and I2 after every operation of [string] (constant_string_core.hpp)
    that changes the object; [operator=(CharT)], which stores two units
    whatever the capacity, is covered for capacities of at least one. *)
Lemma core_operations_keep_invariants N (op : Core.operation) (this : fixed_string) :
  capacity_ok N -> storage_ok N this -> Core.arguments_ok N op ->
  (forall ch, op = Core.op_assign_unit ch -> 1 <= N) ->
  storage_ok N (Core.run N op this).
Proof.
  intros HN Hs Ha Hunit.
  destruct op; cbn [Core.run Core.arguments_ok] in *; unfold SizeT.in_range in *.
  - unfold Core.assign_c_str. destruct str as [str|].
    + apply core_assign_impl_ok; auto. apply strlen_bounds.
    + now apply core_clear_ok.
  - apply core_assign_impl_ok; auto. lia.
  - apply core_assign_unit_ok; auto. now apply (Hunit ch).
  - now apply core_clear_ok.
  - now apply core_push_back_ok.
  - now apply core_pop_back_ok.
  - apply core_append_ok; auto. lia.
  - unfold Core.append_c_str. destruct str as [str|]; cbn [fst]; auto.
    apply core_append_ok; auto. apply strlen_bounds.
  - apply core_append_ok; auto. lia.
  - apply core_append_fill_ok; auto. lia.
  - apply core_insert_ok; auto; lia.
  - unfold Core.insert_c_str. destruct str as [str|]; auto.
    apply core_insert_ok; auto; try lia. apply strlen_bounds.
  - apply core_insert_ok; auto; lia.
  - apply core_insert_fill_ok; auto; lia.
  - apply core_erase_ok; auto; lia.
  - apply core_replace_ok; auto; lia.
  - unfold Core.replace_c_str. destruct str as [str|]; auto.
    apply core_replace_ok; auto; try lia. apply strlen_bounds.
  - apply core_replace_ok; auto; lia.
  - apply core_resize_ok; auto; lia.
  - exact Ha.
Qed.

(** I1 and I2 after every constructor of [string] (constant_string_core.hpp). *)
Lemma core_constructors_establish_invariants N :
  capacity_ok N ->
  storage_ok N (Core.default N) /\
  (forall str, storage_ok N (Core.from_c_str N str)) /\
  (forall str, storage_ok N (Core.from_array N str)) /\
  (forall count ch, 0 <= count -> storage_ok N (Core.from_fill N count ch)) /\
  (forall other, 0 <= len_ other -> storage_ok N (Core.from_string N other)) /\
  (forall str pos count, 0 <= pos -> 0 <= count ->
                         storage_ok N (Core.from_substring N str pos count)).
Proof.
  intros HN.
  assert (Hd : storage_ok N (value_init N)) by (apply storage_value_init; size_lia).
  refine (conj Hd (conj _ (conj _ (conj _ (conj _ _))))).
  - intros [s|]; unfold Core.from_c_str, Core.default; [|apply Hd].
    apply core_assign_impl_ok; auto. apply strlen_bounds.
  - intros arr. unfold Core.from_array, Core.default.
    apply core_assign_impl_ok; auto. destruct (Z.ltb_spec 0 (Z.of_nat (length arr))); lia.
  - intros count ch Hc. unfold Core.from_fill, Core.default.
    apply terminated_ok.
    + rewrite memset_string_length by lia. apply Hd.
    + destruct (Z.ltb_spec count N); size_lia.
  - intros other Hl. unfold Core.from_string, Core.default.
    now apply core_assign_impl_ok.
  - intros [s|] pos count Hp Hc; unfold Core.from_substring, Core.default; [|apply Hd].
    destruct (Z.ltb_spec pos (core_detail.strlen s)); [|apply Hd].
    apply core_assign_impl_ok; auto.
    destruct (count =? SizeT.npos); auto.
    unfold SizeT.sub, SizeT.wrap. apply Z.mod_pos_bound. rewrite modulus_value. lia.
Qed.

(** ** The storage invariants under the operations of the other two classes *)

Lemma iter_up_preserves {S : Type} (Q : S -> Prop) n i (body : Z -> S -> S) s :
  Q s -> (forall j t, Q t -> Q (body j t)) -> Q (iter_up n i body s).
Proof.
  intros H0 Hstep. revert i s H0; induction n as [|n IH]; intros i s H0; simpl; auto.
Qed.

Lemma for_range_preserves {S : Type} (Q : S -> Prop) lo hi (body : Z -> S -> S) s :
  Q s -> (forall j t, Q t -> Q (body j t)) -> Q (for_range lo hi body s).
Proof. intros H0 Hstep. unfold for_range. now apply iter_up_preserves. Qed.

Lemma for_down_preserves {S : Type} (Q : S -> Prop) hi lo (body : Z -> S -> S) s :
  Q s -> (forall j t, Q t -> Q (body j t)) -> Q (for_down hi lo body s).
Proof.
  intros H0 Hstep. unfold for_down.
  generalize (Z.to_nat (hi - lo)) as n. intros n.
  revert hi s H0; induction n as [|n IH]; intros hi s H0; simpl; auto.
Qed.

Lemma for_while_preserves {S : Type} (Q : S -> Prop) lo hi
  (cond : Z -> S -> bool) (body : Z -> S -> S) s :
  Q s -> (forall j t, Q t -> Q (body j t)) -> Q (for_while lo hi cond body s).
Proof.
  intros H0 Hstep. unfold for_while.
  generalize (Z.to_nat (hi - lo)) as n. intros n.
  revert lo s H0; induction n as [|n IH]; intros lo s H0; simpl; auto.
  destruct (cond lo s); auto.
Qed.

(** *** [string] of constant_string.hpp *)

Lemma cs_assign_impl_ok N this str count :
  capacity_ok N -> storage_ok N this -> 0 <= count ->
  storage_ok N (ConstantString.assign_impl N this str count).
Proof.
  intros HN (Hext & _) Hc. unfold ConstantString.assign_impl.
  apply terminated_ok.
  - apply (for_range_preserves (fun d => Z.of_nat (length d) = N + 1)); [exact Hext|].
    intros j t Ht. now rewrite length_set.
  - destruct (Z.ltb_spec count N); size_lia.
Qed.

Lemma cs_clear_ok N this :
  capacity_ok N -> storage_ok N this -> storage_ok N (ConstantString.clear this).
Proof.
  intros HN (Hext & _). unfold ConstantString.clear.
  apply terminated_ok; [exact Hext | size_lia].
Qed.

Lemma cs_push_back_ok N this ch :
  capacity_ok N -> storage_ok N this ->
  storage_ok N (fst (ConstantString.push_back N this ch)).
Proof.
  intros HN Hs. assert (Hs' := Hs). destruct Hs' as (Hext & Hlen & _).
  unfold ConstantString.push_back.
  destruct (Z.leb_spec N (len_ this)); cbn [fst]; auto.
  rewrite size_add_small by size_lia.
  apply terminated_ok; [rewrite length_set; exact Hext | size_lia].
Qed.

Lemma cs_pop_back_ok N this :
  capacity_ok N -> storage_ok N this -> storage_ok N (ConstantString.pop_back this).
Proof.
  intros HN Hs. assert (Hs' := Hs). destruct Hs' as (Hext & Hlen & _).
  unfold ConstantString.pop_back.
  destruct (Z.ltb_spec 0 (len_ this)); auto.
  rewrite size_sub_small by size_lia.
  apply terminated_ok; [exact Hext | size_lia].
Qed.

Lemma cs_append_ok N this str count :
  capacity_ok N -> storage_ok N this -> 0 <= count ->
  storage_ok N (fst (ConstantString.append N this str count)).
Proof.
  intros HN Hs Hc. assert (Hs' := Hs). destruct Hs' as (Hext & Hlen & _).
  unfold ConstantString.append. cbn [fst].
  rewrite size_sub_small by size_lia. rewrite size_min_spec.
  rewrite (size_add_small (len_ this) (Z.min _ _)) by size_lia.
  apply terminated_ok.
  - apply (for_range_preserves (fun d => Z.of_nat (length d) = N + 1)); [exact Hext|].
    intros j t Ht. now rewrite length_set.
  - size_lia.
Qed.

Lemma cs_append_fill_ok N this count ch :
  capacity_ok N -> storage_ok N this -> 0 <= count ->
  storage_ok N (fst (ConstantString.append_fill N this count ch)).
Proof.
  intros HN Hs Hc. assert (Hs' := Hs). destruct Hs' as (Hext & Hlen & _).
  unfold ConstantString.append_fill. cbn [fst].
  rewrite size_sub_small by size_lia. rewrite size_min_spec.
  rewrite (size_add_small (len_ this) (Z.min _ _)) by size_lia.
  apply terminated_ok.
  - apply (for_range_preserves (fun d => Z.of_nat (length d) = N + 1)); [exact Hext|].
    intros j t Ht. now rewrite length_set.
  - size_lia.
Qed.

Lemma cs_erase_ok N this pos count :
  capacity_ok N -> storage_ok N this -> 0 <= pos -> 0 <= count ->
  storage_ok N (ConstantString.erase this pos count).
Proof.
  intros HN Hs Hp Hc. assert (Hs' := Hs). destruct Hs' as (Hext & Hlen & _).
  unfold ConstantString.erase.
  destruct (Z.leb_spec (len_ this) pos); auto.
  rewrite (size_sub_small (len_ this) pos) by size_lia. rewrite size_min_spec.
  rewrite (size_sub_small (len_ this) (Z.min _ _)) by size_lia.
  apply terminated_ok.
  - apply (for_range_preserves (fun d => Z.of_nat (length d) = N + 1)); [exact Hext|].
    intros j t Ht. now rewrite length_set.
  - size_lia.
Qed.

Lemma cs_insert_ok N this pos str count :
  capacity_ok N -> storage_ok N this -> 0 <= pos -> 0 <= count ->
  storage_ok N (ConstantString.insert N this pos str count).
Proof.
  intros HN Hs Hp Hc. assert (Hs' := Hs). destruct Hs' as (Hext & Hlen & _).
  unfold ConstantString.insert.
  destruct (Z.ltb_spec (len_ this) pos); auto.
  rewrite (size_sub_small N (len_ this)) by size_lia. rewrite !size_min_spec.
  rewrite (size_add_small (len_ this) (Z.min _ _)) by size_lia.
  apply terminated_ok.
  - apply (for_while_preserves (fun d => Z.of_nat (length d) = N + 1)).
    + apply (for_down_preserves (fun d => Z.of_nat (length d) = N + 1)); [exact Hext|].
      intros j t Ht. destruct (_ <=? _); auto. now rewrite length_set.
    + intros j t Ht. now rewrite length_set.
  - size_lia.
Qed.

Lemma cs_replace_ok N this pos count str str_len :
  capacity_ok N -> storage_ok N this -> 0 <= pos -> 0 <= count -> 0 <= str_len ->
  storage_ok N (ConstantString.replace N this pos count str str_len).
Proof.
  intros HN Hs Hp Hc Hl. unfold ConstantString.replace.
  apply cs_insert_ok; auto. now apply cs_erase_ok.
Qed.

(** *** [basic_fstring] *)

Lemma fs_copy_length d off src n :
  0 <= off -> length (fs_detail.copy d off src n) = length d.
Proof. intros H. unfold fs_detail.copy. now apply write_loop_length. Qed.

Lemma fs_fill_length d off ch n :
  0 <= off -> length (fs_detail.fill d off ch n) = length d.
Proof.
  intros H. unfold fs_detail.fill. now apply (write_loop_length d off n (fun _ => ch)).
Qed.

Lemma fs_move_length d dst src n :
  0 <= dst -> length (fs_detail.move d dst src n) = length d.
Proof.
  intros H. unfold fs_detail.move.
  now apply (write_loop_length d dst n (fun i => get d (src + i))).
Qed.

Lemma fs_store_ok Cap this str len :
  capacity_ok Cap -> storage_ok Cap this -> 0 <= len ->
  storage_ok Cap (Fstring.store Cap this str len).
Proof.
  intros HN Hs Hl. unfold Fstring.store, Fstring.capacity.
  destruct str as [str|]; auto. destruct Hs as (Hext & _).
  rewrite fs_min_spec. apply terminated_ok.
  - rewrite fs_copy_length by lia. exact Hext.
  - size_lia.
Qed.

Lemma fs_assign_unit_ok Cap this ch :
  1 <= Cap -> storage_ok Cap this -> storage_ok Cap (Fstring.assign_unit this ch).
Proof.
  intros HN (Hext & _). unfold Fstring.assign_unit. apply terminated_ok.
  - rewrite length_set. exact Hext.
  - lia.
Qed.

Lemma fs_append_ok Cap this str len :
  capacity_ok Cap -> storage_ok Cap this -> 0 <= len ->
  storage_ok Cap (Fstring.append Cap this str len).
Proof.
  intros HN Hs Hl. assert (Hs' := Hs). destruct Hs' as (Hext & Hlen & _).
  unfold Fstring.append, Fstring.full, Fstring.available, Fstring.capacity.
  destruct str as [str|]; auto.
  destruct (Z.eqb_spec (len_ this) Cap); cbn [negb]; auto.
  rewrite size_sub_small by size_lia. rewrite fs_min_spec.
  rewrite size_add_small by size_lia.
  apply terminated_ok.
  - rewrite fs_copy_length by size_lia. exact Hext.
  - size_lia.
Qed.

Lemma fs_append_c_str_ok Cap this str :
  capacity_ok Cap -> storage_ok Cap this ->
  storage_ok Cap (Fstring.append_c_str Cap this str).
Proof.
  intros HN Hs. assert (Hs' := Hs). destruct Hs' as (Hext & Hlen & _).
  unfold Fstring.append_c_str, Fstring.full, Fstring.available, Fstring.capacity.
  destruct str as [str|]; auto.
  destruct (Z.eqb_spec (len_ this) Cap); cbn [negb]; auto.
  pose proof (strlen_bounds str). unfold fs_detail.length.
  rewrite size_sub_small by size_lia. rewrite fs_min_spec.
  rewrite size_add_small by size_lia.
  apply terminated_ok.
  - rewrite fs_copy_length by size_lia. exact Hext.
  - size_lia.
Qed.

Lemma fs_append_fill_ok Cap this count ch :
  capacity_ok Cap -> storage_ok Cap this -> 0 <= count ->
  storage_ok Cap (Fstring.append_fill Cap this count ch).
Proof.
  intros HN Hs Hl. assert (Hs' := Hs). destruct Hs' as (Hext & Hlen & _).
  unfold Fstring.append_fill, Fstring.available, Fstring.capacity.
  rewrite size_sub_small by size_lia. rewrite fs_min_spec.
  rewrite size_add_small by size_lia.
  apply terminated_ok.
  - rewrite fs_fill_length by size_lia. exact Hext.
  - size_lia.
Qed.

Lemma fs_pop_back_ok Cap this :
  capacity_ok Cap -> storage_ok Cap this -> storage_ok Cap (Fstring.pop_back this).
Proof.
  intros HN Hs. assert (Hs' := Hs). destruct Hs' as (Hext & Hlen & _).
  unfold Fstring.pop_back.
  destruct (Z.ltb_spec 0 (len_ this)); auto.
  rewrite size_sub_small by size_lia.
  apply terminated_ok; [exact Hext | size_lia].
Qed.

Lemma fs_shift_right_length Cap this index count :
  0 <= index -> 0 <= count ->
  length (Fstring.shift_right Cap this index count) = length (data_ this).
Proof.
  intros Hi Hc. unfold Fstring.shift_right.
  destruct ((count =? 0) || (len_ this <? index)); auto.
  apply fs_move_length. lia.
Qed.

Lemma fs_shift_left_length this index count :
  0 <= index ->
  length (Fstring.shift_left this index count) = length (data_ this).
Proof.
  intros Hi. unfold Fstring.shift_left.
  destruct ((count =? 0) || (len_ this <=? index)); auto.
  now apply fs_move_length.
Qed.

Lemma fs_insert_ok Cap this index str :
  capacity_ok Cap -> storage_ok Cap this -> 0 <= index ->
  storage_ok Cap (Fstring.insert Cap this index str).
Proof.
  intros HN Hs Hi. assert (Hs' := Hs). destruct Hs' as (Hext & Hlen & _).
  unfold Fstring.insert, Fstring.full, Fstring.available, Fstring.capacity.
  destruct str as [str|]; auto.
  destruct (Z.eqb_spec (len_ this) Cap); cbn [negb andb]; auto.
  destruct (Z.leb_spec index (len_ this)); auto.
  pose proof (strlen_bounds str). unfold fs_detail.length.
  rewrite size_sub_small by size_lia. rewrite fs_min_spec.
  destruct (Z.ltb_spec 0 (Z.min (Cap - len_ this) (detail.strlen str))); auto.
  rewrite size_add_small by size_lia.
  apply terminated_ok.
  - rewrite fs_copy_length by lia. rewrite fs_shift_right_length by lia. exact Hext.
  - size_lia.
Qed.

Lemma fs_insert_unit_ok Cap this index ch :
  capacity_ok Cap -> storage_ok Cap this -> 0 <= index ->
  storage_ok Cap (Fstring.insert_unit Cap this index ch).
Proof.
  intros HN Hs Hi. assert (Hs' := Hs). destruct Hs' as (Hext & Hlen & _).
  unfold Fstring.insert_unit, Fstring.full, Fstring.capacity.
  destruct (Z.eqb_spec (len_ this) Cap); cbn [negb andb]; auto.
  destruct (Z.leb_spec index (len_ this)); auto.
  rewrite size_add_small by size_lia.
  apply terminated_ok.
  - rewrite length_set. rewrite fs_shift_right_length by lia. exact Hext.
  - size_lia.
Qed.

(** [erase] keeps the invariants when [index + count] does not wrap. *)
Lemma fs_erase_ok Cap this index count :
  capacity_ok Cap -> storage_ok Cap this -> 0 <= index -> 0 <= count ->
  index + count < SizeT.modulus ->
  storage_ok Cap (Fstring.erase this index count).
Proof.
  intros HN Hs Hi Hc Hsum. assert (Hs' := Hs). destruct Hs' as (Hext & Hlen & _).
  unfold Fstring.erase.
  destruct (Z.ltb_spec index (len_ this)); auto.
  rewrite size_add_small by lia.
  destruct (count =? Fstring.npos); cbn [orb].
  - apply terminated_ok; [exact Hext | size_lia].
  - destruct (Z.leb_spec (len_ this) (index + count)).
    + apply terminated_ok; [exact Hext | size_lia].
    + rewrite size_sub_small by size_lia.
      apply terminated_ok.
      * rewrite fs_shift_left_length by lia. exact Hext.
      * size_lia.
Qed.

Lemma fs_resize_ok Cap this new_size ch :
  capacity_ok Cap -> storage_ok Cap this -> 0 <= new_size ->
  storage_ok Cap (Fstring.resize Cap this new_size ch).
Proof.
  intros HN Hs Hc. assert (Hs' := Hs). destruct Hs' as (Hext & Hlen & _).
  unfold Fstring.resize, Fstring.capacity. rewrite fs_min_spec.
  apply terminated_ok.
  - destruct (len_ this <? _); [|exact Hext].
    rewrite fs_fill_length by size_lia. exact Hext.
  - size_lia.
Qed.

(** C1.  Two operations leave [length() > Capacity]:
    - [operator=(CharT)] stores [len_ = 1] and writes [data_[1]] whatever the
      capacity; on a string of capacity 0 (the default template argument, and
      what the deduction guide gives for [""]) the length is 1 and the
      terminator is written past the one-unit array, in [string] of
      constant_string_core.hpp and in [basic_fstring] alike;
    - [basic_fstring::erase(index, count)] tests [index + count >= length_], a
      sum that wraps for a [count] close to [npos]; the branch taken then
      subtracts [count] from [length_], which wraps upwards:
      [fstring<5>("hello").erase(2, npos - 1)] ends with [length_ == 7].
    [string::erase] clamps with [std::min(count, len_ - pos)] and keeps the
    invariants on the same arguments. *)
Theorem invariants_broken_by_assign_unit_and_erase :
  let s0 := Core.default 0 in
  let f0 := Fstring.default 0 in
  let h := Fstring.from_array 5 [104; 101; 108; 108; 111; 0] in
  let count := SizeT.npos - 1 in
  (storage_ok 0 s0 /\
   len_ (Core.run 0 (Core.op_assign_unit 120) s0) = 1 /\
   ~ I2 0 (Core.run 0 (Core.op_assign_unit 120) s0)) /\
  (storage_ok 0 f0 /\
   len_ (Fstring.assign_unit f0 120) = 1 /\
   ~ I2 0 (Fstring.assign_unit f0 120)) /\
  (storage_ok 5 h /\ SizeT.in_range count /\
   len_ (Fstring.erase h 2 count) = 7 /\
   ~ I2 5 (Fstring.erase h 2 count) /\
   storage_ok 5 (Core.erase h 2 count) /\
   content (Core.erase h 2 count) = [104; 101]).
Proof.
  cbv zeta.
  assert (H0 : storage_ok 0 (value_init 0)) by (apply storage_value_init; lia).
  assert (Hh : storage_ok 5 (Fstring.from_array 5 [104; 101; 108; 108; 111; 0]))
    by (repeat split; vm_compute; congruence).
  assert (Hc : SizeT.in_range (SizeT.npos - 1))
    by (unfold SizeT.in_range; rewrite npos_value, modulus_value; lia).
  split; [|split].
  - split; [exact H0|]. split; [reflexivity|].
    unfold I2. cbn. lia.
  - split; [exact H0|]. split; [reflexivity|].
    unfold I2. cbn. lia.
  - split; [exact Hh|]. split; [exact Hc|].
    assert (E : len_ (Fstring.erase (Fstring.from_array 5 [104; 101; 108; 108; 111; 0])
                        2 (SizeT.npos - 1)) = 7) by (vm_compute; reflexivity).
    split; [exact E|]. split.
    + unfold I2. rewrite E. lia.
    + split.
      * apply core_erase_ok; auto; try lia;
          unfold capacity_ok; rewrite npos_value; lia.
      * vm_compute. reflexivity.
Qed.

(** ** [split] *)

Lemma iter_while_inv {S : Type} (P : Z -> S -> Prop) (Q : S -> Prop)
  n i (cond : Z -> S -> bool) (body : Z -> S -> S) s :
  P i s ->
  (forall j t, i <= j < i + Z.of_nat n -> P j t -> cond j t = true -> P (j + 1) (body j t)) ->
  (forall j t, i <= j -> P j t -> cond j t = false -> Q t) ->
  (forall t, P (i + Z.of_nat n) t -> Q t) ->
  Q (iter_while n i cond body s).
Proof.
  revert i s; induction n as [|n IH]; intros i s H0 Hstep Hstop Hend.
  - simpl. apply Hend. now rewrite Z.add_0_r.
  - cbn [iter_while]. destruct (cond i s) eqn:Ec.
    + apply IH.
      * apply Hstep; auto. lia.
      * intros j t Hj. apply Hstep. lia.
      * intros j t Hj. apply Hstop. lia.
      * intros t Ht. apply Hend. now replace (i + Z.of_nat (Datatypes.S n)) with (i + 1 + Z.of_nat n) by lia.
    + apply (Hstop i); auto. lia.
Qed.

(** The fields of the specification are never empty... *)
Lemma fields_nonempty delimiter pending l :
  Forall (fun seg => seg <> []) (algorithms.fields delimiter pending l).
Proof.
  revert pending; induction l as [|c r IH]; intros pending; cbn [algorithms.fields].
  - destruct pending as [|p ps]; constructor; auto.
    intros E. apply (f_equal (@length unit_t)) in E.
    rewrite length_rev in E. discriminate.
  - destruct (c =? delimiter); auto.
    destruct pending as [|p ps]; auto.
    constructor; auto.
    intros E. apply (f_equal (@length unit_t)) in E.
    rewrite length_rev in E. discriminate.
Qed.

(** ... hold no delimiter ... *)
Lemma fields_no_delimiter delimiter pending l :
  Forall (fun c => c <> delimiter) pending ->
  Forall (fun seg => Forall (fun c => c <> delimiter) seg)
         (algorithms.fields delimiter pending l).
Proof.
  revert pending; induction l as [|c r IH]; intros pending Hp; cbn [algorithms.fields].
  - destruct pending as [|p ps]; constructor; auto.
    apply Forall_rev. exact Hp.
  - destruct (Z.eqb_spec c delimiter) as [E|E].
    + destruct pending as [|p ps]; auto.
      constructor; auto. apply Forall_rev. exact Hp.
    + apply IH. constructor; auto.
Qed.

(** ... and, put end to end, are the units of the input other than the
    delimiter, in the order of the input. *)
Lemma fields_in_scan_order delimiter pending l :
  concat (algorithms.fields delimiter pending l)
  = rev pending ++ filter (fun c => negb (c =? delimiter)) l.
Proof.
  revert pending; induction l as [|c r IH]; intros pending; cbn [algorithms.fields filter].
  - destruct pending as [|p ps]; [reflexivity|].
    cbn [concat]. now rewrite !app_nil_r.
  - destruct (c =? delimiter); cbn [negb].
    + destruct pending as [|p ps]; [apply IH|].
      cbn [concat]. rewrite IH. reflexivity.
    + rewrite IH. cbn [rev]. now rewrite <- app_assoc.
Qed.

Lemma content_nil_iff (s : fixed_string) :
  0 <= len_ s <= Z.of_nat (length (data_ s)) ->
  (content s = [] <-> len_ s = 0).
Proof.
  intros H. split; intros E.
  - apply (f_equal (@length unit_t)) in E.
    pose proof (length_content s H). simpl in E. lia.
  - unfold content. rewrite E. reflexivity.
Qed.

Lemma fs_clear_spec Cap (s : fixed_string) :
  capacity_ok Cap -> storage_ok Cap s ->
  storage_ok Cap (Fstring.clear s) /\ content (Fstring.clear s) = [].
Proof.
  intros HN (Hext & _). split; [|reflexivity].
  unfold Fstring.clear. apply terminated_ok; [exact Hext | size_lia].
Qed.

Lemma fs_append_unit_spec Cap (s : fixed_string) ch :
  capacity_ok Cap -> storage_ok Cap s -> len_ s < Cap ->
  storage_ok Cap (Fstring.append_unit Cap s ch) /\
  content (Fstring.append_unit Cap s ch) = content s ++ [ch].
Proof.
  intros HN Hs Hroom. assert (Hs' := Hs). destruct Hs' as (Hext & Hlen & Hterm).
  unfold Fstring.append_unit, Fstring.full, Fstring.capacity.
  destruct (Z.eqb_spec (len_ s) Cap); [lia|]. cbn [negb].
  rewrite size_add_small by size_lia.
  assert (Hok : storage_ok Cap
                  (mk_string (set (set (data_ s) (len_ s) ch) (len_ s + 1) 0) (len_ s + 1))).
  { apply terminated_ok; [rewrite length_set; exact Hext | size_lia]. }
  split; [exact Hok|].
  unfold extent_ok, I2 in *.
  apply content_ext; cbn [data_ len_].
  - rewrite !length_set. lia.
  - rewrite length_app, Nat2Z.inj_add.
    assert (Z.of_nat (length (content s)) = len_ s) by (apply length_content; lia).
    simpl. lia.
  - intros i Hi.
    assert (Hc : Z.of_nat (length (content s)) = len_ s) by (apply length_content; lia).
    rewrite get_set_other by lia.
    destruct (Z.eq_dec i (len_ s)) as [->|Hne].
    + rewrite get_set_same by lia.
      rewrite get_app_r by lia. rewrite Hc, Z.sub_diag. reflexivity.
    + rewrite get_set_other by lia.
      rewrite get_app_l by lia. rewrite get_content by lia. reflexivity.
Qed.

Lemma fs_append_unit_len Cap (s : fixed_string) ch :
  capacity_ok Cap -> storage_ok Cap s -> len_ s < Cap ->
  len_ (Fstring.append_unit Cap s ch) = len_ s + 1.
Proof.
  intros HN (_ & Hlen & _) Hroom.
  unfold Fstring.append_unit, Fstring.full, Fstring.capacity.
  destruct (Z.eqb_spec (len_ s) Cap); [lia|]. cbn [negb len_].
  apply size_add_small. size_lia.
Qed.

Lemma firstn_upd_snoc {A : Type} (l : list A) n (v : A) :
  (n < length l)%nat -> firstn (S n) (upd l n v) = firstn n l ++ [v].
Proof.
  revert n; induction l as [|x l IH]; intros [|n] H; simpl in *; try lia; auto.
  f_equal. apply IH. lia.
Qed.

Lemma skipn_get (l : list unit_t) i :
  0 <= i < Z.of_nat (length l) ->
  skipn (Z.to_nat i) l = get l i :: skipn (Z.to_nat (i + 1)) l.
Proof.
  intros H. rewrite get_nth by lia.
  replace (Z.to_nat (i + 1)) with (S (Z.to_nat i)) by lia.
  assert (Hk : (Z.to_nat i < length l)%nat) by lia.
  revert Hk. generalize (Z.to_nat i) as k. clear.
  induction l as [|x l IH]; intros [|k] Hk; simpl in *; try lia; auto.
  apply IH. lia.
Qed.

Lemma emitted_emit (result : algorithms.result_t) (current : fixed_string) MaxParts :
  Z.of_nat (length (algorithms.parts result)) = MaxParts ->
  0 <= algorithms.count result < MaxParts ->
  MaxParts < SizeT.modulus ->
  algorithms.emitted (algorithms.emit result current)
  = algorithms.emitted result ++ [current] /\
  algorithms.count (algorithms.emit result current) = algorithms.count result + 1 /\
  length (algorithms.parts (algorithms.emit result current))
  = length (algorithms.parts result).
Proof.
  intros Hp Hc HM. unfold algorithms.emit, algorithms.emitted, algorithms.set_part.
  cbn [algorithms.parts algorithms.count].
  rewrite size_add_small by lia.
  destruct (Z.leb_spec 0 (algorithms.count result)); try lia.
  destruct (Z.ltb_spec (algorithms.count result) (Z.of_nat (length (algorithms.parts result))));
    try lia.
  cbn [andb]. rewrite length_upd.
  replace (Z.to_nat (algorithms.count result + 1))
    with (S (Z.to_nat (algorithms.count result))) by lia.
  rewrite firstn_upd_snoc by lia. auto.
Qed.

Lemma split_step_invariant Cap MaxParts str delimiter i st :
  capacity_ok Cap -> storage_ok Cap str -> 0 <= MaxParts < SizeT.modulus ->
  0 <= i < len_ str ->
  split_invariant Cap MaxParts str delimiter i st ->
  algorithms.count (fst st) < MaxParts ->
  split_invariant Cap MaxParts str delimiter (i + 1)
    (algorithms.split_step Cap str delimiter i st).
Proof.
  intros HN Hstr HM Hi Hinv Hcount. destruct st as (result, current).
  destruct Hinv as (Hp & Hc & Hcur & Hlen & Hacc). cbn [fst] in Hcount.
  assert (Hstr' := Hstr). destruct Hstr' as (Hext & Hl & _).
  unfold extent_ok, I2 in Hext, Hl.
  assert (Hclen : Z.of_nat (length (content str)) = len_ str)
    by (apply length_content; lia).
  rewrite (skipn_get (content str) i) in Hacc by lia.
  rewrite get_content in Hacc by lia.
  unfold algorithms.split_step, Fstring.index.
  cbn [algorithms.fields] in Hacc.
  assert (Hcur' := Hcur). destruct Hcur' as (Hcext & Hcl & _).
  unfold extent_ok, I2 in Hcext, Hcl.
  assert (Hnil : content current = [] <-> len_ current = 0)
    by (apply content_nil_iff; lia).
  destruct (get (data_ str) i =? delimiter).
  - unfold Fstring.empty. destruct (Z.eqb_spec (len_ current) 0) as [E0|E0]; cbn [negb].
    + apply Hnil in E0. rewrite E0 in Hacc. cbn [rev] in Hacc.
      unfold split_invariant. rewrite E0. cbn [rev].
      refine (conj Hp (conj Hc (conj Hcur (conj _ Hacc)))). lia.
    + destruct (emitted_emit result current MaxParts) as (E1 & E2 & E3); auto; try lia.
      destruct (fs_clear_spec Cap current HN Hcur) as (K1 & K2).
      unfold split_invariant. rewrite E1, E2, E3, K2. cbn [rev].
      refine (conj Hp (conj _ (conj K1 (conj _ _)))); try lia.
      * cbn [Fstring.clear len_]. lia.
      * rewrite map_app. cbn [map]. rewrite <- app_assoc. cbn [app].
        rewrite <- Hacc. f_equal.
        destruct (rev (content current)) as [|p ps] eqn:Er.
        -- exfalso. apply E0, Hnil.
           apply (f_equal (@rev unit_t)) in Er. now rewrite rev_involutive in Er.
        -- rewrite <- Er, rev_involutive. reflexivity.
  - destruct (fs_append_unit_spec Cap current (get (data_ str) i) HN Hcur) as (A1 & A2);
      [lia|].
    unfold split_invariant. rewrite A2. rewrite rev_app_distr. cbn [rev app].
    refine (conj Hp (conj Hc (conj A1 (conj _ Hacc)))).
    assert (len_ (Fstring.append_unit Cap current (get (data_ str) i)) = len_ current + 1).
    { unfold Fstring.append_unit, Fstring.full, Fstring.capacity.
      destruct (Z.eqb_spec (len_ current) Cap); [lia|]. cbn [negb len_].
      apply size_add_small. size_lia. }
    lia.
Qed.

(** [split] refines the specification: the segments it emits are the
    non-empty fields of the content, in order, cut at [MaxParts]. *)
Lemma split_refines_spec Cap MaxParts (str : fixed_string) (delimiter : unit_t) :
  capacity_ok Cap -> storage_ok Cap str -> 0 <= MaxParts < SizeT.modulus ->
  map content (algorithms.emitted (algorithms.split Cap MaxParts str delimiter))
  = algorithms.split_spec MaxParts delimiter (content str) /\
  Z.of_nat (length (algorithms.emitted (algorithms.split Cap MaxParts str delimiter)))
  = algorithms.count (algorithms.split Cap MaxParts str delimiter) /\
  algorithms.count (algorithms.split Cap MaxParts str delimiter) <= MaxParts.
Proof.
  intros HN Hstr HM. unfold algorithms.split, algorithms.split_spec, for_while,
    Fstring.length.
  assert (Hstr' := Hstr). destruct Hstr' as (Hext & Hl & _).
  unfold extent_ok, I2 in Hext, Hl.
  assert (Hclen : Z.of_nat (length (content str)) = len_ str)
    by (apply length_content; lia).
  set (M := Z.to_nat MaxParts).
  set (spec := algorithms.fields delimiter [] (content str)).
  apply (iter_while_inv
           (fun i st => i <= len_ str /\ split_invariant Cap MaxParts str delimiter i st)
           (fun st =>
              let r := let (result, current) := st in
                       if negb (Fstring.empty current)
                          && (algorithms.count result <? MaxParts)
                       then algorithms.emit result current else result in
              map content (algorithms.emitted r) = firstn M spec /\
              Z.of_nat (length (algorithms.emitted r)) = algorithms.count r /\
              algorithms.count r <= MaxParts)).
  - split; [lia|]. unfold split_invariant.
    cbn [algorithms.parts algorithms.count].
    rewrite repeat_length.
    assert (Hd : storage_ok Cap (Fstring.default Cap))
      by (apply storage_value_init; size_lia).
    repeat split; try apply Hd; try lia.
  - intros j t Hj (Hle & Hinv) Hcond. cbn [fst] in Hcond.
    apply Z.ltb_lt in Hcond. split; [lia|].
    apply split_step_invariant; auto. lia.
  - (* left because [count == MaxParts] *)
    intros j (result, current) Hj (Hle & Hinv) Hcond. cbn [fst] in Hcond.
    apply Z.ltb_ge in Hcond. cbv zeta.
    destruct Hinv as (Hp & Hc & Hcur & Hlen & Hacc).
    destruct (Z.ltb_spec (algorithms.count result) MaxParts); try lia.
    rewrite andb_false_r.
    assert (Hem : length (algorithms.emitted result) = M).
    { unfold algorithms.emitted. rewrite length_firstn. lia. }
    repeat split; try lia.
    subst spec. rewrite <- Hacc.
    rewrite firstn_app. rewrite length_map, Hem, Nat.sub_diag. cbn [firstn].
    rewrite app_nil_r. symmetry. apply firstn_all2. rewrite length_map. lia.
  - (* left at the end of the input *)
    intros (result, current) (Hle & Hinv). cbv zeta.
    destruct Hinv as (Hp & Hc & Hcur & Hlen & Hacc).
    replace (0 + Z.of_nat (Z.to_nat (len_ str - 0))) with (len_ str) in Hacc by lia.
    rewrite skipn_all2 in Hacc by lia. cbn [algorithms.fields] in Hacc.
    assert (Hcur' := Hcur). destruct Hcur' as (Hcext & Hcl & _).
    unfold extent_ok, I2 in Hcext, Hcl.
    assert (Hnil : content current = [] <-> len_ current = 0)
      by (apply content_nil_iff; lia).
    assert (Hem : length (algorithms.emitted result) = Z.to_nat (algorithms.count result)).
    { unfold algorithms.emitted. rewrite length_firstn. lia. }
    unfold Fstring.empty. destruct (Z.eqb_spec (len_ current) 0) as [E0|E0]; cbn [negb andb].
    + apply Hnil in E0. rewrite E0 in Hacc. cbn [rev] in Hacc. rewrite app_nil_r in Hacc.
      repeat split; try lia.
      subst spec. rewrite <- Hacc. symmetry. apply firstn_all2.
      rewrite length_map. lia.
    + assert (Hrev : rev (content current) <> []).
      { intros Er. apply E0, Hnil.
        apply (f_equal (@rev unit_t)) in Er. now rewrite rev_involutive in Er. }
      destruct (rev (content current)) as [|p ps] eqn:Er; [congruence|].
      rewrite <- Er, rev_involutive in Hacc.
      destruct (Z.ltb_spec (algorithms.count result) MaxParts) as [Hlt|Hge].
      * destruct (emitted_emit result current MaxParts) as (E1 & E2 & E3); auto; try lia.
        rewrite E1, E2. rewrite length_app. cbn [length].
        repeat split; try lia.
        subst spec. rewrite <- Hacc. rewrite map_app. cbn [map].
        symmetry. apply firstn_all2. rewrite length_app, length_map. cbn [length]. lia.
      * repeat split; try lia.
        subst spec. rewrite <- Hacc.
        rewrite firstn_app. rewrite length_map.
        replace (M - length (algorithms.emitted result))%nat with O by lia.
        cbn [firstn]. rewrite app_nil_r. symmetry. apply firstn_all2.
        rewrite length_map. lia.
Qed.

Lemma Forall_firstn {A : Type} (P : A -> Prop) n (l : list A) :
  Forall P l -> Forall P (firstn n l).
Proof.
  intros H. revert n; induction H as [|x l Hx Hl IH]; intros [|n]; simpl; auto.
Qed.

(** C6.  [split] emits the fields between delimiters in the order of the
    scan; every emitted segment is non-empty and holds no delimiter (empty
    fields, from runs of delimiters or a leading delimiter, are dropped); at
    most [MaxParts] segments are produced; when that bound is not reached
    nothing is lost -- the segments put end to end are all the units other
    than the delimiter, the trailing one included.  ["a,,b"] split on [','] is
    the two segments ["a"] and ["b"]. *)
Theorem split_drops_empty_segments Cap MaxParts (str : fixed_string) (delimiter : unit_t) :
  capacity_ok Cap -> storage_ok Cap str -> 0 <= MaxParts < SizeT.modulus ->
  let r := algorithms.split Cap MaxParts str delimiter in
  let segments := map content (algorithms.emitted r) in
  segments = algorithms.split_spec MaxParts delimiter (content str) /\
  Forall (fun seg => seg <> []) segments /\
  Forall (fun seg => Forall (fun c => c <> delimiter) seg) segments /\
  Z.of_nat (length segments) = algorithms.count r /\
  algorithms.count r <= MaxParts /\
  (algorithms.count r < MaxParts ->
   concat segments = filter (fun c => negb (c =? delimiter)) (content str)) /\
  map content
    (algorithms.emitted (algorithms.split 30 16 (Fstring.from_array 30 [97; 44; 44; 98; 0]) 44))
  = [[97]; [98]].
Proof.
  intros HN Hstr HM r segments.
  destruct (split_refines_spec Cap MaxParts str delimiter HN Hstr HM) as (H1 & H2 & H3).
  fold r in H1, H2, H3. fold segments in H1.
  assert (Hlen : Z.of_nat (length segments) = algorithms.count r)
    by (subst segments; now rewrite length_map).
  split; [exact H1|]. split; [|split; [|split; [exact Hlen|split; [exact H3|split]]]].
  - rewrite H1. unfold algorithms.split_spec. apply Forall_firstn, fields_nonempty.
  - rewrite H1. unfold algorithms.split_spec. apply Forall_firstn, fields_no_delimiter.
    constructor.
  - intros Hlt.
    assert (Hall : segments = algorithms.fields delimiter [] (content str)).
    { rewrite H1. unfold algorithms.split_spec. apply firstn_all2.
      rewrite H1 in Hlen. unfold algorithms.split_spec in Hlen.
      rewrite length_firstn in Hlen. lia. }
    rewrite Hall. apply (fields_in_scan_order delimiter [] (content str)).
  - vm_compute. reflexivity.
Qed.

Lemma split_drops_empty_segments_witness :
  let str := Fstring.from_array 30 [44; 97; 98; 44; 44; 99; 0] in
  let r := algorithms.split 30 2 str 44 in
  let segments := map content (algorithms.emitted r) in
  segments = algorithms.split_spec 2 44 (content str) /\
  Forall (fun seg => seg <> []) segments /\
  Forall (fun seg => Forall (fun c => c <> 44) seg) segments /\
  Z.of_nat (length segments) = algorithms.count r /\
  algorithms.count r <= 2 /\
  (algorithms.count r < 2 ->
   concat segments = filter (fun c => negb (c =? 44)) (content str)) /\
  map content
    (algorithms.emitted (algorithms.split 30 16 (Fstring.from_array 30 [97; 44; 44; 98; 0]) 44))
  = [[97]; [98]].
Proof.
  apply (split_drops_empty_segments 30 2 (Fstring.from_array 30 [44; 97; 98; 44; 44; 99; 0]) 44).
  - unfold capacity_ok. rewrite npos_value. lia.
  - repeat split; vm_compute; congruence.
  - rewrite modulus_value. lia.
Defined.

(** ** Integer conversions *)

Lemma pow2_pos w : 0 <= w -> 0 < 2 ^ w.
Proof. intros H. apply Z.pow_pos_nonneg; lia. Qed.

Lemma pow2_double w : 0 < w -> 2 ^ w = 2 * 2 ^ (w - 1).
Proof.
  intros H. replace w with (1 + (w - 1)) at 1 by lia.
  rewrite Z.pow_add_r by lia. reflexivity.
Qed.

Lemma convert_representable T z :
  0 < conversions.bits T -> conversions.representable T z -> conversions.convert T z = z.
Proof.
  unfold conversions.representable, conversions.min_value, conversions.max_value,
    conversions.convert.
  intros Hw Hz. pose proof (pow2_double _ Hw).
  pose proof (pow2_pos (conversions.bits T - 1)).
  destruct (conversions.is_signed T).
  - rewrite Z.mod_small by lia. lia.
  - apply Z.mod_small. lia.
Qed.

Lemma convert_range T z :
  0 < conversions.bits T -> conversions.representable T (conversions.convert T z).
Proof.
  unfold conversions.representable, conversions.min_value, conversions.max_value,
    conversions.convert.
  intros Hw. pose proof (pow2_double _ Hw).
  pose proof (pow2_pos (conversions.bits T - 1)).
  destruct (conversions.is_signed T).
  - pose proof (Z.mod_pos_bound (z + 2 ^ (conversions.bits T - 1)) (2 ^ conversions.bits T)).
    lia.
  - pose proof (Z.mod_pos_bound z (2 ^ conversions.bits T)). lia.
Qed.

(** The stored value is congruent to the exact one modulo [2 ^ bits]. *)
Lemma convert_mod T z :
  0 < conversions.bits T ->
  conversions.convert T z mod 2 ^ conversions.bits T = z mod 2 ^ conversions.bits T.
Proof.
  unfold conversions.convert. intros Hw.
  pose proof (pow2_pos (conversions.bits T)).
  destruct (conversions.is_signed T).
  - rewrite Zminus_mod, Zmod_mod, <- Zminus_mod. f_equal. lia.
  - now rewrite Zmod_mod.
Qed.

Lemma convert_congr T a b :
  a mod 2 ^ conversions.bits T = b mod 2 ^ conversions.bits T ->
  conversions.convert T a = conversions.convert T b.
Proof.
  unfold conversions.convert. intros H.
  destruct (conversions.is_signed T).
  - f_equal. rewrite Zplus_mod, H, <- Zplus_mod. reflexivity.
  - exact H.
Qed.

Lemma convert_step T r b d :
  0 < conversions.bits T ->
  conversions.convert T (conversions.convert T r * b + d) = conversions.convert T (r * b + d).
Proof.
  intros Hw. apply convert_congr.
  rewrite Zplus_mod, Zmult_mod, (convert_mod T r Hw), <- Zmult_mod, <- Zplus_mod.
  reflexivity.
Qed.

Lemma convert_neg T z :
  0 < conversions.bits T ->
  conversions.convert T (- conversions.convert T z) = conversions.convert T (- z).
Proof.
  intros Hw. apply convert_congr.
  rewrite <- (Z.sub_0_l (conversions.convert T z)), <- (Z.sub_0_l z).
  rewrite Zminus_mod, (convert_mod T z Hw), <- Zminus_mod. reflexivity.
Qed.

Lemma convert_zero T : 0 < conversions.bits T -> conversions.convert T 0 = 0.
Proof.
  intros Hw. apply convert_representable; auto.
  unfold conversions.representable, conversions.min_value, conversions.max_value.
  pose proof (pow2_pos (conversions.bits T - 1)). pose proof (pow2_pos (conversions.bits T)).
  destruct (conversions.is_signed T); lia.
Qed.

(** The loop of [parse_int], from index [i] on, reads the rest of the
    content as [parse_list] does. *)
Lemma parse_digits_list T (str : fixed_string) base i result :
  0 <= len_ str <= Z.of_nat (length (data_ str)) -> 0 <= i <= len_ str ->
  conversions.parse_digits (Z.to_nat (len_ str - i)) T str base i result
  = parse_list T base (skipn (Z.to_nat i) (content str)) result.
Proof.
  intros Hlen Hi.
  remember (Z.to_nat (len_ str - i)) as fuel eqn:Ef.
  revert i result Hi Ef; induction fuel as [|fuel IH]; intros i result Hi Ef.
  - assert (i = len_ str) by lia. subst i.
    rewrite skipn_all2 by (pose proof (length_content str Hlen); lia).
    reflexivity.
  - assert (Hlt : i < len_ str) by lia.
    rewrite (skipn_get (content str) i) by (pose proof (length_content str Hlen); lia).
    rewrite get_content by lia.
    cbn [conversions.parse_digits parse_list]. unfold Fstring.length, Fstring.index.
    destruct (Z.ltb_spec i (len_ str)); try lia.
    destruct ((conversions.digit_of (get (data_ str) i) <? 0)
              || (base <=? conversions.digit_of (get (data_ str) i))); auto.
    apply IH; lia.
Qed.

(** Over valid digits only, [parse_list] computes the number they denote,
    modulo [2 ^ bits]. *)
Lemma parse_list_valid T base (l : list unit_t) r :
  0 < conversions.bits T ->
  Forall (fun ch => 0 <= conversions.digit_of ch < base) l ->
  parse_list T base l (conversions.convert T r)
  = conversions.convert T
      (fold_left (fun acc d => acc * base + d) (map conversions.digit_of l) r).
Proof.
  intros Hw H. revert r; induction H as [|ch l Hch Hl IH]; intros r; [reflexivity|].
  cbn [parse_list map fold_left].
  destruct (Z.ltb_spec (conversions.digit_of ch) 0); try lia.
  destruct (Z.leb_spec base (conversions.digit_of ch)); try lia.
  cbn [orb]. rewrite convert_step by auto. apply IH.
Qed.

Lemma storage_bounds Cap (s : fixed_string) :
  storage_ok Cap s -> 0 <= len_ s <= Z.of_nat (length (data_ s)).
Proof. intros (Hext & Hlen & _). unfold extent_ok, I2 in *. lia. Qed.

Lemma content_head (s : fixed_string) :
  0 <= len_ s <= Z.of_nat (length (data_ s)) -> 0 < len_ s ->
  content s = get (data_ s) 0 :: skipn 1 (content s).
Proof.
  intros Hb Hpos. pose proof (length_content s Hb).
  pose proof (skipn_get (content s) 0) as E. cbn [Z.to_nat skipn] in E.
  rewrite E at 1 by lia. rewrite get_content by lia. reflexivity.
Qed.

(** The sign test of [parse_int] on a string that starts with a digit. *)
Lemma digit_is_no_sign ch :
  0 <= conversions.digit_of ch -> (ch =? 45) = false /\ (ch =? 43) = false.
Proof.
  intros H. split; apply Z.eqb_neq; intros ->; vm_compute in H; apply H; reflexivity.
Qed.

(** [parse_int] is [parse_int_spec] of the content. *)
Lemma parse_int_refines_spec T Cap (str : fixed_string) base :
  0 < conversions.bits T -> storage_ok Cap str ->
  conversions.parse_int T str base = parse_int_spec T base (content str).
Proof.
  intros Hw Hs. pose proof (storage_bounds Cap str Hs) as Hb.
  unfold conversions.parse_int, parse_int_spec, Fstring.empty.
  destruct (Z.eqb_spec (len_ str) 0) as [E0|E0].
  - assert (Hc : content str = []) by (apply content_nil_iff; auto).
    rewrite Hc. reflexivity.
  - assert (Hpos : 0 < len_ str) by lia.
    rewrite (content_head str Hb Hpos) at 1.
    unfold signed_prefix, Fstring.index, Fstring.length.
    rewrite <- (content_head str Hb Hpos).
    destruct (conversions.is_signed T).
    + destruct (get (data_ str) 0 =? 45).
      * rewrite (parse_digits_list T str base 1 0) by lia. reflexivity.
      * destruct (get (data_ str) 0 =? 43).
        -- rewrite (parse_digits_list T str base 1 0) by lia. reflexivity.
        -- rewrite (parse_digits_list T str base 0 0) by lia. reflexivity.
    + rewrite (parse_digits_list T str base 0 0) by lia. reflexivity.
Qed.

(** [parse_int] on an optional sign followed by digits of the base only. *)
Lemma parse_int_digits T Cap (str : fixed_string) base :
  0 < conversions.bits T -> storage_ok Cap str ->
  Forall (fun ch => 0 <= conversions.digit_of ch < base)
         (snd (signed_prefix T (content str))) ->
  conversions.parse_int T str base
  = conversions.convert T
      (let magnitude :=
         horner base (map conversions.digit_of (snd (signed_prefix T (content str)))) in
       if fst (signed_prefix T (content str)) then - magnitude else magnitude).
Proof.
  intros Hw Hs Hd.
  rewrite (parse_int_refines_spec T Cap str base Hw Hs). unfold parse_int_spec.
  destruct (signed_prefix T (content str)) as (negative, rest). cbn [fst snd] in *.
  cbv zeta.
  assert (E : parse_list T base rest 0
              = conversions.convert T (horner base (map conversions.digit_of rest))).
  { rewrite <- (convert_zero T Hw) at 1. now apply parse_list_valid. }
  rewrite E. destruct negative.
  - now apply convert_neg.
  - reflexivity.
Qed.

(** C10.  [parse_int] has no overflow test: on an optional sign followed by
    digits of the base it returns the number they denote reduced modulo
    [2 ^ w] into the range of [IntT], whatever that number -- so also when it
    lies outside the range, where the result differs from it and is neither
    an error nor a clamped value nor a forced zero (["300"] read as an 8-bit
    unsigned integer is 44, ["-200"] read as an 8-bit signed integer is 56). *)
Theorem parse_int_wraps_around T Cap (str : fixed_string) (base : Z) :
  int_type_ok T -> storage_ok Cap str ->
  Forall (fun ch => 0 <= conversions.digit_of ch < base)
         (snd (signed_prefix T (content str))) ->
  let magnitude :=
    horner base (map conversions.digit_of (snd (signed_prefix T (content str)))) in
  let value := if fst (signed_prefix T (content str)) then - magnitude else magnitude in
  let w := conversions.bits T in
  conversions.parse_int T str base = conversions.convert T value /\
  conversions.parse_int T str base mod 2 ^ w = value mod 2 ^ w /\
  conversions.representable T (conversions.parse_int T str base) /\
  (~ conversions.representable T value -> conversions.parse_int T str base <> value) /\
  conversions.parse_int (conversions.mk_int 8 false)
    (Fstring.from_array 10 [51; 48; 48; 0]) 10 = 44 /\
  conversions.parse_int (conversions.mk_int 8 true)
    (Fstring.from_array 10 [45; 50; 48; 48; 0]) 10 = 56.
Proof.
  intros (Hw & _) Hs Hd magnitude value w.
  assert (E : conversions.parse_int T str base = conversions.convert T value)
    by now apply (parse_int_digits T Cap).
  rewrite E. split; [reflexivity|]. split; [now apply convert_mod|].
  split; [now apply convert_range|].
  split; [|split; vm_compute; reflexivity].
  intros Hover Heq. apply Hover. rewrite <- Heq. now apply convert_range.
Qed.

Lemma parse_int_wraps_around_witness :
  let T := conversions.mk_int 8 true in
  let str := Fstring.from_array 10 [45; 50; 48; 48; 0] in
  let magnitude :=
    horner 10 (map conversions.digit_of (snd (signed_prefix T (content str)))) in
  let value := if fst (signed_prefix T (content str)) then - magnitude else magnitude in
  conversions.parse_int T str 10 = conversions.convert T value /\
  conversions.parse_int T str 10 mod 2 ^ 8 = value mod 2 ^ 8 /\
  conversions.representable T (conversions.parse_int T str 10) /\
  (~ conversions.representable T value -> conversions.parse_int T str 10 <> value) /\
  conversions.parse_int (conversions.mk_int 8 false)
    (Fstring.from_array 10 [51; 48; 48; 0]) 10 = 44 /\
  conversions.parse_int (conversions.mk_int 8 true)
    (Fstring.from_array 10 [45; 50; 48; 48; 0]) 10 = 56.
Proof.
  apply (parse_int_wraps_around (conversions.mk_int 8 true) 10
           (Fstring.from_array 10 [45; 50; 48; 48; 0]) 10).
  - unfold int_type_ok. rewrite npos_value. simpl. lia.
  - repeat split; vm_compute; congruence.
  - repeat constructor; vm_compute; congruence.
Defined.

(** ** The soft-zero policy of the parsers *)

(** No digit after the optional sign: zero. *)
Lemma parse_int_spec_no_digit T base (l : list unit_t) :
  0 < conversions.bits T ->
  match snd (signed_prefix T l) with
  | [] => True
  | ch :: _ => valid_digit base ch = false
  end ->
  parse_int_spec T base l = 0.
Proof.
  intros Hw H. unfold parse_int_spec.
  destruct (signed_prefix T l) as (negative, rest). cbn [snd] in H.
  assert (E : parse_list T base rest 0 = 0).
  { destruct rest as [|ch rest]; [reflexivity|].
    cbn [parse_list]. unfold valid_digit in H.
    destruct (Z.leb_spec 0 (conversions.digit_of ch));
      destruct (Z.ltb_spec (conversions.digit_of ch) base); cbn [andb] in H; try discriminate.
    - destruct (Z.ltb_spec (conversions.digit_of ch) 0); try lia.
      destruct (Z.leb_spec base (conversions.digit_of ch)); try lia. reflexivity.
    - destruct (Z.ltb_spec (conversions.digit_of ch) 0); try lia. reflexivity.
    - destruct (Z.ltb_spec (conversions.digit_of ch) 0); try lia. reflexivity. }
  rewrite E. destruct negative; auto. now apply convert_zero.
Qed.

Section ParseFloatFacts.

Variable FloatT : Type.
Variable f_zero : FloatT.
Variable f_of_int : Z -> FloatT.
Variable f_add : FloatT -> FloatT -> FloatT.
Variable f_mul : FloatT -> FloatT -> FloatT.
Variable f_neg : FloatT -> FloatT.
Variable f_tenth : FloatT.
Variable f_mul_tenth : FloatT -> FloatT.
Variable f_pow10 : Z -> FloatT.

Lemma parse_float_empty (str : fixed_string) :
  len_ str = 0 ->
  conversions.parse_float FloatT f_zero f_of_int f_add f_mul f_neg f_tenth f_mul_tenth f_pow10 str
  = f_zero.
Proof.
  intros E. unfold conversions.parse_float, Fstring.empty. now rewrite E.
Qed.

Lemma parse_float_no_number (str : fixed_string) :
  0 < len_ str -> starts_number (Fstring.index str 0) = false ->
  conversions.parse_float FloatT f_zero f_of_int f_add f_mul f_neg f_tenth f_mul_tenth f_pow10 str
  = f_zero.
Proof.
  intros Hpos H. unfold starts_number in H.
  apply orb_false_iff in H as (H & E69).
  apply orb_false_iff in H as (H & E101).
  apply orb_false_iff in H as (H & E46).
  apply orb_false_iff in H as (H & Edig).
  apply orb_false_iff in H as (E45 & E43).
  unfold conversions.parse_float, Fstring.empty.
  destruct (Z.eqb_spec (len_ str) 0); [lia|].
  rewrite E45, E43.
  assert (Hint : conversions.integer_part FloatT f_of_int f_add f_mul str (f_zero, 0)
                 = (f_zero, 0)).
  { unfold conversions.integer_part. cbn [snd fst].
    destruct (Z.to_nat (Fstring.length str - 0)); [reflexivity|].
    cbn [while_loop snd]. rewrite Edig.
    now rewrite andb_false_r. }
  cbv beta iota zeta. rewrite Hint.
  rewrite E46, andb_false_r. cbv beta iota zeta.
  rewrite E101, E69. cbn [orb]. rewrite andb_false_r. reflexivity.
Qed.

End ParseFloatFacts.

(** ** What [parse_float] reads *)

Lemma span_digits_spec (l : list unit_t) :
  l = fst (span_digits l) ++ snd (span_digits l) /\
  Forall (fun ch => fs_detail.is_digit ch = true) (fst (span_digits l)) /\
  snd (span_digits l) = skipn (length (fst (span_digits l))) l.
Proof.
  induction l as [|ch r IH]; cbn [span_digits]; [repeat split; constructor|].
  destruct (fs_detail.is_digit ch) eqn:E.
  - destruct (span_digits r) as (ds, rest). cbn [fst snd app length skipn] in *.
    destruct IH as (I1' & I2' & I3). repeat split; auto. now f_equal.
  - cbn [fst snd app length skipn]. repeat split; constructor.
Qed.

(** A run of digits followed by a unit that is none is read whole. *)
Lemma span_digits_app (ds rest : list unit_t) :
  Forall (fun ch => fs_detail.is_digit ch = true) ds ->
  match rest with [] => True | ch :: _ => fs_detail.is_digit ch = false end ->
  span_digits (ds ++ rest) = (ds, rest).
Proof.
  intros Hds Hrest. induction Hds as [|ch ds Hch _ IH]; cbn [app span_digits].
  - destruct rest as [|ch r]; [reflexivity|]. cbn [span_digits]. now rewrite Hrest.
  - now rewrite Hch, IH.
Qed.

(** The rest of the content from index [i] on, against the tests
    [i < length()] and [str[i]] of the loops. *)
Lemma skipn_view (str : fixed_string) i :
  0 <= len_ str <= Z.of_nat (length (data_ str)) -> 0 <= i ->
  (len_ str <= i /\ skipn (Z.to_nat i) (content str) = []) \/
  (i < len_ str /\
   skipn (Z.to_nat i) (content str)
   = Fstring.index str i :: skipn (Z.to_nat (i + 1)) (content str)).
Proof.
  intros Hb Hi. pose proof (length_content str Hb) as Hcl.
  destruct (Z.le_gt_cases (len_ str) i) as [Hout|Hin].
  - left. split; [exact Hout|]. apply skipn_all2. lia.
  - right. split; [lia|]. rewrite (skipn_get (content str) i) by lia.
    rewrite get_content by lia. reflexivity.
Qed.

(** A loop [while (i < str.length() && detail::is_digit(str[i])) { ...; ++i; }]
    folds its body over the run of digits at [i] and stops behind it. *)
Lemma scan_loop {A : Type} (str : fixed_string) (g : A -> unit_t -> A)
  (body : A * Z -> A * Z) :
  0 <= len_ str <= Z.of_nat (length (data_ str)) ->
  (forall a i, body (a, i) = (g a (Fstring.index str i), i + 1)) ->
  forall fuel a i,
    0 <= i -> len_ str - i <= Z.of_nat fuel ->
    while_loop fuel
      (fun st : A * Z => (snd st <? Fstring.length str)
                         && fs_detail.is_digit (Fstring.index str (snd st)))
      body (a, i)
    = (fold_left g (fst (span_digits (skipn (Z.to_nat i) (content str)))) a,
       i + Z.of_nat (length (fst (span_digits (skipn (Z.to_nat i) (content str)))))).
Proof.
  intros Hb Hbody. unfold Fstring.length.
  induction fuel as [|fuel IH]; intros a i Hi Hfuel.
  - destruct (skipn_view str i Hb Hi) as [(Ho & E)|(Hin & _)]; [|lia].
    rewrite E. cbn. now rewrite Z.add_0_r.
  - cbn [while_loop snd].
    destruct (skipn_view str i Hb Hi) as [(Ho & E)|(Hin & E)]; rewrite E.
    + destruct (Z.ltb_spec i (len_ str)); [lia|]. cbn. now rewrite Z.add_0_r.
    + destruct (Z.ltb_spec i (len_ str)); [|lia]. cbn [andb span_digits].
      destruct (fs_detail.is_digit (Fstring.index str i)) eqn:Ed.
      * rewrite Hbody, IH by lia.
        destruct (span_digits (skipn (Z.to_nat (i + 1)) (content str))) as (ds, rest).
        cbn [fst fold_left length]. f_equal. lia.
      * cbn. now rewrite Z.add_0_r.
Qed.

Lemma skipn_behind_run (str : fixed_string) i :
  0 <= i ->
  let l := skipn (Z.to_nat i) (content str) in
  skipn (Z.to_nat (i + Z.of_nat (length (fst (span_digits l))))) (content str)
  = snd (span_digits l).
Proof.
  intros Hi l. destruct (span_digits_spec l) as (_ & _ & E). rewrite E.
  subst l. rewrite skipn_skipn. f_equal. lia.
Qed.

Section ParseFloatReads.

Variable FloatT : Type.
Variable f_zero : FloatT.
Variable f_of_int : Z -> FloatT.
Variable f_add : FloatT -> FloatT -> FloatT.
Variable f_mul : FloatT -> FloatT -> FloatT.
Variable f_neg : FloatT -> FloatT.
Variable f_tenth : FloatT.
Variable f_mul_tenth : FloatT -> FloatT.
Variable f_pow10 : Z -> FloatT.

Let parse_float :=
  conversions.parse_float FloatT f_zero f_of_int f_add f_mul f_neg f_tenth f_mul_tenth f_pow10.
Let spec :=
  parse_float_spec FloatT f_zero f_of_int f_add f_mul f_neg f_tenth f_mul_tenth f_pow10.

Lemma integer_part_spec (str : fixed_string) r i :
  0 <= len_ str <= Z.of_nat (length (data_ str)) -> 0 <= i ->
  let ids := fst (span_digits (skipn (Z.to_nat i) (content str))) in
  conversions.integer_part FloatT f_of_int f_add f_mul str (r, i)
  = (integer_value FloatT f_of_int f_add f_mul ids r, i + Z.of_nat (length ids)).
Proof.
  intros Hb Hi ids. unfold conversions.integer_part, integer_value. cbn [snd].
  apply (scan_loop str
           (fun r ch => f_add (f_mul r (f_of_int 10)) (f_of_int (ch - 48)))); auto.
  unfold Fstring.length. lia.
Qed.

Lemma decimal_part_spec (str : fixed_string) r i :
  0 <= len_ str <= Z.of_nat (length (data_ str)) -> 0 <= i ->
  let fds := fst (span_digits (skipn (Z.to_nat i) (content str))) in
  (let '(result, _, j) :=
     conversions.decimal_part FloatT f_of_int f_add f_mul f_mul_tenth str (r, f_tenth, i) in
   (result, j))
  = (fraction_value FloatT f_of_int f_add f_mul f_tenth f_mul_tenth fds r,
     i + Z.of_nat (length fds)).
Proof.
  intros Hb Hi fds. unfold conversions.decimal_part, fraction_value. cbn [snd].
  rewrite (scan_loop str
             (fun st ch =>
                (f_add (fst st) (f_mul (f_of_int (ch - 48)) (snd st)), f_mul_tenth (snd st))));
    auto.
  - fold fds. unfold unit_t in *.
    destruct (fold_left _ fds (r, f_tenth)) as (res, fr). reflexivity.
  - intros (res, fr) j. reflexivity.
  - unfold Fstring.length. lia.
Qed.

Lemma exponent_part_spec (str : fixed_string) i :
  0 <= len_ str <= Z.of_nat (length (data_ str)) -> 0 <= i ->
  fst (conversions.exponent_part str (0, i))
  = exponent_value (fst (span_digits (skipn (Z.to_nat i) (content str)))).
Proof.
  intros Hb Hi. unfold conversions.exponent_part, exponent_value. cbn [snd].
  rewrite (scan_loop str
             (fun e ch => conversions.convert conversions.int_t (e * 10 + (ch - 48))));
    auto.
  unfold Fstring.length. lia.
Qed.

(** The sign test [i < str.length() && str[i] == '-'], then ['+'], of the
    exponent, against [float_sign]. *)
Lemma exponent_sign_spec (str : fixed_string) i :
  0 <= len_ str <= Z.of_nat (length (data_ str)) -> 0 <= i ->
  let l := skipn (Z.to_nat i) (content str) in
  exists j,
    (if (i <? Fstring.length str) && (Fstring.index str i =? 45) then (true, i + 1)
     else if (i <? Fstring.length str) && (Fstring.index str i =? 43) then (false, i + 1)
          else (false, i))
    = (fst (float_sign l), j) /\
    0 <= j /\ skipn (Z.to_nat j) (content str) = snd (float_sign l).
Proof.
  intros Hb Hi l. unfold Fstring.length. subst l.
  destruct (skipn_view str i Hb Hi) as [(Ho & E)|(Hin & E)]; rewrite E.
  - destruct (Z.ltb_spec i (len_ str)); [lia|]. cbn [andb float_sign fst snd].
    exists i. auto.
  - destruct (Z.ltb_spec i (len_ str)); [|lia]. cbn [andb float_sign].
    destruct (Fstring.index str i =? 45).
    + exists (i + 1). cbn [fst snd]. split; [reflexivity|]. split; [lia | reflexivity].
    + destruct (Fstring.index str i =? 43).
      * exists (i + 1). cbn [fst snd]. split; [reflexivity|]. split; [lia | reflexivity].
      * exists i. cbn [fst snd]. split; [reflexivity|]. split; [lia | exact E].
Qed.

(** The exponent part of [parse_float], from index [i] on. *)
Lemma exponent_spec (str : fixed_string) (result : FloatT) i :
  0 <= len_ str <= Z.of_nat (length (data_ str)) -> 0 <= i ->
  (if (i <? Fstring.length str)
      && ((Fstring.index str i =? 101) || (Fstring.index str i =? 69)) then
     let i := i + 1 in
     let '(exp_negative, i) :=
       if (i <? Fstring.length str) && (Fstring.index str i =? 45) then (true, i + 1)
       else if (i <? Fstring.length str) && (Fstring.index str i =? 43) then (false, i + 1)
       else (false, i) in
     let (exponent, _) := conversions.exponent_part str (0, i) in
     let exponent :=
       if exp_negative then conversions.convert conversions.int_t (- exponent)
       else exponent in
     f_mul result (f_pow10 exponent)
   else result)
  = match exponent (skipn (Z.to_nat i) (content str)) with
    | Some e => f_mul result (f_pow10 e)
    | None => result
    end.
Proof.
  intros Hb Hi.
  destruct (skipn_view str i Hb Hi) as [(Ho & E)|(Hin & E)]; rewrite E;
    unfold Fstring.length at 1.
  - destruct (Z.ltb_spec i (len_ str)); [lia | reflexivity].
  - destruct (Z.ltb_spec i (len_ str)); [|lia]. cbn [andb exponent].
    destruct ((Fstring.index str i =? 101) || (Fstring.index str i =? 69)); [|reflexivity].
    cbv zeta.
    destruct (exponent_sign_spec str (i + 1) Hb ltac:(lia)) as (j & Es & Hj & El).
    rewrite Es.
    destruct (float_sign (skipn (Z.to_nat (i + 1)) (content str))) as (eneg, l4).
    cbn [fst snd] in *.
    pose proof (exponent_part_spec str j Hb Hj) as Ee. rewrite El in Ee.
    destruct (conversions.exponent_part str (0, j)) as (e, k). cbn [fst] in Ee.
    now rewrite Ee.
Qed.

Lemma parse_float_spec_nonempty (l : list unit_t) :
  l <> [] ->
  spec l
  = (let (negative, l1) := float_sign l in
     let '(ids, fds, l3) := mantissa l1 in
     let result :=
       fraction_value FloatT f_of_int f_add f_mul f_tenth f_mul_tenth fds
         (integer_value FloatT f_of_int f_add f_mul ids f_zero) in
     let result :=
       match exponent l3 with
       | Some e => f_mul result (f_pow10 e)
       | None => result
       end in
     signed FloatT f_neg negative result).
Proof. intros H. destruct l; [contradiction | reflexivity]. Qed.

(** [parse_float] is [parse_float_spec] of the content. *)
Lemma parse_float_refines_spec Cap (str : fixed_string) :
  storage_ok Cap str -> parse_float str = spec (content str).
Proof.
  intros Hs. pose proof (storage_bounds Cap str Hs) as Hb.
  subst parse_float. unfold conversions.parse_float, Fstring.empty.
  destruct (Z.eqb_spec (len_ str) 0) as [E0|E0].
  - assert (Hc : content str = []) by (apply content_nil_iff; auto).
    rewrite Hc. reflexivity.
  - destruct (skipn_view str 0 Hb ltac:(lia)) as [(Ho & _)|(_ & Ec)]; [lia|].
    cbn [Z.to_nat skipn] in Ec. change (Z.to_nat (0 + 1)) with 1%nat in Ec.
    assert (Hne : content str <> []) by (rewrite Ec; discriminate).
    rewrite (parse_float_spec_nonempty (content str) Hne). cbv zeta.
    assert (Hsign : exists i,
               (if Fstring.index str 0 =? 45 then (true, 1)
                else if Fstring.index str 0 =? 43 then (false, 1) else (false, 0))
               = (fst (float_sign (content str)), i) /\
               0 <= i /\ skipn (Z.to_nat i) (content str) = snd (float_sign (content str))).
    { remember (content str) as l eqn:Hl. clear Hl.
      destruct l as [|c l]; [discriminate|]. cbn [skipn] in Ec.
      injection Ec as Ec. rewrite <- Ec. cbn [float_sign].
      destruct (c =? 45).
      - exists 1. cbn [fst snd]. split; [reflexivity|]. split; [lia | reflexivity].
      - destruct (c =? 43).
        + exists 1. cbn [fst snd]. split; [reflexivity|]. split; [lia | reflexivity].
        + exists 0. cbn [fst snd]. split; [reflexivity|]. split; [lia | reflexivity]. }
    destruct Hsign as (i & Es & Hi & El). rewrite Es.
    destruct (float_sign (content str)) as (negative, l1). cbn [fst snd] in *.
    rewrite (integer_part_spec str f_zero i Hb Hi). rewrite El.
    set (ids := fst (span_digits l1)).
    set (i2 := i + Z.of_nat (length ids)).
    assert (Hi2 : 0 <= i2) by (subst i2; lia).
    assert (El2 : skipn (Z.to_nat i2) (content str) = snd (span_digits l1)).
    { subst i2 ids. rewrite <- El. apply skipn_behind_run. exact Hi. }
    unfold mantissa. destruct (span_digits l1) as (ids', l2) eqn:Esp.
    cbn [fst snd] in *. subst ids. rename ids' into ids.
    destruct (skipn_view str i2 Hb Hi2) as [(Ho & E2)|(Hin & E2)]; rewrite El2 in E2.
    + rewrite E2. unfold Fstring.length at 1.
      destruct (Z.ltb_spec i2 (len_ str)); [lia|]. cbn [andb].
      rewrite (exponent_spec str _ i2 Hb Hi2), El2, E2. reflexivity.
    + rewrite E2. unfold Fstring.length at 1.
      destruct (Z.ltb_spec i2 (len_ str)); [|lia]. cbn [andb].
      destruct (Fstring.index str i2 =? 46).
      * pose proof (decimal_part_spec str (integer_value FloatT f_of_int f_add f_mul ids f_zero)
                      (i2 + 1) Hb ltac:(lia)) as Ed.
        cbv zeta in Ed.
        pose proof (skipn_behind_run str (i2 + 1) ltac:(lia)) as El3. cbv zeta in El3.
        destruct (span_digits (skipn (Z.to_nat (i2 + 1)) (content str))) as (fds, l3).
        cbn [fst snd] in *.
        destruct (conversions.decimal_part FloatT f_of_int f_add f_mul f_mul_tenth str
                    (integer_value FloatT f_of_int f_add f_mul ids f_zero, f_tenth, i2 + 1))
          as ((res, fr), j).
        inversion Ed; subst res j.
        assert (Hi3 : 0 <= i2 + 1 + Z.of_nat (length fds)) by lia.
        rewrite (exponent_spec str _ _ Hb Hi3), El3. reflexivity.
      * rewrite (exponent_spec str _ i2 Hb Hi2), El2, E2. reflexivity.
Qed.

(** A run of digits, with or without a fraction, followed by a unit that does
    not continue it: [parse_float] returns the value of the run. *)
Lemma parse_float_spec_integer (l : list unit_t) negative (ids rest : list unit_t) :
  l <> [] -> float_sign l = (negative, ids ++ rest) ->
  Forall (fun ch => fs_detail.is_digit ch = true) ids -> ends_number rest = true ->
  spec l = signed FloatT f_neg negative
             (integer_value FloatT f_of_int f_add f_mul ids f_zero).
Proof.
  intros Hne Hs Hids Hrest. subst spec. unfold parse_float_spec.
  destruct l as [|c l]; [contradiction|]. rewrite Hs. unfold mantissa.
  rewrite (span_digits_app ids rest Hids).
  - destruct rest as [|ch r]; [reflexivity|]. cbn [ends_number] in Hrest.
    apply negb_true_iff in Hrest.
    apply orb_false_iff in Hrest as (Hrest & E69).
    apply orb_false_iff in Hrest as (Hrest & E101).
    apply orb_false_iff in Hrest as (_ & E46).
    rewrite E46. cbn [exponent]. rewrite E101, E69. reflexivity.
  - destruct rest as [|ch r]; [exact I|]. cbn [ends_number] in Hrest.
    apply negb_true_iff in Hrest.
    apply orb_false_iff in Hrest as (Hrest & _).
    apply orb_false_iff in Hrest as (Hrest & _).
    apply orb_false_iff in Hrest as (Hd & _). exact Hd.
Qed.

Lemma parse_float_spec_fraction (l : list unit_t) negative (ids fds rest : list unit_t) :
  l <> [] -> float_sign l = (negative, ids ++ 46 :: fds ++ rest) ->
  Forall (fun ch => fs_detail.is_digit ch = true) ids ->
  Forall (fun ch => fs_detail.is_digit ch = true) fds -> ends_fraction rest = true ->
  spec l = signed FloatT f_neg negative
             (fraction_value FloatT f_of_int f_add f_mul f_tenth f_mul_tenth fds
                (integer_value FloatT f_of_int f_add f_mul ids f_zero)).
Proof.
  intros Hne Hs Hids Hfds Hrest. subst spec. unfold parse_float_spec.
  destruct l as [|c l]; [contradiction|]. rewrite Hs. unfold mantissa.
  rewrite (span_digits_app ids (46 :: fds ++ rest) Hids) by reflexivity.
  cbn [Z.eqb Pos.eqb].
  assert (Hd : match rest with [] => True | ch :: _ => fs_detail.is_digit ch = false end /\
               exponent rest = None).
  { destruct rest as [|ch r]; [split; [exact I | reflexivity]|].
    cbn [ends_fraction] in Hrest. apply negb_true_iff in Hrest.
    apply orb_false_iff in Hrest as (Hrest & E69).
    apply orb_false_iff in Hrest as (Hd & E101).
    split; [exact Hd|]. cbn [exponent]. now rewrite E101, E69. }
  destruct Hd as (Hd & He).
  rewrite (span_digits_app fds rest Hfds Hd), He. reflexivity.
Qed.

End ParseFloatReads.

(** C9, as the claim states it, fails: ["12abc"] is no well-formed integer,
    and [parse_int<int>] returns 12 for it; ["1.5x"] is no well-formed number,
    and [parse_float<double>] returns 1.5. *)
Lemma malformed_input_parses_to_its_prefix :
  let str := Fstring.from_array 10 [49; 50; 97; 98; 99; 0] in
  let flt := Fstring.from_array 10 [49; 46; 53; 120; 0] in
  (well_formed_int conversions.int_t 10 (content str) = false /\
   conversions.parse_int conversions.int_t str 10 = 12 /\
   conversions.parse_int conversions.int_t str 10 <> 0) /\
  (binary64.parse_float flt = binary64.three_halves /\
   binary64.parse_float flt <> binary64.zero).
Proof.
  cbv zeta. split.
  - split; [vm_compute; reflexivity|].
    assert (E : conversions.parse_int conversions.int_t
                  (Fstring.from_array 10 [49; 50; 97; 98; 99; 0]) 10 = 12)
      by (vm_compute; reflexivity).
    rewrite E. split; [reflexivity | lia].
  - split; [vm_compute; reflexivity|].
    intros E. apply (f_equal PrimFloat.is_zero) in E. vm_compute in E. discriminate.
Qed.

(** C9, amended.  [parse_int] and [parse_float] are total: no input makes
    them signal an error.  Each returns the value of the number it reads at
    the head of the input and ignores what follows it: [parse_int] an
    optional sign and the longest run of digits of the base
    ([parse_int_spec]); [parse_float] an optional sign, a run of digits, a
    point with a run of fraction digits, and an exponent mark with an
    optional sign and digits, each part optional ([parse_float_spec]).
    Both return zero for the empty string and whenever they read no digit:
    [parse_int] when no digit of the base follows the optional sign;
    [parse_float] when the unit that follows the optional sign, or follows a
    point behind it, is no digit and no exponent mark, or when there is none
    (the zero is negated after a ['-']).  A run of digits, with or without a
    fraction, followed by a unit that does not continue the number gives the
    value of the run, not zero. *)
Theorem parsers_return_zero_without_a_number
  (T : conversions.int_type) (Cap : Z) (str : fixed_string) (base : Z)
  (FloatT : Type) (f_zero : FloatT) (f_of_int : Z -> FloatT)
  (f_add f_mul : FloatT -> FloatT -> FloatT) (f_neg : FloatT -> FloatT)
  (f_tenth : FloatT) (f_mul_tenth : FloatT -> FloatT) (f_pow10 : Z -> FloatT) :
  0 < conversions.bits T -> storage_ok Cap str ->
  let parse_float :=
    conversions.parse_float FloatT f_zero f_of_int f_add f_mul f_neg
      f_tenth f_mul_tenth f_pow10 in
  let digits_value ids := integer_value FloatT f_of_int f_add f_mul ids f_zero in
  let with_fraction fds r :=
    fraction_value FloatT f_of_int f_add f_mul f_tenth f_mul_tenth fds r in
  let all_digits := Forall (fun ch => fs_detail.is_digit ch = true) in
  conversions.parse_int T str base = parse_int_spec T base (content str) /\
  (len_ str = 0 ->
   conversions.parse_int T str base = 0 /\ parse_float str = f_zero) /\
  (match snd (signed_prefix T (content str)) with
   | [] => True
   | ch :: _ => valid_digit base ch = false
   end ->
   conversions.parse_int T str base = 0) /\
  (0 < len_ str -> starts_number (Fstring.index str 0) = false ->
   parse_float str = f_zero) /\
  parse_float str
  = parse_float_spec FloatT f_zero f_of_int f_add f_mul f_neg f_tenth f_mul_tenth f_pow10
      (content str) /\
  (forall negative rest,
     float_sign (content str) = (negative, rest) -> ends_number rest = true ->
     parse_float str = signed FloatT f_neg negative f_zero) /\
  (forall negative rest,
     float_sign (content str) = (negative, 46 :: rest) -> ends_fraction rest = true ->
     parse_float str = signed FloatT f_neg negative f_zero) /\
  (forall negative ids rest,
     float_sign (content str) = (negative, ids ++ rest) ->
     all_digits ids -> ends_number rest = true ->
     parse_float str = signed FloatT f_neg negative (digits_value ids)) /\
  (forall negative ids fds rest,
     float_sign (content str) = (negative, ids ++ 46 :: fds ++ rest) ->
     all_digits ids -> all_digits fds -> ends_fraction rest = true ->
     parse_float str
     = signed FloatT f_neg negative (with_fraction fds (digits_value ids))).
Proof.
  intros Hw Hs parse_float digits_value with_fraction all_digits.
  assert (E := parse_int_refines_spec T Cap str base Hw Hs).
  assert (F := parse_float_refines_spec FloatT f_zero f_of_int f_add f_mul f_neg
                 f_tenth f_mul_tenth f_pow10 Cap str Hs).
  fold parse_float in F.
  assert (Hint : forall negative ids rest,
             float_sign (content str) = (negative, ids ++ rest) ->
             all_digits ids -> ends_number rest = true ->
             parse_float str = signed FloatT f_neg negative (digits_value ids)).
  { intros negative ids rest Hsg Hids Hrest. rewrite F.
    destruct (content str) as [|c l] eqn:Hc.
    - cbn [float_sign] in Hsg. injection Hsg as <- Hnil. symmetry in Hnil.
      apply app_eq_nil in Hnil as (-> & _). reflexivity.
    - rewrite <- Hc in *.
      apply (parse_float_spec_integer FloatT f_zero f_of_int f_add f_mul f_neg
               f_tenth f_mul_tenth f_pow10 (content str) negative ids rest); auto.
      rewrite Hc. discriminate. }
  assert (Hfrac : forall negative ids fds rest,
             float_sign (content str) = (negative, ids ++ 46 :: fds ++ rest) ->
             all_digits ids -> all_digits fds -> ends_fraction rest = true ->
             parse_float str
             = signed FloatT f_neg negative (with_fraction fds (digits_value ids))).
  { intros negative ids fds rest Hsg Hids Hfds Hrest. rewrite F.
    apply (parse_float_spec_fraction FloatT f_zero f_of_int f_add f_mul f_neg
             f_tenth f_mul_tenth f_pow10 (content str) negative ids fds rest); auto.
    intros Hc. rewrite Hc in Hsg. cbn [float_sign] in Hsg.
    injection Hsg as _ Hnil. destruct ids; discriminate. }
  split; [exact E|]. split; [|split; [|split; [|split; [|split; [|split; [|split]]]]]].
  - intros H0. split.
    + unfold conversions.parse_int, Fstring.empty. now rewrite H0.
    + now apply parse_float_empty.
  - intros H. rewrite E. now apply parse_int_spec_no_digit.
  - intros Hpos H. now apply parse_float_no_number.
  - exact F.
  - intros negative rest Hsg Hrest.
    apply (Hint negative [] rest); [exact Hsg | constructor | exact Hrest].
  - intros negative rest Hsg Hrest.
    apply (Hfrac negative [] [] rest); [exact Hsg | constructor | constructor | exact Hrest].
  - exact Hint.
  - exact Hfrac.
Qed.

Lemma parsers_return_zero_without_a_number_witness :
  let T := conversions.int_t in
  let empty := Fstring.from_array 10 [0] in
  let plus_abc := Fstring.from_array 10 [43; 97; 98; 99; 0] in
  let point := Fstring.from_array 10 [46; 0] in
  let minus_x1 := Fstring.from_array 10 [45; 120; 49; 0] in
  let number_x := Fstring.from_array 10 [49; 46; 53; 120; 0] in
  (conversions.parse_int T empty 10 = 0 /\ binary64.parse_float empty = binary64.zero) /\
  (conversions.parse_int T plus_abc 10 = 0 /\
   binary64.parse_float plus_abc = binary64.zero) /\
  binary64.parse_float point = binary64.zero /\
  (conversions.parse_int T minus_x1 10 = 0 /\
   binary64.parse_float minus_x1 = PrimFloat.opp binary64.zero) /\
  binary64.parse_float number_x = binary64.three_halves.
Proof.
  assert (Hw : 0 < conversions.bits conversions.int_t) by (simpl; lia).
  pose (at_input := fun (str : fixed_string) (Hs : storage_ok 10 str) =>
          parsers_return_zero_without_a_number conversions.int_t 10 str 10
            PrimFloat.float binary64.zero binary64.of_int PrimFloat.add PrimFloat.mul
            PrimFloat.opp binary64.tenth binary64.mul_tenth binary64.pow10 Hw Hs).
  assert (H0 : storage_ok 10 (Fstring.from_array 10 [0]))
    by (repeat split; vm_compute; congruence).
  assert (H1 : storage_ok 10 (Fstring.from_array 10 [43; 97; 98; 99; 0]))
    by (repeat split; vm_compute; congruence).
  assert (H2 : storage_ok 10 (Fstring.from_array 10 [46; 0]))
    by (repeat split; vm_compute; congruence).
  assert (H3 : storage_ok 10 (Fstring.from_array 10 [45; 120; 49; 0]))
    by (repeat split; vm_compute; congruence).
  assert (H4 : storage_ok 10 (Fstring.from_array 10 [49; 46; 53; 120; 0]))
    by (repeat split; vm_compute; congruence).
  cbv zeta. split; [|split; [|split; [|split]]].
  - destruct (at_input _ H0) as (_ & Z0 & _). apply Z0. reflexivity.
  - destruct (at_input _ H1) as (_ & _ & I & _ & _ & Z1 & _). split.
    + apply I. reflexivity.
    + apply (Z1 false [97; 98; 99]); reflexivity.
  - destruct (at_input _ H2) as (_ & _ & _ & _ & _ & _ & Z2 & _).
    apply (Z2 false []); reflexivity.
  - destruct (at_input _ H3) as (_ & _ & I & _ & _ & Z1 & _). split.
    + apply I. reflexivity.
    + apply (Z1 true [120; 49]); reflexivity.
  - destruct (at_input _ H4) as (_ & _ & _ & _ & _ & _ & _ & _ & V).
    unfold binary64.parse_float.
    rewrite (V false [49] [53] [120]);
      [vm_compute; reflexivity | reflexivity | repeat constructor | repeat constructor
      | reflexivity].
Defined.

(** ** The body of [to_fstring(value, base)] *)

Lemma horner_snoc base (l : list Z) d :
  horner base (l ++ [d]) = horner base l * base + d.
Proof. unfold horner. now rewrite fold_left_app. Qed.

Lemma div_below_half base fuel u :
  2 <= base -> 0 <= u < 2 ^ Z.of_nat (S fuel) -> 0 <= u / base < 2 ^ Z.of_nat fuel.
Proof.
  intros Hb Hu. split; [apply Z.div_pos; lia|].
  apply Z.div_lt_upper_bound; [lia|].
  rewrite Nat2Z.inj_succ, Z.pow_succ_r in Hu by lia.
  pose proof (pow2_pos (Z.of_nat fuel)). nia.
Qed.

(** The digits the loop of [to_fstring] produces denote the value; each is
    a digit of the base. *)
Lemma digits_le_value base fuel u :
  2 <= base -> 0 <= u < 2 ^ Z.of_nat fuel ->
  horner base (rev (digits_le fuel base u)) = u /\
  Forall (fun d => 0 <= d < base) (digits_le fuel base u) /\
  (0 < u -> digits_le fuel base u <> []).
Proof.
  intros Hb. revert u; induction fuel as [|fuel IH]; intros u Hu.
  - cbn in Hu. assert (u = 0) by lia. subst u. cbn. repeat split; auto. lia.
  - cbn [digits_le]. destruct (Z.ltb_spec 0 u) as [Hpos|Hz].
    + destruct (IH (u / base) (div_below_half base fuel u Hb Hu)) as (H1 & H2 & _).
      cbn [rev]. rewrite horner_snoc, H1. repeat split.
      * pose proof (Z.div_mod u base). lia.
      * constructor; auto. apply Z.mod_pos_bound. lia.
      * discriminate.
    + assert (u = 0) by lia. subst u. cbn. repeat split; auto. lia.
Qed.

Lemma digit_of_digit_unit d :
  0 <= d < 36 -> conversions.digit_of (conversions.digit_unit d) = d.
Proof.
  intros H. unfold conversions.digit_unit, conversions.digit_of.
  destruct (Z.ltb_spec d 10).
  - destruct (Z.leb_spec 48 (48 + d)); destruct (Z.leb_spec (48 + d) 57);
      cbn [andb]; lia.
  - destruct (Z.leb_spec 48 (97 + (d - 10))); destruct (Z.leb_spec (97 + (d - 10)) 57);
      destruct (Z.leb_spec 97 (97 + (d - 10)));
      destruct (Z.leb_spec (97 + (d - 10)) 122); cbn [andb]; lia.
Qed.

Lemma units_snoc (d : list unit_t) i n :
  units d i (S n) = units d i n ++ [get d (i + Z.of_nat n)].
Proof. unfold units. rewrite seq_S, map_app. reflexivity. Qed.

(** The loop [while (uvalue > 0)] of [to_fstring]: it ends with
    [uvalue == 0] within [fuel] iterations and leaves the digits, least
    significant first, in [buffer[pos, pos + n)]. *)
Lemma digit_loop_spec base fuel :
  2 <= base ->
  forall (buf : list unit_t) pos u,
    0 <= pos -> pos + Z.of_nat fuel <= Z.of_nat (length buf) ->
    Z.of_nat (length buf) < SizeT.modulus ->
    0 <= u < 2 ^ Z.of_nat fuel ->
    exists buf',
      while_loop fuel (fun st : list unit_t * Z * Z => 0 <? snd st)
        (conversions.digit_step base) (buf, pos, u)
      = (buf', pos + Z.of_nat (length (digits_le fuel base u)), 0) /\
      length buf' = length buf /\
      (forall j, j < pos -> get buf' j = get buf j) /\
      units buf' pos (length (digits_le fuel base u))
      = map conversions.digit_unit (digits_le fuel base u).
Proof.
  intros Hb. induction fuel as [|fuel IH]; intros buf pos u Hpos Hfit Hlen Hu.
  - cbn in Hu. assert (u = 0) by lia. subst u. exists buf. cbn.
    rewrite Z.add_0_r. auto.
  - cbn [while_loop digits_le snd]. destruct (Z.ltb_spec 0 u) as [Hup|Hz].
    + cbn [conversions.digit_step].
      rewrite size_add_small by lia.
      destruct (IH (set buf pos (conversions.digit_unit (u mod base))) (pos + 1) (u / base))
        as (buf' & E & Hl & Hkeep & Hunits);
        try (rewrite length_set); try lia.
      { now apply div_below_half. }
      exists buf'. rewrite E. cbn [length]. rewrite length_set in Hl.
      split; [f_equal; f_equal; lia|]. split; [exact Hl|]. split.
      * intros j Hj. rewrite Hkeep by lia. apply get_set_other. lia.
      * rewrite units_S. cbn [map]. f_equal; [|exact Hunits].
        rewrite Hkeep by lia. apply get_set_same. lia.
    + assert (u = 0) by lia. subst u. exists buf. cbn.
      rewrite Z.add_0_r. auto.
Qed.

(** The loop [while (pos > 0) result.append(buffer[--pos]);]: the first [pos]
    units of the buffer are appended in reverse. *)
Lemma unwind_loop_spec Cap (buffer : list unit_t) n :
  capacity_ok Cap ->
  forall result,
    storage_ok Cap result -> len_ result + Z.of_nat n <= Cap ->
    storage_ok Cap
      (fst (while_loop n (fun st : fixed_string * Z => 0 <? snd st)
              (conversions.unwind_step Cap buffer) (result, Z.of_nat n))) /\
    content
      (fst (while_loop n (fun st : fixed_string * Z => 0 <? snd st)
              (conversions.unwind_step Cap buffer) (result, Z.of_nat n)))
    = content result ++ rev (units buffer 0 n).
Proof.
  intros HN. induction n as [|n IH]; intros result Hs Hfit.
  - cbn. now rewrite app_nil_r.
  - cbn [while_loop snd]. destruct (Z.ltb_spec 0 (Z.of_nat (S n))); try lia.
    cbn [conversions.unwind_step].
    assert (Hsub : SizeT.sub (Z.of_nat (S n)) 1 = Z.of_nat n).
    { rewrite size_sub_small by size_lia. lia. }
    rewrite Hsub.
    destruct (fs_append_unit_spec Cap result (get buffer (Z.of_nat n)) HN Hs) as (A1 & A2);
      [lia|].
    assert (Hl : len_ (Fstring.append_unit Cap result (get buffer (Z.of_nat n)))
                 = len_ result + 1).
    { assert (Hb := storage_bounds Cap result Hs).
      assert (L := length_content _ (storage_bounds Cap _ A1)).
      rewrite A2, length_app, Nat2Z.inj_add, (length_content result Hb) in L.
      cbn [length] in L. lia. }
    destruct (IH _ A1) as (I1' & I2'); [lia|].
    split; [exact I1'|]. rewrite I2', A2, units_snoc, rev_app_distr.
    cbn [rev app]. rewrite <- app_assoc. reflexivity.
Qed.

Lemma digits_le_length fuel base u : (length (digits_le fuel base u) <= fuel)%nat.
Proof.
  revert u; induction fuel as [|fuel IH]; intros u; cbn [digits_le length]; [lia|].
  destruct (0 <? u); cbn [length]; [|lia]. specialize (IH (u / base)). lia.
Qed.

(** The magnitude [to_fstring] converts, for a representable value. *)
Lemma to_fstring_magnitude T x :
  0 < conversions.bits T -> conversions.representable T x -> x <> 0 ->
  (if conversions.is_signed T then
     if x <? 0 then conversions.convert (conversions.make_unsigned T) (- x)
     else conversions.convert (conversions.make_unsigned T) x
   else x) = Z.abs x /\
  (conversions.is_signed T && (x <? 0)) = (x <? 0) /\
  0 < Z.abs x < 2 ^ conversions.bits T.
Proof.
  unfold conversions.representable, conversions.min_value, conversions.max_value,
    conversions.convert, conversions.make_unsigned.
  intros Hw Hx Hnz. cbn [conversions.is_signed conversions.bits].
  pose proof (pow2_double _ Hw). pose proof (pow2_pos (conversions.bits T - 1)).
  destruct (conversions.is_signed T); cbn [andb].
  - destruct (Z.ltb_spec x 0).
    + rewrite Z.mod_small by lia. repeat split; lia.
    + rewrite Z.mod_small by lia. repeat split; lia.
  - destruct (Z.ltb_spec x 0); repeat split; lia.
Qed.

(** The body of [to_fstring(value, base)], at a base from 2 to 36, computes
    the text of the specification in a string of capacity
    [sizeof(IntT) * 8 + 2]. *)
Lemma to_fstring_refines_spec T x base :
  int_type_ok T -> conversions.representable T x -> 2 <= base <= 36 ->
  storage_ok (conversions.bits T + 2) (conversions.to_fstring T x base) /\
  content (conversions.to_fstring T x base) = to_string_spec T x base.
Proof.
  intros (Hw & Hcap) Hx Hb. unfold conversions.to_fstring, to_string_spec.
  destruct (Z.ltb_spec base 2); try lia.
  destruct (Z.ltb_spec 36 base); try lia. cbn [orb]. cbv zeta.
  set (Cap := conversions.bits T + 2).
  assert (HN : capacity_ok Cap) by (unfold capacity_ok; subst Cap; lia).
  assert (Hd : storage_ok Cap (Fstring.default Cap))
    by (apply storage_value_init; subst Cap; lia).
  assert (Hdc : content (Fstring.default Cap) = []) by reflexivity.
  assert (Hdl : len_ (Fstring.default Cap) = 0) by reflexivity.
  destruct (Z.eqb_spec x 0) as [E0|E0].
  - destruct (fs_append_unit_spec Cap (Fstring.default Cap) 48 HN Hd) as (A1 & A2).
    { rewrite Hdl. subst Cap. lia. }
    split; [exact A1|]. now rewrite A2, Hdc.
  - destruct (to_fstring_magnitude T x Hw Hx E0) as (Eu & En & Hu).
    rewrite Eu, En.
    set (fuel := Z.to_nat (conversions.bits T)).
    set (ds := digits_le fuel base (Z.abs x)).
    destruct (digit_loop_spec base fuel (proj1 Hb) (@repeat unit_t 0 (Z.to_nat Cap)) 0 (Z.abs x))
      as (buf' & E & Hl & _ & Hunits).
    + lia.
    + rewrite repeat_length. subst fuel Cap. lia.
    + rewrite repeat_length. rewrite npos_value in Hcap. rewrite modulus_value.
      subst Cap. lia.
    + subst fuel. rewrite Z2Nat.id by lia. lia.
    + rewrite E. cbv beta iota. fold ds in Hunits |- *.
      replace (0 + Z.of_nat (length ds)) with (Z.of_nat (length ds)) by lia.
      rewrite Nat2Z.id.
      assert (Hn : (length ds <= fuel)%nat) by apply digits_le_length.
      assert (Hres : storage_ok Cap
                       (if x <? 0 then Fstring.append_unit Cap (Fstring.default Cap) 45
                        else Fstring.default Cap) /\
                     content (if x <? 0 then Fstring.append_unit Cap (Fstring.default Cap) 45
                              else Fstring.default Cap)
                     = (if x <? 0 then [45] else []) /\
                     len_ (if x <? 0 then Fstring.append_unit Cap (Fstring.default Cap) 45
                           else Fstring.default Cap) <= 1).
      { destruct (x <? 0).
        - destruct (fs_append_unit_spec Cap (Fstring.default Cap) 45 HN Hd) as (A1 & A2).
          { rewrite Hdl. subst Cap. lia. }
          split; [exact A1|]. split; [now rewrite A2, Hdc|].
          rewrite fs_append_unit_len; auto; rewrite Hdl; subst Cap; lia.
        - split; [exact Hd|]. split; [exact Hdc|]. rewrite Hdl. lia. }
      destruct Hres as (R1 & R2 & R3).
      destruct (unwind_loop_spec Cap buf' (length ds) HN _ R1) as (U1 & U2).
      { subst fuel Cap. lia. }
      split; [exact U1|].
      rewrite U2, R2, Hunits, map_rev. reflexivity.
Qed.

Lemma signed_prefix_digit T (ch : unit_t) (l : list unit_t) :
  0 <= conversions.digit_of ch -> signed_prefix T (ch :: l) = (false, ch :: l).
Proof.
  intros H. destruct (digit_is_no_sign ch H) as (Em & Ep).
  unfold signed_prefix. rewrite Em, Ep. now destruct (conversions.is_signed T).
Qed.

(** The digits [to_fstring] writes are read back by [parse_int] as the
    magnitude. *)
Lemma parse_written_digits T base u :
  0 < conversions.bits T -> 2 <= base <= 36 ->
  0 <= u < 2 ^ conversions.bits T ->
  let l := map conversions.digit_unit
             (rev (digits_le (Z.to_nat (conversions.bits T)) base u)) in
  Forall (fun ch => 0 <= conversions.digit_of ch < base) l /\
  parse_list T base l 0 = conversions.convert T u /\
  (0 < u -> l <> []).
Proof.
  intros Hw Hb Hu l.
  destruct (digits_le_value base (Z.to_nat (conversions.bits T)) u) as (Hv & Hd & Hne);
    [lia | rewrite Z2Nat.id by lia; lia |].
  assert (Hdr : Forall (fun d => 0 <= d < base)
                  (rev (digits_le (Z.to_nat (conversions.bits T)) base u)))
    by now apply Forall_rev.
  assert (Hvalid : Forall (fun ch => 0 <= conversions.digit_of ch < base) l).
  { subst l. apply Forall_map. eapply Forall_impl; [|exact Hdr].
    intros d Hdd. cbv beta in Hdd |- *. rewrite digit_of_digit_unit; lia. }
  assert (Hback : map conversions.digit_of l
                  = rev (digits_le (Z.to_nat (conversions.bits T)) base u)).
  { subst l. rewrite map_map. rewrite <- (map_id (rev _)) at 2.
    apply map_ext_in. intros d Hin.
    rewrite Forall_forall in Hdr. specialize (Hdr d Hin). cbv beta in Hdr.
    apply digit_of_digit_unit. lia. }
  split; [exact Hvalid|]. split.
  - rewrite <- (convert_zero T Hw) at 1.
    rewrite (parse_list_valid T base l 0 Hw Hvalid).
    rewrite Hback. unfold horner in Hv. now rewrite Hv.
  - intros Hpos Hnil. subst l. apply map_eq_nil in Hnil.
    apply (f_equal (@rev Z)) in Hnil. rewrite rev_involutive in Hnil.
    now apply Hne.
Qed.

(** C7.  [to_fstring(value, base)] has no return type: for a base outside
    [[2, 36]] it returns a [basic_fstring<CharT, 1>], otherwise its [result],
    a [basic_fstring<CharT, sizeof(IntT) * 8 + 2>], and the declared type is
    one [auto].  The arrays of the two have different extents for every
    integer type, so no capacity fits both returns; no call of the function
    compiles, and there is no text for [parse_int] to read back.  Besides,
    the body negates a negative value in its own type, and the negation of
    the minimum of [int] is no value of [int]. *)
Theorem to_fstring_returns_two_types T (x bad good : Z) :
  int_type_ok T -> conversions.representable T x ->
  bad < 2 \/ 36 < bad -> 2 <= good <= 36 ->
  extent_ok 1 (conversions.to_fstring T x bad) /\
  extent_ok (conversions.bits T + 2) (conversions.to_fstring T x good) /\
  (forall N, ~ (extent_ok N (conversions.to_fstring T x bad) /\
                extent_ok N (conversions.to_fstring T x good))) /\
  ~ conversions.representable conversions.int_t
      (- conversions.min_value conversions.int_t).
Proof.
  intros HT Hx Hbad Hgood. assert (Hw : 0 < conversions.bits T) by apply HT.
  assert (E1 : extent_ok 1 (conversions.to_fstring T x bad)).
  { unfold conversions.to_fstring.
    assert (Eb : (bad <? 2) || (36 <? bad) = true).
    { destruct Hbad; [destruct (Z.ltb_spec bad 2); [reflexivity | lia]|].
      destruct (Z.ltb_spec 36 bad); [apply orb_true_r | lia]. }
    rewrite Eb. apply extent_value_init. lia. }
  destruct (to_fstring_refines_spec T x good HT Hx Hgood) as ((E2 & _) & _).
  split; [exact E1|]. split; [exact E2|]. split.
  - intros N (A & B). unfold extent_ok in *. lia.
  - unfold conversions.representable. vm_compute. intros (_ & H). now apply H.
Qed.

Lemma to_fstring_returns_two_types_witness :
  extent_ok 1 (conversions.to_fstring conversions.int_t 255 1) /\
  extent_ok 34 (conversions.to_fstring conversions.int_t 255 16).
Proof.
  assert (HT : int_type_ok conversions.int_t)
    by (unfold int_type_ok; rewrite npos_value; simpl; lia).
  assert (Hx : conversions.representable conversions.int_t 255)
    by (vm_compute; split; congruence).
  assert (Hb : 1 < 2 \/ 36 < 1) by (left; lia).
  assert (Hg : 2 <= 16 <= 36) by lia.
  destruct (to_fstring_returns_two_types conversions.int_t 255 1 16 HT Hx Hb Hg)
    as (A & B & _).
  split; [exact A | exact B].
Defined.

(** ** Lists read through [get] *)

Lemma get_skipn (d : list unit_t) n i :
  0 <= i -> get (skipn n d) i = get d (i + Z.of_nat n).
Proof.
  intros Hi.
  destruct (Z.ltb_spec (i + Z.of_nat n) (Z.of_nat (length d))) as [Hin|Hout].
  - rewrite !get_nth by (rewrite ?length_skipn; lia).
    rewrite nth_skipn. f_equal. lia.
  - rewrite !get_outside; auto. rewrite length_skipn. lia.
Qed.

Lemma get_rev (d : list unit_t) i :
  0 <= i < Z.of_nat (length d) -> get (rev d) i = get d (Z.of_nat (length d) - 1 - i).
Proof.
  intros Hi. rewrite !get_nth by (rewrite ?length_rev; lia).
  rewrite rev_nth by lia. f_equal. lia.
Qed.

Lemma get_map (f : unit_t -> unit_t) (d : list unit_t) i :
  0 <= i < Z.of_nat (length d) -> get (map f d) i = f (get d i).
Proof.
  intros Hi. rewrite !get_nth by (rewrite ?length_map; lia).
  rewrite (nth_indep _ 0 (f 0)) by (rewrite length_map; lia).
  apply map_nth.
Qed.

(** Two lists of one length that agree at every index are the same list. *)
Lemma list_ext_get (l r : list unit_t) n :
  Z.of_nat (length l) = n -> Z.of_nat (length r) = n ->
  (forall i, 0 <= i < n -> get l i = get r i) -> l = r.
Proof.
  intros Hl Hr H. apply buffer_ext; [lia|]. intros i Hi. apply H. lia.
Qed.

Lemma content_length_le (s : fixed_string) :
  (length (content s) <= length (data_ s))%nat.
Proof. unfold content. rewrite length_firstn. lia. Qed.

(** *** More loops *)

Lemma for_down_inv {S : Type} (P : Z -> S -> Prop) hi lo (body : Z -> S -> S) s :
  lo <= hi ->
  P hi s ->
  (forall i t, lo < i <= hi -> P i t -> P (i - 1) (body i t)) ->
  P lo (for_down hi lo body s).
Proof.
  intros Hle H0 Hstep. unfold for_down.
  remember (Z.to_nat (hi - lo)) as n eqn:En.
  assert (Hlo : lo = hi - Z.of_nat n) by lia.
  clear En. subst lo.
  revert hi s H0 Hstep Hle. induction n as [|n IH]; intros hi s H0 Hstep Hle.
  - simpl. now rewrite Z.sub_0_r.
  - cbn [iter_down].
    replace (hi - Z.of_nat (Datatypes.S n)) with (hi - 1 - Z.of_nat n) by lia.
    apply IH; try lia.
    + apply Hstep; auto. lia.
    + intros i t Hi. apply Hstep. lia.
Qed.

Lemma for_down_ext {S : Type} hi lo (f g : Z -> S -> S) s :
  (forall i t, lo < i <= hi -> f i t = g i t) ->
  for_down hi lo f s = for_down hi lo g s.
Proof.
  intros H. unfold for_down.
  destruct (Z.le_gt_cases hi lo) as [Hle|Hlt].
  - replace (Z.to_nat (hi - lo)) with O by lia. reflexivity.
  - assert (Hn : lo <= hi - Z.of_nat (Z.to_nat (hi - lo))) by lia.
    revert Hn. generalize (Z.to_nat (hi - lo)) as n. clear Hlt.
    intros n; revert hi s H; induction n as [|n IH]; intros hi s H Hn; simpl; auto.
    rewrite H by lia. apply IH; [|lia].
    intros i t Hi. apply H. lia.
Qed.

(** A loop whose extra condition holds at every index is the plain loop. *)
Lemma for_while_all {S : Type} lo hi (cond : Z -> S -> bool) (body : Z -> S -> S) s :
  (forall i t, lo <= i < hi -> cond i t = true) ->
  for_while lo hi cond body s = for_range lo hi body s.
Proof.
  intros H. unfold for_while, for_range.
  destruct (Z.le_gt_cases hi lo) as [Hle|Hlt].
  - replace (Z.to_nat (hi - lo)) with O by lia. reflexivity.
  - assert (Hn : lo + Z.of_nat (Z.to_nat (hi - lo)) <= hi) by lia.
    revert Hn. generalize (Z.to_nat (hi - lo)) as n. clear Hlt.
    intros n; revert lo s H; induction n as [|n IH]; intros lo s H Hn; simpl; auto.
    rewrite H by lia. apply IH; [|lia].
    intros i t Hi. apply H. lia.
Qed.

(** The loop [for (i = lo; i < hi; ++i) d[i] = d[i + k];] moves the units
    [[lo + k, hi + k)] down by [k]. *)
Lemma shift_down_loop (d : list unit_t) lo hi k :
  0 <= lo -> 0 <= k -> hi <= Z.of_nat (length d) ->
  let r := for_range lo hi (fun i e => set e i (get e (i + k))) d in
  length r = length d /\
  forall j, get r j = if (lo <=? j) && (j <? hi) then get d (j + k) else get d j.
Proof.
  intros Hlo Hk Hhi r. subst r.
  destruct (Z.le_gt_cases hi lo) as [Hn|Hn].
  - rewrite for_range_empty by lia. split; auto.
    intros j. destruct (Z.leb_spec lo j); destruct (Z.ltb_spec j hi); simpl; auto; lia.
  - apply (for_range_inv
             (fun i t => length t = length d /\
                forall j, get t j =
                  if (lo <=? j) && (j <? i) then get d (j + k) else get d j)); [lia| |].
    + split; auto. intros j.
      destruct (Z.leb_spec lo j); destruct (Z.ltb_spec j lo); simpl; auto; lia.
    + intros i t Hi [Hl Hg]. rewrite length_set. split; auto.
      intros j. rewrite get_set by lia.
      destruct (Z.eqb_spec j i) as [->|Hne].
      * rewrite Hg.
        destruct (Z.leb_spec lo i); destruct (Z.ltb_spec i (i + 1)); try lia. cbn [andb].
        destruct (Z.leb_spec lo (i + k)); destruct (Z.ltb_spec (i + k) i); simpl; auto; lia.
      * rewrite Hg.
        destruct (Z.leb_spec lo j); destruct (Z.ltb_spec j i);
          destruct (Z.ltb_spec j (i + 1)); simpl; auto; lia.
Qed.

(** The loop [for (i = hi; i > lo; --i) d[i + k - 1] = d[i - 1];] moves the
    units [[lo, hi)] up by [k]. *)
Lemma shift_up_loop (d : list unit_t) lo hi k :
  0 <= lo -> 0 <= k -> hi + k <= Z.of_nat (length d) ->
  let r := for_down hi lo (fun i e => set e (i + k - 1) (get e (i - 1))) d in
  length r = length d /\
  forall j, get r j = if (lo + k <=? j) && (j <? hi + k) then get d (j - k) else get d j.
Proof.
  intros Hlo Hk Hhi r. subst r.
  destruct (Z.le_gt_cases hi lo) as [Hn|Hn].
  - unfold for_down. replace (Z.to_nat (hi - lo)) with O by lia. split; auto.
    intros j. destruct (Z.leb_spec (lo + k) j); destruct (Z.ltb_spec j (hi + k)); simpl; auto; lia.
  - apply (for_down_inv
             (fun i t => length t = length d /\
                forall j, get t j =
                  if (i + k <=? j) && (j <? hi + k) then get d (j - k) else get d j)); [lia| |].
    + split; auto. intros j.
      destruct (Z.leb_spec (hi + k) j); destruct (Z.ltb_spec j (hi + k)); simpl; auto; lia.
    + intros i t Hi [Hl Hg]. rewrite length_set. split; auto.
      intros j. rewrite get_set by lia.
      destruct (Z.eqb_spec j (i + k - 1)) as [->|Hne].
      * rewrite Hg.
        destruct (Z.leb_spec (i - 1 + k) (i + k - 1)); destruct (Z.ltb_spec (i + k - 1) (hi + k));
          try lia. cbn [andb].
        destruct (Z.leb_spec (i + k) (i - 1)); destruct (Z.ltb_spec (i - 1) (hi + k));
          simpl; try lia; f_equal; lia.
      * rewrite Hg.
        destruct (Z.leb_spec (i + k) j); destruct (Z.leb_spec (i - 1 + k) j);
          destruct (Z.ltb_spec j (hi + k)); simpl; auto; lia.
Qed.

(** ** Editing in place: [erase], [insert], [replace] *)

(** The list [erase(pos, count)] leaves, and the one [insert(pos, str, k)]
    builds. *)
Lemma length_erased (c : list unit_t) pos count :
  0 <= pos -> 0 <= count ->
  Z.of_nat (length (firstn (Z.to_nat pos) c ++ skipn (Z.to_nat (pos + count)) c))
  = Z.of_nat (length c) - Z.min count (Z.max 0 (Z.of_nat (length c) - pos)).
Proof.
  intros Hp Hc. rewrite length_app, length_firstn, length_skipn. lia.
Qed.

Lemma get_erased (c : list unit_t) pos count i :
  0 <= pos -> 0 <= count -> 0 <= i ->
  get (firstn (Z.to_nat pos) c ++ skipn (Z.to_nat (pos + count)) c) i
  = if i <? Z.min pos (Z.of_nat (length c)) then get c i else
      get c (i - Z.min pos (Z.of_nat (length c)) + (pos + count)).
Proof.
  intros Hp Hc Hi.
  assert (Hl : Z.of_nat (length (firstn (Z.to_nat pos) c)) = Z.min pos (Z.of_nat (length c)))
    by (rewrite length_firstn; lia).
  destruct (Z.ltb_spec i (Z.min pos (Z.of_nat (length c)))).
  - rewrite get_app_l by lia. apply get_firstn. lia.
  - rewrite get_app_r by lia. rewrite Hl, get_skipn by lia. f_equal. lia.
Qed.

(** What [erase(pos, count)] of constant_string.hpp does. *)
Lemma cs_erase_spec N (s : fixed_string) pos count :
  capacity_ok N -> storage_ok N s -> 0 <= pos -> 0 <= count ->
  storage_ok N (ConstantString.erase s pos count) /\
  content (ConstantString.erase s pos count)
  = firstn (Z.to_nat pos) (content s) ++ skipn (Z.to_nat (pos + count)) (content s).
Proof.
  intros HN Hs Hp Hc. split; [now apply cs_erase_ok|].
  assert (Hs' := Hs). destruct Hs' as (Hext & Hlen & Hterm).
  assert (Hcl : Z.of_nat (length (content s)) = len_ s) by (apply length_content; size_lia).
  unfold ConstantString.erase.
  destruct (Z.leb_spec (len_ s) pos) as [Hout|Hin].
  - rewrite firstn_all2, skipn_all2 by lia. now rewrite app_nil_r.
  - rewrite (size_sub_small (len_ s) pos) by size_lia. rewrite size_min_spec.
    rewrite (size_sub_small (len_ s) (Z.min _ _)) by size_lia.
    set (k := Z.min count (len_ s - pos)).
    rewrite (for_range_ext pos (len_ s - k)
               (fun i d => set d i (get d (SizeT.add i k)))
               (fun i d => set d i (get d (i + k))))
      by (intros i d Hi; rewrite size_add_small by size_lia; reflexivity).
    destruct (shift_down_loop (data_ s) pos (len_ s - k) k) as (Hl & Hg); try size_lia.
    apply content_ext; cbn [data_ len_].
    + rewrite length_set, Hl. size_lia.
    + rewrite length_erased, Hcl by lia. lia.
    + intros i Hi. rewrite get_set_other by lia. rewrite Hg.
      rewrite get_erased, Hcl by lia.
      destruct (Z.leb_spec pos i); destruct (Z.ltb_spec i (len_ s - k));
        destruct (Z.ltb_spec i (Z.min pos (len_ s))); cbn [andb]; try lia.
      * rewrite get_content by lia. f_equal. lia.
      * rewrite get_content by lia. reflexivity.
Qed.

Lemma length_inserted (c src : list unit_t) pos k :
  0 <= pos <= Z.of_nat (length c) -> 0 <= k <= Z.of_nat (length src) ->
  Z.of_nat (length (firstn (Z.to_nat pos) c ++ firstn (Z.to_nat k) src
                    ++ skipn (Z.to_nat pos) c))
  = Z.of_nat (length c) + k.
Proof.
  intros Hp Hk. rewrite !length_app, !length_firstn, length_skipn. lia.
Qed.

Lemma get_inserted (c src : list unit_t) pos k i :
  0 <= pos <= Z.of_nat (length c) -> 0 <= k <= Z.of_nat (length src) -> 0 <= i ->
  get (firstn (Z.to_nat pos) c ++ firstn (Z.to_nat k) src ++ skipn (Z.to_nat pos) c) i
  = if i <? pos then get c i
    else if i <? pos + k then get src (i - pos)
    else get c (i - k).
Proof.
  intros Hp Hk Hi.
  assert (Hl : Z.of_nat (length (firstn (Z.to_nat pos) c)) = pos)
    by (rewrite length_firstn; lia).
  assert (Hm : Z.of_nat (length (firstn (Z.to_nat k) src)) = k)
    by (rewrite length_firstn; lia).
  destruct (Z.ltb_spec i pos).
  - rewrite get_app_l by lia. apply get_firstn. lia.
  - rewrite get_app_r by lia. rewrite Hl.
    destruct (Z.ltb_spec i (pos + k)).
    + rewrite get_app_l by lia. apply get_firstn. lia.
    + rewrite get_app_r by lia. rewrite Hm, get_skipn by lia. f_equal. lia.
Qed.

(** What [insert(pos, str, count)] of constant_string.hpp does: the units
    that fit go in at [pos], the tail moves up whole. *)
Lemma cs_insert_spec N (s : fixed_string) pos (src : list unit_t) count :
  capacity_ok N -> storage_ok N s ->
  0 <= pos <= len_ s -> 0 <= count <= Z.of_nat (length src) ->
  let k := Z.min count (N - len_ s) in
  storage_ok N (ConstantString.insert N s pos src count) /\
  content (ConstantString.insert N s pos src count)
  = firstn (Z.to_nat pos) (content s) ++ firstn (Z.to_nat k) src
    ++ skipn (Z.to_nat pos) (content s).
Proof.
  intros HN Hs Hp Hc k. split; [apply cs_insert_ok; auto; lia|].
  assert (Hs' := Hs). destruct Hs' as (Hext & Hlen & Hterm).
  assert (Hcl : Z.of_nat (length (content s)) = len_ s) by (apply length_content; size_lia).
  unfold ConstantString.insert.
  destruct (Z.ltb_spec (len_ s) pos) as [Hout|Hin]; [lia|].
  rewrite (size_sub_small N (len_ s)) by size_lia. rewrite !size_min_spec. fold k.
  assert (Hk : 0 <= k /\ k <= count /\ len_ s + k <= N) by (subst k; size_lia).
  clearbody k.
  rewrite (size_add_small (len_ s) k) by size_lia.
  replace (Z.min (len_ s + k) N) with (len_ s + k) by lia.
  rewrite (for_while_all 0 k)
    by (intros i t Hi; rewrite size_add_small by size_lia; apply Z.ltb_lt; size_lia).
  rewrite (for_range_ext 0 k
             (fun i d => set d (SizeT.add pos i) (get src i))
             (fun i d => set d (pos + i) (get src i)))
    by (intros i d Hi; rewrite size_add_small by size_lia; reflexivity).
  rewrite (for_down_ext (len_ s) pos
             (fun i d =>
                if SizeT.add i k <=? N
                then set d (SizeT.sub (SizeT.add i k) 1) (get d (SizeT.sub i 1))
                else d)
             (fun i e => set e (i + k - 1) (get e (i - 1)))).
  2:{ intros i t Hi.
      rewrite (size_add_small i k) by size_lia.
      rewrite (size_sub_small (i + k) 1) by size_lia.
      rewrite (size_sub_small i 1) by size_lia.
      destruct (Z.leb_spec (i + k) N); [reflexivity | lia]. }
  destruct (shift_up_loop (data_ s) pos (len_ s) k) as (Hl1 & Hg1); try size_lia.
  set (d1 := for_down (len_ s) pos (fun i e => set e (i + k - 1) (get e (i - 1))) (data_ s)) in *.
  apply content_ext; cbn [data_ len_].
  - rewrite length_set, write_loop_length, Hl1 by lia. size_lia.
  - rewrite length_inserted, Hcl by lia. lia.
  - intros i Hi. rewrite get_set_other by lia.
    rewrite write_loop_get by lia. rewrite Hl1, Hg1.
    rewrite get_inserted by lia.
    destruct (Z.leb_spec pos i); destruct (Z.ltb_spec i (pos + k));
      destruct (Z.ltb_spec i (Z.of_nat (length (data_ s))));
      destruct (Z.ltb_spec i pos); destruct (Z.leb_spec (pos + k) i);
      destruct (Z.ltb_spec i (len_ s + k)); cbn [andb]; try size_lia; auto.
    + rewrite get_content by lia. reflexivity.
    + rewrite get_content by lia. reflexivity.
Qed.

(** [memmove_string] and [detail::move] read the array as it was before the
    call. *)
Lemma move_get (d : list unit_t) dst src n j :
  0 <= dst ->
  get (for_range 0 n (fun i e => set e (dst + i) (get d (src + i))) d) j
  = if (dst <=? j) && (j <? dst + n) && (j <? Z.of_nat (length d))
    then get d (j - dst + src) else get d j.
Proof.
  intros H. rewrite (write_loop_get d dst n (fun i => get d (src + i))) by lia.
  destruct ((dst <=? j) && (j <? dst + n) && (j <? Z.of_nat (length d))); auto.
  f_equal. lia.
Qed.

Lemma move_length (d : list unit_t) dst src n :
  0 <= dst ->
  length (for_range 0 n (fun i e => set e (dst + i) (get d (src + i))) d) = length d.
Proof. intros H. now apply (write_loop_length d dst n (fun i => get d (src + i))). Qed.

(** The callers in constant_string_core.hpp move only when there is something
    to move. *)
Lemma guarded_move_get (d : list unit_t) dst src n j :
  0 <= dst ->
  get (if 0 <? n
       then for_range 0 n (fun i e => set e (dst + i) (get d (src + i))) d
       else d) j
  = if (dst <=? j) && (j <? dst + n) && (j <? Z.of_nat (length d))
    then get d (j - dst + src) else get d j.
Proof.
  intros H. destruct (Z.ltb_spec 0 n); [now apply move_get|].
  destruct (Z.leb_spec dst j); destruct (Z.ltb_spec j (dst + n)); cbn [andb]; auto; lia.
Qed.

Lemma guarded_move_length (d : list unit_t) dst src n :
  0 <= dst ->
  length (if 0 <? n
          then for_range 0 n (fun i e => set e (dst + i) (get d (src + i))) d
          else d) = length d.
Proof. intros H. destruct (0 <? n); auto using move_length. Qed.

(** What [erase(pos, count)] of constant_string_core.hpp does. *)
Lemma core_erase_spec N (s : fixed_string) pos count :
  capacity_ok N -> storage_ok N s -> 0 <= pos -> 0 <= count ->
  storage_ok N (Core.erase s pos count) /\
  content (Core.erase s pos count)
  = firstn (Z.to_nat pos) (content s) ++ skipn (Z.to_nat (pos + count)) (content s).
Proof.
  intros HN Hs Hp Hc. split; [now apply core_erase_ok|].
  assert (Hs' := Hs). destruct Hs' as (Hext & Hlen & Hterm).
  assert (Hcl : Z.of_nat (length (content s)) = len_ s) by (apply length_content; size_lia).
  unfold Core.erase.
  destruct (Z.leb_spec (len_ s) pos) as [Hout|Hin].
  - rewrite firstn_all2, skipn_all2 by lia. now rewrite app_nil_r.
  - rewrite (size_sub_small (len_ s) pos) by size_lia. rewrite size_min_spec.
    set (k := Z.min count (len_ s - pos)).
    assert (Hk : 0 <= k /\ k <= count /\ k <= len_ s - pos) by (subst k; lia).
    assert (Hkc : k < count -> k = len_ s - pos) by (subst k; lia).
    clearbody k.
    rewrite (size_sub_small (len_ s) k) by size_lia.
    rewrite (size_add_small pos k) by size_lia.
    rewrite (size_sub_small (len_ s) (pos + k)) by size_lia.
    unfold core_detail.memmove_string.
    apply content_ext; cbn [data_ len_].
    + rewrite length_set. destruct (_ <? _); rewrite ?move_length by lia; size_lia.
    + rewrite length_erased, Hcl by lia. lia.
    + intros i Hi. rewrite get_set_other by lia.
      rewrite get_erased, Hcl by lia.
      destruct (Z.ltb_spec 0 (len_ s - (pos + k))).
      * rewrite move_get by lia.
        destruct (Z.leb_spec pos i); destruct (Z.ltb_spec i (pos + (len_ s - (pos + k))));
          destruct (Z.ltb_spec i (Z.of_nat (length (data_ s))));
          destruct (Z.ltb_spec i (Z.min pos (len_ s))); cbn [andb]; try size_lia.
        -- rewrite get_content by lia. f_equal. lia.
        -- rewrite get_content by lia. reflexivity.
      * destruct (Z.ltb_spec i (Z.min pos (len_ s))); try lia.
        rewrite get_content by lia. reflexivity.
Qed.

(** What [erase(index, count)] of fstring_core.hpp does when [index + count]
    does not wrap around (or [count] is [npos]). *)
Lemma fs_erase_spec Cap (s : fixed_string) index count :
  capacity_ok Cap -> storage_ok Cap s -> 0 <= index -> 0 <= count ->
  count = SizeT.npos \/ index + count < SizeT.modulus ->
  storage_ok Cap (Fstring.erase s index count) /\
  content (Fstring.erase s index count)
  = firstn (Z.to_nat index) (content s) ++ skipn (Z.to_nat (index + count)) (content s).
Proof.
  intros HN Hs Hp Hc Hw.
  assert (Hs' := Hs). destruct Hs' as (Hext & Hlen & Hterm).
  assert (Hcl : Z.of_nat (length (content s)) = len_ s) by (apply length_content; size_lia).
  unfold Fstring.erase, Fstring.npos.
  destruct (Z.ltb_spec index (len_ s)) as [Hin|Hout].
  2:{ split; auto. rewrite firstn_all2, skipn_all2 by lia. now rewrite app_nil_r. }
  assert (Hcut :
    len_ s <= index + count ->
    storage_ok Cap (mk_string (set (data_ s) index 0) index) /\
    content (mk_string (set (data_ s) index 0) index)
    = firstn (Z.to_nat index) (content s) ++ skipn (Z.to_nat (index + count)) (content s)).
  { intros Hge. split; [apply terminated_ok; size_lia|].
    rewrite skipn_all2, app_nil_r by lia.
    apply content_ext; cbn [data_ len_].
    - rewrite length_set. size_lia.
    - rewrite length_firstn. lia.
    - intros i Hi. rewrite get_set_other by lia.
      rewrite get_firstn by lia. rewrite get_content by lia. reflexivity. }
  destruct (Z.eqb_spec count SizeT.npos) as [Hn|Hn]; cbn [orb].
  { apply Hcut. size_lia. }
  destruct Hw as [Hw|Hw]; [contradiction|].
  rewrite (size_add_small index count) by size_lia.
  destruct (Z.leb_spec (len_ s) (index + count)) as [Hge|Hlt]; [now apply Hcut|].
  rewrite (size_sub_small (len_ s) count) by size_lia.
  unfold Fstring.shift_left.
  destruct (Z.eqb_spec count 0) as [H0|H0]; cbn [orb].
  - subst count. rewrite Z.sub_0_r, Z.add_0_r.
    assert (Hset : set (data_ s) (len_ s) 0 = data_ s).
    { apply buffer_ext; [now rewrite length_set|].
      intros i Hi. rewrite get_set by size_lia.
      destruct (Z.eqb_spec i (len_ s)); auto. subst i. symmetry. exact Hterm. }
    rewrite Hset. split; [destruct s; exact Hs|].
    destruct s as [d l]. cbn [data_ len_] in *.
    symmetry. apply firstn_skipn.
  - destruct (Z.leb_spec (len_ s) index); try lia.
    rewrite (size_sub_small (len_ s) index) by size_lia.
    rewrite (size_sub_small (len_ s - index) count) by size_lia.
    unfold fs_detail.move.
    split.
    + apply terminated_ok; [rewrite move_length by lia; size_lia | size_lia].
    + apply content_ext; cbn [data_ len_].
      * rewrite length_set, move_length by lia. size_lia.
      * rewrite length_erased, Hcl by lia. lia.
      * intros i Hi. rewrite get_set_other by lia.
        rewrite get_erased, Hcl by lia. rewrite move_get by lia.
        destruct (Z.leb_spec index i); destruct (Z.ltb_spec i (index + (len_ s - index - count)));
          destruct (Z.ltb_spec i (Z.of_nat (length (data_ s))));
          destruct (Z.ltb_spec i (Z.min index (len_ s))); cbn [andb]; try size_lia.
        -- rewrite get_content by lia. f_equal. lia.
        -- rewrite get_content by lia. reflexivity.
Qed.

(** An array that holds the old units below [pos], [k] units of [src] from
    [pos] on and the old tail behind them has the content [insert] is to
    build. *)
Lemma inserted_content N (s : fixed_string) (d2 src : list unit_t) pos k :
  storage_ok N s -> Z.of_nat (length d2) = N + 1 ->
  0 <= pos <= len_ s -> 0 <= k <= Z.of_nat (length src) -> len_ s + k <= N ->
  (forall i, 0 <= i < len_ s + k ->
     get d2 i = if i <? pos then get (data_ s) i
                else if i <? pos + k then get src (i - pos)
                else get (data_ s) (i - k)) ->
  content (mk_string (set d2 (len_ s + k) 0) (len_ s + k))
  = firstn (Z.to_nat pos) (content s) ++ firstn (Z.to_nat k) src
    ++ skipn (Z.to_nat pos) (content s).
Proof.
  intros (Hext & Hlen & Hterm) Hd2 Hp Hk Hfit Hg.
  assert (Hcl : Z.of_nat (length (content s)) = len_ s) by (apply length_content; size_lia).
  apply content_ext; cbn [data_ len_].
  - rewrite length_set. lia.
  - rewrite length_inserted, Hcl by lia. lia.
  - intros i Hi. rewrite get_set_other by lia.
    rewrite Hg by lia. rewrite get_inserted by lia.
    destruct (Z.ltb_spec i pos); [|destruct (Z.ltb_spec i (pos + k))]; auto.
    + rewrite get_content by lia. reflexivity.
    + rewrite get_content by lia. reflexivity.
Qed.

(** What [insert(pos, str, count)] of constant_string_core.hpp does. *)
Lemma core_insert_spec N (s : fixed_string) pos (src : list unit_t) count :
  capacity_ok N -> storage_ok N s ->
  0 <= pos <= len_ s -> 0 <= count <= Z.of_nat (length src) ->
  let k := Z.min count (N - len_ s) in
  storage_ok N (Core.insert N s pos (Some src) count) /\
  content (Core.insert N s pos (Some src) count)
  = firstn (Z.to_nat pos) (content s) ++ firstn (Z.to_nat k) src
    ++ skipn (Z.to_nat pos) (content s).
Proof.
  intros HN Hs Hp Hc k. split; [apply core_insert_ok; auto; lia|].
  assert (Hs' := Hs). destruct Hs' as (Hext & Hlen & Hterm).
  assert (Hk : 0 <= k /\ k <= count /\ len_ s + k <= N) by (subst k; size_lia).
  assert (Hsame : (count = 0 \/ N <= len_ s) ->
                  content s = firstn (Z.to_nat pos) (content s) ++ firstn (Z.to_nat k) src
                              ++ skipn (Z.to_nat pos) (content s)).
  { intros H0. replace k with 0 by (subst k; size_lia).
    cbn [Z.to_nat firstn app]. symmetry. apply firstn_skipn. }
  unfold Core.insert.
  destruct (Z.ltb_spec (len_ s) pos); [lia|]. cbn [orb].
  destruct (Z.eqb_spec count 0); cbn [orb]; [apply Hsame; auto|].
  destruct (Z.leb_spec N (len_ s)); [apply Hsame; auto|].
  rewrite !size_sub_small by size_lia. rewrite !size_min_spec. fold k.
  clearbody k.
  rewrite size_add_small by size_lia.
  replace (Z.min (len_ s + k) N) with (len_ s + k) by lia.
  unfold core_detail.memcpy_string, core_detail.memmove_string.
  apply (inserted_content N); auto; try lia.
  - rewrite write_loop_length by lia. rewrite guarded_move_length by lia. exact Hext.
  - intros i Hi. rewrite write_loop_get by lia.
    rewrite guarded_move_length, guarded_move_get by lia.
    destruct (Z.leb_spec pos i); destruct (Z.ltb_spec i (pos + k));
      destruct (Z.ltb_spec i (Z.of_nat (length (data_ s))));
      destruct (Z.ltb_spec i pos); destruct (Z.leb_spec (pos + k) i);
      destruct (Z.ltb_spec i (pos + k + (len_ s - pos)));
      cbn [andb]; try size_lia; auto.
    f_equal. lia.
Qed.

(** What [insert(index, str)] of fstring_core.hpp does. *)
Lemma fs_insert_spec Cap (s : fixed_string) index (src : list unit_t) :
  capacity_ok Cap -> storage_ok Cap s -> 0 <= index <= len_ s ->
  let k := Z.min (detail.strlen src) (Cap - len_ s) in
  storage_ok Cap (Fstring.insert Cap s index (Some src)) /\
  content (Fstring.insert Cap s index (Some src))
  = firstn (Z.to_nat index) (content s) ++ firstn (Z.to_nat k) src
    ++ skipn (Z.to_nat index) (content s).
Proof.
  intros HN Hs Hp k. split; [apply fs_insert_ok; auto; lia|].
  assert (Hs' := Hs). destruct Hs' as (Hext & Hlen & Hterm).
  pose proof (strlen_bounds src) as Hsl.
  assert (Hk : 0 <= k /\ k <= detail.strlen src /\ len_ s + k <= Cap) by (subst k; size_lia).
  assert (Hsame : k = 0 ->
                  content s = firstn (Z.to_nat index) (content s) ++ firstn (Z.to_nat k) src
                              ++ skipn (Z.to_nat index) (content s)).
  { intros H0. rewrite H0. cbn [Z.to_nat firstn app]. symmetry. apply firstn_skipn. }
  unfold Fstring.insert, Fstring.full, Fstring.available, Fstring.capacity, fs_detail.length.
  destruct (Z.eqb_spec (len_ s) Cap); cbn [negb andb]; [apply Hsame; subst k; lia|].
  destruct (Z.leb_spec index (len_ s)); [|lia].
  rewrite size_sub_small by size_lia. rewrite fs_min_spec.
  rewrite (Z.min_comm (Cap - len_ s)). fold k.
  destruct (Z.ltb_spec 0 k); [|apply Hsame; lia].
  clearbody k.
  rewrite size_add_small by size_lia.
  unfold Fstring.shift_right, Fstring.capacity, fs_detail.copy, fs_detail.move.
  destruct (Z.eqb_spec k 0); [lia|]. destruct (Z.ltb_spec (len_ s) index); [lia|]. cbn [orb].
  rewrite (size_sub_small (len_ s) index) by size_lia.
  rewrite (size_sub_small Cap index) by size_lia.
  rewrite (size_sub_small (Cap - index) k) by size_lia.
  rewrite fs_min_spec.
  replace (Z.min (len_ s - index) (Cap - index - k)) with (len_ s - index) by lia.
  apply (inserted_content Cap); auto; try lia.
  - rewrite write_loop_length, move_length by lia. exact Hext.
  - intros i Hi. rewrite write_loop_get by lia. rewrite move_length, move_get by lia.
    destruct (Z.leb_spec index i); destruct (Z.ltb_spec i (index + k));
      destruct (Z.ltb_spec i (Z.of_nat (length (data_ s))));
      destruct (Z.ltb_spec i index); destruct (Z.leb_spec (index + k) i);
      destruct (Z.ltb_spec i (index + k + (len_ s - index)));
      cbn [andb]; try size_lia; auto.
    f_equal. lia.
Qed.

(** *** The edits as a user sees them *)

Lemma firstn_app_exact {A : Type} (l r : list A) n :
  length l = n -> firstn n (l ++ r) = l.
Proof.
  intros H. subst n. rewrite firstn_app, Nat.sub_diag, firstn_all. cbn [firstn].
  apply app_nil_r.
Qed.

Lemma skipn_app_exact {A : Type} (l r : list A) n :
  length l = n -> skipn n (l ++ r) = r.
Proof.
  intros H. subst n. rewrite skipn_app, Nat.sub_diag, skipn_all. reflexivity.
Qed.

(** Taking [k] units out at [pos] undoes putting [k] units in at [pos]. *)
Lemma erase_inserted (c src : list unit_t) pos k :
  0 <= pos <= Z.of_nat (length c) -> 0 <= k <= Z.of_nat (length src) ->
  let l := firstn (Z.to_nat pos) c ++ firstn (Z.to_nat k) src ++ skipn (Z.to_nat pos) c in
  firstn (Z.to_nat pos) l ++ skipn (Z.to_nat (pos + k)) l = c.
Proof.
  intros Hp Hk l. subst l.
  rewrite firstn_app_exact by (rewrite length_firstn; lia).
  rewrite app_assoc, skipn_app_exact by (rewrite length_app, !length_firstn; lia).
  apply firstn_skipn.
Qed.

Lemma len_erased N (s e : fixed_string) pos count :
  storage_ok N s -> storage_ok N e -> 0 <= pos -> 0 <= count ->
  content e = firstn (Z.to_nat pos) (content s) ++ skipn (Z.to_nat (pos + count)) (content s) ->
  len_ e = len_ s - Z.min count (Z.max 0 (len_ s - pos)).
Proof.
  intros Hs He Hp Hc E.
  assert (H1 : Z.of_nat (length (content s)) = len_ s) by (apply length_content; size_lia).
  assert (H2 : Z.of_nat (length (content e)) = len_ e) by (apply length_content; size_lia).
  rewrite E, length_erased, H1 in H2 by lia. lia.
Qed.

(** The list [replace(pos, count, str, str_len)] builds: the range goes,
    then what fits of the replacement comes in. *)
Lemma insert_erased (c src : list unit_t) pos count k :
  0 <= pos <= Z.of_nat (length c) -> 0 <= count ->
  let e := firstn (Z.to_nat pos) c ++ skipn (Z.to_nat (pos + count)) c in
  firstn (Z.to_nat pos) e ++ firstn k src ++ skipn (Z.to_nat pos) e
  = firstn (Z.to_nat pos) c ++ firstn k src ++ skipn (Z.to_nat (pos + count)) c.
Proof.
  intros Hp Hc e. subst e.
  rewrite firstn_app_exact by (rewrite length_firstn; lia).
  rewrite skipn_app_exact by (rewrite length_firstn; lia).
  reflexivity.
Qed.

(** With a source apart from the object's array, [insert_from] and
    [replace_from] are [insert] and [replace]. *)
Lemma cs_insert_from_external N (s : fixed_string) pos (src : list unit_t) count :
  ConstantString.insert_from N s pos (ConstantString.external src) count
  = ConstantString.insert N s pos src count.
Proof. reflexivity. Qed.

Lemma cs_replace_from_external N (s : fixed_string) pos count (src : list unit_t) str_len :
  ConstantString.replace_from N s pos count (ConstantString.external src) str_len
  = ConstantString.replace N s pos count src str_len.
Proof. reflexivity. Qed.

(** A source inside the string's own array: [s.insert(1, s.data(), 3)] on
    ["abc"] and [s.replace(1, 2, s.data(), 2)] on ["abcd"], at capacity 6,
    read units the call has already rewritten. *)
Lemma cs_own_source_examples :
  content (ConstantString.insert_from 6 (ConstantString.from_array 6 [97; 98; 99; 0]) 1
             (ConstantString.internal 0) 3)
  = [97; 97; 97; 97; 98; 99] /\
  content (ConstantString.replace_from 6 (ConstantString.from_array 6 [97; 98; 99; 100; 0])
             1 2 (ConstantString.internal 0) 2)
  = [97; 97; 97; 100].
Proof. split; vm_compute; reflexivity. Qed.

(** X1.  [erase(pos, count)] takes out the units [[pos, pos + count)]
    that exist, so [min(count, length - pos)] of them, keeps the others in
    their order and keeps the storage invariants; for [pos >= length] nothing
    changes.  Both [string::erase] do so for every [count];
    [basic_fstring::erase] does so when [count] is [npos] or [pos + count]
    does not wrap around. *)
Theorem erase_removes_the_range N (s : fixed_string) (pos count : Z) :
  capacity_ok N -> storage_ok N s -> 0 <= pos -> 0 <= count ->
  let kept := firstn (Z.to_nat pos) (content s)
              ++ skipn (Z.to_nat (pos + count)) (content s) in
  let removed := Z.min count (Z.max 0 (len_ s - pos)) in
  (storage_ok N (ConstantString.erase s pos count) /\
   content (ConstantString.erase s pos count) = kept /\
   len_ (ConstantString.erase s pos count) = len_ s - removed) /\
  (storage_ok N (Core.erase s pos count) /\
   content (Core.erase s pos count) = kept /\
   len_ (Core.erase s pos count) = len_ s - removed) /\
  (count = SizeT.npos \/ pos + count < SizeT.modulus ->
   storage_ok N (Fstring.erase s pos count) /\
   content (Fstring.erase s pos count) = kept /\
   len_ (Fstring.erase s pos count) = len_ s - removed).
Proof.
  intros HN Hs Hp Hc kept removed.
  destruct (cs_erase_spec N s pos count HN Hs Hp Hc) as (A1 & A2).
  destruct (core_erase_spec N s pos count HN Hs Hp Hc) as (B1 & B2).
  split; [|split].
  - repeat split; auto; try apply A1. now apply (len_erased N s _ pos count).
  - repeat split; auto; try apply B1. now apply (len_erased N s _ pos count).
  - intros Hw.
    destruct (fs_erase_spec N s pos count HN Hs Hp Hc Hw) as (C1 & C2).
    repeat split; auto; try apply C1. now apply (len_erased N s _ pos count).
Qed.

Lemma erase_removes_the_range_witness :
  let s := ConstantString.from_array 8 [104; 101; 108; 108; 111; 0] in
  (content (ConstantString.erase s 1 2) = [104; 108; 111] /\
   len_ (ConstantString.erase s 1 2) = 3) /\
  (content (Core.erase s 1 SizeT.npos) = [104] /\
   content (Fstring.erase s 7 1) = content s).
Proof.
  assert (HN : capacity_ok 8) by (unfold capacity_ok; rewrite npos_value; lia).
  assert (Hs : storage_ok 8 (ConstantString.from_array 8 [104; 101; 108; 108; 111; 0]))
    by (repeat split; vm_compute; congruence).
  cbv zeta. split; [|split].
  - destruct (erase_removes_the_range 8 _ 1 2 HN Hs) as ((_ & E & L) & _); try lia.
    split; [exact E | exact L].
  - destruct (erase_removes_the_range 8 _ 1 SizeT.npos HN Hs) as (_ & (_ & E & _) & _);
      try (rewrite ?npos_value; lia).
    exact E.
  - destruct (erase_removes_the_range 8 _ 7 1 HN Hs) as (_ & _ & F); try lia.
    destruct F as (_ & E & _); [right; rewrite modulus_value; lia|].
    exact E.
Defined.

(** X2.  [insert] at a position [pos <= length], with a source that
    does not overlap the string's own array, puts in, at [pos], as many units
    of the source as the free room takes ([min(count, Capacity - length)]),
    moves the whole tail up behind them and keeps the storage invariants; at
    [pos > length] it changes nothing.  This holds for
    [string::insert(pos, str, count)] of both constant_string headers and for
    [basic_fstring::insert(index, str)], whose count is the length of the
    C-string.  A source inside the string's own array is read while the array
    is rewritten: [s.insert(1, s.data(), 3)] of constant_string.hpp on
    ["abc"] leaves ["aaaabc"], not ["aabcbc"]. *)
Theorem insert_places_what_fits N (s : fixed_string) (pos : Z) (src : list unit_t) (count : Z) :
  capacity_ok N -> storage_ok N s -> 0 <= pos -> 0 <= count <= Z.of_nat (length src) ->
  let built k := firstn (Z.to_nat pos) (content s) ++ firstn (Z.to_nat k) src
                 ++ skipn (Z.to_nat pos) (content s) in
  let apart := ConstantString.external src in
  (pos <= len_ s ->
   (storage_ok N (ConstantString.insert_from N s pos apart count) /\
    content (ConstantString.insert_from N s pos apart count)
    = built (Z.min count (N - len_ s))) /\
   (storage_ok N (Core.insert N s pos (Some src) count) /\
    content (Core.insert N s pos (Some src) count) = built (Z.min count (N - len_ s))) /\
   (storage_ok N (Fstring.insert N s pos (Some src)) /\
    content (Fstring.insert N s pos (Some src))
    = built (Z.min (detail.strlen src) (N - len_ s)))) /\
  (len_ s < pos ->
   ConstantString.insert_from N s pos apart count = s /\
   Core.insert N s pos (Some src) count = s /\
   Fstring.insert N s pos (Some src) = s) /\
  (let abc := ConstantString.from_array 6 [97; 98; 99; 0] in
   content (ConstantString.insert_from 6 abc 1 (ConstantString.internal 0) 3)
   = [97; 97; 97; 97; 98; 99] /\
   content (ConstantString.insert_from 6 abc 1 (ConstantString.external (data_ abc)) 3)
   = [97; 97; 98; 99; 98; 99]).
Proof.
  intros HN Hs Hp Hc built apart. subst apart. rewrite cs_insert_from_external.
  split; [|split].
  - intros Hle.
    split; [|split].
    + apply cs_insert_spec; auto.
    + apply core_insert_spec; auto.
    + apply fs_insert_spec; auto.
  - intros Hgt. split; [|split].
    + unfold ConstantString.insert. destruct (Z.ltb_spec (len_ s) pos); [reflexivity | lia].
    + unfold Core.insert. destruct (Z.ltb_spec (len_ s) pos); [reflexivity | lia].
    + unfold Fstring.insert. destruct (Z.leb_spec pos (len_ s)); [lia|].
      now rewrite andb_false_r.
  - cbv zeta. split; [apply cs_own_source_examples | vm_compute; reflexivity].
Qed.

Lemma insert_places_what_fits_witness :
  let s := ConstantString.from_array 6 [97; 98; 99; 100; 0] in
  content (ConstantString.insert_from 6 s 1 (ConstantString.external [120; 121; 122]) 3)
  = [97; 120; 121; 98; 99; 100] /\
  content (Core.insert 6 s 1 (Some [120; 121; 122]) 3) = [97; 120; 121; 98; 99; 100] /\
  content (Fstring.insert 6 s 1 (Some [120; 121; 122])) = [97; 120; 121; 98; 99; 100].
Proof.
  assert (HN : capacity_ok 6) by (unfold capacity_ok; rewrite npos_value; lia).
  assert (Hs : storage_ok 6 (ConstantString.from_array 6 [97; 98; 99; 100; 0]))
    by (repeat split; vm_compute; congruence).
  destruct (insert_places_what_fits 6 _ 1 [120; 121; 122] 3 HN Hs) as (F & _);
    [lia | simpl; lia |].
  destruct F as ((_ & A) & (_ & B) & (_ & C)); [vm_compute; congruence|].
  cbv zeta. split; [exact A | split; [exact B | exact C]].
Defined.

(** X3.  Erasing, at the same position, the units an [insert]
    has just put in gives back the content the string had before: for every
    valid string, position [pos <= length] and source, [erase(pos, k)] after
    [insert(pos, src, count)] restores the content, [k = min(count,
    Capacity - length)] being the number of units that went in. *)
Theorem erase_undoes_insert N (s : fixed_string) (pos : Z) (src : list unit_t) (count : Z) :
  capacity_ok N -> storage_ok N s ->
  0 <= pos <= len_ s -> 0 <= count <= Z.of_nat (length src) ->
  let k := Z.min count (N - len_ s) in
  let k' := Z.min (detail.strlen src) (N - len_ s) in
  content (ConstantString.erase (ConstantString.insert N s pos src count) pos k) = content s /\
  content (Core.erase (Core.insert N s pos (Some src) count) pos k) = content s /\
  content (Fstring.erase (Fstring.insert N s pos (Some src)) pos k') = content s.
Proof.
  intros HN Hs Hp Hc k k'.
  assert (Hs' := Hs). destruct Hs' as (Hext & Hlen & Hterm).
  assert (Hcl : Z.of_nat (length (content s)) = len_ s) by (apply length_content; size_lia).
  pose proof (strlen_bounds src) as Hsl.
  assert (Hk : 0 <= k <= Z.of_nat (length src)) by (subst k; size_lia).
  assert (Hk' : 0 <= k' <= Z.of_nat (length src) /\ k' <= N) by (subst k'; size_lia).
  destruct (cs_insert_spec N s pos src count HN Hs Hp Hc) as (A1 & A2).
  destruct (core_insert_spec N s pos src count HN Hs Hp Hc) as (B1 & B2).
  destruct (fs_insert_spec N s pos src HN Hs Hp) as (C1 & C2).
  fold k in A2, B2. fold k' in C2.
  split; [|split].
  - destruct (cs_erase_spec N _ pos k HN A1) as (_ & E); try lia.
    rewrite E, A2. apply erase_inserted; lia.
  - destruct (core_erase_spec N _ pos k HN B1) as (_ & E); try lia.
    rewrite E, B2. apply erase_inserted; lia.
  - destruct (fs_erase_spec N _ pos k' HN C1) as (_ & E); try lia.
    { right. size_lia. }
    rewrite E, C2. apply erase_inserted; lia.
Qed.

Lemma erase_undoes_insert_witness :
  let s := ConstantString.from_array 6 [97; 98; 99; 100; 0] in
  content (ConstantString.erase (ConstantString.insert 6 s 1 [120; 121; 122] 3) 1 2)
  = [97; 98; 99; 100].
Proof.
  assert (HN : capacity_ok 6) by (unfold capacity_ok; rewrite npos_value; lia).
  assert (Hs : storage_ok 6 (ConstantString.from_array 6 [97; 98; 99; 100; 0]))
    by (repeat split; vm_compute; congruence).
  destruct (erase_undoes_insert 6 _ 1 [120; 121; 122] 3 HN Hs) as (A & _);
    [vm_compute; split; congruence | simpl; lia |].
  exact A.
Defined.

(** X4.  [string::replace(pos, count, str, str_len)], which erases
    and then inserts, gives what one pass would when the replacement does not
    overlap the string's own array: for [pos <= length] the units
    [[pos, pos + count)] go and, in their place, come the units of the
    replacement that fit in the room there is after the erasure, the rest of
    the replacement being dropped; for [pos > length] nothing changes.  A
    replacement inside the string's own array is read after the erasure has
    moved the tail: [s.replace(1, 2, s.data(), 2)] of constant_string.hpp on
    ["abcd"] leaves ["aaad"], not ["aabd"]. *)
Theorem replace_is_erase_then_insert N (s : fixed_string) (pos count : Z)
  (src : list unit_t) (str_len : Z) :
  capacity_ok N -> storage_ok N s -> 0 <= pos -> 0 <= count ->
  0 <= str_len <= Z.of_nat (length src) ->
  let removed := Z.min count (Z.max 0 (len_ s - pos)) in
  let k := Z.min str_len (N - (len_ s - removed)) in
  let replaced := firstn (Z.to_nat pos) (content s) ++ firstn (Z.to_nat k) src
                  ++ skipn (Z.to_nat (pos + count)) (content s) in
  let apart := ConstantString.external src in
  (pos <= len_ s ->
   (storage_ok N (ConstantString.replace_from N s pos count apart str_len) /\
    content (ConstantString.replace_from N s pos count apart str_len) = replaced) /\
   (storage_ok N (Core.replace N s pos count (Some src) str_len) /\
    content (Core.replace N s pos count (Some src) str_len) = replaced)) /\
  (len_ s < pos ->
   ConstantString.replace_from N s pos count apart str_len = s /\
   Core.replace N s pos count (Some src) str_len = s) /\
  (let abcd := ConstantString.from_array 6 [97; 98; 99; 100; 0] in
   content (ConstantString.replace_from 6 abcd 1 2 (ConstantString.internal 0) 2)
   = [97; 97; 97; 100] /\
   content (ConstantString.replace_from 6 abcd 1 2 (ConstantString.external (data_ abcd)) 2)
   = [97; 97; 98; 100]).
Proof.
  intros HN Hs Hp Hc Hl removed k replaced apart. subst apart.
  rewrite cs_replace_from_external.
  assert (Hs' := Hs). destruct Hs' as (Hext & Hlen & Hterm).
  assert (Hcl : Z.of_nat (length (content s)) = len_ s) by (apply length_content; size_lia).
  destruct (cs_erase_spec N s pos count HN Hs Hp Hc) as (A1 & A2).
  destruct (core_erase_spec N s pos count HN Hs Hp Hc) as (B1 & B2).
  pose proof (len_erased N s _ pos count Hs A1 Hp Hc A2) as A3.
  pose proof (len_erased N s _ pos count Hs B1 Hp Hc B2) as B3.
  fold removed in A3, B3.
  split; [|split].
  - intros Hle. split.
    + unfold ConstantString.replace.
      destruct (cs_insert_spec N (ConstantString.erase s pos count) pos src str_len)
        as (I1 & I2); auto; try (subst removed; lia).
      split; [exact I1|].
      rewrite I2, A2, A3. fold k. subst replaced. apply insert_erased; lia.
    + unfold Core.replace. destruct (Z.ltb_spec (len_ s) pos); [lia|].
      destruct (core_insert_spec N (Core.erase s pos count) pos src str_len)
        as (I1 & I2); auto; try (subst removed; lia).
      split; [exact I1|].
      rewrite I2, B2, B3. fold k. subst replaced. apply insert_erased; lia.
  - intros Hgt. split.
    + unfold ConstantString.replace, ConstantString.erase.
      destruct (Z.leb_spec (len_ s) pos); [|lia].
      unfold ConstantString.insert. destruct (Z.ltb_spec (len_ s) pos); [reflexivity | lia].
    + unfold Core.replace. destruct (Z.ltb_spec (len_ s) pos); [reflexivity | lia].
  - cbv zeta. split; [apply cs_own_source_examples | vm_compute; reflexivity].
Qed.

Lemma replace_is_erase_then_insert_witness :
  let s := ConstantString.from_array 6 [97; 98; 99; 100; 0] in
  content (ConstantString.replace_from 6 s 1 2
             (ConstantString.external [120; 121; 122; 119; 118]) 5)
  = [97; 120; 121; 122; 119; 100] /\
  content (Core.replace 6 s 1 2 (Some [120; 121; 122; 119; 118]) 5)
  = [97; 120; 121; 122; 119; 100].
Proof.
  assert (HN : capacity_ok 6) by (unfold capacity_ok; rewrite npos_value; lia).
  assert (Hs : storage_ok 6 (ConstantString.from_array 6 [97; 98; 99; 100; 0]))
    by (repeat split; vm_compute; congruence).
  destruct (replace_is_erase_then_insert 6 _ 1 2 [120; 121; 122; 119; 118] 5 HN Hs)
    as (F & _); [lia | lia | simpl; lia |].
  destruct F as ((_ & A) & (_ & B)); [vm_compute; congruence|].
  cbv zeta. split; [exact A | exact B].
Defined.

(** ** Reversal, case conversion and trimming in constant_string.hpp *)

(** The array after [reverse()]: the significant units in reverse order, the
    rest as before. *)
Lemma cs_reverse_get (s : fixed_string) :
  0 <= len_ s <= Z.of_nat (length (data_ s)) -> len_ s < SizeT.modulus ->
  length (data_ (ConstantString.reverse s)) = length (data_ s) /\
  forall j, get (data_ (ConstantString.reverse s)) j
            = if (0 <=? j) && (j <? len_ s) then get (data_ s) (len_ s - 1 - j)
              else get (data_ s) j.
Proof.
  intros Hlen Hmod. unfold ConstantString.reverse. cbn [data_].
  set (len := len_ s) in *. set (d := data_ s) in *.
  rewrite (for_range_ext 0 (len / 2) _
             (fun i e => set (set e i (get e (len - 1 - i))) (len - 1 - i) (get e i))).
  2:{ intros i t Hi. cbv zeta.
      assert (2 * (len / 2) <= len) by (apply Z.mul_div_le; lia).
      rewrite (size_sub_small len 1) by lia.
      rewrite (size_sub_small (len - 1) i) by lia. reflexivity. }
  assert (Hhalf : 2 * (len / 2) <= len) by (apply Z.mul_div_le; lia).
  assert (Hhalf' : len < 2 * (len / 2) + 2).
  { pose proof (Z.mod_pos_bound len 2). pose proof (Z.div_mod len 2). lia. }
  assert (Hinv :
    length (for_range 0 (len / 2)
              (fun i e => set (set e i (get e (len - 1 - i))) (len - 1 - i) (get e i)) d)
    = length d /\
    forall j,
      get (for_range 0 (len / 2)
             (fun i e => set (set e i (get e (len - 1 - i))) (len - 1 - i) (get e i)) d) j
      = if (0 <=? j) && (j <? len) && ((j <? len / 2) || (len - 1 - len / 2 <? j))
        then get d (len - 1 - j) else get d j).
  { apply (for_range_inv
             (fun i t => length t = length d /\
                forall j, get t j =
                  if (0 <=? j) && (j <? len) && ((j <? i) || (len - 1 - i <? j))
                  then get d (len - 1 - j) else get d j)).
    - apply Z.div_pos; lia.
    - split; auto. intros j.
      destruct (Z.leb_spec 0 j); destruct (Z.ltb_spec j len); destruct (Z.ltb_spec j 0);
        destruct (Z.ltb_spec (len - 1 - 0) j); cbn [andb orb]; auto; lia.
    - intros i t Hi (Hl & Hg). rewrite !length_set. split; auto.
      intros j.
      rewrite get_set by (rewrite length_set; lia).
      rewrite get_set by lia.
      rewrite !Hg.
      destruct (Z.eqb_spec j (len - 1 - i)) as [->|Hne1].
      + destruct (Z.leb_spec 0 i); destruct (Z.ltb_spec i len); destruct (Z.ltb_spec i i);
          destruct (Z.ltb_spec (len - 1 - i) i);
          destruct (Z.leb_spec 0 (len - 1 - i)); destruct (Z.ltb_spec (len - 1 - i) len);
          destruct (Z.ltb_spec (len - 1 - i) (i + 1));
          destruct (Z.ltb_spec (len - 1 - (i + 1)) (len - 1 - i));
          cbn [andb orb]; try lia.
        f_equal. lia.
      + destruct (Z.eqb_spec j i) as [->|Hne2].
        * destruct (Z.leb_spec 0 i); destruct (Z.ltb_spec i len);
            destruct (Z.ltb_spec i (i + 1));
            destruct (Z.leb_spec 0 (len - 1 - i)); destruct (Z.ltb_spec (len - 1 - i) len);
            destruct (Z.ltb_spec (len - 1 - i) i);
            destruct (Z.ltb_spec (len - 1 - i) (len - 1 - i));
            cbn [andb orb]; lia.
        * destruct (Z.leb_spec 0 j); destruct (Z.ltb_spec j len); destruct (Z.ltb_spec j i);
            destruct (Z.ltb_spec j (i + 1)); destruct (Z.ltb_spec (len - 1 - i) j);
            destruct (Z.ltb_spec (len - 1 - (i + 1)) j); cbn [andb orb]; auto; lia. }
  destruct Hinv as (Hl & Hg). split; auto.
  intros j. rewrite Hg.
  destruct (Z.leb_spec 0 j); destruct (Z.ltb_spec j len); cbn [andb]; auto.
  destruct (Z.ltb_spec j (len / 2)); destruct (Z.ltb_spec (len - 1 - len / 2) j);
    cbn [orb]; auto.
  f_equal. lia.
Qed.

Lemma cs_reverse_content N (s : fixed_string) :
  capacity_ok N -> storage_ok N s ->
  storage_ok N (ConstantString.reverse s) /\
  content (ConstantString.reverse s) = rev (content s).
Proof.
  intros HN Hs. assert (Hs' := Hs). destruct Hs' as (Hext & Hlen & Hterm).
  destruct (cs_reverse_get s) as (Hl & Hg); try size_lia.
  assert (Hcl : Z.of_nat (length (content s)) = len_ s) by (apply length_content; size_lia).
  split.
  - unfold storage_ok, extent_ok, I1, I2 in *.
    change (len_ (ConstantString.reverse s)) with (len_ s).
    rewrite Hl, Hg. repeat split; try lia.
    destruct (Z.leb_spec 0 (len_ s)); destruct (Z.ltb_spec (len_ s) (len_ s));
      cbn [andb]; auto; lia.
  - apply content_ext.
    + change (len_ (ConstantString.reverse s)) with (len_ s). rewrite Hl. size_lia.
    + rewrite length_rev. exact Hcl.
    + change (len_ (ConstantString.reverse s)) with (len_ s).
      intros i Hi. rewrite Hg, get_rev by lia. rewrite Hcl.
      destruct (Z.leb_spec 0 i); destruct (Z.ltb_spec i (len_ s)); cbn [andb]; try lia.
      rewrite get_content by lia. reflexivity.
Qed.

Lemma cs_reverse_involutive N (s : fixed_string) :
  capacity_ok N -> storage_ok N s ->
  ConstantString.reverse (ConstantString.reverse s) = s.
Proof.
  intros HN Hs. assert (Hs' := Hs). destruct Hs' as (Hext & Hlen & Hterm).
  destruct (cs_reverse_get s) as (Hl & Hg); try size_lia.
  destruct (cs_reverse_get (ConstantString.reverse s)) as (Hl2 & Hg2).
  { change (len_ (ConstantString.reverse s)) with (len_ s). rewrite Hl. size_lia. }
  { change (len_ (ConstantString.reverse s)) with (len_ s). size_lia. }
  change (len_ (ConstantString.reverse s)) with (len_ s) in Hg2.
  destruct s as [d len]. cbn [data_ len_] in *.
  change (ConstantString.reverse (ConstantString.reverse (mk_string d len)))
    with (mk_string (data_ (ConstantString.reverse (ConstantString.reverse (mk_string d len)))) len).
  f_equal. apply buffer_ext; [congruence|].
  intros j Hj. rewrite Hg2, !Hg.
  destruct (Z.leb_spec 0 j); destruct (Z.ltb_spec j len); cbn [andb]; auto.
  destruct (Z.leb_spec 0 (len - 1 - j)); destruct (Z.ltb_spec (len - 1 - j) len);
    cbn [andb]; try lia.
  f_equal. lia.
Qed.

(** A loop that maps the unit at every index below [n]. *)
Lemma map_loop (d : list unit_t) n (p : unit_t -> bool) (f : unit_t -> unit_t) :
  n <= Z.of_nat (length d) ->
  let r := for_range 0 n (fun i e => if p (get e i) then set e i (f (get e i)) else e) d in
  length r = length d /\
  forall j, get r j = if (0 <=? j) && (j <? n)
                      then (if p (get d j) then f (get d j) else get d j)
                      else get d j.
Proof.
  intros Hn r. subst r.
  destruct (Z.le_gt_cases n 0) as [H0|H0].
  - rewrite for_range_empty by lia. split; auto.
    intros j. destruct (Z.leb_spec 0 j); destruct (Z.ltb_spec j n); cbn [andb]; auto; lia.
  - apply (for_range_inv
             (fun i t => length t = length d /\
                forall j, get t j = if (0 <=? j) && (j <? i)
                                    then (if p (get d j) then f (get d j) else get d j)
                                    else get d j)); [lia| |].
    + split; auto. intros j.
      destruct (Z.leb_spec 0 j); destruct (Z.ltb_spec j 0); cbn [andb]; auto; lia.
    + intros i t Hi (Hl & Hg).
      assert (Ei : get t i = get d i).
      { rewrite Hg. destruct (Z.leb_spec 0 i); destruct (Z.ltb_spec i i); cbn [andb]; auto; lia. }
      rewrite Ei. split.
      * destruct (p (get d i)); auto. now rewrite length_set.
      * intros j.
        assert (Ej : get (if p (get d i) then set t i (f (get d i)) else t) j
                     = if j =? i then (if p (get d i) then f (get d i) else get d i)
                       else get t j).
        { destruct (p (get d i)).
          - apply get_set. lia.
          - destruct (Z.eqb_spec j i); congruence. }
        rewrite Ej, Hg. clear Ej.
        destruct (Z.eqb_spec j i) as [E|Hne]; [rewrite E|].
        -- destruct (Z.leb_spec 0 i); destruct (Z.ltb_spec i (i + 1)); cbn [andb]; auto; lia.
        -- destruct (Z.leb_spec 0 j); destruct (Z.ltb_spec j i); destruct (Z.ltb_spec j (i + 1));
             cbn [andb]; auto; lia.
Qed.

(** An object whose array is mapped below its length. *)
Lemma mapped_content N (s : fixed_string) (r : list unit_t) (g : unit_t -> unit_t) :
  storage_ok N s ->
  length r = length (data_ s) ->
  (forall j, get r j = if (0 <=? j) && (j <? len_ s) then g (get (data_ s) j)
                       else get (data_ s) j) ->
  storage_ok N (mk_string r (len_ s)) /\
  content (mk_string r (len_ s)) = map g (content s).
Proof.
  intros (Hext & Hlen & Hterm) Hl Hg.
  assert (Hcl : Z.of_nat (length (content s)) = len_ s) by (apply length_content; size_lia).
  split.
  - unfold storage_ok, extent_ok, I1, I2 in *. cbn [data_ len_].
    rewrite Hl, Hg. repeat split; try lia.
    destruct (Z.leb_spec 0 (len_ s)); destruct (Z.ltb_spec (len_ s) (len_ s));
      cbn [andb]; auto; lia.
  - apply content_ext; cbn [data_ len_].
    + rewrite Hl. size_lia.
    + rewrite length_map. exact Hcl.
    + intros i Hi. rewrite Hg, get_map by lia.
      destruct (Z.leb_spec 0 i); destruct (Z.ltb_spec i (len_ s)); cbn [andb]; try lia.
      rewrite get_content by lia. reflexivity.
Qed.

Lemma cs_to_upper_spec N (s : fixed_string) :
  storage_ok N s ->
  storage_ok N (ConstantString.to_upper s) /\
  content (ConstantString.to_upper s) = map ascii_upper (content s).
Proof.
  intros Hs. assert (Hs' := Hs). destruct Hs' as (Hext & Hlen & Hterm).
  unfold ConstantString.to_upper.
  destruct (map_loop (data_ s) (len_ s) (fun ch => (97 <=? ch) && (ch <=? 122))
              (fun ch => ch - 32)) as (Hl & Hg); [size_lia|].
  apply mapped_content; auto.
Qed.

Lemma cs_to_lower_spec N (s : fixed_string) :
  storage_ok N s ->
  storage_ok N (ConstantString.to_lower s) /\
  content (ConstantString.to_lower s) = map ascii_lower (content s).
Proof.
  intros Hs. assert (Hs' := Hs). destruct Hs' as (Hext & Hlen & Hterm).
  unfold ConstantString.to_lower.
  destruct (map_loop (data_ s) (len_ s) (fun ch => (65 <=? ch) && (ch <=? 90))
              (fun ch => ch + 32)) as (Hl & Hg); [size_lia|].
  apply mapped_content; auto.
Qed.

(** Case analysis on the comparisons of a goal. *)
Ltac case_bounds :=
  repeat (first
    [ match goal with |- context [?x <=? ?y] => destruct (Z.leb_spec x y) end
    | match goal with |- context [?x <? ?y] => destruct (Z.ltb_spec x y) end
    | match goal with |- context [?x =? ?y] => destruct (Z.eqb_spec x y) end ];
    cbn [andb orb negb] in *);
  try lia; auto.

Lemma ascii_upper_idempotent ch : ascii_upper (ascii_upper ch) = ascii_upper ch.
Proof. unfold ascii_upper. case_bounds. Qed.

Lemma ascii_lower_idempotent ch : ascii_lower (ascii_lower ch) = ascii_lower ch.
Proof. unfold ascii_lower. case_bounds. Qed.

Lemma ascii_lower_upper ch : ascii_lower (ascii_upper ch) = ascii_lower ch.
Proof. unfold ascii_lower, ascii_upper. case_bounds. Qed.

Lemma ascii_upper_lower ch : ascii_upper (ascii_lower ch) = ascii_upper ch.
Proof. unfold ascii_lower, ascii_upper. case_bounds. Qed.

(** *** [trim] *)

Lemma get_units (d : list unit_t) i n j :
  0 <= j < Z.of_nat n -> get (units d i n) j = get d (i + j).
Proof.
  intros Hj. unfold units.
  rewrite get_nth by (rewrite length_map, length_seq; lia).
  rewrite (nth_indep _ 0 (get d (i + Z.of_nat 0))) by (rewrite length_map, length_seq; lia).
  rewrite (map_nth (fun k => get d (i + Z.of_nat k))).
  rewrite seq_nth by lia. f_equal. lia.
Qed.

Lemma content_units (s : fixed_string) :
  0 <= len_ s <= Z.of_nat (length (data_ s)) ->
  content s = units (data_ s) 0 (Z.to_nat (len_ s)).
Proof. intros H. unfold content. symmetry. apply units_firstn. lia. Qed.

(** The first loop of [trim] stops at the first unit that is no white
    space. *)
Lemma trim_start_spec (d : list unit_t) len fuel start :
  0 <= start <= len -> len - start <= Z.of_nat fuel ->
  let st := ConstantString.trim_start fuel d len start in
  start <= st <= len /\
  drop_space (units d start (Z.to_nat (len - start))) = units d st (Z.to_nat (len - st)).
Proof.
  revert start; induction fuel as [|fuel IH]; intros start Hs Hf; cbn [ConstantString.trim_start].
  - replace (Z.to_nat (len - start)) with O by lia. split; [lia | reflexivity].
  - destruct (Z.ltb_spec start len) as [Hlt|Hge]; cbn [andb].
    + replace (Z.to_nat (len - start)) with (S (Z.to_nat (len - (start + 1)))) by lia.
      rewrite units_S. cbn [drop_space].
      destruct (ConstantString.trim_space (get d start)) eqn:Esp.
      * destruct (IH (start + 1)) as (H1 & H2); try lia.
        split; [lia | exact H2].
      * split; [lia|]. rewrite <- units_S. f_equal. lia.
    + replace (Z.to_nat (len - start)) with O by lia. split; [lia | reflexivity].
Qed.

(** The second loop stops behind the last unit that is no white space. *)
Lemma trim_end_spec (d : list unit_t) start fuel end_ :
  start <= end_ -> end_ - start <= Z.of_nat fuel ->
  let en := ConstantString.trim_end fuel d start end_ in
  start <= en <= end_ /\
  rev (drop_space (rev (units d start (Z.to_nat (end_ - start)))))
  = units d start (Z.to_nat (en - start)).
Proof.
  revert end_; induction fuel as [|fuel IH]; intros end_ Hs Hf; cbn [ConstantString.trim_end].
  - replace (Z.to_nat (end_ - start)) with O by lia. split; [lia | reflexivity].
  - destruct (Z.ltb_spec start end_) as [Hlt|Hge]; cbn [andb].
    + replace (Z.to_nat (end_ - start)) with (S (Z.to_nat (end_ - 1 - start))) by lia.
      rewrite units_snoc, rev_app_distr. cbn [rev app drop_space].
      replace (start + Z.of_nat (Z.to_nat (end_ - 1 - start))) with (end_ - 1) by lia.
      destruct (ConstantString.trim_space (get d (end_ - 1))) eqn:Esp.
      * destruct (IH (end_ - 1)) as (H1 & H2); try lia.
        split; [lia | exact H2].
      * split; [lia|].
        change (get d (end_ - 1) :: rev (units d start (Z.to_nat (end_ - 1 - start))))
          with (rev [get d (end_ - 1)] ++ rev (units d start (Z.to_nat (end_ - 1 - start)))).
        rewrite <- rev_app_distr, rev_involutive.
        replace (Z.to_nat (end_ - start)) with (S (Z.to_nat (end_ - 1 - start))) by lia.
        rewrite units_snoc. do 3 f_equal. lia.
    + replace (Z.to_nat (end_ - start)) with O by lia. split; [lia | reflexivity].
Qed.

(** What [trim()] of constant_string.hpp does. *)
Lemma cs_trim_spec N (s : fixed_string) :
  capacity_ok N -> storage_ok N s ->
  storage_ok N (ConstantString.trim s) /\
  content (ConstantString.trim s) = stripped (content s).
Proof.
  intros HN Hs. assert (Hs' := Hs). destruct Hs' as (Hext & Hlen & Hterm).
  unfold ConstantString.trim.
  destruct (trim_start_spec (data_ s) (len_ s) (Z.to_nat (len_ s)) 0) as (A1 & A2);
    try size_lia.
  set (st := ConstantString.trim_start (Z.to_nat (len_ s)) (data_ s) (len_ s) 0) in *.
  destruct (trim_end_spec (data_ s) st (Z.to_nat (len_ s)) (len_ s)) as (B1 & B2);
    try size_lia.
  set (en := ConstantString.trim_end (Z.to_nat (len_ s)) (data_ s) st (len_ s)) in *.
  assert (Hstrip : stripped (content s) = units (data_ s) st (Z.to_nat (en - st))).
  { unfold stripped. rewrite content_units by size_lia.
    rewrite Z.sub_0_r in A2. rewrite A2. exact B2. }
  rewrite Hstrip.
  destruct (Z.ltb_spec 0 st) as [Hst|Hst]; [|destruct (Z.ltb_spec en (len_ s)) as [Hen|Hen]];
    cbn [orb].
  3:{ split; auto. rewrite content_units by size_lia.
      replace st with 0 by lia. f_equal. lia. }
  all: rewrite (size_sub_small en st) by size_lia.
  all: rewrite (for_range_ext 0 (en - st) _ (fun i e => set e i (get e (i + st))))
         by (intros i t Hi; rewrite size_add_small by size_lia; f_equal; f_equal; lia).
  all: destruct (shift_down_loop (data_ s) 0 (en - st) st) as (Hl & Hg); try size_lia.
  all: split; [apply terminated_ok; [rewrite Hl; exact Hext | size_lia]|].
  all: apply content_ext; cbn [data_ len_];
         [ rewrite length_set, Hl; size_lia
         | rewrite length_units; lia
         | intros i Hi; rewrite get_set_other by lia;
           rewrite Hg, get_units by lia;
           destruct (Z.leb_spec 0 i); destruct (Z.ltb_spec i (en - st)); cbn [andb]; try lia;
           f_equal; lia ].
Qed.

(** Facts on [stripped]. *)
Lemma drop_space_fixed (l : list unit_t) :
  match l with [] => True | c :: _ => ConstantString.trim_space c = false end ->
  drop_space l = l.
Proof. destruct l as [|c r]; cbn [drop_space]; auto. now intros ->. Qed.

Lemma drop_space_head (l : list unit_t) :
  match drop_space l with [] => True | c :: _ => ConstantString.trim_space c = false end.
Proof.
  induction l as [|c r IH]; cbn [drop_space]; auto.
  destruct (ConstantString.trim_space c) eqn:E; auto.
Qed.

Lemma drop_space_suffix (l : list unit_t) :
  exists sp, l = sp ++ drop_space l.
Proof.
  induction l as [|c r (sp & IH)]; cbn [drop_space].
  - now exists [].
  - destruct (ConstantString.trim_space c).
    + exists (c :: sp). cbn [app]. now f_equal.
    + now exists [].
Qed.

Lemma stripped_idempotent (l : list unit_t) : stripped (stripped l) = stripped l.
Proof.
  unfold stripped.
  set (l1 := drop_space l).
  set (l2 := drop_space (rev l1)).
  assert (H1 : match l1 with [] => True | c :: _ => ConstantString.trim_space c = false end)
    by apply drop_space_head.
  assert (H2 : match l2 with [] => True | c :: _ => ConstantString.trim_space c = false end)
    by apply drop_space_head.
  assert (H3 : match rev l2 with [] => True | c :: _ => ConstantString.trim_space c = false end).
  { destruct (drop_space_suffix (rev l1)) as (sp & E). fold l2 in E.
    apply (f_equal (@rev unit_t)) in E. rewrite rev_involutive, rev_app_distr in E.
    destruct (rev l2) as [|c r]; auto.
    rewrite E in H1. exact H1. }
  rewrite (drop_space_fixed (rev l2) H3), rev_involutive.
  now rewrite (drop_space_fixed l2 H2).
Qed.

Lemma stripped_ends (l : list unit_t) :
  match stripped l with [] => True | c :: _ => ConstantString.trim_space c = false end /\
  match rev (stripped l) with [] => True | c :: _ => ConstantString.trim_space c = false end.
Proof.
  unfold stripped. rewrite rev_involutive. split; [|apply drop_space_head].
  set (l1 := drop_space l).
  pose proof (drop_space_head l) as H1. fold l1 in H1.
  destruct (drop_space_suffix (rev l1)) as (sp & E).
  apply (f_equal (@rev unit_t)) in E. rewrite rev_involutive, rev_app_distr in E.
  destruct (rev (drop_space (rev l1))) as [|c r]; auto.
  rewrite E in H1. exact H1.
Qed.

(** X5.  [string::reverse()] (the same loop in both constant_string
    headers) leaves the significant units in reverse order, touches neither
    the length nor the units behind it, keeps the storage invariants, and
    applied twice gives back the very object it started from. *)
Theorem reverse_is_an_involution N (s : fixed_string) :
  capacity_ok N -> storage_ok N s ->
  storage_ok N (ConstantString.reverse s) /\
  content (ConstantString.reverse s) = rev (content s) /\
  len_ (ConstantString.reverse s) = len_ s /\
  ConstantString.reverse (ConstantString.reverse s) = s /\
  Core.reverse s = ConstantString.reverse s /\
  content (ConstantString.reversed s) = rev (content s).
Proof.
  intros HN Hs.
  destruct (cs_reverse_content N s HN Hs) as (H1 & H2).
  refine (conj H1 (conj H2 (conj eq_refl (conj _ (conj eq_refl H2))))).
  now apply (cs_reverse_involutive N).
Qed.

Lemma reverse_is_an_involution_witness :
  let s := ConstantString.from_array 8 [97; 98; 99; 100; 101; 0] in
  content (ConstantString.reverse s) = [101; 100; 99; 98; 97] /\
  ConstantString.reverse (ConstantString.reverse s) = s.
Proof.
  assert (HN : capacity_ok 8) by (unfold capacity_ok; rewrite npos_value; lia).
  assert (Hs : storage_ok 8 (ConstantString.from_array 8 [97; 98; 99; 100; 101; 0]))
    by (repeat split; vm_compute; congruence).
  destruct (reverse_is_an_involution 8 _ HN Hs) as (_ & A & _ & B & _).
  cbv zeta. split; [exact A | exact B].
Defined.

(** X6.  [string::to_upper()] and [string::to_lower()] of
    constant_string.hpp map the significant units through the ASCII mapping
    (['a'..'z'] to ['A'..'Z'] and back, every other unit unchanged), keep the
    length and the storage invariants; each is idempotent, and converting to
    one case after the other gives what the last conversion alone gives. *)
Theorem case_conversion_maps_ascii_letters N (s : fixed_string) :
  storage_ok N s ->
  (storage_ok N (ConstantString.to_upper s) /\
   content (ConstantString.to_upper s) = map ascii_upper (content s)) /\
  (storage_ok N (ConstantString.to_lower s) /\
   content (ConstantString.to_lower s) = map ascii_lower (content s)) /\
  content (ConstantString.to_upper (ConstantString.to_upper s))
  = content (ConstantString.to_upper s) /\
  content (ConstantString.to_lower (ConstantString.to_lower s))
  = content (ConstantString.to_lower s) /\
  content (ConstantString.to_lower (ConstantString.to_upper s))
  = content (ConstantString.to_lower s) /\
  content (ConstantString.to_upper (ConstantString.to_lower s))
  = content (ConstantString.to_upper s).
Proof.
  intros Hs.
  destruct (cs_to_upper_spec N s Hs) as (U1 & U2).
  destruct (cs_to_lower_spec N s Hs) as (L1 & L2).
  destruct (cs_to_upper_spec N _ U1) as (_ & UU).
  destruct (cs_to_lower_spec N _ L1) as (_ & LL).
  destruct (cs_to_lower_spec N _ U1) as (_ & LU).
  destruct (cs_to_upper_spec N _ L1) as (_ & UL).
  refine (conj (conj U1 U2) (conj (conj L1 L2) (conj _ (conj _ (conj _ _))))).
  - rewrite UU, U2, map_map. apply map_ext, ascii_upper_idempotent.
  - rewrite LL, L2, map_map. apply map_ext, ascii_lower_idempotent.
  - rewrite LU, U2, L2, map_map. apply map_ext, ascii_lower_upper.
  - rewrite UL, L2, U2, map_map. apply map_ext, ascii_upper_lower.
Qed.

Lemma case_conversion_maps_ascii_letters_witness :
  let s := ConstantString.from_array 8 [72; 105; 44; 32; 122; 90; 33; 0] in
  content (ConstantString.to_upper s) = [72; 73; 44; 32; 90; 90; 33] /\
  content (ConstantString.to_lower s) = [104; 105; 44; 32; 122; 122; 33].
Proof.
  assert (Hs : storage_ok 8 (ConstantString.from_array 8 [72; 105; 44; 32; 122; 90; 33; 0]))
    by (repeat split; vm_compute; congruence).
  destruct (case_conversion_maps_ascii_letters 8 _ Hs) as ((_ & A) & (_ & B) & _).
  cbv zeta. split; [exact A | exact B].
Defined.

(** X7.  [string::trim()] of constant_string.hpp removes the white
    space (space, tab, newline, carriage return) at both ends and nothing
    else: the content becomes the old one without its leading and trailing
    white space, so it neither starts nor ends with white space; the
    storage invariants hold and trimming again changes nothing. *)
Theorem trim_strips_both_ends N (s : fixed_string) :
  capacity_ok N -> storage_ok N s ->
  let t := ConstantString.trim s in
  storage_ok N t /\
  content t = stripped (content s) /\
  match content t with [] => True | c :: _ => ConstantString.trim_space c = false end /\
  match rev (content t) with [] => True | c :: _ => ConstantString.trim_space c = false end /\
  content (ConstantString.trim t) = content t /\
  content (ConstantString.trimmed s) = content t.
Proof.
  intros HN Hs t.
  destruct (cs_trim_spec N s HN Hs) as (T1 & T2). fold t in T1, T2.
  destruct (cs_trim_spec N t HN T1) as (_ & T3).
  destruct (stripped_ends (content s)) as (E1 & E2).
  rewrite T3, T2.
  refine (conj T1 (conj eq_refl (conj E1 (conj E2 (conj _ T2))))).
  apply stripped_idempotent.
Qed.

Lemma trim_strips_both_ends_witness :
  let s := ConstantString.from_array 20 [32; 32; 104; 101; 108; 108; 111; 32; 32; 0] in
  content (ConstantString.trim s) = [104; 101; 108; 108; 111].
Proof.
  assert (HN : capacity_ok 20) by (unfold capacity_ok; rewrite npos_value; lia).
  assert (Hs : storage_ok 20
                 (ConstantString.from_array 20 [32; 32; 104; 101; 108; 108; 111; 32; 32; 0]))
    by (repeat split; vm_compute; congruence).
  destruct (trim_strips_both_ends 20 _ HN Hs) as (_ & A & _).
  exact A.
Defined.

(** ** Searching in constant_string.hpp *)

Lemma strlen_from_stops fuel (str : list unit_t) len :
  0 <= len -> Z.of_nat (length str) - len <= Z.of_nat fuel ->
  let r := detail.strlen_from fuel str len in
  get str r = 0 /\ forall k, len <= k < r -> get str k <> 0.
Proof.
  revert len; induction fuel as [|fuel IH]; intros len Hl Hf; cbn [detail.strlen_from].
  - split; [apply get_outside; lia | intros k Hk; lia].
  - destruct (Z.eqb_spec (get str len) 0) as [E|E].
    + split; [exact E | intros k Hk; lia].
    + destruct (IH (len + 1)) as (H1 & H2); try lia.
      split; [exact H1|].
      intros k Hk. destruct (Z.eq_dec k len) as [->|Hne]; auto. apply H2. lia.
Qed.

(** [strlen] returns the index of the first terminator. *)
Lemma strlen_spec (str : list unit_t) :
  get str (detail.strlen str) = 0 /\
  forall k, 0 <= k < detail.strlen str -> get str k <> 0.
Proof. unfold detail.strlen. apply strlen_from_stops; lia. Qed.

Lemma length_c_string (str : list unit_t) :
  Z.of_nat (length (c_string str)) = detail.strlen str.
Proof.
  unfold c_string. pose proof (strlen_bounds str). rewrite length_firstn. lia.
Qed.

Lemma get_c_string (str : list unit_t) k :
  0 <= k < detail.strlen str -> get (c_string str) k = get str k.
Proof. intros H. unfold c_string. apply get_firstn. lia. Qed.

(** A list without terminator is its own C-string. *)
Lemma c_string_plain (l : list unit_t) :
  Forall (fun c => c <> 0) l -> c_string l = l.
Proof.
  intros H. unfold c_string.
  assert (E : detail.strlen l = Z.of_nat (length l)).
  { destruct (strlen_spec l) as (H1 & _). pose proof (strlen_bounds l) as Hb.
    destruct (Z.eq_dec (detail.strlen l) (Z.of_nat (length l))) as [E|E]; auto.
    exfalso. rewrite get_nth in H1 by lia.
    rewrite Forall_forall in H. apply (H (nth (Z.to_nat (detail.strlen l)) l 0)); auto.
    apply nth_In. lia. }
  rewrite E, Nat2Z.id. apply firstn_all.
Qed.

(** [occurs_at], read through [get]. *)
Lemma occurs_at_get (c needle : list unit_t) i :
  occurs_at c needle i <->
  0 <= i /\ i + Z.of_nat (length needle) <= Z.of_nat (length c) /\
  forall k, 0 <= k < Z.of_nat (length needle) -> get c (i + k) = get needle k.
Proof.
  unfold occurs_at. split; intros (Hi & Hl & H); repeat split; auto.
  - intros k Hk.
    transitivity (get (firstn (length needle) (skipn (Z.to_nat i) c)) k); [|now rewrite H].
    rewrite get_firstn by lia. rewrite get_skipn by lia. f_equal. lia.
  - apply (list_ext_get _ _ (Z.of_nat (length needle))); auto.
    + rewrite length_firstn, length_skipn. lia.
    + intros k Hk. rewrite get_firstn by lia. rewrite get_skipn by lia.
      rewrite <- H by lia. f_equal. lia.
Qed.

(** The inner loop of [find]. *)
Lemma cs_match_from_spec n (d str : list unit_t) i j :
  0 <= i -> 0 <= j -> i + j + Z.of_nat n < SizeT.modulus ->
  ConstantString.match_from n d str i j = true <->
  forall k, j <= k < j + Z.of_nat n -> get d (i + k) = get str k.
Proof.
  revert j; induction n as [|n IH]; intros j Hi Hj Hm; cbn [ConstantString.match_from].
  - split; auto. intros _ k Hk. lia.
  - rewrite size_add_small by lia.
    destruct (Z.eqb_spec (get d (i + j)) (get str j)) as [E|E]; cbn [negb].
    + rewrite IH by lia. split; intros H k Hk.
      * destruct (Z.eq_dec k j) as [->|Hne]; auto. apply H. lia.
      * apply H. lia.
    + split; [discriminate|]. intros H. exfalso. apply E, H. lia.
Qed.

(** The outer loop of [find]: the first index of the range at which the
    inner loop succeeds. *)
Lemma cs_find_from_spec n (d str : list unit_t) m i :
  0 <= i -> i + Z.of_nat n < SizeT.npos ->
  let r := ConstantString.find_from n d str m i in
  (r = SizeT.npos /\
   forall k, i <= k < i + Z.of_nat n -> ConstantString.match_from (Z.to_nat m) d str k 0 = false) \/
  (i <= r < i + Z.of_nat n /\
   ConstantString.match_from (Z.to_nat m) d str r 0 = true /\
   forall k, i <= k < r -> ConstantString.match_from (Z.to_nat m) d str k 0 = false).
Proof.
  revert i; induction n as [|n IH]; intros i Hi Hn; cbn [ConstantString.find_from].
  - left. split; auto. intros k Hk. lia.
  - destruct (ConstantString.match_from (Z.to_nat m) d str i 0) eqn:E.
    + right. repeat split; auto; try lia; intros k Hk; lia.
    + destruct (IH (i + 1)) as [(H1 & H2)|(H1 & H2 & H3)]; try lia.
      * left. split; auto. intros k Hk.
        destruct (Z.eq_dec k i) as [->|Hne]; auto. apply H2. lia.
      * right. repeat split; auto; try lia. intros k Hk.
        destruct (Z.eq_dec k i) as [->|Hne]; auto. apply H3. lia.
Qed.

(** The inner loop succeeds at [i] exactly when the needle stands there. *)
Lemma cs_match_occurs N (s : fixed_string) (str : list unit_t) i :
  capacity_ok N -> storage_ok N s -> 0 <= i -> i + detail.strlen str <= len_ s ->
  ConstantString.match_from (Z.to_nat (detail.strlen str)) (data_ s) str i 0 = true <->
  occurs_at (content s) (c_string str) i.
Proof.
  intros HN Hs Hi Hfit. assert (Hs' := Hs). destruct Hs' as (Hext & Hlen & Hterm).
  pose proof (strlen_bounds str) as Hb.
  assert (Hcl : Z.of_nat (length (content s)) = len_ s) by (apply length_content; size_lia).
  rewrite cs_match_from_spec by size_lia.
  rewrite occurs_at_get, length_c_string, Hcl.
  split.
  - intros H. repeat split; auto. intros k Hk.
    rewrite get_content by lia. rewrite get_c_string by lia. apply H. lia.
  - intros (_ & _ & H) k Hk.
    rewrite <- (get_c_string str k) by lia. rewrite <- H by lia.
    rewrite get_content by lia. reflexivity.
Qed.

(** What [find(str, pos)] of constant_string.hpp returns. *)
Lemma cs_find_spec N (s : fixed_string) (str : list unit_t) pos :
  capacity_ok N -> storage_ok N s -> 0 <= pos ->
  let r := ConstantString.find s str pos in
  (r = SizeT.npos /\ forall i, pos <= i -> ~ occurs_at (content s) (c_string str) i) \/
  (pos <= r /\ r + detail.strlen str <= len_ s /\
   occurs_at (content s) (c_string str) r /\
   forall i, pos <= i < r -> ~ occurs_at (content s) (c_string str) i).
Proof.
  intros HN Hs Hp. assert (Hs' := Hs). destruct Hs' as (Hext & Hlen & Hterm).
  pose proof (strlen_bounds str) as Hb.
  assert (Hcl : Z.of_nat (length (content s)) = len_ s) by (apply length_content; size_lia).
  assert (Hlong : forall i, len_ s < i + detail.strlen str ->
                            ~ occurs_at (content s) (c_string str) i).
  { intros i Hi (_ & H & _). rewrite length_c_string, Hcl in H. lia. }
  unfold ConstantString.find.
  destruct (Z.eqb_spec (detail.strlen str) 0) as [E0|E0].
  - destruct (Z.leb_spec pos (len_ s)).
    + right.
      assert (En : c_string str = []).
      { apply length_zero_iff_nil. pose proof (length_c_string str). lia. }
      split; [lia|]. split; [lia|]. split; [|intros i Hi; lia].
      rewrite En. unfold occurs_at. cbn [length firstn]. rewrite Hcl. repeat split; lia.
    + left. split; auto. intros i Hi. apply Hlong. lia.
  - destruct (Z.ltb_spec (len_ s) (detail.strlen str)).
    + left. split; auto. intros i Hi. apply Hlong. lia.
    + rewrite size_sub_small by size_lia.
      remember (len_ s - detail.strlen str) as last eqn:El.
      destruct (Z.le_gt_cases pos last) as [Hpl|Hpl].
      2:{ replace (Z.to_nat (last + 1 - pos)) with O by lia. cbn [ConstantString.find_from].
          left. split; auto. intros i Hi. apply Hlong. lia. }
      destruct (cs_find_from_spec (Z.to_nat (last + 1 - pos)) (data_ s) str
                  (detail.strlen str) pos) as [(H1 & H2)|(H1 & H2 & H3)];
        try size_lia.
      * left. split; auto. intros i Hi.
        destruct (Z.le_gt_cases i last) as [Hin|Hout].
        -- rewrite <- (cs_match_occurs N) by (auto; lia).
           rewrite H2 by lia. discriminate.
        -- apply Hlong. lia.
      * right. assert (Hr : ConstantString.find_from (Z.to_nat (last + 1 - pos)) (data_ s) str
                              (detail.strlen str) pos <= last) by lia.
        split; [lia|]. split; [lia|]. split.
        -- apply (cs_match_occurs N); auto; lia.
        -- intros i Hi. rewrite <- (cs_match_occurs N) by (auto; lia).
           rewrite H3 by lia. discriminate.
Qed.

(** The loop of [detail::find_char]: the first index of the range that holds
    [ch]. *)
Lemma find_char_from_spec n (d : list unit_t) ch i :
  0 <= i -> i + Z.of_nat n < SizeT.npos ->
  let r := detail.find_char_from n d ch i in
  (r = SizeT.npos /\ forall k, i <= k < i + Z.of_nat n -> get d k <> ch) \/
  (i <= r < i + Z.of_nat n /\ get d r = ch /\ forall k, i <= k < r -> get d k <> ch).
Proof.
  revert i; induction n as [|n IH]; intros i Hi Hn; cbn [detail.find_char_from].
  - left. split; auto. intros k Hk. lia.
  - destruct (Z.eqb_spec (get d i) ch) as [E|E].
    + right. repeat split; auto; try lia; intros k Hk; lia.
    + destruct (IH (i + 1)) as [(H1 & H2)|(H1 & H2 & H3)]; try lia.
      * left. split; auto. intros k Hk.
        destruct (Z.eq_dec k i) as [->|Hne]; auto. apply H2. lia.
      * right. repeat split; auto; try lia. intros k Hk.
        destruct (Z.eq_dec k i) as [->|Hne]; auto. apply H3. lia.
Qed.

(** What [find(ch, pos)] of constant_string.hpp returns. *)
Lemma cs_find_unit_spec N (s : fixed_string) ch pos :
  capacity_ok N -> storage_ok N s -> 0 <= pos ->
  let r := ConstantString.find_unit s ch pos in
  (r = SizeT.npos /\ forall i, pos <= i < len_ s -> get (content s) i <> ch) \/
  (pos <= r < len_ s /\ get (content s) r = ch /\
   forall i, pos <= i < r -> get (content s) i <> ch).
Proof.
  intros HN Hs Hp. assert (Hs' := Hs). destruct Hs' as (Hext & Hlen & Hterm).
  unfold ConstantString.find_unit, detail.find_char.
  destruct (Z.le_gt_cases (len_ s) pos) as [Hout|Hin].
  - replace (Z.to_nat (len_ s - pos)) with O by lia. cbn [detail.find_char_from].
    left. split; auto. intros i Hi. lia.
  - destruct (find_char_from_spec (Z.to_nat (len_ s - pos)) (data_ s) ch pos)
      as [(H1 & H2)|(H1 & H2 & H3)]; try size_lia.
    + left. split; auto. intros i Hi. rewrite get_content by lia. apply H2. lia.
    + right. split; [lia|]. split.
      * rewrite get_content by lia. exact H2.
      * intros i Hi. rewrite get_content by lia. apply H3. lia.
Qed.

Lemma In_get (c : list unit_t) ch :
  In ch c <-> exists i, 0 <= i < Z.of_nat (length c) /\ get c i = ch.
Proof.
  split.
  - intros H. destruct (In_nth c ch 0 H) as (n & Hn & E).
    exists (Z.of_nat n). split; [lia|]. rewrite get_nth by lia. now rewrite Nat2Z.id.
  - intros (i & Hi & E). rewrite get_nth in E by lia. rewrite <- E. apply nth_In. lia.
Qed.

(** The loop of [count]. *)
Lemma cs_count_spec N (s : fixed_string) ch :
  capacity_ok N -> storage_ok N s ->
  ConstantString.count s ch = Z.of_nat (count_occ Z.eq_dec (content s) ch).
Proof.
  intros HN Hs. assert (Hs' := Hs). destruct Hs' as (Hext & Hlen & Hterm).
  unfold ConstantString.count.
  assert (Hinv :
    for_range 0 (len_ s)
      (fun i result => if get (data_ s) i =? ch then SizeT.add result 1 else result) 0
    = Z.of_nat (count_occ Z.eq_dec (units (data_ s) 0 (Z.to_nat (len_ s))) ch)).
  { apply (for_range_inv
             (fun i r => r = Z.of_nat (count_occ Z.eq_dec (units (data_ s) 0 (Z.to_nat i)) ch)));
      [size_lia | reflexivity |].
    intros i r Hi ->.
    replace (Z.to_nat (i + 1)) with (S (Z.to_nat i)) by lia.
    rewrite units_snoc, count_occ_app. cbn [count_occ].
    replace (0 + Z.of_nat (Z.to_nat i)) with i by lia.
    pose proof (count_occ_bound Z.eq_dec ch (units (data_ s) 0 (Z.to_nat i))) as Hb.
    rewrite length_units in Hb.
    destruct (Z.eqb_spec (get (data_ s) i) ch) as [E|E];
      destruct (Z.eq_dec (get (data_ s) i) ch); try contradiction.
    - rewrite size_add_small by size_lia. rewrite Nat2Z.inj_add. reflexivity.
    - rewrite Nat.add_0_r. reflexivity. }
  rewrite Hinv, <- content_units by size_lia. reflexivity.
Qed.

(** The loop of [rfind]: the last index below [i] that holds [ch]. *)
Lemma rfind_from_spec n (d : list unit_t) ch i :
  0 <= i - Z.of_nat n -> i < SizeT.npos ->
  let r := ConstantString.rfind_from n d ch i in
  (r = SizeT.npos /\ forall k, i - Z.of_nat n <= k < i -> get d k <> ch) \/
  (i - Z.of_nat n <= r < i /\ get d r = ch /\ forall k, r < k < i -> get d k <> ch).
Proof.
  revert i; induction n as [|n IH]; intros i Hi Hn; cbn [ConstantString.rfind_from].
  - left. split; auto. intros k Hk. lia.
  - destruct (Z.eqb_spec (get d (i - 1)) ch) as [E|E].
    + right. repeat split; auto; try lia; intros k Hk; lia.
    + destruct (IH (i - 1)) as [(H1 & H2)|(H1 & H2 & H3)]; try lia.
      * left. split; auto. intros k Hk.
        destruct (Z.eq_dec k (i - 1)) as [->|Hne]; auto. apply H2. lia.
      * right. repeat split; auto; try lia. intros k Hk.
        destruct (Z.eq_dec k (i - 1)) as [->|Hne]; auto. apply H3. lia.
Qed.

(** What [rfind(ch, pos)] of constant_string.hpp returns. *)
Lemma cs_rfind_spec N (s : fixed_string) ch pos :
  capacity_ok N -> storage_ok N s -> 0 <= pos ->
  let hi := Z.min pos (len_ s - 1) in
  let r := ConstantString.rfind s ch pos in
  (r = SizeT.npos /\ forall i, 0 <= i <= hi -> get (content s) i <> ch) \/
  (0 <= r <= hi /\ get (content s) r = ch /\
   forall i, r < i <= hi -> get (content s) i <> ch).
Proof.
  intros HN Hs Hp hi. assert (Hs' := Hs). destruct Hs' as (Hext & Hlen & Hterm).
  unfold ConstantString.rfind.
  destruct (Z.eqb_spec (len_ s) 0) as [E0|E0].
  - left. split; auto. intros i Hi. subst hi. lia.
  - assert (Estart : (if len_ s <=? pos then SizeT.sub (len_ s) 1 else pos) = hi).
    { subst hi. destruct (Z.leb_spec (len_ s) pos); [rewrite size_sub_small by size_lia|]; lia. }
    rewrite Estart. assert (Hhi : 0 <= hi < len_ s) by (subst hi; size_lia).
    clearbody hi.
    rewrite size_add_small by size_lia.
    destruct (rfind_from_spec (Z.to_nat (hi + 1)) (data_ s) ch (hi + 1))
      as [(H1 & H2)|(H1 & H2 & H3)]; try size_lia.
    + left. split; auto. intros i Hi. rewrite get_content by lia. apply H2. lia.
    + right. split; [lia|]. split.
      * rewrite get_content by lia. exact H2.
      * intros i Hi. rewrite get_content by lia. apply H3. lia.
Qed.

(** The loop of [starts_with] and [ends_with]. *)
Lemma same_units_spec n (d str : list unit_t) off i :
  0 <= off -> 0 <= i -> off + i + Z.of_nat n < SizeT.modulus ->
  ConstantString.same_units n d str off i = true <->
  forall k, i <= k < i + Z.of_nat n -> get d (off + k) = get str k.
Proof.
  revert i; induction n as [|n IH]; intros i Ho Hi Hm; cbn [ConstantString.same_units].
  - split; auto. intros _ k Hk. lia.
  - rewrite size_add_small by lia.
    destruct (Z.eqb_spec (get d (off + i)) (get str i)) as [E|E]; cbn [negb].
    + rewrite IH by lia. split; intros H k Hk.
      * destruct (Z.eq_dec k i) as [->|Hne]; auto. apply H. lia.
      * apply H. lia.
    + split; [discriminate|]. intros H. exfalso. apply E, H. lia.
Qed.

Lemma same_units_occurs N (s : fixed_string) (str : list unit_t) off :
  capacity_ok N -> storage_ok N s -> 0 <= off -> off + detail.strlen str <= len_ s ->
  ConstantString.same_units (Z.to_nat (detail.strlen str)) (data_ s) str off 0 = true <->
  occurs_at (content s) (c_string str) off.
Proof.
  intros HN Hs Hi Hfit. assert (Hs' := Hs). destruct Hs' as (Hext & Hlen & Hterm).
  pose proof (strlen_bounds str) as Hb.
  assert (Hcl : Z.of_nat (length (content s)) = len_ s) by (apply length_content; size_lia).
  rewrite same_units_spec by size_lia.
  rewrite occurs_at_get, length_c_string, Hcl.
  split.
  - intros H. repeat split; auto. intros k Hk.
    rewrite get_content by lia. rewrite get_c_string by lia. apply H. lia.
  - intros (_ & _ & H) k Hk.
    rewrite <- (get_c_string str k) by lia. rewrite <- H by lia.
    rewrite get_content by lia. reflexivity.
Qed.

Lemma occurs_at_front (c p : list unit_t) :
  occurs_at c p 0 <-> exists rest, c = p ++ rest.
Proof.
  unfold occurs_at. cbn [Z.to_nat skipn]. split.
  - intros (_ & _ & H). exists (skipn (length p) c).
    rewrite <- H at 1. symmetry. apply firstn_skipn.
  - intros (rest & ->). rewrite length_app. repeat split; try lia.
    now apply firstn_app_exact.
Qed.

Lemma occurs_at_back (c p : list unit_t) :
  occurs_at c p (Z.of_nat (length c) - Z.of_nat (length p)) <-> exists front, c = front ++ p.
Proof.
  unfold occurs_at. split.
  - intros (Hi & _ & H). exists (firstn (Z.to_nat (Z.of_nat (length c) - Z.of_nat (length p))) c).
    rewrite firstn_all2 in H by (rewrite length_skipn; lia).
    rewrite <- H at 2. symmetry. apply firstn_skipn.
  - intros (front & ->). rewrite length_app. repeat split; try lia.
    replace (Z.to_nat (Z.of_nat (length front + length p) - Z.of_nat (length p)))
      with (length front) by lia.
    rewrite skipn_app_exact by reflexivity. apply firstn_all.
Qed.

Lemma cs_find_in_range N (s : fixed_string) (str : list unit_t) pos :
  capacity_ok N -> storage_ok N s -> 0 <= pos ->
  ConstantString.find s str pos <> SizeT.npos ->
  pos <= ConstantString.find s str pos /\
  ConstantString.find s str pos + detail.strlen str <= len_ s /\
  occurs_at (content s) (c_string str) (ConstantString.find s str pos) /\
  forall i, pos <= i < ConstantString.find s str pos ->
            ~ occurs_at (content s) (c_string str) i.
Proof.
  intros HN Hs Hp Hr.
  destruct (cs_find_spec N s str pos HN Hs Hp) as [(H1 & _)|H]; [contradiction | exact H].
Qed.

Lemma cs_find_none N (s : fixed_string) (str : list unit_t) pos :
  capacity_ok N -> storage_ok N s -> 0 <= pos ->
  ConstantString.find s str pos = SizeT.npos ->
  forall i, pos <= i -> ~ occurs_at (content s) (c_string str) i.
Proof.
  intros HN Hs Hp Hr.
  destruct (cs_find_spec N s str pos HN Hs Hp) as [(_ & H)|(H1 & H2 & _)]; [exact H|].
  pose proof (strlen_bounds str). destruct Hs as (_ & Hlen & _). size_lia.
Qed.

Lemma cs_starts_with_spec N (s : fixed_string) (prefix : list unit_t) :
  capacity_ok N -> storage_ok N s ->
  ConstantString.starts_with s prefix = true <-> occurs_at (content s) (c_string prefix) 0.
Proof.
  intros HN Hs. assert (Hs' := Hs). destruct Hs' as (Hext & Hlen & Hterm).
  assert (Hcl : Z.of_nat (length (content s)) = len_ s) by (apply length_content; size_lia).
  unfold ConstantString.starts_with.
  destruct (Z.ltb_spec (len_ s) (detail.strlen prefix)) as [Hlong|Hfit].
  - split; [discriminate|]. intros (_ & H & _). rewrite length_c_string, Hcl in H. lia.
  - apply (same_units_occurs N); auto; lia.
Qed.

Lemma cs_ends_with_spec N (s : fixed_string) (suffix : list unit_t) :
  capacity_ok N -> storage_ok N s ->
  ConstantString.ends_with s suffix = true <->
  occurs_at (content s) (c_string suffix)
    (Z.of_nat (length (content s)) - Z.of_nat (length (c_string suffix))).
Proof.
  intros HN Hs. assert (Hs' := Hs). destruct Hs' as (Hext & Hlen & Hterm).
  assert (Hcl : Z.of_nat (length (content s)) = len_ s) by (apply length_content; size_lia).
  pose proof (strlen_bounds suffix) as Hb.
  rewrite Hcl, length_c_string.
  unfold ConstantString.ends_with.
  destruct (Z.ltb_spec (len_ s) (detail.strlen suffix)) as [Hlong|Hfit].
  - split; [discriminate|]. intros (H & _). lia.
  - rewrite size_sub_small by size_lia.
    apply (same_units_occurs N); auto; lia.
Qed.

(** X8.  [string::find(str, pos)] of constant_string.hpp returns the
    least index [i >= pos] at which the needle (the units of the C-string
    [str]) stands in the content, and [npos] exactly when it stands at no
    index from [pos] on; [contains(str)] tells whether it stands
    anywhere. *)
Theorem find_returns_the_first_match N (s : fixed_string) (str : list unit_t) (pos : Z) :
  capacity_ok N -> storage_ok N s -> 0 <= pos ->
  let needle := c_string str in
  let r := ConstantString.find s str pos in
  (r = SizeT.npos <-> forall i, pos <= i -> ~ occurs_at (content s) needle i) /\
  (r <> SizeT.npos ->
   pos <= r /\ r + Z.of_nat (length needle) <= len_ s /\
   occurs_at (content s) needle r /\
   forall i, pos <= i < r -> ~ occurs_at (content s) needle i) /\
  (ConstantString.contains s str = true <-> exists i, occurs_at (content s) needle i).
Proof.
  intros HN Hs Hp needle r.
  split; [|split].
  - split.
    + now apply (cs_find_none N).
    + intros Hno. destruct (Z.eq_dec r SizeT.npos) as [E|E]; auto.
      destruct (cs_find_in_range N s str pos HN Hs Hp E) as (H1 & _ & H3 & _).
      exfalso. now apply (Hno r).
  - intros Hr. subst needle. rewrite length_c_string. now apply (cs_find_in_range N).
  - unfold ConstantString.contains.
    destruct (Z.eqb_spec (ConstantString.find s str 0) SizeT.npos) as [E|E]; cbn [negb].
    + split; [discriminate|]. intros (i & Hi). exfalso.
      apply (cs_find_none N s str 0 HN Hs (Z.le_refl 0) E i); auto. apply Hi.
    + split; auto. intros _.
      destruct (cs_find_in_range N s str 0 HN Hs (Z.le_refl 0) E) as (_ & _ & H3 & _).
      now exists (ConstantString.find s str 0).
Qed.

Lemma find_returns_the_first_match_witness :
  let s := ConstantString.from_array 20 [97; 98; 97; 98; 99; 97; 98; 99; 0] in
  ConstantString.find s [97; 98; 99] 0 = 2 /\
  occurs_at (content s) [97; 98; 99] 2 /\
  ConstantString.find s [97; 98; 99] 3 = 5.
Proof.
  assert (HN : capacity_ok 20) by (unfold capacity_ok; rewrite npos_value; lia).
  assert (Hs : storage_ok 20 (ConstantString.from_array 20 [97; 98; 97; 98; 99; 97; 98; 99; 0]))
    by (repeat split; vm_compute; congruence).
  destruct (find_returns_the_first_match 20 _ [97; 98; 99] 0 HN Hs (Z.le_refl 0))
    as (_ & F & _).
  destruct F as (_ & _ & O & _); [vm_compute; congruence|].
  cbv zeta. split; [reflexivity | split; [exact O | reflexivity]].
Defined.

(** X9.  [string::find(ch, pos)] of constant_string.hpp returns the
    least index [i] with [pos <= i < length] whose unit is [ch], and [npos]
    exactly when no unit from [pos] on is [ch]; [rfind(ch, pos)] returns the
    greatest index [i <= min(pos, length - 1)] whose unit is [ch], and [npos]
    when there is none (so always on the empty string); [contains(ch)] tells
    whether [ch] is among the significant units. *)
Theorem find_unit_first_rfind_last N (s : fixed_string) (ch : unit_t) (pos : Z) :
  capacity_ok N -> storage_ok N s -> 0 <= pos ->
  let c := content s in
  let f := ConstantString.find_unit s ch pos in
  let b := ConstantString.rfind s ch pos in
  let hi := Z.min pos (len_ s - 1) in
  ((f = SizeT.npos /\ forall i, pos <= i < len_ s -> get c i <> ch) \/
   (pos <= f < len_ s /\ get c f = ch /\ forall i, pos <= i < f -> get c i <> ch)) /\
  ((b = SizeT.npos /\ forall i, 0 <= i <= hi -> get c i <> ch) \/
   (0 <= b <= hi /\ get c b = ch /\ forall i, b < i <= hi -> get c i <> ch)) /\
  (ConstantString.contains_unit s ch = true <-> In ch c).
Proof.
  intros HN Hs Hp c f b hi.
  assert (Hs' := Hs). destruct Hs' as (Hext & Hlen & Hterm).
  assert (Hcl : Z.of_nat (length (content s)) = len_ s) by (apply length_content; size_lia).
  split; [now apply (cs_find_unit_spec N)|]. split; [now apply (cs_rfind_spec N)|].
  unfold ConstantString.contains_unit. subst c. rewrite In_get, Hcl.
  destruct (cs_find_unit_spec N s ch 0 HN Hs (Z.le_refl 0)) as [(H1 & H2)|(H1 & H2 & H3)].
  - rewrite H1, Z.eqb_refl. cbn [negb]. split; [discriminate|].
    intros (i & Hi & E). exfalso. now apply (H2 i).
  - destruct (Z.eqb_spec (ConstantString.find_unit s ch 0) SizeT.npos) as [E|E]; [size_lia|].
    cbn [negb]. split; auto. intros _.
    exists (ConstantString.find_unit s ch 0). split; [lia | exact H2].
Qed.

Lemma find_unit_first_rfind_last_witness :
  let s := ConstantString.from_array 20 [104; 101; 108; 108; 111; 0] in
  ConstantString.find_unit s 108 0 = 2 /\ ConstantString.rfind s 108 SizeT.npos = 3 /\
  ConstantString.find_unit s 122 0 = SizeT.npos /\
  (ConstantString.contains_unit s 108 = true <-> In 108 (content s)).
Proof.
  assert (HN : capacity_ok 20) by (unfold capacity_ok; rewrite npos_value; lia).
  assert (Hs : storage_ok 20 (ConstantString.from_array 20 [104; 101; 108; 108; 111; 0]))
    by (repeat split; vm_compute; congruence).
  destruct (find_unit_first_rfind_last 20 _ 108 0 HN Hs (Z.le_refl 0)) as (_ & _ & C).
  cbv zeta. split; [reflexivity | split; [reflexivity | split; [reflexivity | exact C]]].
Defined.

(** X10.  [string::count(ch)] of constant_string.hpp is the number of
    significant units equal to [ch]: never more than the length, and zero
    exactly when [contains(ch)] is false. *)
Theorem count_counts_occurrences N (s : fixed_string) (ch : unit_t) :
  capacity_ok N -> storage_ok N s ->
  ConstantString.count s ch = Z.of_nat (count_occ Z.eq_dec (content s) ch) /\
  0 <= ConstantString.count s ch <= len_ s /\
  (ConstantString.count s ch = 0 <-> ConstantString.contains_unit s ch = false).
Proof.
  intros HN Hs. assert (Hs' := Hs). destruct Hs' as (Hext & Hlen & Hterm).
  assert (Hcl : Z.of_nat (length (content s)) = len_ s) by (apply length_content; size_lia).
  pose proof (cs_count_spec N s ch HN Hs) as Ec.
  pose proof (count_occ_bound Z.eq_dec ch (content s)) as Hb.
  split; [exact Ec|]. split; [unfold unit_t in *; lia|].
  rewrite Ec.
  assert (Hin : ConstantString.contains_unit s ch = true <-> In ch (content s)).
  { unfold ConstantString.contains_unit. rewrite In_get, Hcl.
    destruct (cs_find_unit_spec N s ch 0 HN Hs (Z.le_refl 0)) as [(H1 & H2)|(H1 & H2 & H3)].
    - rewrite H1, Z.eqb_refl. cbn [negb]. split; [discriminate|].
      intros (i & Hi & E). exfalso. now apply (H2 i).
    - destruct (Z.eqb_spec (ConstantString.find_unit s ch 0) SizeT.npos) as [E|E]; [size_lia|].
      cbn [negb]. split; auto. intros _.
      exists (ConstantString.find_unit s ch 0). split; [lia | exact H2]. }
  pose proof (count_occ_not_In Z.eq_dec (content s) ch) as Hn.
  split.
  - intros E0. destruct (ConstantString.contains_unit s ch); auto.
    exfalso. apply Hn; [unfold unit_t in *; lia | now apply Hin].
  - intros Ef. assert (Hnot : ~ In ch (content s)).
    { intros Hi. apply Hin in Hi. congruence. }
    apply Hn in Hnot. unfold unit_t in *. lia.
Qed.

Lemma count_counts_occurrences_witness :
  let s := ConstantString.from_array 20 [98; 97; 110; 97; 110; 97; 0] in
  ConstantString.count s 97 = 3 /\ ConstantString.count s 122 = 0.
Proof.
  assert (HN : capacity_ok 20) by (unfold capacity_ok; rewrite npos_value; lia).
  assert (Hs : storage_ok 20 (ConstantString.from_array 20 [98; 97; 110; 97; 110; 97; 0]))
    by (repeat split; vm_compute; congruence).
  destruct (count_counts_occurrences 20 _ 97 HN Hs) as (A & _).
  destruct (count_counts_occurrences 20 _ 122 HN Hs) as (B & _).
  cbv zeta. split; [exact A | exact B].
Defined.

(** X11.  [string::starts_with(prefix)] of constant_string.hpp is
    true exactly when the content begins with the units of the C-string
    [prefix], and [ends_with(suffix)] exactly when it ends with those of
    [suffix]; the overloads for one unit test the first and the last unit of
    a non-empty string.  [starts_with(p)] agrees with [find(p) == 0]. *)
Theorem starts_with_and_ends_with N (s : fixed_string) (str : list unit_t) (ch : unit_t) :
  capacity_ok N -> storage_ok N s ->
  let c := content s in
  (ConstantString.starts_with s str = true <-> exists rest, c = c_string str ++ rest) /\
  (ConstantString.ends_with s str = true <-> exists front, c = front ++ c_string str) /\
  (ConstantString.starts_with_unit s ch = true <-> exists rest, c = ch :: rest) /\
  (ConstantString.ends_with_unit s ch = true <-> exists front, c = front ++ [ch]) /\
  (ConstantString.starts_with s str = true <-> ConstantString.find s str 0 = 0).
Proof.
  intros HN Hs c. assert (Hs' := Hs). destruct Hs' as (Hext & Hlen & Hterm).
  assert (Hcl : Z.of_nat (length (content s)) = len_ s) by (apply length_content; size_lia).
  split; [|split; [|split; [|split]]].
  - rewrite (cs_starts_with_spec N) by auto. apply occurs_at_front.
  - rewrite (cs_ends_with_spec N) by auto. apply occurs_at_back.
  - unfold ConstantString.starts_with_unit. subst c.
    destruct (Z.ltb_spec 0 (len_ s)) as [Hpos|Hemp]; cbn [andb].
    + rewrite (content_head s) by size_lia.
      destruct (Z.eqb_spec (get (data_ s) 0) ch) as [E|E].
      * split; auto. intros _. rewrite E. now exists (skipn 1 (content s)).
      * split; [discriminate|]. intros (rest & H). congruence.
    + split; [discriminate|]. intros (rest & H).
      rewrite H in Hcl. cbn [length] in Hcl. lia.
  - unfold ConstantString.ends_with_unit. subst c.
    destruct (Z.ltb_spec 0 (len_ s)) as [Hpos|Hemp]; cbn [andb].
    + rewrite size_sub_small by size_lia.
      assert (Elast : content s = firstn (Z.to_nat (len_ s - 1)) (content s)
                                  ++ [get (data_ s) (len_ s - 1)]).
      { rewrite <- (firstn_skipn (Z.to_nat (len_ s - 1)) (content s)) at 1. f_equal.
        rewrite (skipn_get (content s) (len_ s - 1)) by lia.
        rewrite get_content by lia. f_equal.
        apply skipn_all2. lia. }
      destruct (Z.eqb_spec (get (data_ s) (len_ s - 1)) ch) as [E|E].
      * split; auto. intros _. rewrite <- E. eexists. exact Elast.
      * split; [discriminate|]. intros (front & H). rewrite H in Elast.
        apply app_inj_tail in Elast. destruct Elast as (_ & E'). congruence.
    + split; [discriminate|]. intros (front & H).
      rewrite H, length_app in Hcl. cbn [length] in Hcl. lia.
  - rewrite (cs_starts_with_spec N) by auto. split.
    + intros Ho.
      destruct (Z.eq_dec (ConstantString.find s str 0) SizeT.npos) as [E|E].
      * exfalso. apply (cs_find_none N s str 0 HN Hs (Z.le_refl 0) E 0); auto. lia.
      * destruct (cs_find_in_range N s str 0 HN Hs (Z.le_refl 0) E) as (H1 & _ & _ & H4).
        destruct (Z.eq_dec (ConstantString.find s str 0) 0) as [E0|E0]; auto.
        exfalso. apply (H4 0); auto. lia.
    + intros E0.
      assert (E : ConstantString.find s str 0 <> SizeT.npos)
        by (rewrite E0, npos_value; lia).
      destruct (cs_find_in_range N s str 0 HN Hs (Z.le_refl 0) E) as (_ & _ & H3 & _).
      now rewrite E0 in H3.
Qed.

Lemma starts_with_and_ends_with_witness :
  let s := ConstantString.from_array 20 [104; 101; 108; 108; 111; 0] in
  (ConstantString.starts_with s [104; 101] = true <->
   exists rest, content s = c_string [104; 101] ++ rest) /\
  (ConstantString.ends_with s [108; 111] = true <->
   exists front, content s = front ++ c_string [108; 111]).
Proof.
  assert (HN : capacity_ok 20) by (unfold capacity_ok; rewrite npos_value; lia).
  assert (Hs : storage_ok 20 (ConstantString.from_array 20 [104; 101; 108; 108; 111; 0]))
    by (repeat split; vm_compute; congruence).
  destruct (starts_with_and_ends_with 20 _ [104; 101] 0 HN Hs) as (A & _).
  destruct (starts_with_and_ends_with 20 _ [108; 111] 0 HN Hs) as (_ & B & _).
  cbv zeta. split; [exact A | exact B].
Defined.

(** ** Single units, substrings and concatenation *)

(** [push_back] of the constant_string headers stores what [append(ch)] of
    fstring_core.hpp stores. *)
Lemma cs_push_back_append_unit N (s : fixed_string) ch :
  storage_ok N s ->
  fst (ConstantString.push_back N s ch) = Fstring.append_unit N s ch /\
  fst (Core.push_back N s ch) = Fstring.append_unit N s ch /\
  snd (ConstantString.push_back N s ch) = negb (len_ s =? N) /\
  snd (Core.push_back N s ch) = negb (len_ s =? N).
Proof.
  intros (Hext & Hlen & Hterm).
  unfold ConstantString.push_back, Core.push_back, Fstring.append_unit, Fstring.full,
    Fstring.capacity.
  destruct (Z.leb_spec N (len_ s)); destruct (Z.eqb_spec (len_ s) N); cbn [negb fst snd];
    auto; size_lia.
Qed.

Lemma pop_back_spec N (s : fixed_string) :
  capacity_ok N -> storage_ok N s -> 0 < len_ s ->
  let p := mk_string (set (data_ s) (len_ s - 1) 0) (len_ s - 1) in
  ConstantString.pop_back s = p /\ Core.pop_back s = p /\ Fstring.pop_back s = p /\
  storage_ok N p /\ content p = firstn (Z.to_nat (len_ s - 1)) (content s).
Proof.
  intros HN Hs Hpos p. assert (Hs' := Hs). destruct Hs' as (Hext & Hlen & Hterm).
  unfold ConstantString.pop_back, Core.pop_back, Fstring.pop_back.
  destruct (Z.ltb_spec 0 (len_ s)); [|lia].
  rewrite size_sub_small by size_lia. fold p.
  refine (conj eq_refl (conj eq_refl (conj eq_refl (conj _ _)))).
  - subst p. apply terminated_ok; [exact Hext | size_lia].
  - subst p. apply content_ext; cbn [data_ len_].
    + rewrite length_set. size_lia.
    + rewrite length_firstn. pose proof (length_content s). size_lia.
    + intros i Hi. rewrite get_set_other by lia.
      rewrite get_firstn by lia. rewrite get_content by lia. reflexivity.
Qed.

(** X12.  In all three classes [push_back(ch)] on a string that is
    not full adds [ch] behind the content (and, where it returns a flag,
    returns [true]); on a full string it changes nothing (and returns
    [false]).  [pop_back()] removes the last unit, and does nothing on the
    empty string; so [pop_back] after a successful [push_back] gives back the
    content the string had. *)
Theorem push_back_then_pop_back N (s : fixed_string) (ch : unit_t) :
  capacity_ok N -> storage_ok N s ->
  let pushed := Fstring.push_back N s ch in
  fst (ConstantString.push_back N s ch) = pushed /\
  fst (Core.push_back N s ch) = pushed /\
  snd (ConstantString.push_back N s ch) = negb (len_ s =? N) /\
  snd (Core.push_back N s ch) = negb (len_ s =? N) /\
  storage_ok N pushed /\
  (len_ s < N ->
   content pushed = content s ++ [ch] /\
   content (ConstantString.pop_back pushed) = content s /\
   content (Core.pop_back pushed) = content s /\
   content (Fstring.pop_back pushed) = content s) /\
  (len_ s = N -> pushed = s) /\
  (len_ s = 0 ->
   ConstantString.pop_back s = s /\ Core.pop_back s = s /\ Fstring.pop_back s = s).
Proof.
  intros HN Hs pushed. assert (Hs' := Hs). destruct Hs' as (Hext & Hlen & Hterm).
  destruct (cs_push_back_append_unit N s ch Hs) as (P1 & P2 & P3 & P4).
  unfold Fstring.push_back in pushed.
  refine (conj P1 (conj P2 (conj P3 (conj P4 (conj _ (conj _ (conj _ _))))))).
  - subst pushed. rewrite <- P1. now apply cs_push_back_ok.
  - intros Hroom.
    destruct (fs_append_unit_spec N s ch HN Hs Hroom) as (A1 & A2).
    pose proof (fs_append_unit_len N s ch HN Hs Hroom) as A3.
    fold pushed in A1, A2, A3.
    destruct (pop_back_spec N pushed HN A1) as (E1 & E2 & E3 & _ & E5); [size_lia|].
    rewrite E1, E2, E3, E5, A2, A3.
    assert (Hcl : Z.of_nat (length (content s)) = len_ s) by (apply length_content; size_lia).
    rewrite firstn_app_exact; [auto|]. unfold unit_t in *. lia.
  - intros Hfull. subst pushed. unfold Fstring.append_unit, Fstring.full, Fstring.capacity.
    destruct (Z.eqb_spec (len_ s) N); [reflexivity | lia].
  - intros Hemp.
    unfold ConstantString.pop_back, Core.pop_back, Fstring.pop_back.
    destruct (Z.ltb_spec 0 (len_ s)); [lia | auto].
Qed.

Lemma push_back_then_pop_back_witness :
  let s := ConstantString.from_array 3 [97; 98; 0] in
  let pushed := Fstring.push_back 3 s 99 in
  content pushed = [97; 98; 99] /\
  content (ConstantString.pop_back pushed) = [97; 98] /\
  Fstring.push_back 3 pushed 100 = pushed.
Proof.
  assert (HN : capacity_ok 3) by (unfold capacity_ok; rewrite npos_value; lia).
  assert (Hs : storage_ok 3 (ConstantString.from_array 3 [97; 98; 0]))
    by (repeat split; vm_compute; congruence).
  destruct (push_back_then_pop_back 3 _ 99 HN Hs) as (_ & _ & _ & _ & Hp & F & _).
  destruct F as (A & B & _); [vm_compute; congruence|].
  destruct (push_back_then_pop_back 3 _ 100 HN Hp) as (_ & _ & _ & _ & _ & _ & G & _).
  cbv zeta. split; [exact A | split; [exact B | apply G; reflexivity]].
Defined.

(** *** Substrings *)

Lemma length_segment (c : list unit_t) pos count :
  0 <= pos -> 0 <= count ->
  Z.of_nat (length (segment c pos count)) = Z.min count (Z.max 0 (Z.of_nat (length c) - pos)).
Proof. intros Hp Hc. unfold segment. rewrite length_firstn, length_skipn. lia. Qed.

Lemma get_segment (c : list unit_t) pos count i :
  0 <= pos -> 0 <= i < count -> get (segment c pos count) i = get c (pos + i).
Proof.
  intros Hp Hi. unfold segment. rewrite get_firstn by lia. rewrite get_skipn by lia.
  f_equal. lia.
Qed.

Lemma segment_outside (c : list unit_t) pos count :
  Z.of_nat (length c) <= pos -> segment c pos count = [].
Proof. intros H. unfold segment. rewrite skipn_all2 by lia. apply firstn_nil. Qed.

Lemma segment_min (c : list unit_t) pos count k :
  0 <= count -> 0 <= k ->
  segment c pos (Z.min count k) = firstn (Z.to_nat k) (segment c pos count).
Proof.
  intros Hc Hk. unfold segment. rewrite firstn_firstn. f_equal. lia.
Qed.

Lemma segment_clamp (c : list unit_t) pos count n :
  0 <= pos -> 0 <= count ->
  n = Z.min count (Z.max 0 (Z.of_nat (length c) - pos)) ->
  segment c pos n = segment c pos count.
Proof.
  intros Hp Hc ->. unfold segment.
  rewrite <- (firstn_all (skipn (Z.to_nat pos) c)) at 2.
  rewrite firstn_firstn. f_equal. rewrite length_skipn. lia.
Qed.

Lemma segment_whole (c : list unit_t) count :
  Z.of_nat (length c) <= count -> segment c 0 count = c.
Proof. intros H. unfold segment. cbn [Z.to_nat skipn]. apply firstn_all2. lia. Qed.

(** An object that holds, terminated, [n] units read from the array of [s]
    at [pos]. *)
Lemma segment_content N M (s : fixed_string) (d : list unit_t) pos count n :
  storage_ok N s -> Z.of_nat (length d) = M + 1 ->
  0 <= pos -> 0 <= count -> 0 <= n <= M ->
  n = Z.min count (Z.max 0 (len_ s - pos)) ->
  (forall i, 0 <= i < n -> get d i = get (data_ s) (pos + i)) ->
  storage_ok M (mk_string (set d n 0) n) /\
  content (mk_string (set d n 0) n) = segment (content s) pos count.
Proof.
  intros (Hext & Hlen & Hterm) Hd Hp Hc Hn En Hg.
  assert (Hcl : Z.of_nat (length (content s)) = len_ s) by (apply length_content; size_lia).
  split; [apply terminated_ok; auto|].
  apply content_ext; cbn [data_ len_].
  - rewrite length_set. lia.
  - rewrite length_segment, Hcl by lia. lia.
  - intros i Hi. rewrite get_set_other by lia. rewrite Hg by lia.
    rewrite get_segment by lia. rewrite get_content by lia. reflexivity.
Qed.

(** What [substr(pos, count)] of constant_string.hpp returns. *)
Lemma cs_substr_spec N (s : fixed_string) pos count :
  capacity_ok N -> storage_ok N s -> 0 <= pos -> 0 <= count ->
  storage_ok N (ConstantString.substr N s pos count) /\
  content (ConstantString.substr N s pos count) = segment (content s) pos count.
Proof.
  intros HN Hs Hp Hc. assert (Hs' := Hs). destruct Hs' as (Hext & Hlen & Hterm).
  assert (Hcl : Z.of_nat (length (content s)) = len_ s) by (apply length_content; size_lia).
  unfold ConstantString.substr.
  destruct (Z.leb_spec (len_ s) pos) as [Hout|Hin].
  - rewrite segment_outside by lia. split; [|reflexivity].
    apply storage_value_init. size_lia.
  - rewrite size_sub_small by size_lia. rewrite !size_min_spec.
    set (n := Z.min count (len_ s - pos)).
    assert (Hn : 0 <= n /\ n <= len_ s - pos /\ n = Z.min count (Z.max 0 (len_ s - pos)))
      by (subst n; lia).
    clearbody n.
    replace (Z.min n N) with n by size_lia.
    rewrite (for_while_all 0 n) by (intros i t Hi; apply Z.ltb_lt; size_lia).
    rewrite (for_range_ext 0 n _ (fun i d => set d (0 + i) (get (data_ s) (pos + i))))
      by (intros i t Hi; rewrite size_add_small by size_lia; reflexivity).
    apply (segment_content N N s); auto; try size_lia.
    + rewrite write_loop_length by lia. unfold ConstantString.default, value_init. cbn [data_].
      rewrite repeat_length. size_lia.
    + intros i Hi. rewrite write_loop_get by lia.
      unfold ConstantString.default, value_init. cbn [data_]. rewrite repeat_length.
      destruct (Z.leb_spec 0 i); destruct (Z.ltb_spec i (0 + n));
        destruct (Z.ltb_spec i (Z.of_nat (Z.to_nat (N + 1)))); cbn [andb]; try size_lia.
      f_equal. lia.
Qed.

Lemma units_segment N (s : fixed_string) pos n :
  storage_ok N s -> 0 <= pos -> pos + Z.of_nat n <= len_ s ->
  units (data_ s) pos n = segment (content s) pos (Z.of_nat n).
Proof.
  intros (Hext & Hlen & Hterm) Hp Hn.
  assert (Hcl : Z.of_nat (length (content s)) = len_ s) by (apply length_content; size_lia).
  apply (list_ext_get _ _ (Z.of_nat n)).
  - now rewrite length_units.
  - rewrite length_segment, Hcl by lia. lia.
  - intros i Hi. rewrite get_units, get_segment by lia. rewrite get_content by lia.
    reflexivity.
Qed.

(** What the free function [substr<NewN>(str, pos, count)] returns. *)
Lemma cs_substr_to_spec N NewN (s : fixed_string) pos count :
  capacity_ok N -> capacity_ok NewN -> storage_ok N s -> 0 <= pos -> 0 <= count ->
  storage_ok NewN (ConstantString.substr_to NewN s pos count) /\
  content (ConstantString.substr_to NewN s pos count)
  = segment (content s) pos (Z.min count NewN).
Proof.
  intros HN HM Hs Hp Hc. assert (Hs' := Hs). destruct Hs' as (Hext & Hlen & Hterm).
  unfold ConstantString.substr_to, ConstantString.length.
  destruct (Z.ltb_spec pos (len_ s)) as [Hin|Hout].
  2:{ rewrite segment_outside by (pose proof (length_content s); size_lia).
      split; [|reflexivity]. apply storage_value_init. size_lia. }
  rewrite size_sub_small by size_lia. rewrite !size_min_spec.
  set (n := Z.min (Z.min count (len_ s - pos)) NewN).
  assert (Hn : 0 <= n /\ n <= len_ s - pos /\ n <= NewN /\
               n = Z.min (Z.min count NewN) (len_ s - pos)) by (subst n; size_lia).
  clearbody n.
  assert (Hinv :
    let r := for_range 0 n
               (fun i result =>
                  fst (ConstantString.push_back NewN result
                         (ConstantString.index s (SizeT.add pos i))))
               (ConstantString.default NewN) in
    storage_ok NewN r /\ len_ r = n /\ content r = units (data_ s) pos (Z.to_nat n)).
  { apply (for_range_inv
             (fun i r => storage_ok NewN r /\ len_ r = i /\
                         content r = units (data_ s) pos (Z.to_nat i))); [lia| |].
    - split; [apply storage_value_init; size_lia|]. split; reflexivity.
    - intros i r Hi (R1 & R2 & R3).
      destruct (cs_push_back_append_unit NewN r
                  (ConstantString.index s (SizeT.add pos i)) R1) as (E & _).
      rewrite E.
      destruct (fs_append_unit_spec NewN r (ConstantString.index s (SizeT.add pos i)))
        as (A1 & A2); auto; try lia.
      split; [exact A1|]. split; [rewrite fs_append_unit_len by (auto; lia); lia|].
      rewrite A2, R3. replace (Z.to_nat (i + 1)) with (S (Z.to_nat i)) by lia.
      rewrite units_snoc. unfold ConstantString.index.
      rewrite size_add_small by size_lia. do 3 f_equal. lia. }
  destruct Hinv as (R1 & _ & R3). split; [exact R1|].
  rewrite R3. rewrite (units_segment N s pos (Z.to_nat n) Hs Hp) by lia.
  apply segment_clamp; try lia.
  pose proof (length_content s). size_lia.
Qed.

(** What [substr<M>(pos, count)] of fstring_core.hpp returns when
    [pos + count] does not wrap around (or [count] is [npos]). *)
Lemma fs_substr_spec N M (s : fixed_string) pos count :
  capacity_ok N -> capacity_ok M -> storage_ok N s -> 0 <= pos -> 0 <= count ->
  count = SizeT.npos \/ pos + count < SizeT.modulus ->
  storage_ok M (Fstring.substr M s pos count) /\
  content (Fstring.substr M s pos count) = segment (content s) pos (Z.min count M).
Proof.
  intros HN HM Hs Hp Hc Hw. assert (Hs' := Hs). destruct Hs' as (Hext & Hlen & Hterm).
  assert (Hcl : Z.of_nat (length (content s)) = len_ s) by (apply length_content; size_lia).
  unfold Fstring.substr, Fstring.npos.
  destruct (Z.leb_spec (len_ s) pos) as [Hout|Hin].
  { rewrite segment_outside by lia. split; [|reflexivity].
    apply storage_value_init. size_lia. }
  set (count' := if (count =? SizeT.npos) || (len_ s <? SizeT.add pos count)
                 then SizeT.sub (len_ s) pos else count).
  assert (Ec : count' = Z.min count (len_ s - pos)).
  { subst count'. destruct (Z.eqb_spec count SizeT.npos) as [E|E]; cbn [orb].
    - rewrite size_sub_small by size_lia. size_lia.
    - destruct Hw as [Hw|Hw]; [contradiction|].
      rewrite size_add_small by size_lia.
      destruct (Z.ltb_spec (len_ s) (pos + count)); [rewrite size_sub_small by size_lia|]; lia. }
  clearbody count'.
  unfold Fstring.from_units, Fstring.store, Fstring.capacity, fs_detail.copy, Fstring.default,
    value_init. cbn [data_].
  rewrite fs_min_spec.
  set (n := Z.min M count').
  assert (Hn : 0 <= n /\ n <= M /\ n <= len_ s - pos /\
               n = Z.min (Z.min count M) (Z.max 0 (len_ s - pos))) by (subst n; size_lia).
  clearbody n.
  assert (G : storage_ok M
                (mk_string
                   (set (for_range 0 n
                           (fun i d => set d (0 + i) (get (skipn (Z.to_nat pos) (data_ s)) i))
                           (repeat 0 (Z.to_nat (M + 1)))) n 0) n) /\
              content
                (mk_string
                   (set (for_range 0 n
                           (fun i d => set d (0 + i) (get (skipn (Z.to_nat pos) (data_ s)) i))
                           (repeat 0 (Z.to_nat (M + 1)))) n 0) n)
              = segment (content s) pos (Z.min count M)).
  { apply (segment_content N M s); auto; try lia.
    - rewrite write_loop_length by lia. rewrite repeat_length. size_lia.
    - intros i Hi. rewrite write_loop_get by lia. rewrite repeat_length.
      destruct (Z.leb_spec 0 i); destruct (Z.ltb_spec i (0 + n));
        destruct (Z.ltb_spec i (Z.of_nat (Z.to_nat (M + 1)))); cbn [andb]; try size_lia.
      rewrite get_skipn by lia. f_equal. lia. }
  exact G.
Qed.

(** X13.  A substring holds the units [[pos, pos + count)] of the
    content that exist and that its capacity takes, in their order, with the
    storage invariants of its own capacity; a [pos] at or past the end gives
    the empty string, [pos = 0] with [count = npos] a copy of the content.
    [string::substr] keeps the capacity, the free [substr<NewN>] and
    [basic_fstring::substr<M>] take a new one; the last one is as described
    when [count] is [npos] or [pos + count] does not wrap around. *)
Theorem substr_takes_the_segment N M (s : fixed_string) (pos count : Z) :
  capacity_ok N -> capacity_ok M -> storage_ok N s -> 0 <= pos -> 0 <= count ->
  (storage_ok N (ConstantString.substr N s pos count) /\
   content (ConstantString.substr N s pos count) = segment (content s) pos count) /\
  (storage_ok M (ConstantString.substr_to M s pos count) /\
   content (ConstantString.substr_to M s pos count)
   = segment (content s) pos (Z.min count M)) /\
  (count = SizeT.npos \/ pos + count < SizeT.modulus ->
   storage_ok M (Fstring.substr M s pos count) /\
   content (Fstring.substr M s pos count) = segment (content s) pos (Z.min count M)) /\
  (len_ s <= pos -> segment (content s) pos count = []) /\
  content (ConstantString.substr N s 0 SizeT.npos) = content s.
Proof.
  intros HN HM Hs Hp Hc.
  assert (Hs' := Hs). destruct Hs' as (Hext & Hlen & Hterm).
  assert (Hcl : Z.of_nat (length (content s)) = len_ s) by (apply length_content; size_lia).
  split; [now apply cs_substr_spec|].
  split; [now apply (cs_substr_to_spec N)|].
  split; [intros Hw; now apply (fs_substr_spec N)|].
  split; [intros Ho; apply segment_outside; lia|].
  destruct (cs_substr_spec N s 0 SizeT.npos HN Hs) as (_ & E); try size_lia.
  rewrite E. apply segment_whole. size_lia.
Qed.

Lemma substr_takes_the_segment_witness :
  let s := ConstantString.from_array 12 [104; 101; 108; 108; 111; 32; 119; 111; 0] in
  content (ConstantString.substr 12 s 2 3) = [108; 108; 111] /\
  content (ConstantString.substr_to 2 s 2 3) = [108; 108] /\
  content (Fstring.substr 2 s 6 SizeT.npos) = [119; 111].
Proof.
  assert (HN : capacity_ok 12) by (unfold capacity_ok; rewrite npos_value; lia).
  assert (HM : capacity_ok 2) by (unfold capacity_ok; rewrite npos_value; lia).
  assert (Hs : storage_ok 12
                 (ConstantString.from_array 12 [104; 101; 108; 108; 111; 32; 119; 111; 0]))
    by (repeat split; vm_compute; congruence).
  destruct (substr_takes_the_segment 12 2 _ 2 3 HN HM Hs) as ((_ & A) & (_ & B) & _);
    try lia.
  destruct (substr_takes_the_segment 12 2 _ 6 SizeT.npos HN HM Hs) as (_ & _ & F & _);
    try (rewrite ?npos_value; lia).
  destruct F as (_ & C); [left; reflexivity|].
  cbv zeta. split; [exact A | split; [exact B | exact C]].
Defined.

(** *** [hash], [concat] and [operator+] *)

Lemma fold_left_snoc {A B : Type} (f : A -> B -> A) (l : list B) (x : B) (a : A) :
  fold_left f (l ++ [x]) a = f (fold_left f l a) x.
Proof. now rewrite fold_left_app. Qed.

(** [hash()] is FNV-1a of the significant units. *)
Lemma cs_hash_spec N (s : fixed_string) :
  storage_ok N s -> ConstantString.hash s = fnv1a (content s).
Proof.
  intros (Hext & Hlen & Hterm). unfold ConstantString.hash, fnv1a.
  rewrite content_units by size_lia.
  apply (for_range_inv
           (fun i h => h = fold_left
                             (fun h c => SizeT.wrap (Z.lxor h (SizeT.wrap c) * 1099511628211))
                             (units (data_ s) 0 (Z.to_nat i)) 14695981039346656037));
    [size_lia | reflexivity |].
  intros i h Hi ->.
  replace (Z.to_nat (i + 1)) with (S (Z.to_nat i)) by lia.
  rewrite units_snoc, fold_left_snoc.
  replace (0 + Z.of_nat (Z.to_nat i)) with i by lia. reflexivity.
Qed.

Lemma fnv1a_range (l : list unit_t) : 0 <= fnv1a l < SizeT.modulus.
Proof.
  unfold fnv1a.
  assert (H : forall a, 0 <= a < SizeT.modulus ->
                        0 <= fold_left
                               (fun h c => SizeT.wrap (Z.lxor h (SizeT.wrap c) * 1099511628211))
                               l a < SizeT.modulus).
  { induction l as [|c l IH]; intros a Ha; cbn [fold_left]; auto.
    apply IH. unfold SizeT.wrap. apply Z.mod_pos_bound. rewrite modulus_value. lia. }
  apply H. rewrite modulus_value. lia.
Qed.

(** What [concat(a, b)] of constant_string.hpp returns. *)
Lemma cs_concat_spec N1 N2 (a b : fixed_string) :
  capacity_ok N1 -> capacity_ok N2 -> capacity_ok (N1 + N2) ->
  storage_ok N1 a -> storage_ok N2 b ->
  storage_ok (N1 + N2) (ConstantString.concat N1 N2 a b) /\
  content (ConstantString.concat N1 N2 a b) = content a ++ content b.
Proof.
  intros H1 H2 H12 Ha Hb.
  assert (Ha' := Ha). destruct Ha' as (Aext & Alen & Aterm).
  assert (Hb' := Hb). destruct Hb' as (Bext & Blen & Bterm).
  unfold ConstantString.concat, ConstantString.append_string.
  rewrite size_add_small by size_lia.
  assert (H0 : storage_ok (N1 + N2) (ConstantString.default (N1 + N2)))
    by (apply storage_value_init; size_lia).
  destruct (cs_append_spec (N1 + N2) (ConstantString.default (N1 + N2)) (data_ a) (len_ a))
    as (_ & S1 & (L1 & C1 & _)); auto; try size_lia.
  set (r1 := fst (ConstantString.append (N1 + N2) (ConstantString.default (N1 + N2))
                    (data_ a) (len_ a))) in *.
  change (len_ (ConstantString.default (N1 + N2))) with 0 in L1, C1.
  change (content (ConstantString.default (N1 + N2))) with (@nil unit_t) in C1.
  replace (Z.min (len_ a) (N1 + N2 - 0)) with (len_ a) in L1, C1 by size_lia.
  destruct (cs_append_spec (N1 + N2) r1 (data_ b) (len_ b))
    as (_ & S2 & (L2 & C2 & _)); auto; try size_lia.
  split; [exact S2|].
  rewrite C2, C1. cbn [app].
  replace (Z.min (len_ b) (N1 + N2 - len_ r1)) with (len_ b) by size_lia.
  reflexivity.
Qed.

(** What [operator+] of fstring_core.hpp returns. *)
Lemma fs_op_add_spec N1 N2 (a b : fixed_string) :
  capacity_ok N1 -> capacity_ok N2 -> capacity_ok (N1 + N2) ->
  storage_ok N1 a -> storage_ok N2 b ->
  storage_ok (N1 + N2) (Fstring.op_add N1 N2 a b) /\
  content (Fstring.op_add N1 N2 a b) = content a ++ content b.
Proof.
  intros H1 H2 H12 Ha Hb.
  assert (Ha' := Ha). destruct Ha' as (Aext & Alen & Aterm).
  assert (Hb' := Hb). destruct Hb' as (Bext & Blen & Bterm).
  unfold Fstring.op_add, Fstring.from_units.
  rewrite size_add_small by size_lia.
  destruct (fs_store_spec (N1 + N2) (Fstring.default (N1 + N2)) (data_ a) (len_ a))
    as (L1 & X1 & T1 & C1); auto; try size_lia.
  { unfold extent_ok, Fstring.default, value_init. cbn [data_]. rewrite repeat_length. size_lia. }
  set (r1 := Fstring.store (N1 + N2) (Fstring.default (N1 + N2)) (Some (data_ a)) (len_ a)) in *.
  replace (Z.min (len_ a) (N1 + N2)) with (len_ a) in L1, C1 by size_lia.
  assert (S1 : storage_ok (N1 + N2) r1) by (repeat split; auto; size_lia).
  destruct (fs_append_spec (N1 + N2) r1 (data_ b) (len_ b))
    as (S2 & (L2 & C2 & _)); auto; try size_lia.
  split; [exact S2|].
  rewrite C2, C1.
  replace (Z.min (len_ b) (N1 + N2 - len_ r1)) with (len_ b) by size_lia.
  reflexivity.
Qed.

(** X14.  [string::hash()] of constant_string.hpp is the 64-bit FNV-1a
    hash of the significant units and of nothing else: two strings with the
    same content hash alike, whatever their capacities and whatever their
    arrays hold behind the length; in particular strings that [operator==]
    finds equal have equal hashes. *)
Theorem hash_reads_the_content_only N M (a b : fixed_string) :
  storage_ok N a -> storage_ok M b ->
  ConstantString.hash a = fnv1a (content a) /\
  0 <= ConstantString.hash a < SizeT.modulus /\
  (content a = content b -> ConstantString.hash a = ConstantString.hash b) /\
  (ConstantString.op_eq a b = true -> ConstantString.hash a = ConstantString.hash b).
Proof.
  intros Ha Hb.
  pose proof (cs_hash_spec N a Ha) as Ea. pose proof (cs_hash_spec M b Hb) as Eb.
  split; [exact Ea|]. split; [rewrite Ea; apply fnv1a_range|].
  assert (Hc : content a = content b -> ConstantString.hash a = ConstantString.hash b)
    by (intros E; now rewrite Ea, Eb, E).
  split; [exact Hc|].
  intros E. apply Hc.
  destruct Ha as (? & ? & _), Hb as (? & ? & _).
  apply (cs_operators_from_compare a b); auto; size_lia.
Qed.

Lemma hash_reads_the_content_only_witness :
  let a := ConstantString.from_array 4 [97; 98; 0] in
  let b := ConstantString.pop_back (ConstantString.from_array 9 [97; 98; 99; 0]) in
  ConstantString.hash a = ConstantString.hash b /\
  ConstantString.hash (ConstantString.default 4) = 14695981039346656037.
Proof.
  assert (Ha : storage_ok 4 (ConstantString.from_array 4 [97; 98; 0]))
    by (repeat split; vm_compute; congruence).
  assert (Hb : storage_ok 9 (ConstantString.pop_back (ConstantString.from_array 9 [97; 98; 99; 0])))
    by (repeat split; vm_compute; congruence).
  destruct (hash_reads_the_content_only 4 9 _ _ Ha Hb) as (_ & _ & C & _).
  cbv zeta. split; [apply C; reflexivity | reflexivity].
Defined.

(** X15.  [concat(a, b)] (and [operator+]) of constant_string.hpp and
    [operator+] of fstring_core.hpp, whose results have the capacity
    [N1 + N2], never truncate: the result holds the content of [a] followed
    by that of [b], its length is the sum of the lengths, and the storage
    invariants hold for the new capacity. *)
Theorem concatenation_never_truncates N1 N2 (a b : fixed_string) :
  capacity_ok N1 -> capacity_ok N2 -> capacity_ok (N1 + N2) ->
  storage_ok N1 a -> storage_ok N2 b ->
  (storage_ok (N1 + N2) (ConstantString.concat N1 N2 a b) /\
   content (ConstantString.concat N1 N2 a b) = content a ++ content b /\
   len_ (ConstantString.concat N1 N2 a b) = len_ a + len_ b) /\
  ConstantString.op_add N1 N2 a b = ConstantString.concat N1 N2 a b /\
  (storage_ok (N1 + N2) (Fstring.op_add N1 N2 a b) /\
   content (Fstring.op_add N1 N2 a b) = content a ++ content b /\
   len_ (Fstring.op_add N1 N2 a b) = len_ a + len_ b).
Proof.
  intros H1 H2 H12 Ha Hb.
  destruct (cs_concat_spec N1 N2 a b H1 H2 H12 Ha Hb) as (A1 & A2).
  destruct (fs_op_add_spec N1 N2 a b H1 H2 H12 Ha Hb) as (B1 & B2).
  assert (Hlen : forall r, storage_ok (N1 + N2) r -> content r = content a ++ content b ->
                           len_ r = len_ a + len_ b).
  { intros r Hr E.
    assert (La : Z.of_nat (length (content a)) = len_ a) by (apply length_content; size_lia).
    assert (Lb : Z.of_nat (length (content b)) = len_ b) by (apply length_content; size_lia).
    assert (Lr : Z.of_nat (length (content r)) = len_ r) by (apply length_content; size_lia).
    rewrite E, length_app in Lr. lia. }
  refine (conj (conj A1 (conj A2 _)) (conj eq_refl (conj B1 (conj B2 _)))); now apply Hlen.
Qed.

Lemma concatenation_never_truncates_witness :
  let a := ConstantString.from_array 2 [97; 98; 0] in
  let b := ConstantString.from_array 3 [99; 100; 101; 0] in
  content (ConstantString.concat 2 3 a b) = [97; 98; 99; 100; 101] /\
  content (Fstring.op_add 2 3 a b) = [97; 98; 99; 100; 101].
Proof.
  assert (H2 : capacity_ok 2) by (unfold capacity_ok; rewrite npos_value; lia).
  assert (H3 : capacity_ok 3) by (unfold capacity_ok; rewrite npos_value; lia).
  assert (H5 : capacity_ok (2 + 3)) by (unfold capacity_ok; rewrite npos_value; lia).
  assert (Ha : storage_ok 2 (ConstantString.from_array 2 [97; 98; 0]))
    by (repeat split; vm_compute; congruence).
  assert (Hb : storage_ok 3 (ConstantString.from_array 3 [99; 100; 101; 0]))
    by (repeat split; vm_compute; congruence).
  destruct (concatenation_never_truncates 2 3 _ _ H2 H3 H5 Ha Hb)
    as ((_ & A & _) & _ & (_ & B & _)).
  cbv zeta. split; [exact A | exact B].
Defined.

(** ** The ordering of constant_string.hpp *)

Lemma lex_compare_antisym (a b : list unit_t) :
  lex_compare b a = CompOpp (lex_compare a b).
Proof.
  revert b; induction a as [|x a IH]; intros [|y b]; cbn [lex_compare CompOpp]; auto.
  rewrite (Z.compare_antisym x y).
  destruct (x ?= y); cbn [CompOpp]; auto.
Qed.

Lemma lex_compare_lt_trans (a b c : list unit_t) :
  lex_compare a b = Lt -> lex_compare b c = Lt -> lex_compare a c = Lt.
Proof.
  revert b c; induction a as [|x a IH]; intros [|y b] [|z c]; cbn [lex_compare];
    auto; try discriminate.
  destruct (x ?= y) eqn:Exy; try discriminate;
    destruct (y ?= z) eqn:Eyz; try discriminate; intros H1 H2.
  - apply Z.compare_eq in Exy. apply Z.compare_eq in Eyz. subst.
    rewrite Z.compare_refl. now apply (IH b c).
  - apply Z.compare_eq in Exy. subst. now rewrite Eyz.
  - apply Z.compare_eq in Eyz. subst. now rewrite Exy.
  - rewrite Z.compare_lt_iff in Exy, Eyz.
    assert (H : x < z) by lia. apply Z.compare_lt_iff in H. now rewrite H.
Qed.

(** The comparison with a C-string. *)
Lemma cs_compare_c_str_lexicographic (a : fixed_string) (str : list unit_t) :
  0 <= len_ a <= Z.of_nat (length (data_ a)) ->
  ConstantString.compare_c_str a str
  = tri_state (lex_compare (content a) (c_string str)).
Proof.
  intros Ha. pose proof (strlen_bounds str) as Hb.
  pose proof (cs_compare_lexicographic a (mk_string str (detail.strlen str)) Ha) as H.
  cbn [data_ len_] in H. specialize (H Hb).
  unfold ConstantString.compare in H. cbn [data_ len_] in H.
  unfold ConstantString.compare_c_str. rewrite H. reflexivity.
Qed.

(** X16.  [string::compare] of constant_string.hpp is the
    lexicographic comparison of the contents (unit by unit, a proper prefix
    first) and sees nothing behind the length; [operator==] holds exactly for
    equal contents; [operator<=>] is that ordering, so exchanging the operands
    reverses it and [<] is transitive; the relational operators are the ones
    that go with it.  The overloads that take a C-string compare with its
    units. *)
Theorem compare_is_the_lexicographic_order N M K (a b c : fixed_string) (str : list unit_t) :
  storage_ok N a -> storage_ok M b -> storage_ok K c ->
  ConstantString.compare a b = tri_state (lex_compare (content a) (content b)) /\
  (ConstantString.op_eq a b = true <-> content a = content b) /\
  ConstantString.op_spaceship a b = lex_compare (content a) (content b) /\
  ConstantString.op_spaceship b a = CompOpp (ConstantString.op_spaceship a b) /\
  (ConstantString.op_lt a b = true -> ConstantString.op_lt b c = true ->
   ConstantString.op_lt a c = true) /\
  ConstantString.op_le a b = negb (ConstantString.op_gt a b) /\
  ConstantString.op_ge a b = negb (ConstantString.op_lt a b) /\
  ConstantString.op_gt a b = ConstantString.op_lt b a /\
  ConstantString.compare_c_str a str = tri_state (lex_compare (content a) (c_string str)) /\
  (ConstantString.op_eq_c_str a str = true <-> content a = c_string str).
Proof.
  intros Ha Hb Hc.
  assert (Ba : 0 <= len_ a <= Z.of_nat (length (data_ a))) by (destruct Ha as (? & ? & _); size_lia).
  assert (Bb : 0 <= len_ b <= Z.of_nat (length (data_ b))) by (destruct Hb as (? & ? & _); size_lia).
  assert (Bc : 0 <= len_ c <= Z.of_nat (length (data_ c))) by (destruct Hc as (? & ? & _); size_lia).
  destruct (cs_operators_from_compare a b Ba Bb) as (E1 & S1).
  destruct (cs_operators_from_compare b a Bb Ba) as (_ & S2).
  destruct (cs_operators_from_compare b c Bb Bc) as (_ & S3).
  destruct (cs_operators_from_compare a c Ba Bc) as (_ & S4).
  split; [now apply cs_compare_lexicographic|].
  split; [exact E1|]. split; [exact S1|].
  split; [rewrite S2, S1; apply (lex_compare_antisym (content a) (content b))|].
  split.
  { unfold ConstantString.op_lt. rewrite S1, S3, S4.
    destruct (lex_compare (content a) (content b)) eqn:L1; try discriminate.
    destruct (lex_compare (content b) (content c)) eqn:L2; try discriminate.
    now rewrite (lex_compare_lt_trans _ _ _ L1 L2). }
  split; [unfold ConstantString.op_le, ConstantString.op_gt;
          destruct (ConstantString.op_spaceship a b); reflexivity|].
  split; [unfold ConstantString.op_ge, ConstantString.op_lt;
          destruct (ConstantString.op_spaceship a b); reflexivity|].
  split.
  { unfold ConstantString.op_gt, ConstantString.op_lt.
    rewrite S2, S1, (lex_compare_antisym (content a) (content b)).
    destruct (lex_compare (content a) (content b)); reflexivity. }
  split; [now apply cs_compare_c_str_lexicographic|].
  unfold ConstantString.op_eq_c_str. rewrite cs_compare_c_str_lexicographic by auto.
  rewrite Z.eqb_eq, tri_state_zero. apply lex_compare_eq.
Qed.

Lemma compare_is_the_lexicographic_order_witness :
  let a := ConstantString.from_array 4 [97; 98; 0] in
  let b := ConstantString.from_array 9 [97; 98; 99; 0] in
  let c := ConstantString.from_array 2 [98; 0] in
  ConstantString.op_spaceship a b = Lt /\ ConstantString.op_spaceship b a = Gt /\
  ConstantString.op_lt a c = true.
Proof.
  assert (Ha : storage_ok 4 (ConstantString.from_array 4 [97; 98; 0]))
    by (repeat split; vm_compute; congruence).
  assert (Hb : storage_ok 9 (ConstantString.from_array 9 [97; 98; 99; 0]))
    by (repeat split; vm_compute; congruence).
  assert (Hc : storage_ok 2 (ConstantString.from_array 2 [98; 0]))
    by (repeat split; vm_compute; congruence).
  destruct (compare_is_the_lexicographic_order 4 9 2 _ _ _ [] Ha Hb Hc)
    as (_ & _ & A & B & T & _).
  cbv zeta. split; [exact A | split; [exact B | apply T; reflexivity]].
Defined.

(** ** The algorithms of fstring_algorithms.hpp *)

(** A loop that appends, at each index, the units [g i] to a result of the
    capacity of its input. *)
Lemma fs_build_loop Cap n (g : Z -> list unit_t) (body : Z -> fixed_string -> fixed_string) :
  capacity_ok Cap -> 0 <= n ->
  (forall i r, 0 <= i < n -> storage_ok Cap r -> len_ r <= i ->
     storage_ok Cap (body i r) /\ content (body i r) = content r ++ g i /\
     len_ (body i r) <= i + 1) ->
  let r := for_range 0 n body (Fstring.default Cap) in
  storage_ok Cap r /\
  content r = flat_map (fun k => g (Z.of_nat k)) (seq 0 (Z.to_nat n)) /\
  len_ r <= n.
Proof.
  intros HN Hn Hbody.
  apply (for_range_inv
           (fun i r => storage_ok Cap r /\
                       content r = flat_map (fun k => g (Z.of_nat k)) (seq 0 (Z.to_nat i)) /\
                       len_ r <= i)); [lia| |].
  - split; [apply storage_value_init; size_lia|]. split; [reflexivity | cbn; lia].
  - intros i r Hi (R1 & R2 & R3).
    destruct (Hbody i r Hi R1 R3) as (B1 & B2 & B3).
    split; [exact B1|]. split; [|exact B3].
    rewrite B2, R2. replace (Z.to_nat (i + 1)) with (S (Z.to_nat i)) by lia.
    rewrite seq_S, flat_map_app. cbn [flat_map Nat.add]. rewrite app_nil_r.
    do 2 f_equal. lia.
Qed.

Lemma flat_map_single {A : Type} (h : A -> unit_t) (l : list A) :
  flat_map (fun k => [h k]) l = map h l.
Proof. induction l as [|x l IH]; cbn [flat_map map app]; congruence. Qed.

Lemma flat_map_filter {A : Type} (p : unit_t -> bool) (h : A -> unit_t) (l : list A) :
  flat_map (fun k => if p (h k) then [h k] else []) l = filter p (map h l).
Proof.
  induction l as [|x l IH]; cbn [flat_map map filter app]; auto.
  destruct (p (h x)); cbn [app]; congruence.
Qed.

Lemma units_map (d : list unit_t) n :
  units d 0 n = map (fun k => get d (Z.of_nat k)) (seq 0 n).
Proof. unfold units. apply map_ext. intros k. f_equal. Qed.

(** What [replace(str, from, to)] returns. *)
Lemma alg_replace_unit_spec Cap (s : fixed_string) from to :
  capacity_ok Cap -> storage_ok Cap s ->
  storage_ok Cap (algorithms.replace_unit Cap s from to) /\
  content (algorithms.replace_unit Cap s from to)
  = map (fun c => if c =? from then to else c) (content s).
Proof.
  intros HN Hs. assert (Hs' := Hs). destruct Hs' as (Hext & Hlen & Hterm).
  unfold algorithms.replace_unit, Fstring.length, Fstring.index.
  destruct (fs_build_loop Cap (len_ s)
              (fun i => [if get (data_ s) i =? from then to else get (data_ s) i])
              (fun i result =>
                 Fstring.append_unit Cap result
                   (if get (data_ s) i =? from then to else get (data_ s) i)))
    as (R1 & R2 & _); auto; try size_lia.
  - intros i r Hi Hr Hl.
    destruct (fs_append_unit_spec Cap r
                (if get (data_ s) i =? from then to else get (data_ s) i))
      as (A1 & A2); auto; try size_lia.
    split; [exact A1|]. split; [exact A2|].
    rewrite fs_append_unit_len by (auto; size_lia). lia.
  - split; [exact R1|]. rewrite R2.
    rewrite (flat_map_single
               (fun k => if get (data_ s) (Z.of_nat k) =? from then to
                         else get (data_ s) (Z.of_nat k))).
    rewrite content_units by size_lia. rewrite units_map, map_map. reflexivity.
Qed.

(** What [remove(str, ch)] returns. *)
Lemma alg_remove_spec Cap (s : fixed_string) ch :
  capacity_ok Cap -> storage_ok Cap s ->
  storage_ok Cap (algorithms.remove Cap s ch) /\
  content (algorithms.remove Cap s ch) = filter (fun c => negb (c =? ch)) (content s).
Proof.
  intros HN Hs. assert (Hs' := Hs). destruct Hs' as (Hext & Hlen & Hterm).
  unfold algorithms.remove, Fstring.length, Fstring.index.
  destruct (fs_build_loop Cap (len_ s)
              (fun i => if negb (get (data_ s) i =? ch) then [get (data_ s) i] else [])
              (fun i result =>
                 if negb (get (data_ s) i =? ch)
                 then Fstring.append_unit Cap result (get (data_ s) i)
                 else result))
    as (R1 & R2 & _); auto; try size_lia.
  - intros i r Hi Hr Hl.
    destruct (negb (get (data_ s) i =? ch)).
    + destruct (fs_append_unit_spec Cap r (get (data_ s) i)) as (A1 & A2); auto; try size_lia.
      split; [exact A1|]. split; [exact A2|].
      rewrite fs_append_unit_len by (auto; size_lia). lia.
    + split; [exact Hr|]. split; [now rewrite app_nil_r | lia].
  - split; [exact R1|]. rewrite R2.
    rewrite (flat_map_filter (fun c => negb (c =? ch))
               (fun k => get (data_ s) (Z.of_nat k))).
    rewrite content_units by size_lia. rewrite units_map. reflexivity.
Qed.

(** What [count(str, ch)] returns. *)
Lemma alg_count_spec Cap (s : fixed_string) ch :
  capacity_ok Cap -> storage_ok Cap s ->
  algorithms.count_unit s ch = Z.of_nat (count_occ Z.eq_dec (content s) ch).
Proof.
  intros HN Hs.
  change (algorithms.count_unit s ch) with (ConstantString.count s ch).
  now apply (cs_count_spec Cap).
Qed.

(** What [reverse(str)] returns. *)
Lemma alg_reverse_spec Cap (s : fixed_string) :
  capacity_ok Cap -> storage_ok Cap s ->
  storage_ok Cap (algorithms.reverse Cap s) /\
  content (algorithms.reverse Cap s) = rev (content s).
Proof.
  intros HN Hs. assert (Hs' := Hs). destruct Hs' as (Hext & Hlen & Hterm).
  unfold algorithms.reverse, Fstring.length, Fstring.index.
  assert (Hinv :
    let r := for_down (len_ s) 0
               (fun i result =>
                  Fstring.append_unit Cap result (get (data_ s) (SizeT.sub i 1)))
               (Fstring.default Cap) in
    storage_ok Cap r /\ len_ r = len_ s - 0 /\
    content r = rev (units (data_ s) 0 (Z.to_nat (len_ s - 0)))).
  { apply (for_down_inv
             (fun i r => storage_ok Cap r /\ len_ r = len_ s - i /\
                         content r = rev (units (data_ s) i (Z.to_nat (len_ s - i)))));
      [size_lia| |].
    - split; [apply storage_value_init; size_lia|].
      rewrite Z.sub_diag. split; reflexivity.
    - intros i r Hi (R1 & R2 & R3).
      destruct (fs_append_unit_spec Cap r (get (data_ s) (SizeT.sub i 1)))
        as (A1 & A2); auto; try size_lia.
      split; [exact A1|]. split; [rewrite fs_append_unit_len by (auto; size_lia); lia|].
      rewrite A2, R3. rewrite size_sub_small by size_lia.
      replace (Z.to_nat (len_ s - (i - 1))) with (S (Z.to_nat (len_ s - i))) by lia.
      rewrite units_S. cbn [rev]. do 3 f_equal. lia. }
  destruct Hinv as (R1 & _ & R3). split; [exact R1|].
  rewrite R3, Z.sub_0_r, <- content_units by size_lia. reflexivity.
Qed.

(** *** Appending up to the capacity *)

Lemma firstn_app_firstn {A : Type} (l r : list A) n :
  firstn n (firstn n l ++ r) = firstn n (l ++ r).
Proof.
  destruct (Nat.le_gt_cases n (length l)) as [H|H].
  - rewrite !firstn_app, length_firstn.
    replace (n - Nat.min n (length l))%nat with O by lia.
    replace (n - length l)%nat with O by lia.
    cbn [firstn]. rewrite firstn_firstn. f_equal. f_equal. lia.
  - rewrite (firstn_all2 l) by lia. reflexivity.
Qed.

Lemma firstn_app_keep {A : Type} (l r : list A) n k :
  (length l <= n)%nat -> k = (n - length l)%nat ->
  l ++ firstn k r = firstn n (l ++ r).
Proof.
  intros H ->. rewrite firstn_app, (firstn_all2 l) by lia. reflexivity.
Qed.

Lemma firstn_repeat_min {A : Type} (x : A) k n :
  firstn k (repeat x n) = repeat x (Nat.min k n).
Proof.
  revert n; induction k as [|k IH]; intros [|n]; cbn [firstn repeat Nat.min]; auto.
  now rewrite IH.
Qed.

(** [append(str, len)] of fstring_core.hpp: what fits of the source comes
    behind the content. *)
Lemma fs_append_firstn Cap (r : fixed_string) (src : list unit_t) k :
  capacity_ok Cap -> storage_ok Cap r -> 0 <= k <= Z.of_nat (length src) ->
  storage_ok Cap (Fstring.append Cap r (Some src) k) /\
  content (Fstring.append Cap r (Some src) k)
  = firstn (Z.to_nat Cap) (content r ++ firstn (Z.to_nat k) src).
Proof.
  intros HN Hr Hk. assert (Hr' := Hr). destruct Hr' as (Hext & Hlen & Hterm).
  assert (Hcl : Z.of_nat (length (content r)) = len_ r) by (apply length_content; size_lia).
  destruct (fs_append_spec Cap r src k HN Hr Hk) as (S1 & (_ & C1 & _)).
  split; [exact S1|]. rewrite C1.
  rewrite <- (firstn_app_keep (content r) (firstn (Z.to_nat k) src) (Z.to_nat Cap)
                (Z.to_nat Cap - length (content r))) by (auto; size_lia).
  rewrite firstn_firstn. do 2 f_equal. size_lia.
Qed.

(** [operator+=] and [append] with another string as the source. *)
Lemma fs_append_string_firstn Cap M (r s : fixed_string) :
  capacity_ok Cap -> storage_ok Cap r -> storage_ok M s ->
  storage_ok Cap (Fstring.append Cap r (Some (data_ s)) (len_ s)) /\
  content (Fstring.append Cap r (Some (data_ s)) (len_ s))
  = firstn (Z.to_nat Cap) (content r ++ content s).
Proof.
  intros HN Hr Hs. destruct Hs as (Sext & Slen & Sterm).
  apply fs_append_firstn; auto. size_lia.
Qed.

(** [append(count, ch)] *)
Lemma fs_append_fill_firstn Cap (r : fixed_string) count ch :
  capacity_ok Cap -> storage_ok Cap r -> 0 <= count ->
  storage_ok Cap (Fstring.append_fill Cap r count ch) /\
  content (Fstring.append_fill Cap r count ch)
  = firstn (Z.to_nat Cap) (content r ++ repeat ch (Z.to_nat count)).
Proof.
  intros HN Hr Hc. assert (Hr' := Hr). destruct Hr' as (Hext & Hlen & Hterm).
  assert (Hcl : Z.of_nat (length (content r)) = len_ r) by (apply length_content; size_lia).
  split; [now apply fs_append_fill_ok|].
  unfold Fstring.append_fill, Fstring.available, Fstring.capacity, fs_detail.fill.
  rewrite size_sub_small by size_lia. rewrite fs_min_spec.
  set (n := Z.min count (Cap - len_ r)).
  assert (Hn : 0 <= n /\ n <= count /\ len_ r + n <= Cap /\ n = Z.min count (Cap - len_ r))
    by (subst n; size_lia).
  clearbody n.
  rewrite size_add_small by size_lia.
  destruct (extend_spec Cap r (fun _ => ch) (repeat ch (Z.to_nat n)) n) as (_ & E);
    auto; try lia.
  - rewrite repeat_length. lia.
  - intros i Hi. apply get_repeat_ch. lia.
  - rewrite E.
    rewrite <- (firstn_app_keep (content r) (repeat ch (Z.to_nat count)) (Z.to_nat Cap)
                  (Z.to_nat Cap - length (content r))) by (auto; size_lia).
    f_equal. rewrite firstn_repeat_min. f_equal. size_lia.
Qed.

(** [append(ch)] *)
Lemma fs_append_unit_firstn Cap (r : fixed_string) ch :
  capacity_ok Cap -> storage_ok Cap r ->
  storage_ok Cap (Fstring.append_unit Cap r ch) /\
  content (Fstring.append_unit Cap r ch) = firstn (Z.to_nat Cap) (content r ++ [ch]).
Proof.
  intros HN Hr. assert (Hr' := Hr). destruct Hr' as (Hext & Hlen & Hterm).
  assert (Hcl : Z.of_nat (length (content r)) = len_ r) by (apply length_content; size_lia).
  destruct (Z.eq_dec (len_ r) Cap) as [Hfull|Hroom].
  - unfold Fstring.append_unit, Fstring.full, Fstring.capacity.
    destruct (Z.eqb_spec (len_ r) Cap); [|lia]. cbn [negb]. split; [exact Hr|].
    rewrite firstn_app. replace (Z.to_nat Cap - length (content r))%nat with O by lia.
    cbn [firstn]. rewrite app_nil_r. symmetry. apply firstn_all2. lia.
  - destruct (fs_append_unit_spec Cap r ch) as (A1 & A2); auto; try size_lia.
    split; [exact A1|]. rewrite A2. symmetry. apply firstn_all2.
    rewrite length_app. cbn [length]. size_lia.
Qed.

(** *** Padding *)

Lemma alg_pad_left_spec Cap (s : fixed_string) width fill :
  capacity_ok Cap -> storage_ok Cap s -> 0 <= width < SizeT.modulus ->
  storage_ok Cap (algorithms.pad_left Cap s width fill) /\
  content (algorithms.pad_left Cap s width fill)
  = firstn (Z.to_nat Cap) (repeat fill (Z.to_nat (width - len_ s)) ++ content s).
Proof.
  intros HN Hs Hw. assert (Hs' := Hs). destruct Hs' as (Hext & Hlen & Hterm).
  assert (H0 : storage_ok Cap (Fstring.default Cap)) by (apply storage_value_init; size_lia).
  unfold algorithms.pad_left, Fstring.op_add_assign, Fstring.length.
  destruct (Z.ltb_spec (len_ s) width) as [Hlt|Hge].
  - rewrite size_sub_small by size_lia.
    destruct (fs_append_fill_firstn Cap (Fstring.default Cap) (width - len_ s) fill)
      as (F1 & F2); auto; try lia.
    destruct (fs_append_string_firstn Cap Cap _ s HN F1 Hs) as (A1 & A2).
    split; [exact A1|]. rewrite A2, F2.
    change (content (Fstring.default Cap)) with (@nil unit_t). cbn [app].
    apply firstn_app_firstn.
  - destruct (fs_append_string_firstn Cap Cap _ s HN H0 Hs) as (A1 & A2).
    split; [exact A1|]. rewrite A2.
    change (content (Fstring.default Cap)) with (@nil unit_t).
    replace (Z.to_nat (width - len_ s)) with O by lia. reflexivity.
Qed.

Lemma alg_pad_right_spec Cap (s : fixed_string) width fill :
  capacity_ok Cap -> storage_ok Cap s -> 0 <= width < SizeT.modulus ->
  storage_ok Cap (algorithms.pad_right Cap s width fill) /\
  content (algorithms.pad_right Cap s width fill)
  = firstn (Z.to_nat Cap) (content s ++ repeat fill (Z.to_nat (width - len_ s))).
Proof.
  intros HN Hs Hw. assert (Hs' := Hs). destruct Hs' as (Hext & Hlen & Hterm).
  assert (Hcl : Z.of_nat (length (content s)) = len_ s) by (apply length_content; size_lia).
  unfold algorithms.pad_right, Fstring.length.
  destruct (Z.ltb_spec (len_ s) width) as [Hlt|Hge].
  - rewrite size_sub_small by size_lia.
    apply fs_append_fill_firstn; auto; lia.
  - split; [exact Hs|].
    replace (Z.to_nat (width - len_ s)) with O by lia. cbn [repeat]. rewrite app_nil_r.
    symmetry. apply firstn_all2. size_lia.
Qed.

Lemma alg_center_spec Cap (s : fixed_string) width fill :
  capacity_ok Cap -> storage_ok Cap s -> 0 <= width < SizeT.modulus ->
  let total := width - len_ s in
  storage_ok Cap (algorithms.center Cap s width fill) /\
  content (algorithms.center Cap s width fill)
  = firstn (Z.to_nat Cap)
      (repeat fill (Z.to_nat (total / 2)) ++ content s
       ++ repeat fill (Z.to_nat (total - total / 2))).
Proof.
  intros HN Hs Hw total. assert (Hs' := Hs). destruct Hs' as (Hext & Hlen & Hterm).
  assert (Hcl : Z.of_nat (length (content s)) = len_ s) by (apply length_content; size_lia).
  assert (H0 : storage_ok Cap (Fstring.default Cap)) by (apply storage_value_init; size_lia).
  unfold algorithms.center, Fstring.op_add_assign, Fstring.length.
  destruct (Z.leb_spec width (len_ s)) as [Hle|Hgt].
  - split; [exact Hs|].
    assert (Ht : total <= 0) by (subst total; lia).
    assert (Hh : total / 2 <= 0) by (apply Z.div_le_upper_bound; lia).
    assert (Hz : forall z, z <= 0 -> Z.to_nat z = O) by (intros; lia).
    rewrite (Hz (total / 2)) by lia.
    assert (Hr : total - total / 2 <= 0).
    { pose proof (Z.div_mod total 2). pose proof (Z.mod_pos_bound total 2). lia. }
    rewrite (Hz (total - total / 2)) by lia.
    cbn [repeat app]. rewrite app_nil_r. symmetry. apply firstn_all2. size_lia.
  - rewrite (size_sub_small width (len_ s)) by size_lia. fold total.
    assert (Ht : 0 < total < SizeT.modulus) by (subst total; size_lia).
    assert (Hh : 0 <= total / 2 <= total).
    { split; [apply Z.div_pos; lia | apply Z.div_le_upper_bound; lia]. }
    clearbody total.
    rewrite (size_sub_small total (total / 2)) by size_lia.
    destruct (fs_append_fill_firstn Cap (Fstring.default Cap) (total / 2) fill)
      as (F1 & F2); auto; try lia.
    destruct (fs_append_string_firstn Cap Cap _ s HN F1 Hs) as (A1 & A2).
    destruct (fs_append_fill_firstn Cap _ (total - total / 2) fill HN A1) as (G1 & G2);
      try lia.
    split; [exact G1|]. rewrite G2, A2, F2.
    change (content (Fstring.default Cap)) with (@nil unit_t). cbn [app].
    rewrite firstn_app_firstn, <- app_assoc, firstn_app_firstn. reflexivity.
Qed.

(** *** [join] *)

Lemma joined_snoc (sep : list unit_t) (segs : list (list unit_t)) (x : list unit_t) :
  joined sep (segs ++ [x])
  = match segs with [] => x | _ :: _ => joined sep segs ++ sep ++ x end.
Proof.
  induction segs as [|y segs IH]; [reflexivity|].
  cbn [app joined]. rewrite IH.
  destruct segs as [|z segs]; cbn [app joined]; [reflexivity|].
  now rewrite <- !app_assoc.
Qed.

Lemma length_joined (sep : list unit_t) (segs : list (list unit_t)) c :
  Forall (fun seg => Z.of_nat (length seg) <= c) segs -> 0 <= c ->
  Z.of_nat (length (joined sep segs))
  <= Z.of_nat (length segs) * c + Z.of_nat (length segs) * Z.of_nat (length sep).
Proof.
  intros H Hc. induction H as [|x segs Hx Hs IH]; [cbn; lia|].
  cbn [joined]. destruct segs as [|y segs].
  - cbn [length]. lia.
  - rewrite !length_app. change (length (x :: y :: segs)) with (S (length (y :: segs))).
    lia.
Qed.

Lemma firstn_succ_nth {A : Type} (l : list A) n (a : A) :
  (n < length l)%nat -> firstn (S n) l = firstn n l ++ [nth n l a].
Proof.
  revert n; induction l as [|x l IH]; intros [|n] H; cbn in *; try lia; auto.
  f_equal. apply IH. lia.
Qed.

(** The loop of both overloads of [join]: [add_sep] appends the delimiter. *)
Lemma join_loop Cap C (parts : list fixed_string) (sep : list unit_t)
  (add_sep : fixed_string -> fixed_string) :
  capacity_ok Cap -> capacity_ok C ->
  Forall (storage_ok Cap) parts ->
  Z.of_nat (length parts) * Cap + Z.of_nat (length parts) * Z.of_nat (length sep) <= C ->
  (forall r, storage_ok C r ->
     storage_ok C (add_sep r) /\
     content (add_sep r) = firstn (Z.to_nat C) (content r ++ sep)) ->
  let r := for_range 0 (Z.of_nat (length parts))
             (fun i result =>
                let result := if 0 <? i then add_sep result else result in
                let part := nth (Z.to_nat i) parts (Fstring.default Cap) in
                Fstring.append C result (Some (data_ part)) (Fstring.length part))
             (Fstring.default C) in
  storage_ok C r /\ content r = joined sep (map content parts).
Proof.
  intros HN HC Hparts Hroom Hsep.
  assert (Hlens : Forall (fun seg => Z.of_nat (length seg) <= Cap) (map content parts)).
  { apply Forall_map. apply (Forall_impl _ (P := storage_ok Cap)); auto.
    intros p (Pext & Plen & _). pose proof (length_content p). size_lia. }
  assert (Hinv :
    let r := for_range 0 (Z.of_nat (length parts))
               (fun i result =>
                  let result := if 0 <? i then add_sep result else result in
                  let part := nth (Z.to_nat i) parts (Fstring.default Cap) in
                  Fstring.append C result (Some (data_ part)) (Fstring.length part))
               (Fstring.default C) in
    storage_ok C r /\
    content r = joined sep (map content
                              (firstn (Z.to_nat (Z.of_nat (length parts))) parts))).
  { apply (for_range_inv
             (fun i r => storage_ok C r /\
                         content r = joined sep (map content (firstn (Z.to_nat i) parts))));
      [lia| |].
    - split; [apply storage_value_init; size_lia | reflexivity].
    - intros i r Hi (R1 & R2). cbv zeta.
      set (part := nth (Z.to_nat i) parts (Fstring.default Cap)).
      assert (Hp : storage_ok Cap part).
      { rewrite Forall_forall in Hparts. apply Hparts. apply nth_In. lia. }
      assert (Hr' : storage_ok C (if 0 <? i then add_sep r else r) /\
                    content (if 0 <? i then add_sep r else r)
                    = firstn (Z.to_nat C)
                        (content r ++ (if 0 <? i then sep else []))).
      { destruct (0 <? i); [now apply Hsep|]. split; auto.
        rewrite app_nil_r. symmetry. apply firstn_all2.
        destruct R1 as (? & ? & _). pose proof (length_content r). size_lia. }
      destruct Hr' as (S1 & C1).
      destruct (fs_append_string_firstn C Cap _ part HC S1 Hp) as (A1 & A2).
      unfold Fstring.length. split; [exact A1|].
      rewrite A2, C1, firstn_app_firstn, R2.
      replace (Z.to_nat (i + 1)) with (S (Z.to_nat i)) by lia.
      rewrite (firstn_succ_nth parts (Z.to_nat i) (Fstring.default Cap)) by lia.
      fold part. rewrite map_app. cbn [map]. rewrite joined_snoc.
      assert (Hfit : Z.of_nat (length (joined sep (map content (firstn (Z.to_nat i) parts
                                                                ++ [part]))))
                     <= C).
      { pose proof (length_joined sep (map content (firstn (Z.to_nat i) parts ++ [part])) Cap)
          as Hj.
        rewrite length_map, length_app, length_firstn in Hj. cbn [length] in Hj.
        assert (Hf : Forall (fun seg => Z.of_nat (length seg) <= Cap)
                       (map content (firstn (Z.to_nat i) parts ++ [part]))).
        { apply Forall_map, Forall_app. split.
          - apply Forall_firstn. apply (Forall_impl _ (P := storage_ok Cap)); auto.
            intros p (Pext & Plen & _). pose proof (length_content p). size_lia.
          - constructor; auto. destruct Hp as (Pext & Plen & _).
            pose proof (length_content part). size_lia. }
        assert (Hcap : 0 <= Cap) by size_lia.
        specialize (Hj Hf Hcap).
        set (k := Z.of_nat (Nat.min (Z.to_nat i) (length parts) + 1)) in *.
        assert (Hk : 0 <= k <= Z.of_nat (length parts)) by (subst k; lia).
        assert (H1 : k * Cap <= Z.of_nat (length parts) * Cap)
          by (apply Z.mul_le_mono_nonneg_r; lia).
        assert (H2 : k * Z.of_nat (length sep) <= Z.of_nat (length parts) * Z.of_nat (length sep))
          by (apply Z.mul_le_mono_nonneg_r; lia).
        lia. }
      rewrite map_app in Hfit. cbn [map] in Hfit. rewrite joined_snoc in Hfit.
      destruct (Z.ltb_spec 0 i) as [Hpos|Hzero].
      + destruct (map content (firstn (Z.to_nat i) parts)) eqn:Em.
        * exfalso. apply (f_equal (@length (list unit_t))) in Em.
          rewrite length_map, length_firstn in Em. cbn in Em. lia.
        * rewrite <- app_assoc. apply firstn_all2. lia.
      + replace (Z.to_nat i) with O in * by lia. cbn [firstn map app] in *.
        apply firstn_all2. lia. }
  destruct Hinv as (R1 & R2). split; [exact R1|].
  rewrite R2, Nat2Z.id, firstn_all. reflexivity.
Qed.

(** What [join(parts, delimiter)] returns, for a delimiter unit and for a
    delimiter string. *)
Lemma alg_join_spec Cap DelimCap (parts : list fixed_string) (d : unit_t)
  (delim : fixed_string) :
  let N := Z.of_nat (length parts) in
  capacity_ok Cap -> capacity_ok (Cap * N + N) -> capacity_ok (Cap * N + DelimCap * N) ->
  Forall (storage_ok Cap) parts -> storage_ok DelimCap delim ->
  (storage_ok (Cap * N + N) (algorithms.join_unit Cap parts d) /\
   content (algorithms.join_unit Cap parts d) = joined [d] (map content parts)) /\
  (storage_ok (Cap * N + DelimCap * N) (algorithms.join Cap DelimCap parts delim) /\
   content (algorithms.join Cap DelimCap parts delim)
   = joined (content delim) (map content parts)).
Proof.
  intros N HN HC1 HC2 Hparts Hd.
  assert (HNn : 0 <= N) by (subst N; lia).
  assert (Hdl : Z.of_nat (length (content delim)) = len_ delim /\ 0 <= len_ delim <= DelimCap).
  { destruct Hd as (? & ? & _). pose proof (length_content delim). size_lia. }
  assert (HcapN : 0 <= Cap * N) by (apply Z.mul_nonneg_nonneg; size_lia).
  assert (HdN : 0 <= DelimCap * N).
  { apply Z.mul_nonneg_nonneg; [|lia]. lia. }
  split.
  - unfold algorithms.join_unit. fold N.
    rewrite (wrap_small (Cap * N)) by size_lia.
    rewrite size_add_small by size_lia.
    apply (join_loop Cap (Cap * N + N) parts [d]
             (fun r => Fstring.append_unit (Cap * N + N) r d)); auto.
    + cbn [length]. fold N. lia.
    + intros r Hr. now apply fs_append_unit_firstn.
  - unfold algorithms.join. fold N.
    rewrite (wrap_small (Cap * N)), (wrap_small (DelimCap * N)) by size_lia.
    rewrite size_add_small by size_lia.
    apply (join_loop Cap (Cap * N + DelimCap * N) parts (content delim)
             (fun r => Fstring.append (Cap * N + DelimCap * N) r (Some (data_ delim))
                         (Fstring.length delim))); auto.
    + fold N. nia.
    + intros r Hr. unfold Fstring.length.
      now apply (fs_append_string_firstn _ DelimCap).
Qed.

(** *** [split] after [join] *)

Lemma nonempty_rev (l : list unit_t) : nonempty (rev l) = nonempty l.
Proof.
  destruct l as [|x l]; [reflexivity|]. cbn [rev nonempty].
  destruct (rev l ++ [x]) eqn:E; [|reflexivity].
  apply (f_equal (@length unit_t)) in E. rewrite length_app in E. cbn in E. lia.
Qed.

Lemma fields_end d (pending : list unit_t) :
  algorithms.fields d pending [] = if nonempty (rev pending) then [rev pending] else [].
Proof.
  rewrite nonempty_rev. destruct pending; reflexivity.
Qed.

Lemma fields_delim d (pending r : list unit_t) :
  algorithms.fields d pending (d :: r)
  = (if nonempty (rev pending) then [rev pending] else []) ++ algorithms.fields d [] r.
Proof.
  rewrite nonempty_rev. cbn [algorithms.fields]. rewrite Z.eqb_refl.
  destruct pending; reflexivity.
Qed.

Lemma fields_app_nodelim d (pending seg rest : list unit_t) :
  Forall (fun c => c <> d) seg ->
  algorithms.fields d pending (seg ++ rest) = algorithms.fields d (rev seg ++ pending) rest.
Proof.
  intros H. revert pending; induction H as [|c seg Hc Hs IH]; intros pending; [reflexivity|].
  cbn [app algorithms.fields rev].
  destruct (Z.eqb_spec c d); [contradiction|].
  rewrite IH, <- app_assoc. reflexivity.
Qed.

(** Splitting what [join] has put together gives back the segments that are
    not empty. *)
Lemma fields_joined d (segs : list (list unit_t)) :
  Forall (fun seg => Forall (fun c => c <> d) seg) segs ->
  algorithms.fields d [] (joined [d] segs) = filter nonempty segs.
Proof.
  intros H. induction H as [|x rest Hx Hrest IH]; [reflexivity|].
  cbn [joined filter]. destruct rest as [|y rest].
  - rewrite <- (app_nil_r x) at 1. rewrite fields_app_nodelim by auto.
    rewrite app_nil_r, fields_end, rev_involutive.
    destruct (nonempty x); reflexivity.
  - rewrite fields_app_nodelim by auto. cbn [app].
    rewrite fields_delim, IH, app_nil_r, rev_involutive.
    destruct (nonempty x); reflexivity.
Qed.

(** *** [repeat] *)

Lemma repeated_snoc (c : list unit_t) n : repeated c (S n) = repeated c n ++ c.
Proof.
  unfold repeated. induction n as [|n IH]; cbn [repeat concat] in *.
  - now rewrite app_nil_r.
  - rewrite IH at 1. now rewrite app_assoc.
Qed.

Lemma repeated_add (c : list unit_t) n m : repeated c (n + m) = repeated c n ++ repeated c m.
Proof.
  unfold repeated. rewrite repeat_app, concat_app. reflexivity.
Qed.

Lemma firstn_app_full {A : Type} (l r : list A) n :
  (n <= length l)%nat -> firstn n (l ++ r) = firstn n l.
Proof.
  intros H. rewrite firstn_app. replace (n - length l)%nat with O by lia.
  cbn [firstn]. apply app_nil_r.
Qed.

(** What [repeat(str, times)] returns. *)
Lemma alg_repeat_spec Cap (s : fixed_string) times :
  capacity_ok Cap -> capacity_ok (Cap * 16) -> storage_ok Cap s -> 0 <= times ->
  storage_ok (Cap * 16) (algorithms.repeat_string Cap s times) /\
  content (algorithms.repeat_string Cap s times)
  = firstn (Z.to_nat (Cap * 16)) (repeated (content s) (Z.to_nat times)).
Proof.
  intros HN HC Hs Ht.
  unfold algorithms.repeat_string, for_while, Fstring.length.
  rewrite wrap_small by size_lia. rewrite Z.sub_0_r.
  set (C := Cap * 16) in *.
  apply (iter_while_inv
           (fun j r => 0 <= j <= times /\ storage_ok C r /\
                       content r = firstn (Z.to_nat C) (repeated (content s) (Z.to_nat j)))
           (fun r => storage_ok C r /\
                     content r = firstn (Z.to_nat C) (repeated (content s) (Z.to_nat times)))).
  - split; [lia|]. split; [apply storage_value_init; size_lia|].
    change (content (Fstring.default C)) with (@nil unit_t).
    change (repeated (content s) (Z.to_nat 0)) with (@nil unit_t).
    symmetry. apply firstn_nil.
  - intros j r Hj (Hjt & R1 & R2) Hc.
    destruct (fs_append_string_firstn C Cap r s HC R1 Hs) as (A1 & A2).
    split; [lia|]. split; [exact A1|].
    rewrite A2, R2, firstn_app_firstn.
    replace (Z.to_nat (j + 1)) with (S (Z.to_nat j)) by lia.
    now rewrite repeated_snoc.
  - intros j r Hj (Hjt & R1 & R2) Hc. split; [exact R1|].
    unfold Fstring.full, Fstring.capacity in Hc.
    destruct (Z.eqb_spec (len_ r) C) as [Hfull|]; [|discriminate].
    assert (Hl : Z.of_nat (length (content r)) = len_ r).
    { destruct R1 as (? & ? & _). apply length_content. size_lia. }
    rewrite R2 in Hl. rewrite length_firstn in Hl.
    rewrite R2.
    replace (Z.to_nat times) with (Z.to_nat j + (Z.to_nat times - Z.to_nat j))%nat by lia.
    rewrite repeated_add. symmetry. apply firstn_app_full. lia.
  - intros r (_ & R1 & R2). split; [exact R1|]. rewrite R2. do 2 f_equal. lia.
Qed.

(** *** [is_digit] *)

Lemma all_digits_from_spec n (s : fixed_string) i :
  algorithms.all_digits_from n s i = true <->
  forall k, i <= k < i + Z.of_nat n -> fs_detail.is_digit (get (data_ s) k) = true.
Proof.
  revert i; induction n as [|n IH]; intros i; cbn [algorithms.all_digits_from].
  - split; auto. intros _ k Hk. lia.
  - unfold Fstring.index.
    destruct (fs_detail.is_digit (get (data_ s) i)) eqn:E; cbn [negb].
    + rewrite IH. split; intros H k Hk.
      * destruct (Z.eq_dec k i) as [->|Hne]; auto. apply H. lia.
      * apply H. lia.
    + split; [discriminate|]. intros H. rewrite H in E by lia. discriminate.
Qed.

Lemma alg_is_digit_spec Cap (s : fixed_string) :
  storage_ok Cap s ->
  algorithms.is_digit s = true <->
  content s <> [] /\ Forall (fun c => fs_detail.is_digit c = true) (content s).
Proof.
  intros (Hext & Hlen & Hterm).
  assert (Hb : 0 <= len_ s <= Z.of_nat (length (data_ s))) by size_lia.
  assert (Hcl : Z.of_nat (length (content s)) = len_ s) by (apply length_content; size_lia).
  unfold algorithms.is_digit, Fstring.empty, Fstring.length.
  rewrite (content_nil_iff s Hb).
  destruct (Z.eqb_spec (len_ s) 0) as [E|E].
  - split; [discriminate|]. intros (H & _). contradiction.
  - rewrite all_digits_from_spec, Forall_forall. split.
    + intros H. split; auto. intros c Hc. apply In_get in Hc. destruct Hc as (k & Hk & <-).
      rewrite get_content by lia. apply H. lia.
    + intros (_ & H) k Hk. apply H. rewrite <- (get_content s k) by lia.
      apply In_get. exists k. split; [lia | reflexivity].
Qed.

(** X17.  [algorithms::reverse(str)] returns a string of the same
    capacity whose content is that of [str] in reverse order, so reversing
    twice gives the content back; it builds what [string::reverse()] of
    constant_string.hpp leaves in place. *)
Theorem reverse_builds_the_reversed_content Cap (s : fixed_string) :
  capacity_ok Cap -> storage_ok Cap s ->
  storage_ok Cap (algorithms.reverse Cap s) /\
  content (algorithms.reverse Cap s) = rev (content s) /\
  len_ (algorithms.reverse Cap s) = len_ s /\
  content (algorithms.reverse Cap (algorithms.reverse Cap s)) = content s /\
  content (algorithms.reverse Cap s) = content (ConstantString.reverse s).
Proof.
  intros HN Hs.
  destruct (alg_reverse_spec Cap s HN Hs) as (R1 & R2).
  destruct (alg_reverse_spec Cap _ HN R1) as (_ & R3).
  destruct (cs_reverse_content Cap s HN Hs) as (_ & R4).
  split; [exact R1|]. split; [exact R2|]. split.
  - assert (L1 : Z.of_nat (length (content (algorithms.reverse Cap s)))
                 = len_ (algorithms.reverse Cap s))
      by (destruct R1 as (? & ? & _); apply length_content; size_lia).
    assert (L2 : Z.of_nat (length (content s)) = len_ s)
      by (destruct Hs as (? & ? & _); apply length_content; size_lia).
    rewrite R2, length_rev in L1. unfold unit_t in *. lia.
  - split; [rewrite R3, R2; apply rev_involutive | now rewrite R2, R4].
Qed.

Lemma reverse_builds_the_reversed_content_witness :
  let s := Fstring.from_array 8 [97; 98; 99; 0] in
  content (algorithms.reverse 8 s) = [99; 98; 97].
Proof.
  assert (HN : capacity_ok 8) by (unfold capacity_ok; rewrite npos_value; lia).
  assert (Hs : storage_ok 8 (Fstring.from_array 8 [97; 98; 99; 0]))
    by (repeat split; vm_compute; congruence).
  destruct (reverse_builds_the_reversed_content 8 _ HN Hs) as (_ & A & _).
  exact A.
Defined.

(** X18.  [algorithms::replace(str, from, to)] for two units
    returns a string of the same capacity and length in which every unit
    equal to [from] has become [to] and every other unit is unchanged; when
    [from] and [to] differ, no [from] is left. *)
Theorem replace_maps_every_occurrence Cap (s : fixed_string) (from to : unit_t) :
  capacity_ok Cap -> storage_ok Cap s ->
  let r := algorithms.replace_unit Cap s from to in
  storage_ok Cap r /\
  content r = map (fun c => if c =? from then to else c) (content s) /\
  len_ r = len_ s /\
  (from <> to -> algorithms.count_unit r from = 0) /\
  algorithms.count_unit r to = algorithms.count_unit s from + (if from =? to then 0 else algorithms.count_unit s to).
Proof.
  intros HN Hs r.
  destruct (alg_replace_unit_spec Cap s from to HN Hs) as (R1 & R2). fold r in R1, R2.
  assert (L1 : Z.of_nat (length (content r)) = len_ r)
    by (destruct R1 as (? & ? & _); apply length_content; size_lia).
  assert (L2 : Z.of_nat (length (content s)) = len_ s)
    by (destruct Hs as (? & ? & _); apply length_content; size_lia).
  split; [exact R1|]. split; [exact R2|].
  split; [rewrite R2, length_map in L1; unfold unit_t in *; lia|].
  rewrite !(alg_count_spec Cap) by auto. rewrite R2.
  clear. generalize (content s) as l. intros l. split.
  - intros Hne. induction l as [|c l IH]; [reflexivity|].
    cbn [map count_occ].
    destruct (Z.eqb_spec c from) as [->|Hc].
    + destruct (Z.eq_dec to from); [congruence | exact IH].
    + destruct (Z.eq_dec c from); [congruence | exact IH].
  - induction l as [|c l IH]; [cbn; destruct (from =? to); reflexivity|].
    cbn [map count_occ].
    destruct (Z.eqb_spec from to) as [E|E].
    + subst to. rewrite Z.add_0_r in *.
      destruct (Z.eqb_spec c from) as [->|Hc].
      * destruct (Z.eq_dec from from); [|congruence]. lia.
      * destruct (Z.eq_dec c from); [congruence | exact IH].
    + destruct (Z.eqb_spec c from) as [->|Hc].
      * destruct (Z.eq_dec to to); [|congruence].
        destruct (Z.eq_dec from from); [|congruence].
        destruct (Z.eq_dec from to); [congruence|]. lia.
      * destruct (Z.eq_dec c from); [congruence|].
        destruct (Z.eq_dec c to); lia.
Qed.

Lemma replace_maps_every_occurrence_witness :
  let s := Fstring.from_array 8 [97; 45; 98; 45; 99; 0] in
  content (algorithms.replace_unit 8 s 45 95) = [97; 95; 98; 95; 99].
Proof.
  assert (HN : capacity_ok 8) by (unfold capacity_ok; rewrite npos_value; lia).
  assert (Hs : storage_ok 8 (Fstring.from_array 8 [97; 45; 98; 45; 99; 0]))
    by (repeat split; vm_compute; congruence).
  destruct (replace_maps_every_occurrence 8 _ 45 95 HN Hs) as (_ & A & _).
  exact A.
Defined.

Lemma length_filter_count (l : list unit_t) ch :
  Z.of_nat (length (filter (fun c => negb (c =? ch)) l))
  = Z.of_nat (length l) - Z.of_nat (count_occ Z.eq_dec l ch).
Proof.
  induction l as [|c l IH]; [reflexivity|].
  cbn [filter count_occ length].
  destruct (Z.eqb_spec c ch); destruct (Z.eq_dec c ch); try contradiction; cbn [negb length];
    lia.
Qed.

Lemma count_filter_out (l : list unit_t) ch :
  count_occ Z.eq_dec (filter (fun c => negb (c =? ch)) l) ch = O.
Proof.
  induction l as [|c l IH]; [reflexivity|].
  cbn [filter]. destruct (Z.eqb_spec c ch); cbn [negb]; auto.
  cbn [count_occ]. destruct (Z.eq_dec c ch); [contradiction | exact IH].
Qed.

(** X19.  [algorithms::remove(str, ch)] returns the content of
    [str] without its units equal to [ch], the others in their order;
    [algorithms::count(str, ch)] is the number of those units, so the result
    is shorter by exactly [count(str, ch)], holds no [ch], and is the content
    of [str] when there was none. *)
Theorem remove_drops_what_count_counts Cap (s : fixed_string) (ch : unit_t) :
  capacity_ok Cap -> storage_ok Cap s ->
  let r := algorithms.remove Cap s ch in
  storage_ok Cap r /\
  content r = filter (fun c => negb (c =? ch)) (content s) /\
  algorithms.count_unit s ch = Z.of_nat (count_occ Z.eq_dec (content s) ch) /\
  len_ r = len_ s - algorithms.count_unit s ch /\
  algorithms.count_unit r ch = 0 /\
  (algorithms.count_unit s ch = 0 -> content r = content s).
Proof.
  intros HN Hs r.
  destruct (alg_remove_spec Cap s ch HN Hs) as (R1 & R2). fold r in R1, R2.
  assert (L1 : Z.of_nat (length (content r)) = len_ r)
    by (destruct R1 as (? & ? & _); apply length_content; size_lia).
  assert (L2 : Z.of_nat (length (content s)) = len_ s)
    by (destruct Hs as (? & ? & _); apply length_content; size_lia).
  pose proof (alg_count_spec Cap s ch HN Hs) as Ec.
  split; [exact R1|]. split; [exact R2|]. split; [exact Ec|].
  split; [rewrite R2, length_filter_count in L1; unfold unit_t in *; lia|].
  split; [rewrite (alg_count_spec Cap r ch HN R1), R2, count_filter_out; reflexivity|].
  intros E0. rewrite R2. rewrite Ec in E0.
  assert (Hno : ~ In ch (content s)).
  { apply (count_occ_not_In Z.eq_dec). unfold unit_t in *. lia. }
  clear - Hno. induction (content s) as [|c l IH]; [reflexivity|].
  cbn [filter]. destruct (Z.eqb_spec c ch) as [->|Hc].
  - exfalso. apply Hno. now left.
  - cbn [negb]. f_equal. apply IH. intros H. apply Hno. now right.
Qed.

Lemma remove_drops_what_count_counts_witness :
  let s := Fstring.from_array 8 [97; 32; 98; 32; 99; 0] in
  content (algorithms.remove 8 s 32) = [97; 98; 99] /\ algorithms.count_unit s 32 = 2.
Proof.
  assert (HN : capacity_ok 8) by (unfold capacity_ok; rewrite npos_value; lia).
  assert (Hs : storage_ok 8 (Fstring.from_array 8 [97; 32; 98; 32; 99; 0]))
    by (repeat split; vm_compute; congruence).
  destruct (remove_drops_what_count_counts 8 _ 32 HN Hs) as (_ & A & B & _).
  cbv zeta. split; [exact A | exact B].
Defined.

Lemma storage_content_length Cap (s : fixed_string) :
  storage_ok Cap s -> Z.of_nat (length (content s)) = len_ s.
Proof. intros (? & ? & _). apply length_content. size_lia. Qed.

Lemma padded_length Cap (r : fixed_string) (l : list unit_t) :
  capacity_ok Cap -> storage_ok Cap r -> content r = firstn (Z.to_nat Cap) l ->
  len_ r = Z.min Cap (Z.of_nat (length l)).
Proof.
  intros HN Hr E. pose proof (storage_content_length Cap r Hr) as L.
  rewrite E, length_firstn in L. unfold capacity_ok in HN. unfold unit_t in *. lia.
Qed.

(** X20.  [pad_left], [pad_right] and [center] put [width - length]
    fill units before the content, behind it, or half before (rounded down)
    and the rest behind, and keep what fits in the capacity: the result has
    length [min(Cap, max(width, length))].  A string already as long as
    [width] comes back with its content unchanged. *)
Theorem padding_fills_up_to_the_width Cap (s : fixed_string) (width : Z) (fill : unit_t) :
  capacity_ok Cap -> storage_ok Cap s -> 0 <= width < SizeT.modulus ->
  let total := width - len_ s in
  let l := algorithms.pad_left Cap s width fill in
  let r := algorithms.pad_right Cap s width fill in
  let c := algorithms.center Cap s width fill in
  (storage_ok Cap l /\ storage_ok Cap r /\ storage_ok Cap c) /\
  content l = firstn (Z.to_nat Cap) (repeat fill (Z.to_nat total) ++ content s) /\
  content r = firstn (Z.to_nat Cap) (content s ++ repeat fill (Z.to_nat total)) /\
  content c = firstn (Z.to_nat Cap)
                (repeat fill (Z.to_nat (total / 2)) ++ content s
                 ++ repeat fill (Z.to_nat (total - total / 2))) /\
  (len_ l = Z.min Cap (Z.max width (len_ s)) /\
   len_ r = Z.min Cap (Z.max width (len_ s)) /\
   len_ c = Z.min Cap (Z.max width (len_ s))) /\
  (width <= len_ s -> content l = content s /\ r = s /\ c = s).
Proof.
  intros HN Hs Hw total l r c.
  destruct (alg_pad_left_spec Cap s width fill HN Hs Hw) as (L1 & L2).
  destruct (alg_pad_right_spec Cap s width fill HN Hs Hw) as (R1 & R2).
  destruct (alg_center_spec Cap s width fill HN Hs Hw) as (C1 & C2).
  fold l in L1, L2. fold r in R1, R2. fold c in C1, C2. fold total in L2, R2, C2.
  pose proof (storage_content_length Cap s Hs) as Hcl.
  assert (Hlen : 0 <= len_ s <= Cap) by (destruct Hs as (_ & ? & _); assumption).
  split; [auto|]. split; [exact L2|]. split; [exact R2|]. split; [exact C2|]. split.
  - split; [|split].
    + rewrite (padded_length Cap l _ HN L1 L2), length_app, repeat_length.
      unfold unit_t in *. subst total. lia.
    + rewrite (padded_length Cap r _ HN R1 R2), length_app, repeat_length.
      unfold unit_t in *. subst total. lia.
    + rewrite (padded_length Cap c _ HN C1 C2), !length_app, !repeat_length.
      unfold unit_t in *. subst total.
      destruct (Z.le_gt_cases width (len_ s)) as [Hle|Hgt].
      * assert ((width - len_ s) / 2 <= 0) by (apply Z.div_le_upper_bound; lia).
        assert (- 1 <= (width - len_ s) / 2 -> width - len_ s - (width - len_ s) / 2 <= 0).
        { intros. pose proof (Z.mul_div_le (width - len_ s) 2). pose proof (Z.mod_pos_bound (width - len_ s) 2).
          pose proof (Z.div_mod (width - len_ s) 2). lia. }
        pose proof (Z.div_mod (width - len_ s) 2).
        pose proof (Z.mod_pos_bound (width - len_ s) 2). lia.
      * pose proof (Z.div_mod (width - len_ s) 2).
        pose proof (Z.mod_pos_bound (width - len_ s) 2). lia.
  - intros Hle. split; [|split].
    + rewrite L2. replace (Z.to_nat total) with O by (subst total; lia).
      cbn [repeat app]. apply firstn_all2. unfold unit_t in *. lia.
    + subst r. unfold algorithms.pad_right, Fstring.length.
      destruct (Z.ltb_spec (len_ s) width); [lia | reflexivity].
    + subst c. unfold algorithms.center, Fstring.length.
      destruct (Z.leb_spec width (len_ s)); [reflexivity | lia].
Qed.

Lemma padding_fills_up_to_the_width_witness :
  let s := Fstring.from_array 8 [52; 50; 0] in
  content (algorithms.pad_left 8 s 5 48) = [48; 48; 48; 52; 50] /\
  content (algorithms.pad_right 8 s 5 46) = [52; 50; 46; 46; 46] /\
  content (algorithms.center 8 s 5 42) = [42; 52; 50; 42; 42].
Proof.
  assert (HN : capacity_ok 8) by (unfold capacity_ok; rewrite npos_value; lia).
  assert (Hs : storage_ok 8 (Fstring.from_array 8 [52; 50; 0]))
    by (repeat split; vm_compute; congruence).
  assert (Hw : 0 <= 5 < SizeT.modulus) by (unfold SizeT.modulus; lia).
  cbv zeta. split; [|split].
  - destruct (padding_fills_up_to_the_width 8 _ 5 48 HN Hs Hw) as (_ & A & _). exact A.
  - destruct (padding_fills_up_to_the_width 8 _ 5 46 HN Hs Hw) as (_ & _ & A & _). exact A.
  - destruct (padding_fills_up_to_the_width 8 _ 5 42 HN Hs Hw) as (_ & _ & _ & A & _). exact A.
Defined.

(** X21.  Both overloads of [join(parts, delimiter)] return the
    contents of the parts in order with the delimiter (a unit, or the content
    of a delimiter string) between each two neighbours, nothing before the
    first or behind the last; the computed capacity always holds all of it. *)
Theorem join_puts_the_delimiter_between Cap DelimCap (parts : list fixed_string)
  (d : unit_t) (delim : fixed_string) :
  let N := Z.of_nat (length parts) in
  capacity_ok Cap -> capacity_ok (Cap * N + N) -> capacity_ok (Cap * N + DelimCap * N) ->
  Forall (storage_ok Cap) parts -> storage_ok DelimCap delim ->
  storage_ok (Cap * N + N) (algorithms.join_unit Cap parts d) /\
  content (algorithms.join_unit Cap parts d) = joined [d] (map content parts) /\
  storage_ok (Cap * N + DelimCap * N) (algorithms.join Cap DelimCap parts delim) /\
  content (algorithms.join Cap DelimCap parts delim)
  = joined (content delim) (map content parts).
Proof.
  intros N HN HC1 HC2 Hparts Hd.
  destruct (alg_join_spec Cap DelimCap parts d delim HN HC1 HC2 Hparts Hd)
    as ((A1 & A2) & (B1 & B2)).
  auto.
Qed.

Lemma join_puts_the_delimiter_between_witness :
  let parts := [Fstring.from_array 4 [97; 98; 0]; Fstring.from_array 4 [0];
                Fstring.from_array 4 [99; 0]] in
  content (algorithms.join_unit 4 parts 44) = [97; 98; 44; 44; 99] /\
  content (algorithms.join 4 2 parts (Fstring.from_array 2 [58; 58; 0]))
  = [97; 98; 58; 58; 58; 58; 99].
Proof.
  assert (HN : capacity_ok 4) by (unfold capacity_ok; rewrite npos_value; lia).
  assert (H1 : capacity_ok (4 * 3 + 3)) by (unfold capacity_ok; rewrite npos_value; lia).
  assert (H2 : capacity_ok (4 * 3 + 2 * 3)) by (unfold capacity_ok; rewrite npos_value; lia).
  assert (Hp : Forall (storage_ok 4)
                 [Fstring.from_array 4 [97; 98; 0]; Fstring.from_array 4 [0];
                  Fstring.from_array 4 [99; 0]])
    by (repeat constructor; vm_compute; congruence).
  assert (Hd : storage_ok 2 (Fstring.from_array 2 [58; 58; 0]))
    by (repeat split; vm_compute; congruence).
  destruct (join_puts_the_delimiter_between 4 2
              [Fstring.from_array 4 [97; 98; 0]; Fstring.from_array 4 [0];
                  Fstring.from_array 4 [99; 0]]
              44 _ HN H1 H2 Hp Hd) as (_ & A & _ & B).
  cbv zeta. split; [exact A | exact B].
Defined.

(** X22.  Splitting what [join(parts, d)] returned at the same
    unit [d] gives back the contents of the parts that are not empty, in
    order, the first [MaxParts] of them, provided no part contains [d]; the
    empty parts are lost. *)
Theorem split_undoes_join_up_to_empty_parts Cap MaxParts (parts : list fixed_string)
  (d : unit_t) :
  let N := Z.of_nat (length parts) in
  capacity_ok Cap -> capacity_ok (Cap * N + N) -> 0 <= MaxParts < SizeT.modulus ->
  Forall (storage_ok Cap) parts ->
  Forall (fun p => ~ In d (content p)) parts ->
  map content
    (algorithms.emitted
       (algorithms.split (Cap * N + N) MaxParts (algorithms.join_unit Cap parts d) d))
  = firstn (Z.to_nat MaxParts) (filter nonempty (map content parts)).
Proof.
  intros N HN HC HM Hparts Hfree.
  assert (HC2 : capacity_ok (Cap * N + 1 * N)) by (now rewrite Z.mul_1_l).
  assert (Hd : storage_ok 1 (value_init 1)) by (apply storage_value_init; lia).
  destruct (alg_join_spec Cap 1 parts d (value_init 1) HN HC HC2 Hparts Hd)
    as ((A1 & A2) & _).
  fold N in A1.
  destruct (split_refines_spec (Cap * N + N) MaxParts _ d HC A1 HM) as (S1 & _).
  rewrite S1. unfold algorithms.split_spec. rewrite A2. f_equal.
  apply fields_joined.
  clear - Hfree. induction Hfree as [|p ps Hp _ IH]; cbn [map]; constructor; auto.
  apply Forall_forall. intros c Hc E. subst c. contradiction.
Qed.

Lemma split_undoes_join_up_to_empty_parts_witness :
  let parts := [Fstring.from_array 4 [97; 98; 0]; Fstring.from_array 4 [0];
                Fstring.from_array 4 [99; 0]] in
  map content
    (algorithms.emitted
       (algorithms.split 15 16 (algorithms.join_unit 4 parts 44) 44))
  = [[97; 98]; [99]].
Proof.
  assert (HN : capacity_ok 4) by (unfold capacity_ok; rewrite npos_value; lia).
  assert (H1 : capacity_ok (4 * 3 + 3)) by (unfold capacity_ok; rewrite npos_value; lia).
  assert (HM : 0 <= 16 < SizeT.modulus) by (unfold SizeT.modulus; lia).
  assert (Hp : Forall (storage_ok 4)
                 [Fstring.from_array 4 [97; 98; 0]; Fstring.from_array 4 [0];
                  Fstring.from_array 4 [99; 0]])
    by (repeat constructor; vm_compute; congruence).
  assert (Hf : Forall (fun p => ~ In 44 (content p))
                 [Fstring.from_array 4 [97; 98; 0]; Fstring.from_array 4 [0];
                  Fstring.from_array 4 [99; 0]]).
  { repeat constructor; vm_compute; intuition congruence. }
  exact (split_undoes_join_up_to_empty_parts 4 16
           [Fstring.from_array 4 [97; 98; 0]; Fstring.from_array 4 [0];
                  Fstring.from_array 4 [99; 0]]
           44 HN H1 HM Hp Hf).
Defined.

Lemma length_repeated (c : list unit_t) n :
  Z.of_nat (length (repeated c n)) = Z.of_nat n * Z.of_nat (length c).
Proof.
  induction n as [|n IH]; [reflexivity|].
  rewrite repeated_snoc, length_app. unfold unit_t in *. lia.
Qed.

(** X23.  [repeat(str, times)] returns [times] copies of the
    content of [str] one behind the other, cut at the capacity [Cap * 16] of
    the result: its length is [min(Cap * 16, times * length)], so up to
    sixteen copies are never cut, and an empty [str] gives an empty result
    for any [times]. *)
Theorem repeat_concatenates_copies Cap (s : fixed_string) (times : Z) :
  capacity_ok Cap -> capacity_ok (Cap * 16) -> storage_ok Cap s -> 0 <= times ->
  let r := algorithms.repeat_string Cap s times in
  storage_ok (Cap * 16) r /\
  content r = firstn (Z.to_nat (Cap * 16)) (repeated (content s) (Z.to_nat times)) /\
  len_ r = Z.min (Cap * 16) (times * len_ s) /\
  (times <= 16 -> content r = repeated (content s) (Z.to_nat times)) /\
  (len_ s = 0 -> content r = []).
Proof.
  intros HN HC Hs Ht r.
  destruct (alg_repeat_spec Cap s times HN HC Hs Ht) as (R1 & R2). fold r in R1, R2.
  pose proof (storage_content_length Cap s Hs) as Hcl.
  assert (Hlen : 0 <= len_ s <= Cap) by (destruct Hs as (_ & ? & _); assumption).
  pose proof (length_repeated (content s) (Z.to_nat times)) as Hrl.
  rewrite Z2Nat.id, Hcl in Hrl by lia.
  split; [exact R1|]. split; [exact R2|]. split; [|split].
  - rewrite (padded_length (Cap * 16) r _ HC R1 R2). now rewrite Hrl.
  - intros H16. rewrite R2. apply firstn_all2.
    assert (times * len_ s <= 16 * Cap) by (apply Z.mul_le_mono_nonneg; lia).
    unfold capacity_ok in HC. unfold unit_t in *. lia.
  - intros E0. rewrite R2.
    assert (El : length (repeated (content s) (Z.to_nat times)) = O).
    { rewrite E0, Z.mul_0_r in Hrl. unfold unit_t in *. lia. }
    destruct (repeated (content s) (Z.to_nat times)); [apply firstn_nil | discriminate].
Qed.

Lemma repeat_concatenates_copies_witness :
  let s := Fstring.from_array 2 [97; 98; 0] in
  content (algorithms.repeat_string 2 s 3) = [97; 98; 97; 98; 97; 98].
Proof.
  assert (HN : capacity_ok 2) by (unfold capacity_ok; rewrite npos_value; lia).
  assert (HC : capacity_ok (2 * 16)) by (unfold capacity_ok; rewrite npos_value; lia).
  assert (Hs : storage_ok 2 (Fstring.from_array 2 [97; 98; 0]))
    by (repeat split; vm_compute; congruence).
  assert (Ht : 0 <= 3) by lia.
  assert (H16 : 3 <= 16) by lia.
  destruct (repeat_concatenates_copies 2 _ 3 HN HC Hs Ht) as (_ & _ & _ & A & _).
  exact (A H16).
Defined.

Lemma digit_of_decimal c :
  fs_detail.is_digit c = true -> conversions.digit_of c = c - 48 /\ 0 <= c - 48 < 10.
Proof.
  unfold fs_detail.is_digit, conversions.digit_of. intros H. rewrite H.
  apply andb_true_iff in H. destruct H as (H1 & H2).
  apply Z.leb_le in H1, H2. lia.
Qed.

(** X24.  [is_digit(str)] is true exactly when [str] is not empty
    and every unit of its content passes [detail::is_digit] (an empty string
    is rejected).  With ['0'..'9'] for [detail::is_digit], [parse_int] in
    base 10 then reads the whole of an accepted string: it returns the
    decimal value of the content, brought into the range of [IntT]. *)
Theorem is_digit_accepts_what_parse_int_reads T Cap (s : fixed_string) :
  0 < conversions.bits T -> storage_ok Cap s ->
  (algorithms.is_digit s = true <->
   content s <> [] /\ Forall (fun c => fs_detail.is_digit c = true) (content s)) /\
  (algorithms.is_digit s = true ->
   conversions.parse_int T s 10
   = conversions.convert T (horner 10 (map (fun c => c - 48) (content s)))).
Proof.
  intros Hw Hs. pose proof (alg_is_digit_spec Cap s Hs) as Hiff.
  split; [exact Hiff|]. intros Hd. apply Hiff in Hd. destruct Hd as (Hne & Hall).
  assert (Hpre : signed_prefix T (content s) = (false, content s)).
  { destruct (content s) as [|c l]; [contradiction|].
    inversion Hall as [|? ? Hc _]; subst.
    destruct (digit_of_decimal c Hc) as (E & B).
    destruct (digit_is_no_sign c) as (E1 & E2); [lia|].
    cbn [signed_prefix]. rewrite E1, E2. destruct (conversions.is_signed T); reflexivity. }
  rewrite (parse_int_digits T Cap s 10 Hw Hs).
  - rewrite Hpre. cbn [fst snd]. cbv zeta. do 2 f_equal.
    clear - Hall. induction Hall as [|c l Hc _ IH]; [reflexivity|].
    cbn [map]. rewrite IH. f_equal. now apply digit_of_decimal.
  - rewrite Hpre. cbn [snd]. clear - Hall.
    induction Hall as [|c l Hc _ IH]; constructor; auto.
    destruct (digit_of_decimal c Hc). lia.
Qed.

Lemma is_digit_accepts_what_parse_int_reads_witness :
  let s := Fstring.from_array 8 [49; 50; 51; 0] in
  algorithms.is_digit s = true /\
  conversions.parse_int (conversions.mk_int 32 true) s 10 = 123.
Proof.
  assert (Hw : 0 < conversions.bits (conversions.mk_int 32 true)) by (cbn; lia).
  assert (Hs : storage_ok 8 (Fstring.from_array 8 [49; 50; 51; 0]))
    by (repeat split; vm_compute; congruence).
  destruct (is_digit_accepts_what_parse_int_reads (conversions.mk_int 32 true) 8 _ Hw Hs)
    as (_ & A).
  cbv zeta. split; [reflexivity|]. rewrite A by reflexivity. reflexivity.
Defined.

(** *** The digit loops of the conversions *)

Lemma div_below_pow base fuel u :
  2 <= base -> 0 <= u < base ^ Z.of_nat (S fuel) -> 0 <= u / base < base ^ Z.of_nat fuel.
Proof.
  intros Hb Hu. split; [apply Z.div_pos; lia|].
  apply Z.div_lt_upper_bound; [lia|].
  rewrite Nat2Z.inj_succ, Z.pow_succ_r in Hu by lia. lia.
Qed.

Lemma pow_base_pos base n : 2 <= base -> 0 <= n -> 0 < base ^ n.
Proof. intros. apply Z.pow_pos_nonneg; lia. Qed.

(** The digits of [u] do not depend on the fuel once it is enough. *)
Lemma digits_le_enough base f1 : 2 <= base ->
  forall f2 u,
    0 <= u < base ^ Z.of_nat f1 -> 0 <= u < base ^ Z.of_nat f2 ->
    digits_le f1 base u = digits_le f2 base u.
Proof.
  intros Hb. induction f1 as [|f1 IH]; intros f2 u H1 H2.
  - cbn in H1. assert (u = 0) by lia. subst u. destruct f2; reflexivity.
  - destruct f2 as [|f2].
    + cbn in H2. assert (u = 0) by lia. subst u. reflexivity.
    + cbn [digits_le]. destruct (0 <? u); [|reflexivity].
      f_equal. apply IH; now apply div_below_pow.
Qed.

Lemma digits_le_pow_value base fuel u :
  2 <= base -> 0 <= u < base ^ Z.of_nat fuel ->
  horner base (rev (digits_le fuel base u)) = u /\
  Forall (fun d => 0 <= d < base) (digits_le fuel base u) /\
  (0 < u -> digits_le fuel base u <> []).
Proof.
  intros Hb. revert u; induction fuel as [|fuel IH]; intros u Hu.
  - cbn in Hu. assert (u = 0) by lia. subst u. cbn. repeat split; auto. lia.
  - cbn [digits_le]. destruct (Z.ltb_spec 0 u) as [Hpos|Hz].
    + destruct (IH (u / base) (div_below_pow base fuel u Hb Hu)) as (H1 & H2 & _).
      cbn [rev]. rewrite horner_snoc, H1. split; [|split].
      * pose proof (Z.div_mod u base). lia.
      * constructor; auto. apply Z.mod_pos_bound. lia.
      * discriminate.
    + assert (u = 0) by lia. subst u. cbn. repeat split; auto. lia.
Qed.

(** A loop [while (uvalue > 0)] that stores the unit [f (uvalue % base)] and
    divides: it ends with [uvalue == 0] within [fuel] iterations and leaves
    the digits, least significant first, in [buffer[pos, pos + n)]. *)
Lemma digit_loop_pow base (f : Z -> unit_t)
  (step : list unit_t * Z * Z -> list unit_t * Z * Z) fuel :
  2 <= base ->
  (forall buf pos u,
      step (buf, pos, u) = (set buf pos (f (u mod base)), SizeT.add pos 1, u / base)) ->
  forall (buf : list unit_t) pos u,
    0 <= pos -> pos + Z.of_nat fuel <= Z.of_nat (length buf) ->
    Z.of_nat (length buf) < SizeT.modulus ->
    0 <= u < base ^ Z.of_nat fuel ->
    exists buf',
      while_loop fuel (fun st : list unit_t * Z * Z => 0 <? snd st) step (buf, pos, u)
      = (buf', pos + Z.of_nat (length (digits_le fuel base u)), 0) /\
      length buf' = length buf /\
      (forall j, j < pos -> get buf' j = get buf j) /\
      units buf' pos (length (digits_le fuel base u)) = map f (digits_le fuel base u).
Proof.
  intros Hb Hstep. induction fuel as [|fuel IH]; intros buf pos u Hpos Hfit Hlen Hu.
  - cbn in Hu. assert (u = 0) by lia. subst u. exists buf. cbn.
    rewrite Z.add_0_r. auto.
  - cbn [while_loop digits_le snd]. destruct (Z.ltb_spec 0 u) as [Hup|Hz].
    + rewrite Hstep. rewrite size_add_small by lia.
      destruct (IH (set buf pos (f (u mod base))) (pos + 1) (u / base))
        as (buf' & E & Hl & Hkeep & Hunits);
        try (rewrite length_set); try lia.
      { now apply div_below_pow. }
      exists buf'. rewrite E. cbn [length]. rewrite length_set in Hl.
      split; [f_equal; f_equal; lia|]. split; [exact Hl|]. split.
      * intros j Hj. rewrite Hkeep by lia. apply get_set_other. lia.
      * rewrite units_S. cbn [map]. f_equal; [|exact Hunits].
        rewrite Hkeep by lia. apply get_set_same. lia.
    + assert (u = 0) by lia. subst u. exists buf. cbn.
      rewrite Z.add_0_r. auto.
Qed.

(** *** [digits10] *)

Lemma pow10_below_spec fuel : forall p bound, 0 < p ->
  0 <= conversions.pow10_below fuel p bound <= Z.of_nat fuel /\
  (conversions.pow10_below fuel p bound < Z.of_nat fuel ->
   bound < p * 10 ^ (conversions.pow10_below fuel p bound + 1)) /\
  (0 < conversions.pow10_below fuel p bound ->
   p * 10 ^ conversions.pow10_below fuel p bound <= bound).
Proof.
  induction fuel as [|fuel IH]; intros p bound Hp; cbn [conversions.pow10_below].
  - cbn. repeat split; lia.
  - destruct (Z.leb_spec (p * 10) bound) as [Hle|Hgt].
    + destruct (IH (p * 10) bound) as ((I1' & I2') & I3 & I4); [lia|].
      set (d := conversions.pow10_below fuel (p * 10) bound) in *.
      split; [lia|]. split.
      * intros H. replace (1 + d + 1) with (Z.succ (d + 1)) by lia.
        rewrite Z.pow_succ_r by lia.
        assert (bound < p * 10 * 10 ^ (d + 1)) by (apply I3; lia). lia.
      * intros _. replace (1 + d) with (Z.succ d) by lia. rewrite Z.pow_succ_r by lia.
        destruct (Z.eq_dec d 0) as [E|E].
        -- rewrite E. cbn. lia.
        -- assert (p * 10 * 10 ^ d <= bound) by (apply I4; lia). lia.
    + split; [lia|]. split; [intros _; cbn; lia | lia].
Qed.

Lemma max_value_below T :
  0 < conversions.digits T ->
  0 < conversions.max_value T < 2 ^ conversions.digits T /\
  2 ^ conversions.digits T <= 2 ^ conversions.bits T.
Proof.
  unfold conversions.digits, conversions.max_value. intros H.
  destruct (conversions.is_signed T).
  - assert (2 <= 2 ^ (conversions.bits T - 1)).
    { change 2 with (2 ^ 1) at 1. apply Z.pow_le_mono_r; lia. }
    split; [lia|]. apply Z.pow_le_mono_r; lia.
  - assert (2 <= 2 ^ conversions.bits T).
    { change 2 with (2 ^ 1) at 1. apply Z.pow_le_mono_r; lia. }
    split; lia.
Qed.

(** [digits10] is the largest [d] with [10 ^ d <= max()]. *)
Lemma digits10_spec T :
  0 < conversions.digits T ->
  0 <= conversions.digits10 T < conversions.digits T /\
  10 ^ conversions.digits10 T <= conversions.max_value T < 10 ^ (conversions.digits10 T + 1).
Proof.
  intros Hd. destruct (max_value_below T Hd) as ((Hm0 & Hm) & _).
  unfold conversions.digits10.
  destruct (pow10_below_spec (Z.to_nat (conversions.digits T)) 1 (conversions.max_value T))
    as ((D1 & D2) & D3 & D4); [lia|].
  set (d := conversions.pow10_below _ 1 _) in *.
  rewrite Z2Nat.id in * by lia.
  assert (Hlow : 10 ^ d <= conversions.max_value T).
  { destruct (Z.eq_dec d 0) as [E|E]; [rewrite E; cbn; lia|].
    assert (1 * 10 ^ d <= conversions.max_value T) by (apply D4; lia). lia. }
  assert (Hlt : d < conversions.digits T).
  { destruct (Z.eq_dec d (conversions.digits T)) as [E|E]; [|lia].
    exfalso. assert (2 ^ d <= 10 ^ d) by (apply Z.pow_le_mono_l; lia).
    rewrite E in *. lia. }
  split; [lia|]. split; [exact Hlow|].
  assert (conversions.max_value T < 1 * 10 ^ (d + 1)) by (apply D3; lia). lia.
Qed.

(** *** The decimal [to_fstring] *)

(** The magnitude the decimal [to_fstring] converts, for a representable
    value. *)
Lemma decimal_magnitude T x :
  1 < conversions.bits T -> conversions.representable T x -> x <> 0 ->
  (if conversions.is_signed T then
     if x <? 0
     then conversions.convert (conversions.make_unsigned T)
            (conversions.convert (conversions.make_unsigned T) (- (x + 1)) + 1)
     else conversions.convert (conversions.make_unsigned T) x
   else x) = Z.abs x /\
  (conversions.is_signed T && (x <? 0)) = (x <? 0) /\
  0 < Z.abs x <= conversions.max_value T + 1.
Proof.
  unfold conversions.representable, conversions.min_value, conversions.max_value,
    conversions.convert, conversions.make_unsigned.
  intros Hw Hx Hnz. cbn [conversions.is_signed conversions.bits].
  assert (Hw' : 0 < conversions.bits T) by lia.
  pose proof (pow2_double _ Hw'). pose proof (pow2_pos (conversions.bits T - 1)).
  destruct (conversions.is_signed T); cbn [andb].
  - destruct (Z.ltb_spec x 0).
    + rewrite (Z.mod_small (- (x + 1))) by lia. rewrite Z.mod_small by lia.
      repeat split; lia.
    + rewrite Z.mod_small by lia. repeat split; lia.
  - destruct (Z.ltb_spec x 0); repeat split; lia.
Qed.

Lemma decimal_step_generic buf pos u :
  conversions.decimal_step (buf, pos, u)
  = (set buf pos ((fun d => 48 + d) (u mod 10)), SizeT.add pos 1, u / 10).
Proof. reflexivity. Qed.

Lemma digit_unit_decimal (l : list Z) :
  Forall (fun d => 0 <= d < 10) l ->
  map (fun d => 48 + d) l = map conversions.digit_unit l.
Proof.
  intros H. apply map_ext_in. intros d Hd. rewrite Forall_forall in H.
  specialize (H d Hd). cbv beta in H. unfold conversions.digit_unit.
  destruct (Z.ltb_spec d 10); [reflexivity | lia].
Qed.

(** The decimal [to_fstring(value)] writes the text [to_fstring(value, 10)]
    is specified to write, into a string of capacity [digits10 + 3]. *)
Lemma to_fstring_decimal_spec T x :
  int_type_ok T -> 1 < conversions.bits T -> conversions.representable T x ->
  storage_ok (conversions.digits10 T + 3) (conversions.to_fstring_decimal T x) /\
  content (conversions.to_fstring_decimal T x) = to_string_spec T x 10.
Proof.
  intros (Hw & Hcap) Hw2 Hx. unfold conversions.to_fstring_decimal, to_string_spec.
  assert (Hdig : 0 < conversions.digits T)
    by (unfold conversions.digits; destruct (conversions.is_signed T); lia).
  destruct (digits10_spec T Hdig) as (Hd10 & _ & Hmax).
  assert (Hdb : conversions.digits T <= conversions.bits T)
    by (unfold conversions.digits; destruct (conversions.is_signed T); lia).
  cbv zeta.
  set (Cap := conversions.digits10 T + 3).
  assert (HN : capacity_ok Cap) by (unfold capacity_ok; subst Cap; lia).
  assert (Hd : storage_ok Cap (Fstring.default Cap))
    by (apply storage_value_init; subst Cap; lia).
  assert (Hdc : content (Fstring.default Cap) = []) by reflexivity.
  assert (Hdl : len_ (Fstring.default Cap) = 0) by reflexivity.
  destruct (Z.eqb_spec x 0) as [E0|E0].
  - destruct (fs_append_unit_spec Cap (Fstring.default Cap) 48 HN Hd) as (A1 & A2).
    { rewrite Hdl. subst Cap. lia. }
    split; [exact A1|]. now rewrite A2, Hdc.
  - destruct (decimal_magnitude T x Hw2 Hx E0) as (Eu & En & Hu).
    rewrite Eu, En.
    set (fuel := Z.to_nat Cap).
    assert (Hp1 : 10 ^ (conversions.digits10 T + 2) = 10 * 10 ^ (conversions.digits10 T + 1)).
    { replace (conversions.digits10 T + 2) with (Z.succ (conversions.digits10 T + 1)) by lia.
      apply Z.pow_succ_r. lia. }
    assert (Hp2 : 10 ^ Cap = 10 * 10 ^ (conversions.digits10 T + 2)).
    { subst Cap. replace (conversions.digits10 T + 3)
        with (Z.succ (conversions.digits10 T + 2)) by lia.
      apply Z.pow_succ_r. lia. }
    assert (Hpp : 0 < 10 ^ (conversions.digits10 T + 1)) by (apply pow_base_pos; lia).
    assert (Hu2 : 0 <= Z.abs x < 10 ^ Z.of_nat (Z.to_nat (conversions.digits10 T + 2)))
      by (rewrite Z2Nat.id by lia; lia).
    assert (Hu3 : 0 <= Z.abs x < 10 ^ Z.of_nat fuel)
      by (subst fuel; rewrite Z2Nat.id by lia; lia).
    assert (Hub : 0 <= Z.abs x < 10 ^ Z.of_nat (Z.to_nat (conversions.bits T))).
    { rewrite Z2Nat.id by lia. split; [lia|].
      destruct (max_value_below T Hdig) as ((_ & M1) & M2).
      assert (2 ^ conversions.bits T < 10 ^ conversions.bits T)
        by (apply Z.pow_lt_mono_l; lia).
      lia. }
    set (ds := digits_le fuel 10 (Z.abs x)).
    assert (Hds2 : ds = digits_le (Z.to_nat (conversions.digits10 T + 2)) 10 (Z.abs x))
      by (apply digits_le_enough; auto; lia).
    assert (Hdsb : digits_le (Z.to_nat (conversions.bits T)) 10 (Z.abs x) = ds)
      by (apply digits_le_enough; auto; lia).
    assert (Hn : (length ds <= Z.to_nat (conversions.digits10 T + 2))%nat)
      by (rewrite Hds2; apply digits_le_length).
    destruct (digits_le_pow_value 10 fuel (Z.abs x)) as (_ & Hall & _); [lia | exact Hu3 |].
    fold ds in Hall.
    destruct (digit_loop_pow 10 (fun d => 48 + d) conversions.decimal_step fuel
                ltac:(lia) decimal_step_generic (@repeat unit_t 0 (Z.to_nat Cap)) 0 (Z.abs x))
      as (buf' & E & Hl & _ & Hunits).
    + lia.
    + rewrite repeat_length. subst fuel. lia.
    + rewrite repeat_length. rewrite npos_value in Hcap. rewrite modulus_value.
      subst Cap. lia.
    + exact Hu3.
    + subst fuel. rewrite E. cbv beta iota. fold ds in Hunits |- *.
      replace (0 + Z.of_nat (length ds)) with (Z.of_nat (length ds)) by lia.
      rewrite Nat2Z.id.
      assert (Hres : storage_ok Cap
                       (if x <? 0 then Fstring.append_unit Cap (Fstring.default Cap) 45
                        else Fstring.default Cap) /\
                     content (if x <? 0 then Fstring.append_unit Cap (Fstring.default Cap) 45
                              else Fstring.default Cap)
                     = (if x <? 0 then [45] else []) /\
                     len_ (if x <? 0 then Fstring.append_unit Cap (Fstring.default Cap) 45
                           else Fstring.default Cap) <= 1).
      { destruct (x <? 0).
        - destruct (fs_append_unit_spec Cap (Fstring.default Cap) 45 HN Hd) as (A1 & A2).
          { rewrite Hdl. subst Cap. lia. }
          split; [exact A1|]. split; [now rewrite A2, Hdc|].
          rewrite fs_append_unit_len; auto; rewrite Hdl; subst Cap; lia.
        - split; [exact Hd|]. split; [exact Hdc|]. rewrite Hdl. lia. }
      destruct Hres as (R1 & R2 & R3).
      destruct (unwind_loop_spec Cap buf' (length ds) HN _ R1) as (U1 & U2).
      { subst Cap. lia. }
      split; [exact U1|].
      rewrite U2, R2, Hunits, Hdsb, map_rev. do 2 f_equal.
      apply (digit_unit_decimal ds Hall).
Qed.

(** Reading a text of the specification of [to_fstring] gives the value
    back. *)
Lemma parse_int_spec_inverts T x base :
  0 < conversions.bits T -> conversions.representable T x -> 2 <= base <= 36 ->
  parse_int_spec T base (to_string_spec T x base) = x.
Proof.
  intros Hw Hx Hb. unfold to_string_spec, parse_int_spec.
  destruct (Z.eqb_spec x 0) as [E0|E0].
  - subst x. rewrite signed_prefix_digit by (vm_compute; congruence).
    cbn [parse_list]. change (conversions.digit_of 48) with 0.
    destruct (Z.leb_spec base 0); try lia. cbn [Z.ltb orb Z.compare].
    now apply convert_zero.
  - destruct (to_fstring_magnitude T x Hw Hx E0) as (_ & En & Hu).
    destruct (parse_written_digits T base (Z.abs x) Hw Hb) as (Hvalid & Hparse & Hne);
      [lia|].
    destruct (Z.ltb_spec x 0) as [Hneg|Hpos].
    + assert (Hsg : conversions.is_signed T = true).
      { destruct (conversions.is_signed T); [reflexivity|]. cbn [andb] in En.
        destruct (Z.ltb_spec x 0); [discriminate | lia]. }
      cbn [app]. unfold signed_prefix. rewrite Hsg. cbn [Z.eqb Pos.eqb].
      rewrite Hparse, convert_neg by auto.
      replace (- Z.abs x) with x by lia. now apply convert_representable.
    + cbn [app].
      destruct (map conversions.digit_unit
                  (rev (digits_le (Z.to_nat (conversions.bits T)) base (Z.abs x))))
        as [|ch l] eqn:El.
      * exfalso. apply Hne; [lia | reflexivity].
      * rewrite signed_prefix_digit by (inversion Hvalid; subst; lia).
        rewrite Hparse. replace (Z.abs x) with x by lia.
        now apply convert_representable.
Qed.

Lemma digits_le_zero fuel base : digits_le fuel base 0 = [].
Proof. destruct fuel; reflexivity. Qed.

Lemma digits_le_leading base fuel : 2 <= base -> forall u,
  0 < u < base ^ Z.of_nat fuel -> last (digits_le fuel base u) 0 <> 0.
Proof.
  intros Hb. induction fuel as [|fuel IH]; intros u Hu.
  - cbn in Hu. lia.
  - cbn [digits_le]. destruct (Z.ltb_spec 0 u); [|lia].
    destruct (Z.eq_dec (u / base) 0) as [E|E].
    + rewrite E, digits_le_zero. cbn [last].
      apply Z.div_small_iff in E; [|lia]. rewrite Z.mod_small by lia. lia.
    + assert (Hq : 0 < u / base < base ^ Z.of_nat fuel).
      { pose proof (div_below_pow base fuel u Hb ltac:(lia)). lia. }
      specialize (IH _ Hq).
      destruct (digits_le fuel base (u / base)) as [|d ds] eqn:Ed.
      * exfalso. destruct (digits_le_pow_value base fuel (u / base) Hb ltac:(lia))
          as (_ & _ & Hne). apply Hne; [lia | exact Ed].
      * exact IH.
Qed.

(** X25.  For every integer type of at least two bits and every value
    [x] it represents, its minimum included, the decimal [to_fstring(x)]
    writes a ['-'] for a negative value and then the decimal digits of the
    magnitude, most significant first and without a leading zero (["0"] for
    zero); the text always fits the capacity [digits10 + 3].  [parse_int] in
    base 10 reads [x] back from it, for every [x] whose magnitude the type
    represents, so that the digits are accumulated without overflow. *)
Theorem decimal_to_fstring_round_trip T (x : Z) :
  int_type_ok T -> 1 < conversions.bits T -> conversions.representable T x ->
  let ds := digits_le (Z.to_nat (conversions.bits T)) 10 (Z.abs x) in
  storage_ok (conversions.digits10 T + 3) (conversions.to_fstring_decimal T x) /\
  content (conversions.to_fstring_decimal T x)
  = (if x =? 0 then [48]
     else (if x <? 0 then [45] else []) ++ map (fun d => 48 + d) (rev ds)) /\
  (horner 10 (rev ds) = Z.abs x /\ Forall (fun d => 0 <= d < 10) ds /\
   (x <> 0 -> last ds 0 <> 0)) /\
  (- conversions.max_value T <= x ->
   conversions.parse_int T (conversions.to_fstring_decimal T x) 10 = x).
Proof.
  intros HT Hw2 Hx ds. assert (Hw : 0 < conversions.bits T) by apply HT.
  destruct (to_fstring_decimal_spec T x HT Hw2 Hx) as (S1 & C1).
  assert (Hu : 0 <= Z.abs x < 10 ^ Z.of_nat (Z.to_nat (conversions.bits T))).
  { rewrite Z2Nat.id by lia. split; [lia|].
    assert (2 ^ conversions.bits T < 10 ^ conversions.bits T)
      by (apply Z.pow_lt_mono_l; lia).
    unfold conversions.representable, conversions.min_value, conversions.max_value in Hx.
    pose proof (pow2_double _ Hw). pose proof (pow2_pos (conversions.bits T - 1)).
    destruct (conversions.is_signed T); lia. }
  destruct (digits_le_pow_value 10 _ (Z.abs x) ltac:(lia) Hu) as (Hval & Hall & _).
  fold ds in Hval, Hall.
  split; [exact S1|]. split; [|split].
  - rewrite C1. unfold to_string_spec. destruct (x =? 0) eqn:E0; [reflexivity|].
    f_equal. symmetry. apply digit_unit_decimal. now apply Forall_rev.
  - split; [exact Hval|]. split; [exact Hall|].
    intros Hnz. apply digits_le_leading; lia.
  - intros _. rewrite (parse_int_refines_spec T _ _ 10 Hw S1), C1.
    apply parse_int_spec_inverts; auto. lia.
Qed.

Lemma decimal_to_fstring_round_trip_witness :
  content (conversions.to_fstring_decimal conversions.int_t (-2147483648))
  = [45; 50; 49; 52; 55; 52; 56; 51; 54; 52; 56] /\
  conversions.parse_int conversions.int_t
    (conversions.to_fstring_decimal conversions.int_t (-2147483647)) 10 = -2147483647.
Proof.
  assert (HT : int_type_ok conversions.int_t)
    by (unfold int_type_ok; rewrite npos_value; simpl; lia).
  assert (Hw : 1 < conversions.bits conversions.int_t) by (simpl; lia).
  assert (Hx : conversions.representable conversions.int_t (-2147483648))
    by (vm_compute; split; congruence).
  assert (Hy : conversions.representable conversions.int_t (-2147483647))
    by (vm_compute; split; congruence).
  destruct (decimal_to_fstring_round_trip conversions.int_t (-2147483648) HT Hw Hx)
    as (_ & A & _).
  destruct (decimal_to_fstring_round_trip conversions.int_t (-2147483647) HT Hw Hy)
    as (_ & _ & _ & B).
  split; [exact A | apply B; vm_compute; congruence].
Defined.

(** *** [format_int] and [builder] *)

Lemma format_int_spec T x width fill :
  int_type_ok T -> 1 < conversions.bits T -> conversions.representable T x ->
  capacity_ok (conversions.digits10 T + 32) -> 0 <= width < SizeT.modulus ->
  let text := content (conversions.to_fstring_decimal T x) in
  storage_ok (conversions.digits10 T + 32) (conversions.format_int T x width fill) /\
  content (conversions.format_int T x width fill)
  = firstn (Z.to_nat (conversions.digits10 T + 32))
      (repeat fill (Z.to_nat (width - Z.of_nat (length text))) ++ text).
Proof.
  intros HT Hw2 Hx HC Hwd text.
  destruct (to_fstring_decimal_spec T x HT Hw2 Hx) as (S1 & _).
  pose proof (storage_content_length _ _ S1) as Hcl. fold text in Hcl.
  assert (Hlen : 0 <= len_ (conversions.to_fstring_decimal T x)
                 <= conversions.digits10 T + 3) by (destruct S1 as (_ & ? & _); assumption).
  unfold conversions.format_int, Fstring.length. cbv zeta.
  set (C := conversions.digits10 T + 32) in *.
  set (str := conversions.to_fstring_decimal T x) in *.
  assert (H0 : storage_ok C (Fstring.default C)) by (apply storage_value_init; size_lia).
  assert (Hpad : storage_ok C
                   (if len_ str <? width
                    then Fstring.append_fill C (Fstring.default C)
                           (SizeT.sub width (len_ str)) fill
                    else Fstring.default C) /\
                 content
                   (if len_ str <? width
                    then Fstring.append_fill C (Fstring.default C)
                           (SizeT.sub width (len_ str)) fill
                    else Fstring.default C)
                 = firstn (Z.to_nat C) (repeat fill (Z.to_nat (width - len_ str)))).
  { destruct (Z.ltb_spec (len_ str) width) as [Hlt|Hge].
    - rewrite size_sub_small by size_lia.
      destruct (fs_append_fill_firstn C (Fstring.default C) (width - len_ str) fill)
        as (F1 & F2); auto; try lia.
    - split; [exact H0|]. replace (Z.to_nat (width - len_ str)) with O by lia.
      cbn [repeat]. rewrite firstn_nil. reflexivity. }
  destruct Hpad as (P1 & P2).
  destruct (fs_append_string_firstn C _ _ str HC P1 S1) as (A1 & A2).
  split; [exact A1|]. rewrite A2, P2, firstn_app_firstn, Hcl. reflexivity.
Qed.

(** X26.  [format_int(value, width, fill)] puts [width - length]
    fill units before the decimal text of the value and keeps the first
    [digits10 + 32] units: up to that width the text is complete and
    right-aligned, a text longer than [width] is not shortened, and from
    [width >= digits10 + 32 + length] on the result is fill units only. *)
Theorem format_int_right_aligns T (x width : Z) (fill : unit_t) :
  int_type_ok T -> 1 < conversions.bits T -> conversions.representable T x ->
  capacity_ok (conversions.digits10 T + 32) -> 0 <= width < SizeT.modulus ->
  let text := content (conversions.to_fstring_decimal T x) in
  let n := Z.of_nat (length text) in
  let r := conversions.format_int T x width fill in
  content r = firstn (Z.to_nat (conversions.digits10 T + 32))
                (repeat fill (Z.to_nat (width - n)) ++ text) /\
  (width <= conversions.digits10 T + 32 ->
   content r = repeat fill (Z.to_nat (width - n)) ++ text /\ len_ r = Z.max width n) /\
  (conversions.digits10 T + 32 + n <= width ->
   content r = repeat fill (Z.to_nat (conversions.digits10 T + 32))).
Proof.
  intros HT Hw2 Hx HC Hwd text n r.
  destruct (format_int_spec T x width fill HT Hw2 Hx HC Hwd) as (R1 & R2).
  fold text in R2. fold n in R2. fold r in R1, R2.
  destruct (to_fstring_decimal_spec T x HT Hw2 Hx) as (S1 & _).
  pose proof (storage_content_length _ _ S1) as Hcl. fold text in Hcl. fold n in Hcl.
  assert (Hlen : 0 <= n <= conversions.digits10 T + 3)
    by (rewrite Hcl; destruct S1 as (_ & ? & _); assumption).
  assert (Hd : 0 <= conversions.digits10 T).
  { apply digits10_spec. unfold conversions.digits.
    destruct (conversions.is_signed T); lia. }
  split; [exact R2|]. split.
  - intros Hfit.
    assert (E : content r = repeat fill (Z.to_nat (width - n)) ++ text).
    { rewrite R2. apply firstn_all2. rewrite length_app, repeat_length.
      subst n. unfold unit_t in *. lia. }
    split; [exact E|].
    pose proof (storage_content_length _ _ R1) as Hrl.
    rewrite E, length_app, repeat_length in Hrl. subst n. unfold unit_t in *. lia.
  - intros Hwide. rewrite R2, firstn_app_full, firstn_repeat_min.
    + f_equal. lia.
    + rewrite repeat_length. lia.
Qed.

Lemma format_int_right_aligns_witness :
  content (conversions.format_int conversions.int_t (-42) 6 48)
  = [48; 48; 48; 45; 52; 50].
Proof.
  assert (HT : int_type_ok conversions.int_t)
    by (unfold int_type_ok; rewrite npos_value; simpl; lia).
  assert (Hw : 1 < conversions.bits conversions.int_t) by (simpl; lia).
  assert (Hx : conversions.representable conversions.int_t (-42))
    by (vm_compute; split; congruence).
  assert (HC : capacity_ok (conversions.digits10 conversions.int_t + 32))
    by (unfold capacity_ok; rewrite npos_value; vm_compute; split; congruence).
  assert (Hwd : 0 <= 6 < SizeT.modulus) by (unfold SizeT.modulus; lia).
  destruct (format_int_right_aligns conversions.int_t (-42) 6 48 HT Hw Hx HC Hwd)
    as (A & _).
  exact A.
Defined.

Lemma builder_capacity (rest : list (Z * fixed_string)) : forall c,
  0 <= c -> Forall (fun r => 0 <= fst r) rest ->
  c + fold_right Z.add 0 (map fst rest) < SizeT.modulus ->
  fold_left (fun c r => SizeT.add c (fst r)) rest c
  = c + fold_right Z.add 0 (map fst rest).
Proof.
  induction rest as [|r rest IH]; intros c Hc Hall Hsum;
    cbn [fold_left map fold_right] in *.
  - lia.
  - inversion Hall as [|? ? Hr Hrest]; subst.
    assert (0 <= fold_right Z.add 0 (map fst rest)).
    { clear - Hrest. induction Hrest; cbn [map fold_right]; lia. }
    rewrite size_add_small by lia. rewrite IH; auto; lia.
Qed.

Lemma builder_loop C (rest : list (Z * fixed_string)) : capacity_ok C ->
  forall result,
    storage_ok C result ->
    Forall (fun r => storage_ok (fst r) (snd r)) rest ->
    len_ result + fold_right Z.add 0 (map fst rest) <= C ->
    storage_ok C
      (fold_left
         (fun result r =>
            Fstring.append C result (Some (data_ (snd r))) (Fstring.length (snd r)))
         rest result) /\
    content
      (fold_left
         (fun result r =>
            Fstring.append C result (Some (data_ (snd r))) (Fstring.length (snd r)))
         rest result)
    = content result ++ concat (map (fun r => content (snd r)) rest).
Proof.
  intros HC. induction rest as [|r rest IH]; intros result Hres Hall Hfit;
    cbn [fold_left map concat fold_right] in *.
  - split; [exact Hres|]. now rewrite app_nil_r.
  - inversion Hall as [|? ? Hr Hrest]; subst.
    destruct (fs_append_string_firstn C (fst r) result (snd r) HC Hres Hr) as (A1 & A2).
    pose proof (storage_content_length _ _ Hres) as L1.
    pose proof (storage_content_length _ _ Hr) as L2.
    assert (Hrl : 0 <= len_ (snd r) <= fst r) by (destruct Hr as (_ & ? & _); assumption).
    assert (Hsum : 0 <= fold_right Z.add 0 (map fst rest)).
    { clear - Hrest. induction Hrest as [|q ? Hq ? ?]; cbn [map fold_right]; [lia|].
      destruct Hq as (_ & ? & _). unfold I2 in *. lia. }
    assert (E : content (Fstring.append C result (Some (data_ (snd r))) (len_ (snd r)))
                = content result ++ content (snd r)).
    { rewrite A2. apply firstn_all2. rewrite length_app. unfold unit_t in *. lia. }
    unfold Fstring.length in *.
    destruct (IH _ A1 Hrest) as (I1' & I2').
    { pose proof (storage_content_length _ _ A1) as L3.
      rewrite E, length_app in L3. unfold unit_t in *. lia. }
    split; [exact I1'|]. rewrite I2', E, app_assoc. reflexivity.
Qed.

(** X27.  [builder{}(first, rest...)] returns the contents of its
    arguments one behind the other, in the order given; the capacity of the
    result is the sum of the capacities of the arguments, so nothing is
    dropped. *)
Theorem builder_concatenates_every_argument (first : Z * fixed_string)
  (rest : list (Z * fixed_string)) :
  let total := fst first + fold_right Z.add 0 (map fst rest) in
  capacity_ok total ->
  storage_ok (fst first) (snd first) ->
  Forall (fun r => storage_ok (fst r) (snd r)) rest ->
  storage_ok total (conversions.builder first rest) /\
  content (conversions.builder first rest)
  = content (snd first) ++ concat (map (fun r => content (snd r)) rest) /\
  len_ (conversions.builder first rest)
  = len_ (snd first) + fold_right Z.add 0 (map (fun r => len_ (snd r)) rest).
Proof.
  intros total HC Hfirst Hrest.
  assert (Hcaps : Forall (fun r : Z * fixed_string => 0 <= fst r) rest).
  { eapply Forall_impl; [|exact Hrest]. intros r (_ & ? & _). unfold I2 in *. lia. }
  assert (Hf0 : 0 <= len_ (snd first) <= fst first)
    by (destruct Hfirst as (_ & ? & _); assumption).
  assert (Hsum : 0 <= fold_right Z.add 0 (map fst rest)).
  { clear - Hcaps. induction Hcaps; cbn [map fold_right]; lia. }
  unfold conversions.builder. cbv zeta.
  rewrite builder_capacity; auto; try lia; [|unfold capacity_ok in HC; size_lia].
  fold total.
  assert (Hinit : storage_ok total
                    (Fstring.from_units total (Some (data_ (snd first)))
                       (Fstring.length (snd first))) /\
                  content (Fstring.from_units total (Some (data_ (snd first)))
                             (Fstring.length (snd first)))
                  = content (snd first)).
  { unfold Fstring.from_units, Fstring.length.
    destruct (fs_store_spec total (Fstring.default total) (data_ (snd first))
                (len_ (snd first))) as (L & Ext & T1 & Cn); auto.
    - apply extent_value_init. subst total. lia.
    - lia.
    - destruct Hfirst as (? & ? & _). size_lia.
    - assert (Em : Z.min (len_ (snd first)) total = len_ (snd first)) by (subst total; lia).
      rewrite Em in *. split; [|exact Cn].
      split; [exact Ext|]. split; [|exact T1]. unfold I2. rewrite L. subst total. lia. }
  destruct Hinit as (I1' & I2').
  pose proof (storage_content_length _ _ I1') as L0.
  pose proof (storage_content_length _ _ Hfirst) as L1.
  rewrite I2' in L0.
  destruct (builder_loop total rest HC _ I1' Hrest) as (B1 & B2).
  { subst total. lia. }
  split; [exact B1|]. split; [now rewrite B2, I2'|].
  pose proof (storage_content_length _ _ B1) as L2.
  rewrite B2, I2', length_app in L2.
  assert (Z.of_nat (length (concat (map (fun r => content (snd r)) rest)))
          = fold_right Z.add 0 (map (fun r => len_ (snd r)) rest)).
  { clear - Hrest. induction Hrest as [|q ? Hq ? IH]; cbn [map concat fold_right]; [reflexivity|].
    rewrite length_app, Nat2Z.inj_add, IH, (storage_content_length _ _ Hq). reflexivity. }
  unfold unit_t in *. lia.
Qed.

Lemma builder_concatenates_every_argument_witness :
  content (conversions.builder (2, Fstring.from_array 2 [97; 98; 0])
             [(3, Fstring.from_array 3 [99; 0]); (1, Fstring.from_array 1 [100; 0])])
  = [97; 98; 99; 100].
Proof.
  assert (HC : capacity_ok (2 + fold_right Z.add 0 (map fst
                 [(3, Fstring.from_array 3 [99; 0]); (1, Fstring.from_array 1 [100; 0])])))
    by (unfold capacity_ok; rewrite npos_value; cbn; lia).
  assert (Hf : storage_ok 2 (Fstring.from_array 2 [97; 98; 0]))
    by (repeat split; vm_compute; congruence).
  assert (Hr : Forall (fun r => storage_ok (fst r) (snd r))
                 [(3, Fstring.from_array 3 [99; 0]); (1, Fstring.from_array 1 [100; 0])])
    by (repeat constructor; vm_compute; congruence).
  destruct (builder_concatenates_every_argument (2, Fstring.from_array 2 [97; 98; 0])
              [(3, Fstring.from_array 3 [99; 0]); (1, Fstring.from_array 1 [100; 0])]
              HC Hf Hr) as (_ & A & _).
  exact A.
Defined.

(** *** [to_hex] and [to_binary] *)

(** The loop [do { ... } while (uvalue > 0)] of [to_hex] and [to_binary]: at
    least one digit is stored, and then the digits of a positive value. *)
Lemma do_while_digits base (f : Z -> unit_t)
  (step : list unit_t * Z * Z -> list unit_t * Z * Z) fuel :
  2 <= base ->
  (forall buf pos u,
      step (buf, pos, u) = (set buf pos (f (u mod base)), SizeT.add pos 1, u / base)) ->
  forall (buf : list unit_t) u,
    1 + Z.of_nat fuel <= Z.of_nat (length buf) ->
    Z.of_nat (length buf) < SizeT.modulus ->
    0 <= u < base ^ Z.of_nat (S fuel) ->
    exists buf',
      conversions.do_while fuel (fun st : list unit_t * Z * Z => 0 <? snd st) step (buf, 0, u)
      = (buf', Z.of_nat (length (digits_of base (S fuel) u)), 0) /\
      length buf' = length buf /\
      units buf' 0 (length (digits_of base (S fuel) u)) = map f (digits_of base (S fuel) u).
Proof.
  intros Hb Hstep buf u Hfit Hlen Hu. unfold conversions.do_while.
  rewrite Hstep. rewrite size_add_small by lia. cbn [Z.add].
  destruct (digit_loop_pow base f step fuel Hb Hstep (set buf 0 (f (u mod base))) 1 (u / base))
    as (buf' & E & Hl & Hkeep & Hunits);
    try (rewrite length_set); try lia.
  { now apply div_below_pow. }
  rewrite length_set in Hl.
  assert (H0 : get buf' 0 = f (u mod base)).
  { rewrite Hkeep by lia. apply get_set_same. lia. }
  exists buf'. rewrite E. unfold digits_of.
  destruct (Z.eqb_spec u 0) as [E0|E0].
  - subst u. rewrite Z.div_0_l in * by lia. rewrite digits_le_zero in *.
    cbn [length]. split; [reflexivity|]. split; [exact Hl|].
    rewrite units_S, H0. rewrite Z.mod_0_l by lia. reflexivity.
  - cbn [digits_le]. destruct (Z.ltb_spec 0 u); [|lia]. cbn [length].
    split; [f_equal; f_equal; lia|]. split; [exact Hl|].
    rewrite units_S. cbn [map]. f_equal; [exact H0 | exact Hunits].
Qed.

Lemma digits_of_value base n u :
  2 <= base -> 0 <= u < base ^ Z.of_nat n ->
  horner base (rev (digits_of base n u)) = u /\
  Forall (fun d => 0 <= d < base) (digits_of base n u) /\
  digits_of base n u <> [] /\
  (0 < u -> (length (digits_of base n u) <= n)%nat).
Proof.
  intros Hb Hu. unfold digits_of. destruct (Z.eqb_spec u 0) as [E0|E0].
  - subst u. split; [reflexivity|]. split; [constructor; [lia | constructor]|].
    split; [discriminate | lia].
  - destruct (digits_le_pow_value base n u Hb Hu) as (H1 & H2 & H3).
    split; [exact H1|]. split; [exact H2|]. split; [apply H3; lia|].
    intros _. apply digits_le_length.
Qed.

Lemma digits_of_enough base n m u :
  2 <= base -> 0 <= u < base ^ Z.of_nat n -> 0 <= u < base ^ Z.of_nat m ->
  digits_of base n u = digits_of base m u.
Proof.
  intros Hb Hn Hm. unfold digits_of. destruct (u =? 0); [reflexivity|].
  now apply digits_le_enough.
Qed.

(** The string a prefix literal ["0" p] starts. *)
Lemma prefix_literal Cap p :
  capacity_ok Cap -> 2 <= Cap -> p <> 0 ->
  storage_ok Cap (Fstring.from_c_str Cap (Some [48; p; 0])) /\
  content (Fstring.from_c_str Cap (Some [48; p; 0])) = [48; p] /\
  len_ (Fstring.from_c_str Cap (Some [48; p; 0])) = 2.
Proof.
  intros HC H2 Hp. unfold Fstring.from_c_str.
  assert (El : fs_detail.length [48; p; 0] = 2).
  { unfold fs_detail.length, detail.strlen. cbn [length detail.strlen_from].
    change (get [48; p; 0] 0) with 48. cbn [Z.eqb Z.add].
    change (get [48; p; 0] 1) with p.
    destruct (Z.eqb_spec p 0); [contradiction | reflexivity]. }
  rewrite El.
  destruct (fs_store_spec Cap (Fstring.default Cap) [48; p; 0] 2) as (L & Ext & T1 & Cn);
    auto.
  - apply extent_value_init. unfold capacity_ok in HC. lia.
  - lia.
  - cbn [length]. lia.
  - replace (Z.min 2 Cap) with 2 in * by lia.
    split; [|split; [exact Cn | exact L]].
    split; [exact Ext|]. split; [|exact T1].
    unfold I2. unfold unit_t in *. lia.
Qed.

(** The digits in the buffer are appended, most significant first, behind
    the prefix. *)
Lemma prefixed_unwind Cap p (buf : list unit_t) (f : Z -> unit_t) (ds : list Z) :
  capacity_ok Cap -> p <> 0 -> 2 + Z.of_nat (length ds) <= Cap ->
  units buf 0 (length ds) = map f ds ->
  storage_ok Cap
    (fst (while_loop (length ds) (fun st : fixed_string * Z => 0 <? snd st)
            (conversions.unwind_step Cap buf)
            (Fstring.from_c_str Cap (Some [48; p; 0]), Z.of_nat (length ds)))) /\
  content
    (fst (while_loop (length ds) (fun st : fixed_string * Z => 0 <? snd st)
            (conversions.unwind_step Cap buf)
            (Fstring.from_c_str Cap (Some [48; p; 0]), Z.of_nat (length ds))))
  = [48; p] ++ map f (rev ds).
Proof.
  intros HC Hp Hfit Hunits.
  destruct (prefix_literal Cap p HC ltac:(lia) Hp) as (P1 & P2 & P3).
  destruct (unwind_loop_spec Cap buf (length ds) HC _ P1) as (U1 & U2); [lia|].
  split; [exact U1|]. rewrite U2, P2, Hunits, map_rev. reflexivity.
Qed.

(** Reading a prefixed text with [parse_int]: the prefix stops it at once;
    behind the prefix it reads the digits. *)
Lemma prefixed_parse T Cap base (f : Z -> unit_t) p (r : fixed_string) (ds : list Z) u :
  0 < conversions.bits T -> capacity_ok Cap -> storage_ok Cap r ->
  content r = [48; p] ++ map f (rev ds) ->
  2 <= base -> Forall (fun d => 0 <= d < base) ds ->
  (forall d, 0 <= d < base -> conversions.digit_of (f d) = d) ->
  horner base (rev ds) = u -> ds <> [] ->
  base <= conversions.digit_of p ->
  content (Fstring.substr Cap r 2 SizeT.npos) = map f (rev ds) /\
  conversions.parse_int T (Fstring.substr Cap r 2 SizeT.npos) base
  = conversions.convert T u /\
  conversions.parse_int T r base = 0.
Proof.
  intros Hw HC Hr Hc Hb Hds Hf Hval Hne Hp.
  destruct (fs_substr_spec Cap Cap r 2 SizeT.npos HC HC Hr) as (S1 & S2);
    [lia | rewrite npos_value; lia | now left |].
  pose proof (storage_content_length _ _ Hr) as Hcl.
  assert (Hlen : 0 <= len_ r <= Cap) by (destruct Hr as (_ & ? & _); assumption).
  assert (Hseg : segment (content r) 2 (Z.min SizeT.npos Cap) = map f (rev ds)).
  { unfold segment. rewrite Hc. change (Z.to_nat 2) with 2%nat. cbn [app skipn].
    apply firstn_all2. rewrite Hc in Hcl. cbn [app length] in Hcl.
    unfold capacity_ok in HC. unfold unit_t in *. lia. }
  rewrite Hseg in S2.
  assert (Hdr : Forall (fun d => 0 <= d < base) (rev ds)) by now apply Forall_rev.
  assert (Hvalid : Forall (fun ch => 0 <= conversions.digit_of ch < base) (map f (rev ds))).
  { apply Forall_map. eapply Forall_impl; [|exact Hdr].
    intros d Hd. cbv beta in Hd |- *. rewrite Hf; lia. }
  assert (Hback : map conversions.digit_of (map f (rev ds)) = rev ds).
  { rewrite map_map. rewrite <- (map_id (rev ds)) at 2. apply map_ext_in.
    intros d Hin. rewrite Forall_forall in Hdr. apply Hf. now apply Hdr. }
  split; [exact S2|]. split.
  - rewrite (parse_int_refines_spec T Cap _ base Hw S1), S2. unfold parse_int_spec.
    destruct (map f (rev ds)) as [|ch l] eqn:El.
    { exfalso. apply map_eq_nil in El. apply (f_equal (@rev Z)) in El.
      rewrite rev_involutive in El. now apply Hne. }
    rewrite signed_prefix_digit by (inversion Hvalid; subst; lia).
    rewrite <- (convert_zero T Hw) at 1.
    rewrite (parse_list_valid T base (ch :: l) 0 Hw Hvalid), Hback.
    unfold horner in Hval. now rewrite Hval.
  - rewrite (parse_int_refines_spec T Cap r base Hw Hr), Hc. unfold parse_int_spec.
    cbn [app]. rewrite signed_prefix_digit by (vm_compute; congruence).
    cbn [parse_list]. change (conversions.digit_of 48) with 0.
    destruct (Z.leb_spec base 0); [lia|]. cbn [Z.ltb Z.compare orb].
    destruct (Z.leb_spec base (conversions.digit_of p)); [|lia].
    rewrite orb_true_r. now apply convert_zero.
Qed.

Lemma hex_step_generic uppercase buf pos u :
  conversions.hex_step uppercase (buf, pos, u)
  = (set buf pos (hex_unit uppercase (u mod 16)), SizeT.add pos 1, u / 16).
Proof.
  unfold conversions.hex_step, hex_unit. now destruct (u mod 16 <? 10).
Qed.

Lemma binary_step_generic buf pos u :
  conversions.binary_step (buf, pos, u)
  = (set buf pos ((fun d => 48 + d) (u mod 2)), SizeT.add pos 1, u / 2).
Proof. reflexivity. Qed.

Lemma digit_of_hex_unit uppercase d :
  0 <= d < 16 -> conversions.digit_of (hex_unit uppercase d) = d.
Proof.
  intros H. unfold hex_unit, conversions.digit_of.
  destruct (Z.ltb_spec d 10).
  - destruct (Z.leb_spec 48 (48 + d)); destruct (Z.leb_spec (48 + d) 57);
      cbn [andb]; lia.
  - destruct uppercase.
    + destruct (Z.leb_spec 48 (65 + (d - 10))); destruct (Z.leb_spec (65 + (d - 10)) 57);
        destruct (Z.leb_spec 97 (65 + (d - 10)));
        destruct (Z.leb_spec (65 + (d - 10)) 122);
        destruct (Z.leb_spec 65 (65 + (d - 10)));
        destruct (Z.leb_spec (65 + (d - 10)) 90); cbn [andb]; lia.
    + destruct (Z.leb_spec 48 (97 + (d - 10))); destruct (Z.leb_spec (97 + (d - 10)) 57);
        destruct (Z.leb_spec 97 (97 + (d - 10)));
        destruct (Z.leb_spec (97 + (d - 10)) 122); cbn [andb]; lia.
Qed.

Lemma digit_of_binary d : 0 <= d < 2 -> conversions.digit_of (48 + d) = d.
Proof.
  intros H. unfold conversions.digit_of.
  destruct (Z.leb_spec 48 (48 + d)); destruct (Z.leb_spec (48 + d) 57); cbn [andb]; lia.
Qed.

Lemma unsigned_pattern T x :
  0 < conversions.bits T ->
  conversions.convert (conversions.make_unsigned T) x = x mod 2 ^ conversions.bits T /\
  0 <= x mod 2 ^ conversions.bits T < 2 ^ conversions.bits T.
Proof.
  intros Hw. split; [reflexivity|]. apply Z.mod_pos_bound. now apply pow2_pos; lia.
Qed.

(** What [to_hex] returns. *)
Lemma to_hex_spec T x uppercase :
  int_type_ok T -> conversions.bits T = 8 * conversions.sizeof T ->
  let u := x mod 2 ^ conversions.bits T in
  let ds := digits_of 16 (Z.to_nat (conversions.sizeof T * 2)) u in
  storage_ok (conversions.sizeof T * 2 + 3) (conversions.to_hex T x uppercase) /\
  content (conversions.to_hex T x uppercase) = [48; 120] ++ map (hex_unit uppercase) (rev ds) /\
  0 <= u < 16 ^ Z.of_nat (Z.to_nat (conversions.sizeof T * 2)).
Proof.
  intros (Hw & Hcap) Hbytes u ds.
  destruct (unsigned_pattern T x Hw) as (Eu & Hu). fold u in Eu, Hu.
  assert (Hs : 0 < conversions.sizeof T) by lia.
  assert (Hpow : 16 ^ (conversions.sizeof T * 2) = 2 ^ conversions.bits T).
  { change 16 with (2 ^ 4). rewrite <- Z.pow_mul_r by lia. f_equal. lia. }
  unfold conversions.to_hex. cbv zeta. rewrite Eu.
  set (Cap := conversions.sizeof T * 2 + 3) in *.
  assert (HC : capacity_ok Cap) by (unfold capacity_ok; subst Cap; lia).
  assert (Hun : 0 <= u < 16 ^ Z.of_nat (Z.to_nat (conversions.sizeof T * 2)))
    by (rewrite Z2Nat.id by lia; lia).
  assert (Huf : 0 <= u < 16 ^ Z.of_nat (S (Z.to_nat (Cap - 1)))).
  { split; [lia|]. eapply Z.lt_le_trans; [apply Hun|].
    apply Z.pow_le_mono_r; subst Cap; lia. }
  destruct (do_while_digits 16 (hex_unit uppercase) (conversions.hex_step uppercase)
              (Z.to_nat (Cap - 1)) ltac:(lia) (hex_step_generic uppercase)
              (@repeat unit_t 0 (Z.to_nat Cap)) u) as (buf' & E & Hl & Hunits).
  - rewrite repeat_length. subst Cap. lia.
  - rewrite repeat_length. rewrite npos_value in Hcap. rewrite modulus_value. subst Cap. lia.
  - exact Huf.
  - rewrite E. cbv beta iota. rewrite Nat2Z.id.
    rewrite (digits_of_enough 16 _ (Z.to_nat (conversions.sizeof T * 2)) u) in * by (auto; lia).
    fold ds in Hunits |- *.
    destruct (digits_of_value 16 (Z.to_nat (conversions.sizeof T * 2)) u ltac:(lia) Hun)
      as (_ & _ & _ & Hn). fold ds in Hn.
    assert (Hfit : 2 + Z.of_nat (length ds) <= Cap).
    { destruct (Z.eq_dec u 0) as [E0|E0].
      - subst ds. unfold digits_of. rewrite E0. cbn. subst Cap. lia.
      - assert (length ds <= Z.to_nat (conversions.sizeof T * 2))%nat by (apply Hn; lia).
        subst Cap. lia. }
    destruct (prefixed_unwind Cap 120 buf' (hex_unit uppercase) ds HC ltac:(lia) Hfit Hunits)
      as (U1 & U2).
    split; [exact U1|]. split; [exact U2 | exact Hun].
Qed.

(** What [to_binary] returns. *)
Lemma to_binary_spec T x :
  0 < conversions.bits T -> conversions.bits T = 8 * conversions.sizeof T ->
  capacity_ok (conversions.sizeof T * 8 + 3) ->
  let u := x mod 2 ^ conversions.bits T in
  let ds := digits_of 2 (Z.to_nat (conversions.bits T)) u in
  storage_ok (conversions.sizeof T * 8 + 3) (conversions.to_binary T x) /\
  content (conversions.to_binary T x) = [48; 98] ++ map (fun d => 48 + d) (rev ds) /\
  0 <= u < 2 ^ Z.of_nat (Z.to_nat (conversions.bits T)).
Proof.
  intros Hw Hbytes HC u ds.
  destruct (unsigned_pattern T x Hw) as (Eu & Hu). fold u in Eu, Hu.
  assert (Hs : 0 < conversions.sizeof T) by lia.
  unfold conversions.to_binary. cbv zeta. rewrite Eu.
  set (Cap := conversions.sizeof T * 8 + 3) in *.
  assert (Hun : 0 <= u < 2 ^ Z.of_nat (Z.to_nat (conversions.bits T)))
    by (rewrite Z2Nat.id by lia; lia).
  assert (Huf : 0 <= u < 2 ^ Z.of_nat (S (Z.to_nat (Cap - 1)))).
  { split; [lia|]. eapply Z.lt_le_trans; [apply Hun|].
    apply Z.pow_le_mono_r; subst Cap; lia. }
  destruct (do_while_digits 2 (fun d => 48 + d) conversions.binary_step
              (Z.to_nat (Cap - 1)) ltac:(lia) binary_step_generic
              (@repeat unit_t 0 (Z.to_nat Cap)) u) as (buf' & E & Hl & Hunits).
  - rewrite repeat_length. subst Cap. lia.
  - rewrite repeat_length. unfold capacity_ok in HC. rewrite npos_value in HC.
    rewrite modulus_value. lia.
  - exact Huf.
  - rewrite E. cbv beta iota. rewrite Nat2Z.id.
    rewrite (digits_of_enough 2 _ (Z.to_nat (conversions.bits T)) u) in * by (auto; lia).
    fold ds in Hunits |- *.
    destruct (digits_of_value 2 (Z.to_nat (conversions.bits T)) u ltac:(lia) Hun)
      as (_ & _ & _ & Hn). fold ds in Hn.
    assert (Hfit : 2 + Z.of_nat (length ds) <= Cap).
    { destruct (Z.eq_dec u 0) as [E0|E0].
      - subst ds. unfold digits_of. rewrite E0. cbn. subst Cap. lia.
      - assert (length ds <= Z.to_nat (conversions.bits T))%nat by (apply Hn; lia).
        subst Cap. lia. }
    destruct (prefixed_unwind Cap 98 buf' (fun d => 48 + d) ds HC ltac:(lia) Hfit Hunits)
      as (U1 & U2).
    split; [exact U1|]. split; [exact U2 | exact Hun].
Qed.

Lemma prefixed_length Cap (r : fixed_string) p (l : list unit_t) (ds : list Z) n :
  storage_ok Cap r -> content r = [48; p] ++ l -> length l = length ds ->
  ds <> [] -> (ds = [0] \/ (length ds <= n)%nat) -> (0 < n)%nat ->
  2 < len_ r <= 2 + Z.of_nat n.
Proof.
  intros Hr Hc Hl Hne Hn Hpos. pose proof (storage_content_length _ _ Hr) as L.
  rewrite Hc in L. cbn [app length] in L. rewrite Hl in L.
  destruct ds as [|d ds]; [contradiction|].
  destruct Hn as [E|Hn]; [rewrite E in L; cbn [length] in L; lia|].
  cbn [length] in *. lia.
Qed.

Lemma digits_of_short base n u :
  digits_of base n u = [0] \/ (length (digits_of base n u) <= n)%nat.
Proof.
  unfold digits_of. destruct (u =? 0); [now left | right; apply digits_le_length].
Qed.

(** X28.  [to_hex(value, uppercase)] writes ["0x"] and then the
    hexadecimal digits of the two's complement pattern [value mod 2 ^ bits],
    most significant first, without leading zeros (one ["0"] for zero), in
    the chosen case: a negative value gets no sign.  [parse_int] in base 16
    reads the pattern back from the text behind the prefix, and returns 0 on
    the whole text, where the ['x'] stops it. *)
Theorem to_hex_writes_the_bit_pattern T (x : Z) (uppercase : bool) :
  int_type_ok T -> conversions.bits T = 8 * conversions.sizeof T ->
  let Cap := conversions.sizeof T * 2 + 3 in
  let u := x mod 2 ^ conversions.bits T in
  let r := conversions.to_hex T x uppercase in
  storage_ok Cap r /\
  content r
  = [48; 120]
    ++ map (hex_unit uppercase)
         (rev (digits_of 16 (Z.to_nat (conversions.sizeof T * 2)) u)) /\
  2 < len_ r <= 2 + conversions.sizeof T * 2 /\
  conversions.parse_int (conversions.make_unsigned T) (Fstring.substr Cap r 2 SizeT.npos) 16
  = u /\
  (conversions.representable T x -> 0 <= x ->
   conversions.parse_int T (Fstring.substr Cap r 2 SizeT.npos) 16 = x) /\
  conversions.parse_int T r 16 = 0.
Proof.
  intros HT Hbytes Cap u r. assert (Hw : 0 < conversions.bits T) by apply HT.
  destruct (to_hex_spec T x uppercase HT Hbytes) as (S1 & C1 & Hu).
  fold Cap in S1. fold r in S1, C1. fold u in C1, Hu.
  set (n := Z.to_nat (conversions.sizeof T * 2)) in *.
  destruct (digits_of_value 16 n u ltac:(lia) Hu) as (Hval & Hds & Hne & _).
  assert (HC : capacity_ok Cap).
  { destruct HT as (_ & Hcap). unfold capacity_ok. subst Cap. lia. }
  assert (Hpow : 16 ^ Z.of_nat n = 2 ^ conversions.bits T).
  { subst n. rewrite Z2Nat.id by lia. change 16 with (2 ^ 4).
    rewrite <- Z.pow_mul_r by lia. f_equal. lia. }
  split; [exact S1|]. split; [exact C1|]. split; [|split; [|split]].
  - replace (conversions.sizeof T * 2) with (Z.of_nat n) by (subst n; lia).
    apply (prefixed_length Cap r 120 _ (digits_of 16 n u) n S1 C1).
    + now rewrite length_map, length_rev.
    + exact Hne.
    + apply digits_of_short.
    + subst n. lia.
  - destruct (prefixed_parse (conversions.make_unsigned T) Cap 16 (hex_unit uppercase) 120 r
                _ u Hw HC S1 C1 ltac:(lia) Hds (digit_of_hex_unit uppercase) Hval Hne)
      as (_ & P & _); [vm_compute; congruence|].
    rewrite P. unfold conversions.convert, conversions.make_unsigned.
    cbn [conversions.is_signed conversions.bits]. apply Z.mod_small. lia.
  - intros Hx Hpos.
    destruct (prefixed_parse T Cap 16 (hex_unit uppercase) 120 r
                _ u Hw HC S1 C1 ltac:(lia) Hds (digit_of_hex_unit uppercase) Hval Hne)
      as (_ & P & _); [vm_compute; congruence|].
    rewrite P.
    assert (Eux : u = x).
    { subst u. apply Z.mod_small.
      unfold conversions.representable, conversions.max_value in Hx.
      pose proof (pow2_double _ Hw). pose proof (pow2_pos (conversions.bits T - 1)).
      destruct (conversions.is_signed T); lia. }
    rewrite Eux. now apply convert_representable.
  - destruct (prefixed_parse T Cap 16 (hex_unit uppercase) 120 r
                _ u Hw HC S1 C1 ltac:(lia) Hds (digit_of_hex_unit uppercase) Hval Hne)
      as (_ & _ & P); [vm_compute; congruence | exact P].
Qed.

Lemma to_hex_writes_the_bit_pattern_witness :
  content (conversions.to_hex conversions.int_t (-1) true)
  = [48; 120; 70; 70; 70; 70; 70; 70; 70; 70] /\
  conversions.parse_int (conversions.make_unsigned conversions.int_t)
    (Fstring.substr 11 (conversions.to_hex conversions.int_t (-1) true) 2 SizeT.npos) 16
  = 4294967295.
Proof.
  assert (HT : int_type_ok conversions.int_t)
    by (unfold int_type_ok; rewrite npos_value; simpl; lia).
  assert (Hb : conversions.bits conversions.int_t = 8 * conversions.sizeof conversions.int_t)
    by reflexivity.
  destruct (to_hex_writes_the_bit_pattern conversions.int_t (-1) true HT Hb)
    as (_ & A & _ & B & _).
  split; [exact A | exact B].
Defined.

(** X29.  [to_binary(value)] writes ["0b"] and then the binary
    digits of the two's complement pattern [value mod 2 ^ bits], most
    significant first, without leading zeros (one ["0"] for zero).
    [parse_int] in base 2 reads the pattern back from the text behind the
    prefix, and returns 0 on the whole text, where the ['b'] stops it. *)
Theorem to_binary_writes_the_bit_pattern T (x : Z) :
  0 < conversions.bits T -> conversions.bits T = 8 * conversions.sizeof T ->
  capacity_ok (conversions.sizeof T * 8 + 3) ->
  let Cap := conversions.sizeof T * 8 + 3 in
  let u := x mod 2 ^ conversions.bits T in
  let r := conversions.to_binary T x in
  storage_ok Cap r /\
  content r
  = [48; 98]
    ++ map (fun d => 48 + d) (rev (digits_of 2 (Z.to_nat (conversions.bits T)) u)) /\
  2 < len_ r <= 2 + conversions.bits T /\
  conversions.parse_int (conversions.make_unsigned T) (Fstring.substr Cap r 2 SizeT.npos) 2
  = u /\
  (conversions.representable T x -> 0 <= x ->
   conversions.parse_int T (Fstring.substr Cap r 2 SizeT.npos) 2 = x) /\
  conversions.parse_int T r 2 = 0.
Proof.
  intros Hw Hbytes HC Cap u r.
  destruct (to_binary_spec T x Hw Hbytes HC) as (S1 & C1 & Hu).
  fold Cap in S1. fold r in S1, C1. fold u in C1, Hu.
  set (n := Z.to_nat (conversions.bits T)) in *.
  destruct (digits_of_value 2 n u ltac:(lia) Hu) as (Hval & Hds & Hne & _).
  assert (Hpow : 2 ^ Z.of_nat n = 2 ^ conversions.bits T)
    by (subst n; rewrite Z2Nat.id by lia; reflexivity).
  split; [exact S1|]. split; [exact C1|]. split; [|split; [|split]].
  - replace (conversions.bits T) with (Z.of_nat n) by (subst n; lia).
    apply (prefixed_length Cap r 98 _ (digits_of 2 n u) n S1 C1).
    + now rewrite length_map, length_rev.
    + exact Hne.
    + apply digits_of_short.
    + subst n. lia.
  - destruct (prefixed_parse (conversions.make_unsigned T) Cap 2 (fun d => 48 + d) 98 r
                _ u Hw HC S1 C1 ltac:(lia) Hds digit_of_binary Hval Hne)
      as (_ & P & _); [vm_compute; congruence|].
    rewrite P. unfold conversions.convert, conversions.make_unsigned.
    cbn [conversions.is_signed conversions.bits]. apply Z.mod_small. lia.
  - intros Hx Hpos.
    destruct (prefixed_parse T Cap 2 (fun d => 48 + d) 98 r
                _ u Hw HC S1 C1 ltac:(lia) Hds digit_of_binary Hval Hne)
      as (_ & P & _); [vm_compute; congruence|].
    rewrite P.
    assert (Eux : u = x).
    { subst u. apply Z.mod_small.
      unfold conversions.representable, conversions.max_value in Hx.
      pose proof (pow2_double _ Hw). pose proof (pow2_pos (conversions.bits T - 1)).
      destruct (conversions.is_signed T); lia. }
    rewrite Eux. now apply convert_representable.
  - destruct (prefixed_parse T Cap 2 (fun d => 48 + d) 98 r
                _ u Hw HC S1 C1 ltac:(lia) Hds digit_of_binary Hval Hne)
      as (_ & _ & P); [vm_compute; congruence | exact P].
Qed.

Lemma to_binary_writes_the_bit_pattern_witness :
  let T := conversions.mk_int 8 false in
  content (conversions.to_binary T 5) = [48; 98; 49; 48; 49] /\
  conversions.parse_int T (Fstring.substr 11 (conversions.to_binary T 5) 2 SizeT.npos) 2 = 5.
Proof.
  assert (Hw : 0 < conversions.bits (conversions.mk_int 8 false)) by (simpl; lia).
  assert (Hb : conversions.bits (conversions.mk_int 8 false)
               = 8 * conversions.sizeof (conversions.mk_int 8 false)) by reflexivity.
  assert (HC : capacity_ok (conversions.sizeof (conversions.mk_int 8 false) * 8 + 3))
    by (unfold capacity_ok; rewrite npos_value; vm_compute; split; congruence).
  destruct (to_binary_writes_the_bit_pattern (conversions.mk_int 8 false) 5 Hw Hb HC)
    as (_ & A & _ & B & _).
  cbv zeta. split; [exact A | exact B].
Defined.

(** [parse_bool] accepts the text [to_fstring(bool)] writes for [true], and
    no other text that [to_fstring(bool)] writes. *)
Lemma parse_bool_inverts_to_fstring_bool (b : bool) :
  conversions.parse_bool (conversions.to_fstring_bool b) = b.
Proof. destruct b; vm_compute; reflexivity. Qed.

(** *** [resize] *)

(** [resize] of constant_string_core.hpp and of fstring_core.hpp: what both
    leave. *)
Lemma resize_spec N (s : fixed_string) count ch :
  capacity_ok N -> storage_ok N s -> 0 <= count ->
  let m := Z.min count N in
  Core.resize N s count ch = Fstring.resize N s count ch /\
  storage_ok N (Fstring.resize N s count ch) /\
  len_ (Fstring.resize N s count ch) = m /\
  content (Fstring.resize N s count ch)
  = firstn (Z.to_nat m) (content s ++ repeat ch (Z.to_nat (m - len_ s))).
Proof.
  intros HN Hs Hc m. assert (Hs' := Hs). destruct Hs' as (Hext & Hlen & Hterm).
  pose proof (storage_content_length N s Hs) as Hcl.
  split; [reflexivity|]. split; [now apply fs_resize_ok|].
  unfold Fstring.resize, Fstring.capacity, fs_detail.fill. rewrite fs_min_spec.
  fold m.
  assert (Hm : 0 <= m <= N) by (subst m; size_lia).
  split; [reflexivity|].
  destruct (Z.ltb_spec (len_ s) m) as [Hgrow|Hshrink].
  - rewrite size_sub_small by size_lia.
    destruct (extend_spec N s (fun _ => ch) (repeat ch (Z.to_nat (m - len_ s))) (m - len_ s))
      as (_ & E); auto; try lia.
    + rewrite repeat_length. lia.
    + intros i Hi. apply get_repeat_ch. lia.
    + cbv zeta in E. replace (len_ s + (m - len_ s)) with m in E by lia.
      rewrite E. symmetry. apply firstn_all2.
      rewrite length_app, repeat_length. unfold unit_t in *. lia.
  - replace (Z.to_nat (m - len_ s)) with O by lia. cbn [repeat]. rewrite app_nil_r.
    apply content_ext; cbn [data_ len_].
    + rewrite length_set. size_lia.
    + rewrite length_firstn. unfold unit_t in *. lia.
    + intros i Hi. rewrite get_set_other by lia.
      rewrite get_firstn by lia. rewrite get_content by lia. reflexivity.
Qed.

(** X30.  [resize(count, ch)], the same in constant_string_core.hpp
    and fstring_core.hpp, leaves a string of length [min(count, capacity)]:
    a shorter length keeps that prefix of the content, a longer one keeps the
    content and adds copies of [ch] behind it.  Growing back to the old
    length after a cut gives the kept prefix followed by fill units, not the
    units that were cut. *)
Theorem resize_cuts_or_fills N (s : fixed_string) (count : Z) (ch : unit_t) :
  capacity_ok N -> storage_ok N s -> 0 <= count ->
  let m := Z.min count N in
  let r := Fstring.resize N s count ch in
  Core.resize N s count ch = r /\
  storage_ok N r /\ len_ r = m /\
  (count <= len_ s -> content r = firstn (Z.to_nat count) (content s)) /\
  (len_ s <= count -> content r = content s ++ repeat ch (Z.to_nat (m - len_ s))) /\
  (count <= len_ s -> forall ch',
     content (Fstring.resize N r (len_ s) ch')
     = firstn (Z.to_nat count) (content s) ++ repeat ch' (Z.to_nat (len_ s - count))).
Proof.
  intros HN Hs Hc m r.
  destruct (resize_spec N s count ch HN Hs Hc) as (E & S1 & L & C). fold m in L, C.
  fold r in E, S1, L, C.
  pose proof (storage_content_length N s Hs) as Hcl.
  assert (Hlen : 0 <= len_ s <= N) by (destruct Hs as (_ & ? & _); assumption).
  split; [exact E|]. split; [exact S1|]. split; [exact L|]. split; [|split].
  - intros Hle. rewrite C. replace m with count by (subst m; lia).
    replace (Z.to_nat (count - len_ s)) with O by lia. cbn [repeat].
    now rewrite app_nil_r.
  - intros Hge. rewrite C. apply firstn_all2.
    rewrite length_app, repeat_length. subst m. unfold unit_t in *. lia.
  - intros Hle ch'.
    assert (Em : m = count) by (subst m; lia).
    destruct (resize_spec N r (len_ s) ch' HN S1 ltac:(lia)) as (_ & _ & _ & C').
    rewrite C', L, Em. replace (Z.min (len_ s) N) with (len_ s) by lia.
    rewrite C, Em. replace (Z.to_nat (count - len_ s)) with O by lia.
    cbn [repeat]. rewrite app_nil_r. apply firstn_all2.
    rewrite length_app, repeat_length, length_firstn. unfold unit_t in *. lia.
Qed.

Lemma resize_cuts_or_fills_witness :
  let s := Fstring.from_array 4 [97; 98; 0] in
  content (Fstring.resize 4 s 9 45) = [97; 98; 45; 45] /\
  content (Fstring.resize 4 s 1 45) = [97].
Proof.
  assert (HN : capacity_ok 4) by (unfold capacity_ok; rewrite npos_value; lia).
  assert (Hs : storage_ok 4 (Fstring.from_array 4 [97; 98; 0]))
    by (repeat split; vm_compute; congruence).
  assert (H9 : 0 <= 9) by lia. assert (H1 : 0 <= 1) by lia.
  cbv zeta. split.
  - destruct (resize_cuts_or_fills 4 _ 9 45 HN Hs H9) as (_ & _ & _ & _ & A & _).
    apply A. vm_compute. congruence.
  - destruct (resize_cuts_or_fills 4 _ 1 45 HN Hs H1) as (_ & _ & _ & A & _).
    apply A. vm_compute. congruence.
Defined.
